(** * BusTub storage core: LRU-K replacer, buffer pool, extendible hash
      table and B+ tree, embedded from the C++ sources.

    Conventions of the embedding.
    - [size_t] values are integers in [0, 2^64); every increment, decrement
      and subtraction of the source is written with its wrap-around
      ([to_size_t]).  [frame_id_t] and [page_id_t] are 32-bit signed
      integers, carried as [Z].
    - A C++ exception is an outcome of its own ([Throw]); the state it is
      paired with is the state at the point of the [throw].
    - [std::unordered_map] is an association list with distinct keys; the
      list order is the iteration order, and nothing is assumed about it. *)

From Stdlib Require Import ZArith List Lia Bool.
From stdpp Require Import base option list gmap.

Local Open Scope Z_scope.

(** ** Machine integers *)

Definition SIZE_MAX : Z := 2 ^ 64 - 1.

(** [static_cast<size_t>(x)], and the result of any [size_t] arithmetic. *)
Definition to_size_t (x : Z) : Z := x mod 2 ^ 64.

(** The values of [frame_id_t] / [page_id_t] ([int32_t]). *)
Definition int32 (x : Z) : Prop := - 2 ^ 31 <= x < 2 ^ 31.

Definition INVALID_PAGE_ID : Z := -1.

(** What a call does: it returns, or it throws. *)
Inductive outcome (A S : Type) : Type :=
| Return (a : A) (s : S)
| Throw (s : S).
Arguments Return {A S} a s.
Arguments Throw {A S} s.

(** ** LRU-K replacer (buffer/lru_k_replacer.cpp, the version that throws) *)

Module LRUKReplacer.

(** Modelled from the spec: the class declaration (lru_k_replacer.h of this
    version) is not among the sources.  A tracked frame carries its access
    history (oldest first, at most K kept), its evictable flag and the
    timestamp [earliest_timestamp] that [RecordAccess] maintains. *)
Record FrameInfo : Type := mkFrameInfo {
  history : list Z;
  is_evictable : bool;
  earliest_timestamp : Z
}.

(** What [frame_table_[frame_id]] value-initialises for a new key. *)
Definition FrameInfo_default : FrameInfo :=
  {| history := []; is_evictable := false; earliest_timestamp := 0 |}.

Record t : Type := mkReplacer {
  replacer_size_ : Z;
  k_ : Z;
  current_timestamp_ : Z;
  curr_size_ : Z;
  frame_table_ : list (Z * FrameInfo)
}.

(** [LRUKReplacer::LRUKReplacer(num_frames, k)]. *)
Definition LRUKReplacer (num_frames k : Z) : t :=
  {| replacer_size_ := num_frames; k_ := k; current_timestamp_ := 0;
     curr_size_ := 0; frame_table_ := [] |}.

(** [frame_table_.find(frame_id)]. *)
Fixpoint ft_find (frame_id : Z) (tbl : list (Z * FrameInfo)) : option FrameInfo :=
  match tbl with
  | [] => None
  | (fid, info) :: rest =>
      if fid =? frame_id then Some info else ft_find frame_id rest
  end.

(** [frame_table_.erase(frame_id)]. *)
Fixpoint ft_erase (frame_id : Z) (tbl : list (Z * FrameInfo)) : list (Z * FrameInfo) :=
  match tbl with
  | [] => []
  | (fid, info) :: rest =>
      if fid =? frame_id then rest else (fid, info) :: ft_erase frame_id rest
  end.

(** Assignment through a reference into the table: the entry of
    [frame_id] is overwritten in place, a new key is added (at the end of
    the iteration order here). *)
Fixpoint ft_set (frame_id : Z) (v : FrameInfo) (tbl : list (Z * FrameInfo))
  : list (Z * FrameInfo) :=
  match tbl with
  | [] => [(frame_id, v)]
  | (fid, info) :: rest =>
      if fid =? frame_id then (fid, v) :: rest
      else (fid, info) :: ft_set frame_id v rest
  end.

(** [history.front()]; the history of a tracked frame is never empty
    (see [inv]). *)
Definition front (h : list Z) : Z := hd 0 h.

(** [history.size()] as a [size_t]. *)
Definition hsize (h : list Z) : Z := Z.of_nat (length h).

(** [LRUKReplacer::CalculateBackwardKDistance]. *)
Definition CalculateBackwardKDistance (s : t) (frame_info : FrameInfo) : Z :=
  if hsize (history frame_info) <? k_ s then SIZE_MAX
  else to_size_t (current_timestamp_ s - front (history frame_info)).

(** One turn of the loop of [Evict] over [frame_table_]; the accumulator is
    [(candidate, candidate_distance, candidate_earliest)]. *)
Definition Evict_body (s : t) (acc : Z * Z * Z) (entry : Z * FrameInfo) : Z * Z * Z :=
  let '(candidate, candidate_distance, candidate_earliest) := acc in
  let '(fid, frame_info) := entry in
  if negb (is_evictable frame_info) then acc
  else
    let distance := CalculateBackwardKDistance s frame_info in
    let earliest := earliest_timestamp frame_info in
    if candidate =? -1 then (fid, distance, earliest)
    else if distance >? candidate_distance then (fid, distance, earliest)
    else if distance =? candidate_distance then
      if distance =? SIZE_MAX then
        if earliest <? candidate_earliest
        then (fid, candidate_distance, earliest)
        else acc
      else acc
    else acc.

Definition Evict_loop (s : t) (tbl : list (Z * FrameInfo)) : Z * Z * Z :=
  fold_left (Evict_body s) tbl (-1, 0, 0).

(** [LRUKReplacer::Evict]: [Some victim] for [true] with [*frame_id]. *)
Definition Evict (s : t) : option Z * t :=
  if curr_size_ s =? 0 then (None, s)
  else
    let '(candidate, _, _) := Evict_loop s (frame_table_ s) in
    if negb (candidate =? -1) then
      (Some candidate,
       {| replacer_size_ := replacer_size_ s; k_ := k_ s;
          current_timestamp_ := current_timestamp_ s;
          curr_size_ := to_size_t (curr_size_ s - 1);
          frame_table_ := ft_erase candidate (frame_table_ s) |})
    else (None, s).

(** [LRUKReplacer::RecordAccess]. *)
Definition RecordAccess (s : t) (frame_id : Z) : outcome unit t :=
  if to_size_t frame_id >? replacer_size_ s then Throw s
  else
    let ts := to_size_t (current_timestamp_ s + 1) in
    let frame_info :=
      match ft_find frame_id (frame_table_ s) with
      | Some i => i
      | None => FrameInfo_default
      end in
    let pushed := history frame_info ++ [ts] in
    let kept := if hsize pushed >? k_ s then tail pushed else pushed in
    let earliest :=
      if hsize kept =? 1 then ts else earliest_timestamp frame_info in
    Return tt
      {| replacer_size_ := replacer_size_ s; k_ := k_ s;
         current_timestamp_ := ts;
         curr_size_ := curr_size_ s;
         frame_table_ :=
           ft_set frame_id
             {| history := kept; is_evictable := is_evictable frame_info;
                earliest_timestamp := earliest |}
             (frame_table_ s) |}.

(** [LRUKReplacer::SetEvictable]. *)
Definition SetEvictable (s : t) (frame_id : Z) (set_evictable : bool) : outcome unit t :=
  if to_size_t frame_id >? replacer_size_ s then Throw s
  else
    match ft_find frame_id (frame_table_ s) with
    | None => Return tt s
    | Some frame_info =>
        if eqb (is_evictable frame_info) set_evictable then Return tt s
        else
          Return tt
            {| replacer_size_ := replacer_size_ s; k_ := k_ s;
               current_timestamp_ := current_timestamp_ s;
               curr_size_ :=
                 if set_evictable then to_size_t (curr_size_ s + 1)
                 else to_size_t (curr_size_ s - 1);
               frame_table_ :=
                 ft_set frame_id
                   {| history := history frame_info;
                      is_evictable := set_evictable;
                      earliest_timestamp := earliest_timestamp frame_info |}
                   (frame_table_ s) |}
    end.

(** [LRUKReplacer::Remove]: no check of the frame id in this version. *)
Definition Remove (s : t) (frame_id : Z) : outcome unit t :=
  match ft_find frame_id (frame_table_ s) with
  | None => Return tt s
  | Some frame_info =>
      if negb (is_evictable frame_info) then Throw s
      else
        Return tt
          {| replacer_size_ := replacer_size_ s; k_ := k_ s;
             current_timestamp_ := current_timestamp_ s;
             curr_size_ := to_size_t (curr_size_ s - 1);
             frame_table_ := ft_erase frame_id (frame_table_ s) |}
  end.

(** [LRUKReplacer::Size]. *)
Definition Size (s : t) : Z := curr_size_ s.

(** *** The states the replacer can be in *)

(** One call of the public interface that returns, or a rehash of the
    table (any reordering of the iteration order).  A call that throws
    leaves the replacer as it was.  The logical clock is a [size_t]: the
    accesses before it would wrap are the ones considered. *)
Inductive step : t -> t -> Prop :=
| step_RecordAccess s frame_id s' :
    int32 frame_id ->
    current_timestamp_ s < SIZE_MAX ->
    RecordAccess s frame_id = Return tt s' ->
    step s s'
| step_SetEvictable s frame_id b s' :
    SetEvictable s frame_id b = Return tt s' ->
    step s s'
| step_Remove s frame_id s' :
    Remove s frame_id = Return tt s' ->
    step s s'
| step_Evict s :
    step s (snd (Evict s))
| step_rehash s tbl :
    Permutation (frame_table_ s) tbl ->
    step s {| replacer_size_ := replacer_size_ s; k_ := k_ s;
              current_timestamp_ := current_timestamp_ s;
              curr_size_ := curr_size_ s;
              frame_table_ := tbl |}.

Inductive reachable (num_frames k : Z) : t -> Prop :=
| reach_init : reachable num_frames k (LRUKReplacer num_frames k)
| reach_step s s' :
    reachable num_frames k s -> step s s' -> reachable num_frames k s'.

(** The constructor arguments considered: a frame count that a frame id
    can index, and K at least 1. *)
Definition valid_args (num_frames k : Z) : Prop :=
  0 <= num_frames < 2 ^ 31 /\ 1 <= k.

(** *** Backward K-distance, as the policy defines it *)

Inductive kdist : Type :=
| Finite (d : Z)
| Infinite.

Definition kdist_le (a b : kdist) : Prop :=
  match a, b with
  | _, Infinite => True
  | Infinite, Finite _ => False
  | Finite x, Finite y => x <= y
  end.

(** The K-th most recent timestamp of a history (oldest first). *)
Definition kth_recent (k : Z) (h : list Z) : Z :=
  nth (length h - Z.to_nat k) h 0.

(** [now - t_k], or infinity with fewer than K recorded accesses. *)
Definition backward_k_distance (s : t) (info : FrameInfo) : kdist :=
  if hsize (history info) <? k_ s then Infinite
  else Finite (current_timestamp_ s - kth_recent (k_ s) (history info)).

(** The first timestamp of a history. *)
Definition first_timestamp (info : FrameInfo) : Z := hd 0 (history info).

Definition evictable_in (s : t) (f : Z) (info : FrameInfo) : Prop :=
  (f, info) ∈ frame_table_ s /\ is_evictable info = true.

(** The number of tracked frames whose flag is set. *)
Fixpoint count_evictable (tbl : list (Z * FrameInfo)) : Z :=
  match tbl with
  | [] => 0
  | (_, info) :: rest =>
      (if is_evictable info then 1 else 0) + count_evictable rest
  end.

(** What holds of the history of a tracked frame at time [now]. *)
Definition hist_ok (k now : Z) (info : FrameInfo) : Prop :=
  history info <> [] /\
  hsize (history info) <= k /\
  Forall (fun ts => 1 <= ts <= now) (history info) /\
  (hsize (history info) < k -> earliest_timestamp info = front (history info)).

(** The invariant of the reachable states. *)
Record inv (s : t) : Prop := mkInv {
  inv_size : 0 <= replacer_size_ s < 2 ^ 31;
  inv_k : 1 <= k_ s;
  inv_now : 0 <= current_timestamp_ s <= SIZE_MAX;
  inv_nodup : NoDup (frame_table_ s).*1;
  inv_keys : Forall (fun e => 0 <= fst e <= replacer_size_ s) (frame_table_ s);
  inv_count : curr_size_ s = count_evictable (frame_table_ s);
  inv_hist :
    Forall (fun e => hist_ok (k_ s) (current_timestamp_ s) (snd e)) (frame_table_ s)
}.

(** *** The frame table *)

Implicit Types (tbl rest : list (Z * FrameInfo)) (f g h : Z) (i gi hi v : FrameInfo).

Definition flag (info : option FrameInfo) : Z :=
  match info with
  | Some i => if is_evictable i then 1 else 0
  | None => 0
  end.

Lemma ft_find_elem f i tbl : ft_find f tbl = Some i -> (f, i) ∈ tbl.
Proof.
  induction tbl as [|[g gi] rest IH]; simpl; [discriminate|].
  destruct (Z.eqb_spec g f) as [->|Hne].
  - intros [= ->]. left.
  - intros H. right. auto.
Qed.

Lemma ft_find_None f tbl : ft_find f tbl = None <-> f ∉ tbl.*1.
Proof.
  induction tbl as [|[g gi] rest IH]; simpl.
  - split; [intros _; apply not_elem_of_nil | done].
  - rewrite not_elem_of_cons. destruct (Z.eqb_spec g f) as [->|Hne].
    + split; [discriminate | intros [H _]; congruence].
    + rewrite IH. split; [intros H; split; [congruence | done] | intros [_ H]; done].
Qed.

Lemma elem_keys f (i : FrameInfo) tbl : (f, i) ∈ tbl -> f ∈ tbl.*1.
Proof. intros H. change f with (fst (f, i)). by apply list_elem_of_fmap_2. Qed.

Lemma elem_ft_find f i tbl :
  NoDup tbl.*1 -> (f, i) ∈ tbl -> ft_find f tbl = Some i.
Proof.
  induction tbl as [|[g gi] rest IH]; simpl; intros Hnd Hin.
  - by apply elem_of_nil in Hin.
  - apply NoDup_cons in Hnd as [Hg Hnd].
    apply elem_of_cons in Hin as [[= -> ->]|Hin].
    + by rewrite Z.eqb_refl.
    + destruct (Z.eqb_spec g f) as [->|Hne]; [|auto].
      exfalso. apply Hg. by eapply elem_keys.
Qed.

Lemma elem_ft_set g gi f v tbl :
  (g, gi) ∈ ft_set f v tbl -> (g = f /\ gi = v) \/ (g, gi) ∈ tbl.
Proof.
  induction tbl as [|[h hi] rest IH]; simpl.
  - intros H. apply list_elem_of_singleton in H as [= -> ->]. by left.
  - destruct (Z.eqb_spec h f) as [->|Hne]; intros H.
    + apply elem_of_cons in H as [[= -> ->]|H]; [by left|]. right. by right.
    + apply elem_of_cons in H as [[= -> ->]|H]; [right; left|].
      destruct (IH H) as [?|?]; [by left|right; by right].
Qed.

Lemma elem_ft_erase g gi f tbl : (g, gi) ∈ ft_erase f tbl -> (g, gi) ∈ tbl.
Proof.
  induction tbl as [|[h hi] rest IH]; simpl; [done|].
  destruct (Z.eqb_spec h f) as [->|Hne]; intros H.
  - by right.
  - apply elem_of_cons in H as [[= -> ->]|H]; [left | right; auto].
Qed.

Lemma keys_ft_set f v tbl :
  (ft_set f v tbl).*1
  = match ft_find f tbl with Some _ => tbl.*1 | None => tbl.*1 ++ [f] end.
Proof.
  induction tbl as [|[h hi] rest IH]; csimpl; [done|].
  destruct (Z.eqb_spec h f) as [->|Hne]; csimpl; [done|].
  rewrite IH. by destruct (ft_find f rest).
Qed.

Lemma keys_ft_erase_sub f g tbl : g ∈ (ft_erase f tbl).*1 -> g ∈ tbl.*1.
Proof.
  induction tbl as [|[h hi] rest IH]; simpl; [done|].
  destruct (Z.eqb_spec h f) as [->|Hne]; simpl; intros H.
  - by right.
  - apply elem_of_cons in H as [->|H]; [left | right; auto].
Qed.

Lemma NoDup_ft_set f v tbl : NoDup tbl.*1 -> NoDup (ft_set f v tbl).*1.
Proof.
  intros Hnd. rewrite keys_ft_set. destruct (ft_find f tbl) eqn:E; [done|].
  apply NoDup_app. split; [done|]. split.
  - intros x Hx Hx'. apply list_elem_of_singleton in Hx' as ->.
    by apply ft_find_None in E.
  - apply NoDup_singleton.
Qed.

Lemma NoDup_ft_erase f tbl : NoDup tbl.*1 -> NoDup (ft_erase f tbl).*1.
Proof.
  induction tbl as [|[h hi] rest IH]; simpl; [done|].
  intros [Hh Hnd]%NoDup_cons.
  destruct (Z.eqb_spec h f) as [->|Hne]; simpl; [done|].
  apply NoDup_cons. split; [|auto].
  intros H. apply Hh. by eapply keys_ft_erase_sub.
Qed.

Lemma ft_find_erase_same f tbl : NoDup tbl.*1 -> ft_find f (ft_erase f tbl) = None.
Proof.
  induction tbl as [|[h hi] rest IH]; simpl; [done|].
  intros [Hh Hnd]%NoDup_cons.
  destruct (Z.eqb_spec h f) as [->|Hne]; simpl.
  - by apply ft_find_None.
  - destruct (Z.eqb_spec h f); [done|auto].
Qed.

Lemma ft_find_erase_other f g tbl :
  g <> f -> ft_find g (ft_erase f tbl) = ft_find g tbl.
Proof.
  intros Hne. induction tbl as [|[h hi] rest IH]; simpl; [done|].
  destruct (Z.eqb_spec h f) as [->|Hhf]; simpl.
  - destruct (Z.eqb_spec f g); [congruence|done].
  - by rewrite IH.
Qed.

Lemma Forall_ft_set (P : Z * FrameInfo -> Prop) f v tbl :
  P (f, v) -> Forall P tbl -> Forall P (ft_set f v tbl).
Proof.
  intros Hv Hall. apply Forall_forall. intros [g gi] Hin.
  apply elem_ft_set in Hin as [[-> ->]|Hin]; [done|].
  by eapply Forall_forall in Hall.
Qed.

Lemma Forall_ft_erase (P : Z * FrameInfo -> Prop) f tbl :
  Forall P tbl -> Forall P (ft_erase f tbl).
Proof.
  intros Hall. apply Forall_forall. intros [g gi] Hin.
  apply elem_ft_erase in Hin. by eapply Forall_forall in Hall.
Qed.

Lemma count_ft_set f v tbl :
  count_evictable (ft_set f v tbl)
  = count_evictable tbl - flag (ft_find f tbl) + flag (Some v).
Proof.
  induction tbl as [|[h hi] rest IH]; simpl; [lia|].
  destruct (Z.eqb_spec h f) as [->|Hne]; simpl; [lia|].
  rewrite IH. simpl. lia.
Qed.

Lemma count_ft_erase f tbl :
  count_evictable (ft_erase f tbl) = count_evictable tbl - flag (ft_find f tbl).
Proof.
  induction tbl as [|[h hi] rest IH]; simpl; [lia|].
  destruct (Z.eqb_spec h f) as [->|Hne]; simpl; [lia|].
  rewrite IH. lia.
Qed.

Lemma count_evictable_bounds tbl :
  0 <= count_evictable tbl <= Z.of_nat (length tbl).
Proof.
  induction tbl as [|[h hi] rest IH]; simpl length; simpl count_evictable; [lia|].
  destruct (is_evictable hi); lia.
Qed.

Lemma count_evictable_Permutation tbl tbl' :
  Permutation tbl tbl' -> count_evictable tbl = count_evictable tbl'.
Proof.
  induction 1 as [|[? ?] ? ? ? IH|[? ?] [? ?] ?|]; simpl; lia.
Qed.

Lemma count_evictable_zero tbl :
  count_evictable tbl = 0 <-> (forall f i, (f, i) ∈ tbl -> is_evictable i = false).
Proof.
  induction tbl as [|[h hi] rest IH]; simpl.
  - split; [intros _ f i H; by apply elem_of_nil in H | done].
  - pose proof (count_evictable_bounds rest). split.
    + intros H0 f i Hin. destruct (is_evictable hi) eqn:E; [lia|].
      apply elem_of_cons in Hin as [[= -> ->]|Hin]; [done|].
      apply IH in Hin; [done|lia].
    + intros Hall. rewrite (Hall h hi) by left.
      apply IH. intros f i Hin. apply (Hall f i). by right.
Qed.

(** Distinct keys within [0, n] are at most n + 1. *)
Lemma keys_length (n : Z) (tbl : list (Z * FrameInfo)) :
  0 <= n -> NoDup tbl.*1 -> Forall (fun e => 0 <= fst e <= n) tbl ->
  Z.of_nat (length tbl) <= n + 1.
Proof.
  intros Hn Hnd Hall.
  assert (Hsub : tbl.*1 ⊆+ seqZ 0 (n + 1)).
  { apply NoDup_submseteq; [done|]. intros x Hx.
    apply list_elem_of_fmap in Hx as ([g gi] & -> & Hin).
    eapply Forall_forall in Hall; [|done]. simpl in *.
    apply elem_of_seqZ. lia. }
  apply submseteq_length in Hsub.
  rewrite length_fmap, length_seqZ in Hsub. lia.
Qed.

Lemma ft_find_set g f v tbl :
  ft_find g (ft_set f v tbl) = if g =? f then Some v else ft_find g tbl.
Proof.
  induction tbl as [|[h hi] rest IH]; simpl.
  - rewrite (Z.eqb_sym f g). by destruct (g =? f).
  - destruct (Z.eqb_spec h f) as [->|Hhf]; simpl.
    + rewrite (Z.eqb_sym f g). by destruct (g =? f).
    + rewrite IH. destruct (Z.eqb_spec h g) as [->|Hhg]; [|done].
      by destruct (Z.eqb_spec g f).
Qed.

(** *** [size_t] arithmetic *)

Lemma to_size_t_small x : 0 <= x < 2 ^ 64 -> to_size_t x = x.
Proof. intros H. unfold to_size_t. by apply Z.mod_small. Qed.

Lemma to_size_t_neg x : - 2 ^ 64 <= x < 0 -> to_size_t x = x + 2 ^ 64.
Proof.
  intros H. unfold to_size_t. symmetry.
  apply Z.mod_unique with (q := -1); lia.
Qed.

Lemma checked_frame_id (n f : Z) :
  0 <= n < 2 ^ 31 -> int32 f -> (to_size_t f >? n) = false -> 0 <= f <= n.
Proof.
  unfold int32. intros Hn Hf Hc. rewrite Z.gtb_ltb in Hc. apply Z.ltb_ge in Hc.
  destruct (Z.lt_ge_cases f 0) as [Hneg|Hpos].
  - rewrite to_size_t_neg in Hc by lia. lia.
  - rewrite to_size_t_small in Hc by lia. lia.
Qed.

(** *** The loop of [Evict] *)

(** What the accumulator holds after the entries [seen]. *)
Definition best_of (s : t) (seen : list (Z * FrameInfo)) (acc : Z * Z * Z) : Prop :=
  let '(c, cd, ce) := acc in
  (c = -1 /\ forall f i, (f, i) ∈ seen -> is_evictable i = false) \/
  (c <> -1 /\ exists ci,
     (c, ci) ∈ seen /\ is_evictable ci = true /\
     cd = CalculateBackwardKDistance s ci /\
     ce = earliest_timestamp ci /\
     (forall g gi, (g, gi) ∈ seen -> is_evictable gi = true ->
        CalculateBackwardKDistance s gi <= cd) /\
     (cd = SIZE_MAX ->
      forall g gi, (g, gi) ∈ seen -> is_evictable gi = true ->
        CalculateBackwardKDistance s gi = SIZE_MAX ->
        ce <= earliest_timestamp gi)).

Lemma Evict_body_best s seen acc (e : Z * FrameInfo) :
  fst e <> -1 -> best_of s seen acc -> best_of s (seen ++ [e]) (Evict_body s acc e).
Proof.
  destruct acc as [[c cd] ce], e as [fid info]. simpl fst. intros Hfid Hbest.
  unfold Evict_body. destruct (is_evictable info) eqn:Hev; simpl negb; cbv iota.
  - (* an evictable entry *)
    set (d := CalculateBackwardKDistance s info).
    destruct Hbest as [[-> Hnone]|[Hc (ci & Hci & Hciev & -> & -> & Hmax & Htie)]].
    + (* first candidate *)
      simpl. right. split; [done|]. exists info. split; [|split; [done|]].
      { apply elem_of_app. right. left. }
      split; [done|]. split; [done|]. split.
      * intros g gi [Hin|Hin%list_elem_of_singleton]%elem_of_app Hg.
        -- rewrite (Hnone g gi Hin) in Hg. done.
        -- injection Hin as -> ->. fold d. lia.
      * intros _ g gi [Hin|Hin%list_elem_of_singleton]%elem_of_app Hg.
        -- rewrite (Hnone g gi Hin) in Hg. done.
        -- injection Hin as -> ->. lia.
    + destruct (Z.eqb_spec c (-1)) as [?|_]; [done|].
      set (cd := CalculateBackwardKDistance s ci) in *.
      destruct (Z.gtb_spec d cd) as [Hgt|Hle].
      * (* strictly larger distance *)
        right. split; [done|]. exists info. split; [|split; [done|]].
        { apply elem_of_app. right. left. }
        split; [done|]. split; [done|]. split.
        -- intros g gi [Hin|Hin%list_elem_of_singleton]%elem_of_app Hg.
           ++ specialize (Hmax g gi Hin Hg). fold d. lia.
           ++ injection Hin as -> ->. fold d. lia.
        -- intros Hd g gi [Hin|Hin%list_elem_of_singleton]%elem_of_app Hg Hgd.
           ++ specialize (Hmax g gi Hin Hg). fold d in Hd. lia.
           ++ injection Hin as -> ->. lia.
      * destruct (Z.eqb_spec d cd) as [Heq|Hne].
        -- destruct (Z.eqb_spec d SIZE_MAX) as [HdM|HdM].
           ++ destruct (Z.ltb_spec (earliest_timestamp info) (earliest_timestamp ci))
                as [Hlt|Hge].
              ** (* tie at the largest value, earlier timestamp *)
                 right. split; [done|]. exists info. split; [|split; [done|]].
                 { apply elem_of_app. right. left. }
                 split; [fold d; lia|]. split; [done|]. split.
                 --- intros g gi [Hin|Hin%list_elem_of_singleton]%elem_of_app Hg.
                     +++ by apply (Hmax g gi).
                     +++ injection Hin as -> ->. fold d. lia.
                 --- intros HcM g gi [Hin|Hin%list_elem_of_singleton]%elem_of_app Hg Hgd.
                     +++ specialize (Htie HcM g gi Hin Hg Hgd). lia.
                     +++ injection Hin as -> ->. lia.
              ** right. split; [done|]. exists ci. split; [|split; [done|]].
                 { apply elem_of_app. by left. }
                 split; [done|]. split; [done|]. split.
                 --- intros g gi [Hin|Hin%list_elem_of_singleton]%elem_of_app Hg.
                     +++ by apply (Hmax g gi).
                     +++ injection Hin as -> ->. fold d. lia.
                 --- intros HcM g gi [Hin|Hin%list_elem_of_singleton]%elem_of_app Hg Hgd.
                     +++ by apply (Htie HcM g gi).
                     +++ injection Hin as -> ->. lia.
           ++ right. split; [done|]. exists ci. split; [|split; [done|]].
              { apply elem_of_app. by left. }
              split; [done|]. split; [done|]. split.
              ** intros g gi [Hin|Hin%list_elem_of_singleton]%elem_of_app Hg.
                 --- by apply (Hmax g gi).
                 --- injection Hin as -> ->. fold d. lia.
              ** intros HcM g gi [Hin|Hin%list_elem_of_singleton]%elem_of_app Hg Hgd.
                 --- by apply (Htie HcM g gi).
                 --- injection Hin as -> ->. fold d in Hgd. lia.
        -- right. split; [done|]. exists ci. split; [|split; [done|]].
           { apply elem_of_app. by left. }
           split; [done|]. split; [done|]. split.
           ++ intros g gi [Hin|Hin%list_elem_of_singleton]%elem_of_app Hg.
              ** by apply (Hmax g gi).
              ** injection Hin as -> ->. fold d. lia.
           ++ intros HcM g gi [Hin|Hin%list_elem_of_singleton]%elem_of_app Hg Hgd.
              ** by apply (Htie HcM g gi).
              ** injection Hin as -> ->. fold d in Hgd. lia.
  - (* a frame that is not evictable is skipped *)
    destruct Hbest as [[-> Hnone]|[Hc (ci & Hci & Hciev & -> & -> & Hmax & Htie)]].
    + left. split; [done|].
      intros g gi [Hin|Hin%list_elem_of_singleton]%elem_of_app; [eauto|].
      by injection Hin as -> ->.
    + right. split; [done|]. exists ci. split; [|split; [done|]].
      { apply elem_of_app. by left. }
      split; [done|]. split; [done|]. split.
      * intros g gi [Hin|Hin%list_elem_of_singleton]%elem_of_app Hg; [by apply (Hmax g gi)|].
        injection Hin as -> ->. congruence.
      * intros HcM g gi [Hin|Hin%list_elem_of_singleton]%elem_of_app Hg Hgd;
          [by apply (Htie HcM g gi)|].
        injection Hin as -> ->. congruence.
Qed.

Lemma Evict_fold_best s rest : forall seen acc,
  Forall (fun e => fst e <> -1) rest ->
  best_of s seen acc ->
  best_of s (seen ++ rest) (fold_left (Evict_body s) rest acc).
Proof.
  induction rest as [|e rest IH]; intros seen acc Hkeys Hbest; simpl.
  - by rewrite app_nil_r.
  - apply Forall_cons in Hkeys as [He Hkeys].
    replace (seen ++ e :: rest) with ((seen ++ [e]) ++ rest)
      by (by rewrite <- app_assoc).
    apply IH; [done|]. by apply Evict_body_best.
Qed.

Lemma Evict_loop_best s :
  Forall (fun e => fst e <> -1) (frame_table_ s) ->
  best_of s (frame_table_ s) (Evict_loop s (frame_table_ s)).
Proof.
  intros Hkeys. unfold Evict_loop.
  apply (Evict_fold_best s (frame_table_ s) [] (-1, 0, 0) Hkeys).
  left. split; [done|]. intros f i H. by apply elem_of_nil in H.
Qed.

(** *** What each call does to the table *)

Lemma Evict_Some r c r' :
  Forall (fun e => fst e <> -1) (frame_table_ r) ->
  Evict r = (Some c, r') ->
  (exists ci, (c, ci) ∈ frame_table_ r /\ is_evictable ci = true) /\
  r' = {| replacer_size_ := replacer_size_ r; k_ := k_ r;
          current_timestamp_ := current_timestamp_ r;
          curr_size_ := to_size_t (curr_size_ r - 1);
          frame_table_ := ft_erase c (frame_table_ r) |}.
Proof.
  intros Hkeys. unfold Evict. destruct (curr_size_ r =? 0); [done|].
  pose proof (Evict_loop_best r Hkeys) as Hbest.
  destruct (Evict_loop r (frame_table_ r)) as [[c' cd] ce].
  destruct (Z.eqb_spec c' (-1)) as [->|Hc]; simpl; [done|].
  intros [= <- <-]. split; [|done].
  destruct Hbest as [[? _]|[_ (ci & Hci & Hev & _)]]; [done|]. by exists ci.
Qed.

Lemma Evict_None r r' : Evict r = (None, r') -> r' = r.
Proof.
  unfold Evict. destruct (curr_size_ r =? 0); [by intros [= <-]|].
  destruct (Evict_loop r (frame_table_ r)) as [[c' cd] ce].
  destruct (negb (c' =? -1)); [done|by intros [= <-]].
Qed.

Lemma RecordAccess_Return r f r' :
  RecordAccess r f = Return tt r' ->
  replacer_size_ r' = replacer_size_ r /\
  exists v, frame_table_ r' = ft_set f v (frame_table_ r).
Proof.
  unfold RecordAccess. destruct (to_size_t f >? replacer_size_ r); [done|].
  intros [= <-]. simpl. split; [done|]. by eexists.
Qed.

Lemma RecordAccess_Throw r f r' : RecordAccess r f = Throw r' -> r' = r.
Proof.
  unfold RecordAccess. destruct (to_size_t f >? replacer_size_ r); [|done].
  by intros [= <-].
Qed.

Lemma frame_id_checked r f :
  0 <= f <= replacer_size_ r -> (to_size_t f >? replacer_size_ r) = false.
Proof.
  intros Hf. rewrite Z.gtb_ltb. apply Z.ltb_ge.
  unfold to_size_t. pose proof (Z.mod_le f (2 ^ 64)). lia.
Qed.

Lemma SetEvictable_Return r f b r' :
  SetEvictable r f b = Return tt r' ->
  replacer_size_ r' = replacer_size_ r /\
  (r' = r \/
   exists fi, ft_find f (frame_table_ r) = Some fi /\
     frame_table_ r' =
       ft_set f {| history := history fi; is_evictable := b;
                   earliest_timestamp := earliest_timestamp fi |} (frame_table_ r)).
Proof.
  unfold SetEvictable. destruct (to_size_t f >? replacer_size_ r); [done|].
  destruct (ft_find f (frame_table_ r)) as [fi|]; [|intros [= <-]; auto].
  destruct (eqb (is_evictable fi) b); [intros [= <-]; auto|].
  intros [= <-]. simpl. split; [done|]. right. by exists fi.
Qed.

Lemma SetEvictable_Throw r f b r' : SetEvictable r f b = Throw r' -> r' = r.
Proof.
  unfold SetEvictable. destruct (to_size_t f >? replacer_size_ r); [by intros [= <-]|].
  destruct (ft_find f (frame_table_ r)) as [fi|]; [|done].
  by destruct (eqb (is_evictable fi) b).
Qed.

Lemma RecordAccess_Throw_checked r f r' :
  RecordAccess r f = Throw r' -> (to_size_t f >? replacer_size_ r) = true.
Proof.
  unfold RecordAccess. by destruct (to_size_t f >? replacer_size_ r).
Qed.

Lemma SetEvictable_Throw_checked r f b r' :
  SetEvictable r f b = Throw r' -> (to_size_t f >? replacer_size_ r) = true.
Proof.
  unfold SetEvictable. destruct (to_size_t f >? replacer_size_ r); [done|].
  destruct (ft_find f (frame_table_ r)) as [fi|]; [|done].
  by destruct (eqb (is_evictable fi) b).
Qed.

Lemma Remove_Return r f r' :
  Remove r f = Return tt r' ->
  replacer_size_ r' = replacer_size_ r /\
  (r' = r \/ frame_table_ r' = ft_erase f (frame_table_ r)).
Proof.
  unfold Remove. destruct (ft_find f (frame_table_ r)) as [fi|]; [|intros [= <-]; auto].
  destruct (negb (is_evictable fi)); [done|]. intros [= <-]. simpl. auto.
Qed.

Lemma Remove_Throw r f r' : Remove r f = Throw r' -> r' = r.
Proof.
  unfold Remove. destruct (ft_find f (frame_table_ r)) as [fi|]; [|done].
  destruct (negb (is_evictable fi)); [by intros [= <-]|done].
Qed.

(** *** The invariant holds in every reachable state *)

Lemma inv_init num_frames k : valid_args num_frames k -> inv (LRUKReplacer num_frames k).
Proof.
  intros [Hn Hk]. split; simpl; try done; try (unfold SIZE_MAX; lia).
  apply NoDup_nil_2.
Qed.

Lemma inv_curr_size s : inv s -> 0 <= curr_size_ s <= 2 ^ 31.
Proof.
  intros [Hn _ _ Hnd Hkeys Hcnt _]. rewrite Hcnt.
  pose proof (count_evictable_bounds (frame_table_ s)).
  pose proof (keys_length (replacer_size_ s) (frame_table_ s) ltac:(lia) Hnd Hkeys).
  lia.
Qed.

Lemma inv_lookup s f i :
  inv s -> ft_find f (frame_table_ s) = Some i ->
  0 <= f <= replacer_size_ s /\ hist_ok (k_ s) (current_timestamp_ s) i.
Proof.
  intros Hinv Hf. apply ft_find_elem in Hf. split.
  - by apply (proj1 (Forall_forall _ _) (inv_keys s Hinv) (f, i)).
  - by apply (proj1 (Forall_forall _ _) (inv_hist s Hinv) (f, i)).
Qed.

Lemma hist_ok_later k now now' i : now <= now' -> hist_ok k now i -> hist_ok k now' i.
Proof.
  intros Hle (Hne & Hlen & Hts & Hear). repeat split; try done.
  eapply Forall_impl; [done|]. simpl. lia.
Qed.

(** The history that [RecordAccess] leaves. *)
Lemma hist_ok_access k now i :
  1 <= k -> 0 <= now < SIZE_MAX ->
  (history i = [] \/ hist_ok k now i) ->
  let pushed := history i ++ [now + 1] in
  let kept := if hsize pushed >? k then tail pushed else pushed in
  hist_ok k (now + 1)
    {| history := kept; is_evictable := is_evictable i;
       earliest_timestamp :=
         if hsize kept =? 1 then now + 1 else earliest_timestamp i |}.
Proof.
  intros Hk Hnow Hold pushed kept.
  assert (Hlen : hsize (history i) <= k).
  { destruct Hold as [->|(_ & H & _)]; [unfold hsize; simpl; lia | done]. }
  assert (Hts : Forall (fun ts => 1 <= ts <= now + 1) (history i)).
  { destruct Hold as [->|(_ & _ & H & _)]; [constructor|].
    eapply Forall_impl; [done|]. simpl. lia. }
  assert (Hpushed : hsize pushed = hsize (history i) + 1).
  { unfold pushed, hsize. rewrite length_app. simpl. lia. }
  assert (Hpts : Forall (fun ts => 1 <= ts <= now + 1) pushed).
  { apply Forall_app. split; [done|]. repeat constructor; lia. }
  unfold hist_ok. simpl. subst kept.
  destruct (Z.gtb_spec (hsize pushed) k) as [Hgt|Hle].
  - (* the oldest timestamp is dropped *)
    assert (Htl : hsize (tail pushed) = hsize pushed - 1).
    { unfold hsize. destruct pushed; simpl in *; [unfold hsize in *; simpl in *|]; lia. }
    split; [|split; [lia|split]].
    + intros E. rewrite E in Htl. unfold hsize in Htl at 1. simpl in Htl. lia.
    + destruct pushed; simpl; [done|]. by apply Forall_cons in Hpts as [_ ?].
    + intros H. lia.
  - split; [|split; [lia|split; [done|]]].
    + unfold pushed. by destruct (history i).
    + intros Hlt. destruct (Z.eqb_spec (hsize pushed) 1) as [H1|H1].
      * assert (history i = []) as E.
        { destruct (history i); [done|]. unfold hsize in *. simpl in *. lia. }
        unfold pushed. by rewrite E.
      * destruct Hold as [E|(Hne & _ & _ & Hear)].
        { exfalso. apply H1. rewrite Hpushed, E. done. }
        rewrite Hear by lia. unfold pushed. by destruct (history i).
Qed.

Lemma inv_RecordAccess s f s' :
  inv s -> int32 f -> current_timestamp_ s < SIZE_MAX ->
  RecordAccess s f = Return tt s' -> inv s'.
Proof.
  intros Hinv Hf Hnow. unfold RecordAccess.
  destruct (to_size_t f >? replacer_size_ s) eqn:Hchk; [discriminate|].
  intros [= <-].
  pose proof (inv_size s Hinv) as Hn. pose proof (inv_now s Hinv) as Hts.
  apply checked_frame_id in Hchk; [|done..].
  assert (Hnext : to_size_t (current_timestamp_ s + 1) = current_timestamp_ s + 1).
  { apply to_size_t_small. unfold SIZE_MAX in *. lia. }
  rewrite !Hnext.
  set (fi := match ft_find f (frame_table_ s) with Some i => i | None => FrameInfo_default end).
  assert (Hfi : history fi = [] \/ hist_ok (k_ s) (current_timestamp_ s) fi).
  { unfold fi. destruct (ft_find f (frame_table_ s)) eqn:E; [right|by left].
    by apply (inv_lookup s f). }
  split; simpl.
  - done.
  - apply Hinv.
  - unfold SIZE_MAX in *. lia.
  - apply NoDup_ft_set, Hinv.
  - apply Forall_ft_set; [done|apply (inv_keys s Hinv)].
  - rewrite count_ft_set. rewrite (inv_count s Hinv).
    unfold fi. destruct (ft_find f (frame_table_ s)); simpl; lia.
  - apply Forall_ft_set.
    + simpl. apply hist_ok_access; [apply Hinv|lia|done].
    + eapply Forall_impl; [apply (inv_hist s Hinv)|]. intros e. simpl.
      apply hist_ok_later. lia.
Qed.

Lemma inv_SetEvictable s f b s' :
  inv s -> SetEvictable s f b = Return tt s' -> inv s'.
Proof.
  intros Hinv. unfold SetEvictable.
  destruct (to_size_t f >? replacer_size_ s); [discriminate|].
  destruct (ft_find f (frame_table_ s)) as [fi|] eqn:Hfind; [|by intros [= <-]].
  destruct (eqb (is_evictable fi) b) eqn:Hsame; [by intros [= <-]|].
  intros [= <-].
  destruct (inv_lookup s f fi Hinv Hfind) as [Hrange Hok].
  pose proof (inv_curr_size s Hinv) as Hcs.
  assert (Hcnt : count_evictable
            (ft_set f {| history := history fi; is_evictable := b;
                         earliest_timestamp := earliest_timestamp fi |}
               (frame_table_ s))
          = curr_size_ s + (if b then 1 else -1)).
  { rewrite count_ft_set, Hfind, (inv_count s Hinv). simpl.
    destruct (is_evictable fi), b; simpl in *; try discriminate; lia. }
  split; simpl; [apply Hinv..| | | |].
  - apply NoDup_ft_set, Hinv.
  - apply Forall_ft_set; [done|apply (inv_keys s Hinv)].
  - rewrite Hcnt.
    pose proof (count_evictable_bounds
      (ft_set f {| history := history fi; is_evictable := b;
                   earliest_timestamp := earliest_timestamp fi |} (frame_table_ s))).
    destruct b; apply to_size_t_small; lia.
  - apply Forall_ft_set; [done|apply (inv_hist s Hinv)].
Qed.

Lemma inv_erase_evictable s f fi :
  inv s -> ft_find f (frame_table_ s) = Some fi -> is_evictable fi = true ->
  inv {| replacer_size_ := replacer_size_ s; k_ := k_ s;
         current_timestamp_ := current_timestamp_ s;
         curr_size_ := to_size_t (curr_size_ s - 1);
         frame_table_ := ft_erase f (frame_table_ s) |}.
Proof.
  intros Hinv Hfind Hev.
  pose proof (inv_curr_size s Hinv) as Hcs.
  assert (Hcnt : count_evictable (ft_erase f (frame_table_ s)) = curr_size_ s - 1).
  { rewrite count_ft_erase, Hfind, (inv_count s Hinv). simpl. rewrite Hev. lia. }
  split; simpl; [apply Hinv..| | | |].
  - apply NoDup_ft_erase, Hinv.
  - apply Forall_ft_erase, (inv_keys s Hinv).
  - rewrite Hcnt.
    pose proof (count_evictable_bounds (ft_erase f (frame_table_ s))).
    apply to_size_t_small. lia.
  - apply Forall_ft_erase, (inv_hist s Hinv).
Qed.

Lemma inv_Remove s f s' : inv s -> Remove s f = Return tt s' -> inv s'.
Proof.
  intros Hinv. unfold Remove.
  destruct (ft_find f (frame_table_ s)) as [fi|] eqn:Hfind; [|by intros [= <-]].
  destruct (is_evictable fi) eqn:Hev; simpl; [|discriminate].
  intros [= <-]. by eapply inv_erase_evictable.
Qed.

Lemma inv_keys_valid s : inv s -> Forall (fun e => fst e <> -1) (frame_table_ s).
Proof. intros Hinv. eapply Forall_impl; [apply (inv_keys s Hinv)|]. simpl. lia. Qed.

(** What [Evict] returns, in terms of the distances it computes. *)
Lemma Evict_cases s :
  inv s ->
  (fst (Evict s) = None /\ snd (Evict s) = s /\
   forall f i, (f, i) ∈ frame_table_ s -> is_evictable i = false) \/
  (exists c ci,
     Evict s =
       (Some c,
        {| replacer_size_ := replacer_size_ s; k_ := k_ s;
           current_timestamp_ := current_timestamp_ s;
           curr_size_ := to_size_t (curr_size_ s - 1);
           frame_table_ := ft_erase c (frame_table_ s) |}) /\
     best_of s (frame_table_ s)
       (c, CalculateBackwardKDistance s ci, earliest_timestamp ci) /\
     (c, ci) ∈ frame_table_ s /\ is_evictable ci = true).
Proof.
  intros Hinv. unfold Evict.
  destruct (Z.eqb_spec (curr_size_ s) 0) as [H0|H0].
  - left. simpl. repeat split.
    apply count_evictable_zero. by rewrite <- (inv_count s Hinv).
  - pose proof (Evict_loop_best s (inv_keys_valid s Hinv)) as Hbest.
    destruct (Evict_loop s (frame_table_ s)) as [[c cd] ce].
    destruct Hbest as [[-> Hnone]|[Hc (ci & Hci & Hciev & -> & -> & Hmax & Htie)]].
    + left. simpl. repeat split. done.
    + right. exists c, ci. destruct (Z.eqb_spec c (-1)) as [?|_]; [done|]. simpl.
      split; [done|]. split; [|done].
      right. split; [done|]. exists ci. repeat split; done.
Qed.

Lemma inv_Evict s : inv s -> inv (snd (Evict s)).
Proof.
  intros Hinv.
  destruct (Evict_cases s Hinv) as [(_ & -> & _)|(c & ci & -> & _ & Hci & Hev)]; [done|].
  simpl. eapply inv_erase_evictable; [done| |done].
  apply elem_ft_find; [apply Hinv|done].
Qed.

Lemma inv_rehash s tbl :
  inv s -> Permutation (frame_table_ s) tbl ->
  inv {| replacer_size_ := replacer_size_ s; k_ := k_ s;
         current_timestamp_ := current_timestamp_ s;
         curr_size_ := curr_size_ s;
         frame_table_ := tbl |}.
Proof.
  intros Hinv Hperm. split; simpl; [apply Hinv..| | | |].
  - rewrite <- Hperm. apply Hinv.
  - rewrite <- Hperm. apply (inv_keys s Hinv).
  - rewrite <- (count_evictable_Permutation _ _ Hperm). apply Hinv.
  - rewrite <- Hperm. apply (inv_hist s Hinv).
Qed.

Lemma step_inv s s' : inv s -> step s s' -> inv s'.
Proof.
  intros Hinv Hstep. destruct Hstep.
  - by eapply inv_RecordAccess.
  - by eapply inv_SetEvictable.
  - by eapply inv_Remove.
  - by apply inv_Evict.
  - by apply inv_rehash.
Qed.

Lemma reachable_inv num_frames k s :
  valid_args num_frames k -> reachable num_frames k s -> inv s.
Proof.
  intros Hargs Hreach. induction Hreach as [|s s' _ IH Hstep].
  - by apply inv_init.
  - by eapply step_inv.
Qed.

(** *** The victim of [Evict] *)

(** The distance that [CalculateBackwardKDistance] returns encodes the
    backward K-distance: [SIZE_MAX] for infinity, the distance itself
    otherwise (it is below [SIZE_MAX]). *)
Lemma CalculateBackwardKDistance_spec s i :
  1 <= k_ s -> 0 <= current_timestamp_ s <= SIZE_MAX ->
  hist_ok (k_ s) (current_timestamp_ s) i ->
  match backward_k_distance s i with
  | Infinite => CalculateBackwardKDistance s i = SIZE_MAX
  | Finite d => CalculateBackwardKDistance s i = d /\ 0 <= d < SIZE_MAX
  end.
Proof.
  intros Hk Hnow (Hne & Hlen & Hts & _).
  unfold backward_k_distance, CalculateBackwardKDistance.
  destruct (Z.ltb_spec (hsize (history i)) (k_ s)) as [Hlt|Hge]; [done|].
  assert (Hkth : kth_recent (k_ s) (history i) = front (history i)).
  { unfold kth_recent, front, hsize in *.
    replace (length (history i) - Z.to_nat (k_ s))%nat with 0%nat by lia.
    by destruct (history i). }
  rewrite Hkth.
  assert (Hfront : 1 <= front (history i) <= current_timestamp_ s).
  { unfold front. destruct (history i) as [|ts h]; [done|].
    by apply Forall_cons in Hts as [? _]. }
  unfold SIZE_MAX in *. split; [apply to_size_t_small|]; lia.
Qed.

Lemma backward_k_distance_Infinite s i :
  backward_k_distance s i = Infinite <-> hsize (history i) < k_ s.
Proof.
  unfold backward_k_distance.
  destruct (Z.ltb_spec (hsize (history i)) (k_ s)); split; (done || lia).
Qed.

(** What C1 says, for the replacer of src/unnamed/part_000 (the project1
    version is [LRUKReplacerP1], below).  In every reachable state of the
    replacer: if some tracked frame is evictable, [Evict] returns true
    with a victim that is evictable, whose
    backward K-distance (now - t_K, infinite with fewer than K accesses) is
    the largest among the evictable frames and, when that distance is
    infinite, whose first timestamp is the earliest among the evictable
    frames at infinite distance; the victim is erased from the table and
    [curr_size_] is one less; and [Evict] returns false exactly when no
    tracked frame is evictable. *)
Theorem Evict_selects_largest_backward_k_distance num_frames k s :
  valid_args num_frames k ->
  reachable num_frames k s ->
  ((exists f i, evictable_in s f i) ->
   exists victim vinfo,
     Evict s =
       (Some victim,
        {| replacer_size_ := replacer_size_ s; k_ := k_ s;
           current_timestamp_ := current_timestamp_ s;
           curr_size_ := curr_size_ s - 1;
           frame_table_ := ft_erase victim (frame_table_ s) |}) /\
     evictable_in s victim vinfo /\
     (forall g gi, evictable_in s g gi ->
        kdist_le (backward_k_distance s gi) (backward_k_distance s vinfo)) /\
     (backward_k_distance s vinfo = Infinite ->
      forall g gi, evictable_in s g gi ->
        backward_k_distance s gi = Infinite ->
        first_timestamp vinfo <= first_timestamp gi) /\
     ft_find victim (frame_table_ (snd (Evict s))) = None /\
     (forall g, g <> victim ->
        ft_find g (frame_table_ (snd (Evict s))) = ft_find g (frame_table_ s)) /\
     Size (snd (Evict s)) = Size s - 1) /\
  (fst (Evict s) = None <-> ~ exists f i, evictable_in s f i).
Proof.
  intros Hargs Hreach. pose proof (reachable_inv _ _ _ Hargs Hreach) as Hinv.
  pose proof (inv_k s Hinv) as Hk. pose proof (inv_now s Hinv) as Hnow.
  assert (Hok : forall g gi, (g, gi) ∈ frame_table_ s ->
                  hist_ok (k_ s) (current_timestamp_ s) gi).
  { intros g gi Hin.
    by apply (proj1 (Forall_forall _ _) (inv_hist s Hinv) (g, gi)). }
  destruct (Evict_cases s Hinv)
    as [(Hnone & Hsame & Hall)|(c & ci & HE & Hbest & Hci & Hev)].
  - (* no frame is evictable *)
    split.
    + intros (f & i & Hin & Hf). rewrite (Hall f i Hin) in Hf. done.
    + split; [|done]. intros _ (f & i & Hin & Hf).
      rewrite (Hall f i Hin) in Hf. done.
  - split; [|rewrite HE; simpl; split; [done|]; intros H; destruct H; by exists c, ci].
    intros _. exists c, ci.
    assert (Hcs : to_size_t (curr_size_ s - 1) = curr_size_ s - 1).
    { pose proof (inv_curr_size s Hinv).
      pose proof (count_evictable_bounds (ft_erase c (frame_table_ s))) as Hb.
      rewrite count_ft_erase, (elem_ft_find c ci _ (inv_nodup s Hinv) Hci) in Hb.
      simpl in Hb. rewrite Hev, <- (inv_count s Hinv) in Hb.
      apply to_size_t_small. lia. }
    rewrite HE. simpl. rewrite Hcs. split; [done|]. split; [done|].
    destruct Hbest as [[-> _]|[Hc (ci' & Hci' & _ & Hcd & Hce & Hmax & Htie)]].
    { pose proof (proj1 (Forall_forall _ _) (inv_keys s Hinv) _ Hci). simpl in *. lia. }
    pose proof (CalculateBackwardKDistance_spec s ci Hk Hnow (Hok c ci Hci)) as Hvd.
    split; [|split; [|split; [|split; [|done]]]].
    + (* the largest distance *)
      intros g gi [Hg Hgev]. specialize (Hmax g gi Hg Hgev).
      pose proof (CalculateBackwardKDistance_spec s gi Hk Hnow (Hok g gi Hg)) as Hgd.
      destruct (backward_k_distance s ci) as [dv|], (backward_k_distance s gi) as [dg|];
        simpl; try done; lia.
    + (* ties at infinity *)
      intros Hvinf g gi [Hg Hgev] Hginf.
      pose proof (CalculateBackwardKDistance_spec s gi Hk Hnow (Hok g gi Hg)) as Hgd.
      rewrite Hvinf in Hvd. rewrite Hginf in Hgd.
      specialize (Htie Hvd g gi Hg Hgev Hgd).
      apply backward_k_distance_Infinite in Hvinf, Hginf.
      destruct (Hok c ci Hci) as (_ & _ & _ & Hcear).
      destruct (Hok g gi Hg) as (_ & _ & _ & Hgear).
      unfold first_timestamp. unfold front in *.
      rewrite <- Hcear, <- Hgear by done. done.
    + by apply ft_find_erase_same, (inv_nodup s Hinv).
    + intros g Hg. by apply ft_find_erase_other.
Qed.

(** A replacer of 7 frames with K = 2: frames 1 and 2 accessed once, frame
    1 again, both evictable. *)
Definition state_of (o : outcome unit t) : t :=
  match o with Return _ s => s | Throw s => s end.

Definition example_accesses : t :=
  let s0 := LRUKReplacer 7 2 in
  let s1 := state_of (RecordAccess s0 1) in
  let s2 := state_of (RecordAccess s1 2) in
  let s3 := state_of (RecordAccess s2 1) in
  let s4 := state_of (SetEvictable s3 1 true) in
  state_of (SetEvictable s4 2 true).

Lemma reachable_RecordAccess num_frames k s f :
  reachable num_frames k s -> int32 f -> current_timestamp_ s < SIZE_MAX ->
  reachable num_frames k (state_of (RecordAccess s f)).
Proof.
  intros Hreach Hf Hnow.
  destruct (RecordAccess s f) as [[] s'|s'] eqn:E; simpl.
  - eapply reach_step; [done|]. by eapply step_RecordAccess.
  - unfold RecordAccess in E.
    destruct (to_size_t f >? replacer_size_ s); [by injection E as <-|done].
Defined.

Lemma reachable_SetEvictable num_frames k s f b :
  reachable num_frames k s ->
  reachable num_frames k (state_of (SetEvictable s f b)).
Proof.
  intros Hreach.
  destruct (SetEvictable s f b) as [[] s'|s'] eqn:E; simpl.
  - eapply reach_step; [done|]. by eapply step_SetEvictable.
  - unfold SetEvictable in E.
    destruct (to_size_t f >? replacer_size_ s); [by injection E as <-|].
    destruct (ft_find f (frame_table_ s)); [|done].
    by destruct (eqb (is_evictable _) b).
Defined.

Lemma example_accesses_reachable : reachable 7 2 example_accesses.
Proof.
  unfold example_accesses.
  repeat first
    [ apply reach_init
    | apply reachable_SetEvictable
    | apply reachable_RecordAccess; [|unfold int32; lia|vm_compute; done] ].
Defined.

Lemma Evict_selects_largest_backward_k_distance_witness :
  valid_args 7 2 /\ reachable 7 2 example_accesses /\
  (exists f i, evictable_in example_accesses f i) /\
  fst (Evict example_accesses) = Some 2.
Proof.
  assert (Hargs : valid_args 7 2) by (unfold valid_args; lia).
  assert (Hev : exists f i, evictable_in example_accesses f i).
  { exists 2, {| history := [2]; is_evictable := true; earliest_timestamp := 2 |}.
    split; [|done]. vm_compute. right. left. }
  split; [done|]. split; [apply example_accesses_reachable|]. split; [done|].
  destruct (Evict_selects_largest_backward_k_distance 7 2 example_accesses
              Hargs example_accesses_reachable) as [Hsel _].
  destruct (Hsel Hev) as (v & vi & HE & _).
  vm_compute. done.
Defined.

(** *** Frame ids that the calls accept *)

(** C9. For a frame id within [0, replacer_size_) that the replacer does
    not track, [SetEvictable] with either flag returns without throwing and
    leaves the whole replacer (table, histories, flags, [curr_size_]) as it
    was. *)
Theorem SetEvictable_untracked_unchanged s frame_id set_evictable :
  0 <= frame_id < replacer_size_ s ->
  ft_find frame_id (frame_table_ s) = None ->
  SetEvictable s frame_id set_evictable = Return tt s /\
  Size (state_of (SetEvictable s frame_id set_evictable)) = Size s.
Proof.
  intros Hrange Hfind. unfold SetEvictable.
  rewrite frame_id_checked by lia. by rewrite Hfind.
Qed.

Lemma SetEvictable_untracked_unchanged_witness :
  0 <= 5 < replacer_size_ example_accesses /\
  ft_find 5 (frame_table_ example_accesses) = None /\
  SetEvictable example_accesses 5 true = Return tt example_accesses /\
  Size (state_of (SetEvictable example_accesses 5 true)) = Size example_accesses.
Proof.
  assert (Hr : 0 <= 5 < replacer_size_ example_accesses) by (vm_compute; split; done).
  assert (Hf : ft_find 5 (frame_table_ example_accesses) = None) by reflexivity.
  split; [done|]. split; [done|].
  exact (SetEvictable_untracked_unchanged example_accesses 5 true Hr Hf).
Defined.

(** C8, on the code.  With 7 frames the valid frame ids are 0..6, and the
    calls accept the frame id 7: [RecordAccess] starts tracking it,
    [SetEvictable] and [Remove] return. *)
Example RecordAccess_accepts_replacer_size :
  RecordAccess (LRUKReplacer 7 2) 7
  = Return tt
      {| replacer_size_ := 7; k_ := 2; current_timestamp_ := 1; curr_size_ := 0;
         frame_table_ :=
           [(7, {| history := [1]; is_evictable := false; earliest_timestamp := 1 |})] |}.
Proof. reflexivity. Qed.

Example SetEvictable_accepts_replacer_size :
  SetEvictable (state_of (RecordAccess (LRUKReplacer 7 2) 7)) 7 true
  = Return tt
      {| replacer_size_ := 7; k_ := 2; current_timestamp_ := 1; curr_size_ := 1;
         frame_table_ :=
           [(7, {| history := [1]; is_evictable := true; earliest_timestamp := 1 |})] |}.
Proof. reflexivity. Qed.

(** [Remove] checks no frame id at all. *)
Example Remove_accepts_any_frame_id :
  Remove (LRUKReplacer 7 2) 7 = Return tt (LRUKReplacer 7 2) /\
  Remove (LRUKReplacer 7 2) 1000 = Return tt (LRUKReplacer 7 2) /\
  Remove (LRUKReplacer 7 2) (-3) = Return tt (LRUKReplacer 7 2).
Proof. repeat split. Qed.

Lemma count_evictable_find f i tbl :
  ft_find f tbl = Some i -> is_evictable i = true -> 1 <= count_evictable tbl.
Proof.
  intros Hf Hi. pose proof (count_ft_erase f tbl) as He.
  pose proof (count_evictable_bounds (ft_erase f tbl)) as Hb.
  rewrite Hf in He. simpl in He. rewrite Hi in He. lia.
Qed.

(** *** The evictable flags, whatever the clock *)

(** The flag of a frame, [None] when the frame is not tracked. *)
Definition flag_of (s : t) (f : Z) : option bool :=
  is_evictable <$> ft_find f (frame_table_ s).

(** The part of the invariant that does not depend on the clock. *)
Record counted (s : t) : Prop := mkCounted {
  counted_size : 0 <= replacer_size_ s < 2 ^ 31;
  counted_nodup : NoDup (frame_table_ s).*1;
  counted_keys : Forall (fun e => 0 <= fst e <= replacer_size_ s) (frame_table_ s);
  counted_count : curr_size_ s = count_evictable (frame_table_ s)
}.

Lemma counted_init num_frames k :
  0 <= num_frames < 2 ^ 31 -> counted (LRUKReplacer num_frames k).
Proof. intros Hn. split; simpl; [done|constructor|constructor|done]. Qed.

Lemma counted_curr_size s : counted s -> 0 <= curr_size_ s <= 2 ^ 31.
Proof.
  intros Hc. rewrite (counted_count s Hc).
  pose proof (count_evictable_bounds (frame_table_ s)).
  pose proof (keys_length (replacer_size_ s) (frame_table_ s)
                ltac:(apply Hc) (counted_nodup s Hc) (counted_keys s Hc)).
  pose proof (counted_size s Hc). lia.
Qed.

Lemma counted_RecordAccess s f s' :
  counted s -> 0 <= f <= replacer_size_ s ->
  RecordAccess s f = Return tt s' ->
  counted s' /\
  forall g, flag_of s' g =
            if g =? f then Some (default false (flag_of s f)) else flag_of s g.
Proof.
  intros Hc Hf. unfold RecordAccess.
  destruct (to_size_t f >? replacer_size_ s); [discriminate|].
  intros [= <-]. split.
  - split; simpl.
    + apply Hc.
    + apply NoDup_ft_set, Hc.
    + apply Forall_ft_set; [done|apply (counted_keys s Hc)].
    + rewrite count_ft_set, (counted_count s Hc).
      destruct (ft_find f (frame_table_ s)); simpl; lia.
  - intros g. unfold flag_of. simpl. rewrite ft_find_set.
    destruct (g =? f); [|done]. by destruct (ft_find f (frame_table_ s)).
Qed.

Lemma counted_SetEvictable s f b s' :
  counted s ->
  SetEvictable s f b = Return tt s' ->
  counted s' /\
  forall g, flag_of s' g =
            if g =? f then (fun _ => b) <$> flag_of s f else flag_of s g.
Proof.
  intros Hc. pose proof (counted_curr_size s Hc) as Hcs. unfold SetEvictable.
  destruct (to_size_t f >? replacer_size_ s); [discriminate|].
  destruct (ft_find f (frame_table_ s)) as [fi|] eqn:Hfind.
  2:{ intros [= <-]. split; [done|]. intros g. unfold flag_of.
      destruct (Z.eqb_spec g f) as [->|]; [by rewrite Hfind|done]. }
  destruct (eqb (is_evictable fi) b) eqn:Hsame.
  { intros [= <-]. split; [done|]. intros g. unfold flag_of.
    destruct (Z.eqb_spec g f) as [->|]; [|done].
    rewrite Hfind. simpl. by apply eqb_prop in Hsame as ->. }
  intros [= <-]. split.
  - assert (Hcnt : count_evictable
              (ft_set f {| history := history fi; is_evictable := b;
                           earliest_timestamp := earliest_timestamp fi |}
                 (frame_table_ s))
            = curr_size_ s + (if b then 1 else -1)).
    { rewrite count_ft_set, Hfind, (counted_count s Hc). simpl.
      destruct (is_evictable fi), b; simpl in *; try discriminate; lia. }
    split; simpl.
    + apply Hc.
    + apply NoDup_ft_set, Hc.
    + apply Forall_ft_set; [|apply (counted_keys s Hc)]. simpl.
      apply ft_find_elem in Hfind.
      pose proof (counted_keys s Hc) as Hk. rewrite Forall_forall in Hk.
      apply (Hk _ Hfind).
    + rewrite Hcnt.
      pose proof (count_evictable_bounds
        (ft_set f {| history := history fi; is_evictable := b;
                     earliest_timestamp := earliest_timestamp fi |} (frame_table_ s))).
      destruct b; apply to_size_t_small; lia.
  - intros g. unfold flag_of. simpl. rewrite ft_find_set.
    destruct (g =? f); [|done]. by rewrite Hfind.
Qed.

Lemma counted_erase s f fi :
  counted s -> ft_find f (frame_table_ s) = Some fi -> is_evictable fi = true ->
  counted {| replacer_size_ := replacer_size_ s; k_ := k_ s;
             current_timestamp_ := current_timestamp_ s;
             curr_size_ := to_size_t (curr_size_ s - 1);
             frame_table_ := ft_erase f (frame_table_ s) |} /\
  forall g,
    is_evictable <$> ft_find g (ft_erase f (frame_table_ s)) =
    if g =? f then None else flag_of s g.
Proof.
  intros Hc Hfind Hev. pose proof (counted_curr_size s Hc) as Hcs.
  pose proof (count_evictable_find f fi _ Hfind Hev) as Hone.
  rewrite <- (counted_count s Hc) in Hone. split.
  - split; simpl.
    + apply Hc.
    + apply NoDup_ft_erase, Hc.
    + apply Forall_ft_erase, (counted_keys s Hc).
    + rewrite count_ft_erase, Hfind, <- (counted_count s Hc). simpl. rewrite Hev.
      apply to_size_t_small. lia.
  - intros g. destruct (Z.eqb_spec g f) as [->|Hne].
    + by rewrite ft_find_erase_same by apply Hc.
    + by rewrite ft_find_erase_other.
Qed.

Lemma counted_Remove s f :
  counted s ->
  match flag_of s f with
  | Some false => Remove s f = Throw s
  | Some true =>
      exists s', Remove s f = Return tt s' /\ counted s' /\
                 forall g, flag_of s' g = if g =? f then None else flag_of s g
  | None => Remove s f = Return tt s
  end.
Proof.
  intros Hc. unfold flag_of at 1, Remove.
  destruct (ft_find f (frame_table_ s)) as [fi|] eqn:Hfind; simpl; [|done].
  destruct (is_evictable fi) eqn:Hev; simpl; [|done].
  destruct (counted_erase s f fi Hc Hfind Hev) as [Hc' Hflags].
  eexists. split; [done|]. split; [exact Hc'|exact Hflags].
Qed.

Lemma counted_Evict s :
  counted s ->
  (Evict s = (None, s) /\ forall g, flag_of s g <> Some true) \/
  (exists c s', Evict s = (Some c, s') /\ flag_of s c = Some true /\ counted s' /\
                replacer_size_ s' = replacer_size_ s /\
                forall g, flag_of s' g = if g =? c then None else flag_of s g).
Proof.
  intros Hc.
  assert (Hvalid : Forall (fun e => fst e <> -1) (frame_table_ s)).
  { eapply Forall_impl; [apply (counted_keys s Hc)|]. simpl. intros. lia. }
  assert (Hnone : (forall f i, (f, i) ∈ frame_table_ s -> is_evictable i = false) ->
                  forall g, flag_of s g <> Some true).
  { intros Hall g. unfold flag_of.
    destruct (ft_find g (frame_table_ s)) as [gi|] eqn:Hg; [|done].
    apply ft_find_elem in Hg. simpl. rewrite (Hall g gi Hg). done. }
  unfold Evict.
  destruct (Z.eqb_spec (curr_size_ s) 0) as [H0|H0].
  - left. split; [done|]. apply Hnone, count_evictable_zero.
    by rewrite <- (counted_count s Hc).
  - pose proof (Evict_loop_best s Hvalid) as Hbest.
    destruct (Evict_loop s (frame_table_ s)) as [[c cd] ce].
    destruct Hbest as [[-> Hall]|[Hne (ci & Hci & Hciev & _)]].
    + left. split; [done|]. by apply Hnone.
    + right. destruct (Z.eqb_spec c (-1)) as [?|_]; [done|]. simpl.
      apply elem_ft_find in Hci; [|apply Hc].
      destruct (counted_erase s c ci Hc Hci Hciev) as [Hc' Hflags].
      eexists. eexists. split; [done|].
      split; [by unfold flag_of; rewrite Hci; simpl; rewrite Hciev|].
      split; [exact Hc'|]. split; [done|exact Hflags].
Qed.

(** *** What the calls do in a reachable state *)

Lemma step_params s s' :
  step s s' -> replacer_size_ s' = replacer_size_ s /\ k_ s' = k_ s.
Proof.
  intros [r f r' _ _ E|r f b r' E|r f r' E|r|r tbl _]; simpl; try done.
  - unfold RecordAccess in E.
    destruct (to_size_t f >? replacer_size_ r); [done|]. by injection E as <-.
  - unfold SetEvictable in E.
    destruct (to_size_t f >? replacer_size_ r); [done|].
    destruct (ft_find f (frame_table_ r)) as [fi|]; [|by injection E as <-].
    destruct (eqb (is_evictable fi) b); by injection E as <-.
  - unfold Remove in E.
    destruct (ft_find f (frame_table_ r)) as [fi|]; [|by injection E as <-].
    destruct (negb (is_evictable fi)); [done|]. by injection E as <-.
  - unfold Evict. destruct (curr_size_ r =? 0); [done|].
    destruct (Evict_loop r (frame_table_ r)) as [[c ?] ?].
    by destruct (negb (c =? -1)).
Qed.

Lemma reachable_params num_frames k s :
  reachable num_frames k s -> replacer_size_ s = num_frames /\ k_ s = k.
Proof.
  induction 1 as [|s s' _ [IH1 IH2] Hstep]; [done|].
  destruct (step_params s s' Hstep) as [H1 H2]. split; congruence.
Qed.

(** X1: in every state the replacer can reach, [Size()] is the number of
    tracked frames whose evictable flag is set; it is never above the
    number of tracked frames, and at most [num_frames + 1] frames are
    tracked (the frame ids 0 .. [num_frames], the last one included). *)
Theorem Size_counts_evictable_frames num_frames k s :
  valid_args num_frames k ->
  reachable num_frames k s ->
  Size s = count_evictable (frame_table_ s) /\
  0 <= Size s <= Z.of_nat (length (frame_table_ s)) /\
  Z.of_nat (length (frame_table_ s)) <= num_frames + 1.
Proof.
  intros Hargs Hreach.
  pose proof (reachable_inv num_frames k s Hargs Hreach) as Hinv.
  destruct (reachable_params num_frames k s Hreach) as [Hn _].
  unfold Size. rewrite (inv_count s Hinv).
  split; [done|]. split; [apply count_evictable_bounds|].
  rewrite <- Hn. apply keys_length; [apply Hinv|apply Hinv|apply (inv_keys s Hinv)].
Qed.

Lemma Size_counts_evictable_frames_witness :
  Size example_accesses = 2 /\
  Z.of_nat (length (frame_table_ example_accesses)) <= 7 + 1.
Proof.
  assert (Hargs : valid_args 7 2) by (unfold valid_args; lia).
  destruct (Size_counts_evictable_frames 7 2 example_accesses Hargs
              example_accesses_reachable) as (Hsize & _ & Hlen).
  split; [|exact Hlen]. rewrite Hsize. vm_compute. reflexivity.
Defined.

(** X2: in every reachable state, the history of a tracked frame holds at
    least one and at most K timestamps, each between 1 and the current
    timestamp, and the frame id is between 0 and [num_frames]. *)
Theorem history_holds_at_most_K_timestamps num_frames k s f info :
  valid_args num_frames k ->
  reachable num_frames k s ->
  ft_find f (frame_table_ s) = Some info ->
  0 <= f <= num_frames /\
  history info <> [] /\
  hsize (history info) <= k /\
  Forall (fun ts => 1 <= ts <= current_timestamp_ s) (history info).
Proof.
  intros Hargs Hreach Hf.
  pose proof (reachable_inv num_frames k s Hargs Hreach) as Hinv.
  destruct (reachable_params num_frames k s Hreach) as [Hn Hk].
  destruct (inv_lookup s f info Hinv Hf) as (Hrange & Hne & Hlen & Hts & _).
  rewrite Hn in Hrange. rewrite Hk in Hlen. done.
Qed.

Lemma history_holds_at_most_K_timestamps_witness :
  hsize [1; 3] <= 2 /\ Forall (fun ts => 1 <= ts <= 3) [1; 3].
Proof.
  assert (Hargs : valid_args 7 2) by (unfold valid_args; lia).
  destruct (history_holds_at_most_K_timestamps 7 2 example_accesses 1
              {| history := [1; 3]; is_evictable := true; earliest_timestamp := 1 |}
              Hargs example_accesses_reachable) as (_ & _ & Hlen & Hts).
  - vm_compute. reflexivity.
  - split; [exact Hlen|exact Hts].
Defined.

(** X3: in a reachable state whose clock has not reached [SIZE_MAX],
    [RecordAccess] of a frame id between 0 and [num_frames] returns; the
    clock advances by one, the history of the frame becomes the last K
    timestamps of its old history followed by the new timestamp, its
    evictable flag is kept (a frame that was not tracked starts with the
    flag unset), and neither another frame nor [Size()] changes. *)
Theorem RecordAccess_keeps_last_K num_frames k s f :
  valid_args num_frames k ->
  reachable num_frames k s ->
  0 <= f <= num_frames ->
  current_timestamp_ s < SIZE_MAX ->
  let old := default FrameInfo_default (ft_find f (frame_table_ s)) in
  let pushed := history old ++ [current_timestamp_ s + 1] in
  exists s' info,
    RecordAccess s f = Return tt s' /\
    current_timestamp_ s' = current_timestamp_ s + 1 /\
    ft_find f (frame_table_ s') = Some info /\
    history info = drop (length pushed - Z.to_nat k) pushed /\
    is_evictable info = is_evictable old /\
    (forall g, g <> f -> ft_find g (frame_table_ s') = ft_find g (frame_table_ s)) /\
    Size s' = Size s.
Proof.
  intros Hargs Hreach Hf Hnow old pushed.
  pose proof (reachable_inv num_frames k s Hargs Hreach) as Hinv.
  destruct (reachable_params num_frames k s Hreach) as [Hn Hk].
  assert (Hold : hsize (history old) <= k).
  { unfold old. destruct (ft_find f (frame_table_ s)) as [i|] eqn:Hfind; simpl.
    - destruct (inv_lookup s f i Hinv Hfind) as (_ & _ & Hlen & _). by rewrite <- Hk.
    - unfold hsize. simpl. destruct Hargs. lia. }
  assert (Hts : to_size_t (current_timestamp_ s + 1) = current_timestamp_ s + 1).
  { apply to_size_t_small. pose proof (inv_now s Hinv). unfold SIZE_MAX in *. lia. }
  unfold RecordAccess. rewrite frame_id_checked by (rewrite Hn; done).
  rewrite Hts.
  change (match ft_find f (frame_table_ s) with
          | Some i => i
          | None => FrameInfo_default
          end) with old.
  fold pushed. rewrite Hk.
  eexists. eexists. split; [done|]. simpl. split; [done|].
  rewrite ft_find_set, Z.eqb_refl. split; [done|]. simpl.
  split; [|split; [done|split; [|done]]].
  - assert (Hlen : hsize pushed = hsize (history old) + 1).
    { unfold hsize, pushed. rewrite length_app. simpl. lia. }
    unfold hsize in *.
    destruct (Z.gtb_spec (Z.of_nat (length pushed)) k) as [Hgt|Hle].
    + replace (length pushed - Z.to_nat k)%nat with 1%nat by lia.
      by destruct pushed.
    + replace (length pushed - Z.to_nat k)%nat with 0%nat by lia. done.
  - intros g Hg. rewrite ft_find_set.
    by destruct (Z.eqb_spec g f).
Qed.

Lemma RecordAccess_keeps_last_K_witness :
  exists s' info,
    RecordAccess example_accesses 1 = Return tt s' /\
    ft_find 1 (frame_table_ s') = Some info /\
    history info = [3; 4].
Proof.
  assert (Hargs : valid_args 7 2) by (unfold valid_args; lia).
  destruct (RecordAccess_keeps_last_K 7 2 example_accesses 1 Hargs
              example_accesses_reachable)
    as (s' & info & HR & _ & Hfind & Hhist & _).
  - lia.
  - vm_compute. reflexivity.
  - exists s', info. split; [exact HR|]. split; [exact Hfind|].
    rewrite Hhist. vm_compute. reflexivity.
Defined.

(** X4: in a reachable state, [SetEvictable] of a tracked frame returns
    with the flag of the frame set as asked, its history kept, every other
    frame unchanged and [Size()] one more, one less or the same as the
    flag changes; a second call with the same flag changes nothing. *)
Theorem SetEvictable_tracked num_frames k s f info b :
  valid_args num_frames k ->
  reachable num_frames k s ->
  ft_find f (frame_table_ s) = Some info ->
  exists s',
    SetEvictable s f b = Return tt s' /\
    ft_find f (frame_table_ s') =
      Some {| history := history info; is_evictable := b;
              earliest_timestamp := earliest_timestamp info |} /\
    (forall g, g <> f -> ft_find g (frame_table_ s') = ft_find g (frame_table_ s)) /\
    Size s' = Size s + (if b then 1 else 0) - (if is_evictable info then 1 else 0) /\
    SetEvictable s' f b = Return tt s'.
Proof.
  intros Hargs Hreach Hfind.
  pose proof (reachable_inv num_frames k s Hargs Hreach) as Hinv.
  destruct (inv_lookup s f info Hinv Hfind) as (Hrange & _).
  pose proof (inv_curr_size s Hinv) as Hcurr.
  unfold SetEvictable at 1. rewrite frame_id_checked by done. rewrite Hfind.
  destruct (eqb (is_evictable info) b) eqn:Hb.
  - apply eqb_prop in Hb. subst b. exists s.
    split; [done|]. split; [by destruct info|]. split; [done|].
    split; [destruct (is_evictable info); lia|].
    unfold SetEvictable. rewrite frame_id_checked by done. rewrite Hfind.
    by rewrite eqb_reflx.
  - eexists. split; [done|]. simpl. rewrite ft_find_set, Z.eqb_refl.
    split; [done|]. split.
    { intros g Hg. rewrite ft_find_set. by destruct (Z.eqb_spec g f). }
    split.
    + unfold Size. simpl. destruct b, (is_evictable info) eqn:Hi; try done.
      * rewrite to_size_t_small by (unfold SIZE_MAX in *; lia). lia.
      * pose proof (count_evictable_find f info _ Hfind Hi) as Hone.
        rewrite <- (inv_count s Hinv) in Hone.
        rewrite to_size_t_small by lia. lia.
    + unfold SetEvictable. simpl. rewrite frame_id_checked by done.
      rewrite ft_find_set, Z.eqb_refl. simpl. by rewrite eqb_reflx.
Qed.

Lemma SetEvictable_tracked_witness :
  exists s',
    SetEvictable example_accesses 1 false = Return tt s' /\
    Size s' = Size example_accesses - 1.
Proof.
  assert (Hargs : valid_args 7 2) by (unfold valid_args; lia).
  destruct (SetEvictable_tracked 7 2 example_accesses 1
              {| history := [1; 3]; is_evictable := true; earliest_timestamp := 1 |}
              false Hargs example_accesses_reachable)
    as (s' & HS & _ & _ & Hsize & _).
  - vm_compute. reflexivity.
  - exists s'. split; [exact HS|]. rewrite Hsize. simpl. lia.
Defined.

(** X5: in a reachable state, [Remove] of a frame that is not tracked
    returns and changes nothing; [Remove] of a tracked frame whose flag is
    unset throws and changes nothing; [Remove] of a tracked evictable
    frame untracks it, leaves the other frames as they are and takes one
    off [Size()]. *)
Theorem Remove_cases num_frames k s f :
  valid_args num_frames k ->
  reachable num_frames k s ->
  match ft_find f (frame_table_ s) with
  | None => Remove s f = Return tt s
  | Some info =>
      if is_evictable info then
        exists s',
          Remove s f = Return tt s' /\
          ft_find f (frame_table_ s') = None /\
          (forall g, g <> f -> ft_find g (frame_table_ s') = ft_find g (frame_table_ s)) /\
          Size s' = Size s - 1
      else Remove s f = Throw s
  end.
Proof.
  intros Hargs Hreach.
  pose proof (reachable_inv num_frames k s Hargs Hreach) as Hinv.
  pose proof (inv_curr_size s Hinv) as Hcurr.
  unfold Remove. destruct (ft_find f (frame_table_ s)) as [info|] eqn:Hfind; [|done].
  destruct (is_evictable info) eqn:Hi; simpl; [|done].
  eexists. split; [done|]. simpl.
  split; [apply ft_find_erase_same, Hinv|].
  split; [intros g Hg; by apply ft_find_erase_other|].
  unfold Size. simpl.
  pose proof (count_evictable_find f info _ Hfind Hi) as Hone.
  rewrite <- (inv_count s Hinv) in Hone.
  apply to_size_t_small. lia.
Qed.

Lemma Remove_cases_witness :
  exists s',
    Remove example_accesses 2 = Return tt s' /\
    ft_find 2 (frame_table_ s') = None /\
    Size s' = Size example_accesses - 1.
Proof.
  assert (Hargs : valid_args 7 2) by (unfold valid_args; lia).
  pose proof (Remove_cases 7 2 example_accesses 2 Hargs example_accesses_reachable)
    as Hcases.
  change (ft_find 2 (frame_table_ example_accesses))
    with (Some {| history := [2]; is_evictable := true; earliest_timestamp := 2 |})
    in Hcases.
  destruct Hcases as (s' & HR & Hfind & _ & Hsize).
  exists s'. split; [exact HR|]. split; [exact Hfind|exact Hsize].
Defined.

End LRUKReplacer.

(** ** LRU-K replacer (project1-submission, buffer/lru_k_replacer.cpp: the
       version that asserts) *)

Module LRUKReplacerP1.

(** [static_cast<int64_t>] and [static_cast<frame_id_t>] of a [size_t]. *)
Definition to_int64 (x : Z) : Z := (x + 2 ^ 63) mod 2 ^ 64 - 2 ^ 63.
Definition to_int32 (x : Z) : Z := (x + 2 ^ 31) mod 2 ^ 32 - 2 ^ 31.

Definition INT64_MAX : Z := 2 ^ 63 - 1.
(** [static constexpr frame_id_t INVALID_FRAME_ID = -1;] of the class. *)
Definition INVALID_FRAME_ID : Z := -1.

(** [struct Entry] of lru_k_replacer.h. *)
Record Entry : Type := mkEntry {
  history : list Z;
  evictable : bool
}.

Record t : Type := mkReplacer {
  current_timestamp_ : Z;
  curr_size_ : Z;
  replacer_size_ : Z;
  k_ : Z;
  entries_ : list (Z * Entry)
}.

Definition LRUKReplacer (num_frames k : Z) : t :=
  {| current_timestamp_ := 0; curr_size_ := 0; replacer_size_ := num_frames;
     k_ := k; entries_ := [] |}.

Fixpoint find (frame_id : Z) (tbl : list (Z * Entry)) : option Entry :=
  match tbl with
  | [] => None
  | (fid, e) :: rest => if fid =? frame_id then Some e else find frame_id rest
  end.

Fixpoint erase (frame_id : Z) (tbl : list (Z * Entry)) : list (Z * Entry) :=
  match tbl with
  | [] => []
  | (fid, e) :: rest =>
      if fid =? frame_id then rest else (fid, e) :: erase frame_id rest
  end.

Fixpoint assign (frame_id : Z) (v : Entry) (tbl : list (Z * Entry)) : list (Z * Entry) :=
  match tbl with
  | [] => [(frame_id, v)]
  | (fid, e) :: rest =>
      if fid =? frame_id then (fid, v) :: rest
      else (fid, e) :: assign frame_id v rest
  end.

Definition hsize (h : list Z) : Z := Z.of_nat (length h).
Definition front (h : list Z) : Z := hd 0 h.

(** The distance computed in the loop of [Evict]: [*it] is the element
    [history.size() - k_] places from the front. *)
Definition distance_of (s : t) (entry : Entry) : Z :=
  if hsize (history entry) <? k_ s then INT64_MAX
  else
    to_int64
      (to_size_t
         (current_timestamp_ s
          - nth (Z.to_nat (to_size_t (hsize (history entry) - k_ s))) (history entry) 0)).

(** One turn of the loop of [Evict]; the accumulator is
    [(victim, max_distance, earliest_timestamp)]. *)
Definition Evict_body (s : t) (acc : Z * Z * Z) (e : Z * Entry) : Z * Z * Z :=
  let '(victim, max_distance, earliest_timestamp) := acc in
  let '(fid, entry) := e in
  if negb (evictable entry) then acc
  else
    let distance := distance_of s entry in
    if distance >? max_distance then (fid, distance, front (history entry))
    else if distance =? max_distance then
      if front (history entry) <? earliest_timestamp
      then (fid, max_distance, front (history entry))
      else acc
    else acc.

(** [LRUKReplacer::Evict]. *)
Definition Evict (s : t) : option Z * t :=
  if curr_size_ s =? 0 then (None, s)
  else
    let '(victim, _, _) :=
      fold_left (Evict_body s) (entries_ s) (INVALID_FRAME_ID, -1, SIZE_MAX) in
    if victim =? INVALID_FRAME_ID then (None, s)
    else
      (Some victim,
       {| current_timestamp_ := current_timestamp_ s;
          curr_size_ := to_size_t (curr_size_ s - 1);
          replacer_size_ := replacer_size_ s; k_ := k_ s;
          entries_ := erase victim (entries_ s) |}).

(** [BUSTUB_ASSERT(frame_id < static_cast<frame_id_t>(replacer_size_), ...)]
    holds. *)
Definition frame_id_asserted (s : t) (frame_id : Z) : bool :=
  frame_id <? to_int32 (replacer_size_ s).

(** [LRUKReplacer::RecordAccess]; a failed assertion is [Throw]. *)
Definition RecordAccess (s : t) (frame_id : Z) : outcome unit t :=
  if negb (frame_id_asserted s frame_id) then Throw s
  else
    let ts := to_size_t (current_timestamp_ s + 1) in
    let entry :=
      match find frame_id (entries_ s) with
      | None => {| history := [ts]; evictable := false |}
      | Some e =>
          let pushed := history e ++ [ts] in
          {| history := if hsize pushed >? k_ s then tail pushed else pushed;
             evictable := evictable e |}
      end in
    Return tt
      {| current_timestamp_ := ts; curr_size_ := curr_size_ s;
         replacer_size_ := replacer_size_ s; k_ := k_ s;
         entries_ := assign frame_id entry (entries_ s) |}.

(** [LRUKReplacer::SetEvictable]. *)
Definition SetEvictable (s : t) (frame_id : Z) (set_evictable : bool) : outcome unit t :=
  if negb (frame_id_asserted s frame_id) then Throw s
  else
    match find frame_id (entries_ s) with
    | None => Return tt s
    | Some entry =>
        if eqb (evictable entry) set_evictable then Return tt s
        else
          Return tt
            {| current_timestamp_ := current_timestamp_ s;
               curr_size_ :=
                 if set_evictable then to_size_t (curr_size_ s + 1)
                 else to_size_t (curr_size_ s - 1);
               replacer_size_ := replacer_size_ s; k_ := k_ s;
               entries_ :=
                 assign frame_id
                   {| history := history entry; evictable := set_evictable |}
                   (entries_ s) |}
    end.

(** [LRUKReplacer::Remove]. *)
Definition Remove (s : t) (frame_id : Z) : outcome unit t :=
  if negb (frame_id_asserted s frame_id) then Throw s
  else
    match find frame_id (entries_ s) with
    | None => Return tt s
    | Some entry =>
        if negb (evictable entry) then Throw s
        else
          Return tt
            {| current_timestamp_ := current_timestamp_ s;
               curr_size_ := to_size_t (curr_size_ s - 1);
               replacer_size_ := replacer_size_ s; k_ := k_ s;
               entries_ := erase frame_id (entries_ s) |}
    end.

Definition Size (s : t) : Z := curr_size_ s.

Definition state_of (o : outcome unit t) : t :=
  match o with Return _ s => s | Throw s => s end.

(** The assertion rejects the frame id [replacer_size_], in all three
    calls. *)
Lemma replacer_size_rejected :
  RecordAccess (LRUKReplacer 7 2) 7 = Throw (LRUKReplacer 7 2) /\
  SetEvictable (LRUKReplacer 7 2) 7 true = Throw (LRUKReplacer 7 2) /\
  Remove (LRUKReplacer 7 2) 7 = Throw (LRUKReplacer 7 2).
Proof. repeat split. Qed.

(** C8, on the code.  The assertion has no lower bound: a negative frame
    id passes it, and [RecordAccess] starts tracking frame -1. *)
Example RecordAccess_accepts_negative_frame_id :
  RecordAccess (LRUKReplacer 7 2) (-1)
  = Return tt
      {| current_timestamp_ := 1; curr_size_ := 0; replacer_size_ := 7; k_ := 2;
         entries_ := [(-1, {| history := [1]; evictable := false |})] |}.
Proof. reflexivity. Qed.

(** C1, at its failing input in the project1 version.  On a replacer of 7
    frames with K = 2, [RecordAccess(-1)] and [SetEvictable(-1, true)]
    both return (the assertion has no lower bound): frame -1 is tracked
    and evictable and [Size] is 1.  [Evict] then returns false and leaves
    the replacer as it is, although an evictable frame exists: the loop
    does select frame -1, and -1 is the value [INVALID_FRAME_ID] that the
    test after the loop reads as no victim.  After [RecordAccess(0)] and
    [SetEvictable(0, true)] two frames are evictable, both with fewer than
    K accesses; frame -1 has the earlier first timestamp, the loop selects
    it again, and [Evict] returns false once more. *)
Example Evict_misses_frame_minus_one :
  exists s1 s2 s3 s4,
    RecordAccess (LRUKReplacer 7 2) (-1) = Return tt s1 /\
    SetEvictable s1 (-1) true = Return tt s2 /\
    find (-1) (entries_ s2) = Some {| history := [1]; evictable := true |} /\
    Size s2 = 1 /\
    Evict s2 = (None, s2) /\
    RecordAccess s2 0 = Return tt s3 /\
    SetEvictable s3 0 true = Return tt s4 /\
    find (-1) (entries_ s4) = Some {| history := [1]; evictable := true |} /\
    find 0 (entries_ s4) = Some {| history := [2]; evictable := true |} /\
    Size s4 = 2 /\
    Evict s4 = (None, s4).
Proof.
  do 4 eexists.
  split; [reflexivity|]. split; [reflexivity|]. split; [reflexivity|].
  split; [reflexivity|]. split; [reflexivity|]. split; [reflexivity|].
  split; [reflexivity|]. split; [reflexivity|]. split; [reflexivity|].
  split; reflexivity.
Qed.

(** The counterpart of C9 in this version. *)
Lemma SetEvictable_untracked_unchanged_P1 s frame_id set_evictable :
  0 <= frame_id < replacer_size_ s -> replacer_size_ s < 2 ^ 31 ->
  find frame_id (entries_ s) = None ->
  SetEvictable s frame_id set_evictable = Return tt s.
Proof.
  intros Hrange Hsize Hfind. unfold SetEvictable, frame_id_asserted, to_int32.
  rewrite (Z.mod_small (replacer_size_ s + 2 ^ 31)) by lia.
  destruct (Z.ltb_spec frame_id (replacer_size_ s + 2 ^ 31 - 2 ^ 31)) as [_|H]; [|lia].
  simpl. by rewrite Hfind.
Qed.

End LRUKReplacerP1.

(** ** Buffer pool (buffer/buffer_pool_manager_instance.cpp) *)

Module BufferPoolManagerInstance.

(** The bytes of a page. *)
Definition Data : Type := list Z.

Definition BUSTUB_PAGE_SIZE : nat := 4096.

(** What [Page::ResetMemory] leaves: [BUSTUB_PAGE_SIZE] zero bytes. *)
Definition zero_data : Data := repeat 0 BUSTUB_PAGE_SIZE.

(** Modelled from the spec: storage/page/page.h is not among the sources.
    A page is its bytes and the metadata {page_id, pin_count, is_dirty};
    a page that holds nothing has [page_id = INVALID_PAGE_ID]. *)
Record Page : Type := mkPage {
  data : Data;
  page_id_ : Z;
  pin_count_ : Z;
  is_dirty_ : bool
}.

Definition Page_default : Page :=
  {| data := zero_data; page_id_ := INVALID_PAGE_ID; pin_count_ := 0;
     is_dirty_ := false |}.

(** Modelled from the spec: the DiskManager is an external collaborator
    known by its contract.  It keeps the bytes last written for each page
    id, and records every call in order, as a recording disk manager
    does. *)
Inductive disk_call : Type :=
| WritePage_call (page_id : Z) (bytes : Data)
| ReadPage_call (page_id : Z).

Record DiskManager : Type := mkDisk {
  stored : gmap Z Data;
  calls : list disk_call
}.

Definition WritePage (d : DiskManager) (page_id : Z) (bytes : Data) : DiskManager :=
  {| stored := <[page_id := bytes]> (stored d);
     calls := calls d ++ [WritePage_call page_id bytes] |}.

Definition ReadPage (d : DiskManager) (page_id : Z) : Data * DiskManager :=
  (default zero_data (stored d !! page_id),
   {| stored := stored d; calls := calls d ++ [ReadPage_call page_id] |}).

(** The pool.  [page_table_] is used through [Find], [Insert] and [Remove]
    only, as a finite map from page ids to frame ids. *)
Record t : Type := mkPool {
  pool_size_ : Z;
  pages_ : list Page;
  free_list_ : list Z;
  page_table_ : gmap Z Z;
  replacer_ : LRUKReplacer.t;
  next_page_id_ : Z;
  disk_manager_ : DiskManager
}.

Definition set_pages (s : t) (ps : list Page) : t :=
  {| pool_size_ := pool_size_ s; pages_ := ps; free_list_ := free_list_ s;
     page_table_ := page_table_ s; replacer_ := replacer_ s;
     next_page_id_ := next_page_id_ s; disk_manager_ := disk_manager_ s |}.

Definition set_free_list (s : t) (fl : list Z) : t :=
  {| pool_size_ := pool_size_ s; pages_ := pages_ s; free_list_ := fl;
     page_table_ := page_table_ s; replacer_ := replacer_ s;
     next_page_id_ := next_page_id_ s; disk_manager_ := disk_manager_ s |}.

Definition set_page_table (s : t) (pt : gmap Z Z) : t :=
  {| pool_size_ := pool_size_ s; pages_ := pages_ s; free_list_ := free_list_ s;
     page_table_ := pt; replacer_ := replacer_ s;
     next_page_id_ := next_page_id_ s; disk_manager_ := disk_manager_ s |}.

Definition set_replacer (s : t) (r : LRUKReplacer.t) : t :=
  {| pool_size_ := pool_size_ s; pages_ := pages_ s; free_list_ := free_list_ s;
     page_table_ := page_table_ s; replacer_ := r;
     next_page_id_ := next_page_id_ s; disk_manager_ := disk_manager_ s |}.

Definition set_next_page_id (s : t) (n : Z) : t :=
  {| pool_size_ := pool_size_ s; pages_ := pages_ s; free_list_ := free_list_ s;
     page_table_ := page_table_ s; replacer_ := replacer_ s;
     next_page_id_ := n; disk_manager_ := disk_manager_ s |}.

Definition set_disk (s : t) (d : DiskManager) : t :=
  {| pool_size_ := pool_size_ s; pages_ := pages_ s; free_list_ := free_list_ s;
     page_table_ := page_table_ s; replacer_ := replacer_ s;
     next_page_id_ := next_page_id_ s; disk_manager_ := d |}.

(** [pages_[frame_id]], read and written.  An index outside the array is
    undefined in C++; [inv] shows that no reachable state indexes
    outside. *)
Definition page_at (s : t) (frame_id : Z) : Page :=
  default Page_default (pages_ s !! Z.to_nat frame_id).

Definition set_page (s : t) (frame_id : Z) (p : Page) : t :=
  set_pages s (<[Z.to_nat frame_id := p]> (pages_ s)).

Arguments page_at : simpl never.

(** [BufferPoolManagerInstance::BufferPoolManagerInstance]. *)
Definition BufferPoolManagerInstance (pool_size : Z) (disk_manager : DiskManager)
    (replacer_k : Z) : t :=
  {| pool_size_ := pool_size;
     pages_ := repeat Page_default (Z.to_nat pool_size);
     free_list_ := seqZ 0 pool_size;
     page_table_ := ∅;
     replacer_ := LRUKReplacer.LRUKReplacer pool_size replacer_k;
     next_page_id_ := 0;
     disk_manager_ := disk_manager |}.

(** The frame that [NewPgImp] (Step 1) and [FetchPgImp] (Step 2) obtain,
    by the same statements in both: the head of the free list, else a
    victim of the replacer, written out when dirty and taken out of the
    page table.  [None]: no frame is available. *)
Definition find_frame (s : t) : option Z * t :=
  match free_list_ s with
  | frame_id :: rest => (Some frame_id, set_free_list s rest)
  | [] =>
      match LRUKReplacer.Evict (replacer_ s) with
      | (Some frame_id, r) =>
          let s1 := set_replacer s r in
          let old_page := page_at s1 frame_id in
          let s2 :=
            if is_dirty_ old_page then
              set_page
                (set_disk s1
                   (WritePage (disk_manager_ s1) (page_id_ old_page) (data old_page)))
                frame_id
                {| data := data old_page; page_id_ := page_id_ old_page;
                   pin_count_ := pin_count_ old_page; is_dirty_ := false |}
            else s1 in
          (Some frame_id,
           set_page_table s2 (delete (page_id_ old_page) (page_table_ s2)))
      | (None, r) => (None, set_replacer s r)
      end
  end.

(** [replacer_->RecordAccess(frame_id); replacer_->SetEvictable(frame_id,
    false);] on the replacer. *)
Definition touch (r : LRUKReplacer.t) (frame_id : Z) : outcome unit LRUKReplacer.t :=
  match LRUKReplacer.RecordAccess r frame_id with
  | Throw r' => Throw r'
  | Return _ r' => LRUKReplacer.SetEvictable r' frame_id false
  end.

(** The same two calls in the pool, with what is returned when neither
    throws. *)
Definition touch_frame {A : Type} (s : t) (frame_id : Z) (a : A) : outcome A t :=
  match touch (replacer_ s) frame_id with
  | Throw r => Throw (set_replacer s r)
  | Return _ r => Return a (set_replacer s r)
  end.

(** [BufferPoolManagerInstance::NewPgImp]: [Some (page_id, frame_id)] for
    the page [&pages_[frame_id]] with [*page_id], [None] for [nullptr]. *)
Definition NewPgImp (s : t) : outcome (option (Z * Z)) t :=
  match find_frame s with
  | (None, s1) => Return None s1
  | (Some frame_id, s1) =>
      let page_id := next_page_id_ s1 in
      let s2 := set_next_page_id s1 (page_id + 1) in
      let s3 :=
        set_page s2 frame_id
          {| data := zero_data; page_id_ := page_id; pin_count_ := 1;
             is_dirty_ := false |} in
      let s4 := set_page_table s3 (<[page_id := frame_id]> (page_table_ s3)) in
      touch_frame s4 frame_id (Some (page_id, frame_id))
  end.

(** [BufferPoolManagerInstance::FetchPgImp]: [Some frame_id] for the page
    [&pages_[frame_id]], [None] for [nullptr]. *)
Definition FetchPgImp (s : t) (page_id : Z) : outcome (option Z) t :=
  match page_table_ s !! page_id with
  | Some frame_id =>
      let page := page_at s frame_id in
      let s1 :=
        set_page s frame_id
          {| data := data page; page_id_ := page_id_ page;
             pin_count_ := pin_count_ page + 1; is_dirty_ := is_dirty_ page |} in
      touch_frame s1 frame_id (Some frame_id)
  | None =>
      match find_frame s with
      | (None, s1) => Return None s1
      | (Some new_frame_id, s1) =>
          let (bytes, d) := ReadPage (disk_manager_ s1) page_id in
          let s2 :=
            set_page (set_disk s1 d) new_frame_id
              {| data := bytes; page_id_ := page_id; pin_count_ := 1;
                 is_dirty_ := false |} in
          let s3 := set_page_table s2 (<[page_id := new_frame_id]> (page_table_ s2)) in
          touch_frame s3 new_frame_id (Some new_frame_id)
      end
  end.

(** [BufferPoolManagerInstance::UnpinPgImp]. *)
Definition UnpinPgImp (s : t) (page_id : Z) (is_dirty : bool) : outcome bool t :=
  match page_table_ s !! page_id with
  | None => Return false s
  | Some frame_id =>
      let page := page_at s frame_id in
      if pin_count_ page <=? 0 then Return false s
      else
        let page' :=
          {| data := data page; page_id_ := page_id_ page;
             pin_count_ := pin_count_ page - 1;
             is_dirty_ := if is_dirty then true else is_dirty_ page |} in
        let s1 := set_page s frame_id page' in
        if pin_count_ page' =? 0 then
          match LRUKReplacer.SetEvictable (replacer_ s1) frame_id true with
          | Throw r => Throw (set_replacer s1 r)
          | Return _ r => Return true (set_replacer s1 r)
          end
        else Return true s1
  end.

(** [BufferPoolManagerInstance::FlushPgImp]. *)
Definition FlushPgImp (s : t) (page_id : Z) : outcome bool t :=
  match page_table_ s !! page_id with
  | None => Return false s
  | Some frame_id =>
      let page := page_at s frame_id in
      Return true
        (set_page
           (set_disk s (WritePage (disk_manager_ s) page_id (data page)))
           frame_id
           {| data := data page; page_id_ := page_id_ page;
              pin_count_ := pin_count_ page; is_dirty_ := false |})
  end.

(** The body of the loop of [FlushAllPgsImp], for frame [i]. *)
Definition FlushAll_body (s : t) (i : Z) : t :=
  let page := page_at s i in
  if negb (page_id_ page =? INVALID_PAGE_ID) && is_dirty_ page then
    set_page
      (set_disk s (WritePage (disk_manager_ s) (page_id_ page) (data page)))
      i
      {| data := data page; page_id_ := page_id_ page;
         pin_count_ := pin_count_ page; is_dirty_ := false |}
  else s.

(** [BufferPoolManagerInstance::FlushAllPgsImp]. *)
Definition FlushAllPgsImp (s : t) : t :=
  fold_left FlushAll_body (seqZ 0 (pool_size_ s)) s.

(** [BufferPoolManagerInstance::DeletePgImp].  [DeallocatePage] changes
    nothing of the pool. *)
Definition DeletePgImp (s : t) (page_id : Z) : outcome bool t :=
  match page_table_ s !! page_id with
  | None => Return true s
  | Some frame_id =>
      let page := page_at s frame_id in
      if pin_count_ page >? 0 then Return false s
      else
        let s1 :=
          if is_dirty_ page
          then set_disk s (WritePage (disk_manager_ s) page_id (data page))
          else s in
        let s2 := set_page_table s1 (delete page_id (page_table_ s1)) in
        match LRUKReplacer.Remove (replacer_ s2) frame_id with
        | Throw r => Throw (set_replacer s2 r)
        | Return _ r =>
            let s3 := set_replacer s2 r in
            let s4 := set_free_list s3 (free_list_ s3 ++ [frame_id]) in
            Return true (set_page s4 frame_id Page_default)
        end
  end.

(** *** The states the pool can be in *)

Definition state_of {A : Type} (o : outcome A t) : t :=
  match o with Return _ s => s | Throw s => s end.

(** A call of the public interface, whatever it returns, or a holder of a
    page pointer writing the bytes of that page. *)
Inductive step : t -> t -> Prop :=
| step_NewPg s : step s (state_of (NewPgImp s))
| step_FetchPg s page_id : step s (state_of (FetchPgImp s page_id))
| step_UnpinPg s page_id is_dirty : step s (state_of (UnpinPgImp s page_id is_dirty))
| step_FlushPg s page_id : step s (state_of (FlushPgImp s page_id))
| step_FlushAllPgs s : step s (FlushAllPgsImp s)
| step_DeletePg s page_id : step s (state_of (DeletePgImp s page_id))
| step_write_data s frame_id bytes :
    0 <= frame_id < pool_size_ s ->
    step s
      (set_page s frame_id
         {| data := bytes; page_id_ := page_id_ (page_at s frame_id);
            pin_count_ := pin_count_ (page_at s frame_id);
            is_dirty_ := is_dirty_ (page_at s frame_id) |}).

Inductive reachable (pool_size : Z) (disk : DiskManager) (replacer_k : Z) : t -> Prop :=
| reach_init :
    reachable pool_size disk replacer_k
      (BufferPoolManagerInstance pool_size disk replacer_k)
| reach_step s s' :
    reachable pool_size disk replacer_k s -> step s s' ->
    reachable pool_size disk replacer_k s'.

(** A frame id is an index of [pages_]. *)
Definition frame_ok (s : t) (frame_id : Z) : Prop := 0 <= frame_id < pool_size_ s.

(** The replacer tracks the frame. *)
Definition tracked (r : LRUKReplacer.t) (frame_id : Z) : Prop :=
  is_Some (LRUKReplacer.ft_find frame_id (LRUKReplacer.frame_table_ r)).

(** The invariant of the reachable states: frame ids index [pages_]; the
    free list has no repeats; a resident page sits in a frame that is not
    free, that holds its page id and that the replacer tracks. *)
Record inv (s : t) : Prop := mkInv {
  inv_pool_size : 0 <= pool_size_ s < 2 ^ 31;
  inv_pages : length (pages_ s) = Z.to_nat (pool_size_ s);
  inv_replacer_size : LRUKReplacer.replacer_size_ (replacer_ s) = pool_size_ s;
  inv_free : Forall (frame_ok s) (free_list_ s);
  inv_free_nodup : NoDup (free_list_ s);
  inv_tracked : forall frame_id, tracked (replacer_ s) frame_id -> frame_ok s frame_id;
  inv_resident :
    forall page_id frame_id,
      page_table_ s !! page_id = Some frame_id ->
      frame_ok s frame_id /\
      (frame_id ∉ free_list_ s) /\
      page_id_ (page_at s frame_id) = page_id /\
      tracked (replacer_ s) frame_id
}.

(** *** Frames and the replacer's table *)

Lemma page_at_set_page_same s f p :
  0 <= f -> (Z.to_nat f < length (pages_ s))%nat -> page_at (set_page s f p) f = p.
Proof.
  intros Hf Hlen. unfold page_at, set_page. simpl.
  by rewrite list_lookup_insert_eq.
Qed.

Lemma page_at_set_page_other s f g p :
  0 <= f -> 0 <= g -> g <> f -> page_at (set_page s f p) g = page_at s g.
Proof.
  intros Hf Hg Hne. unfold page_at, set_page. simpl.
  rewrite list_lookup_insert_ne; [done|lia].
Qed.

Lemma tracked_elem r (e : Z * LRUKReplacer.FrameInfo) :
  e ∈ LRUKReplacer.frame_table_ r -> tracked r (fst e).
Proof.
  intros Hin. unfold tracked.
  destruct (LRUKReplacer.ft_find (fst e) (LRUKReplacer.frame_table_ r)) eqn:E; [done|].
  apply LRUKReplacer.ft_find_None in E. exfalso. apply E.
  by apply list_elem_of_fmap_2.
Qed.

Lemma tracked_RecordAccess r f r' g :
  LRUKReplacer.RecordAccess r f = Return tt r' ->
  tracked r' g <-> g = f \/ tracked r g.
Proof.
  intros (_ & v & Htbl)%LRUKReplacer.RecordAccess_Return.
  unfold tracked. rewrite Htbl, LRUKReplacer.ft_find_set.
  destruct (Z.eqb_spec g f); split; auto. intros [?|?]; done.
Qed.

Lemma tracked_SetEvictable r f b r' g :
  LRUKReplacer.SetEvictable r f b = Return tt r' ->
  tracked r' g <-> tracked r g.
Proof.
  intros (_ & [->|(fi & Hfi & Htbl)])%LRUKReplacer.SetEvictable_Return; [done|].
  unfold tracked. rewrite Htbl, LRUKReplacer.ft_find_set.
  destruct (Z.eqb_spec g f) as [->|]; [|done]. rewrite Hfi. done.
Qed.

Lemma tracked_erase tbl f g :
  is_Some (LRUKReplacer.ft_find g (LRUKReplacer.ft_erase f tbl)) ->
  is_Some (LRUKReplacer.ft_find g tbl).
Proof.
  destruct (Z.eq_dec g f) as [->|Hne].
  - intros [i Hi]. apply LRUKReplacer.ft_find_elem, LRUKReplacer.elem_ft_erase in Hi.
    destruct (LRUKReplacer.ft_find f tbl) eqn:E; [done|].
    apply LRUKReplacer.ft_find_None in E. exfalso. apply E.
    by eapply LRUKReplacer.elem_keys.
  - by rewrite LRUKReplacer.ft_find_erase_other.
Qed.

Lemma tracked_Remove r f r' g :
  LRUKReplacer.Remove r f = Return tt r' -> tracked r' g -> tracked r g.
Proof.
  intros (_ & [->|Htbl])%LRUKReplacer.Remove_Return; [done|].
  unfold tracked. rewrite Htbl. apply tracked_erase.
Qed.

Lemma pool_inv_keys_valid s :
  inv s -> Forall (fun e => fst e <> -1) (LRUKReplacer.frame_table_ (replacer_ s)).
Proof.
  intros Hinv. apply Forall_forall. intros e He.
  apply tracked_elem, (inv_tracked s Hinv) in He. unfold frame_ok in He. lia.
Qed.

Lemma replacer_accepts s f :
  inv s -> frame_ok s f ->
  (to_size_t f >? LRUKReplacer.replacer_size_ (replacer_ s)) = false.
Proof.
  intros Hinv Hf. apply LRUKReplacer.frame_id_checked.
  rewrite (inv_replacer_size s Hinv). unfold frame_ok in Hf. lia.
Qed.

(** *** The invariant holds in every reachable state *)

Lemma pool_inv_init pool_size disk replacer_k :
  0 <= pool_size < 2 ^ 31 ->
  inv (BufferPoolManagerInstance pool_size disk replacer_k).
Proof.
  intros Hp. split; simpl; try done.
  - by rewrite repeat_length.
  - apply Forall_forall. intros x Hx. apply elem_of_seqZ in Hx.
    unfold frame_ok. simpl. lia.
  - apply NoDup_seqZ.
  - intros f [i Hi]. done.
Qed.

(** Changes that keep the frames, the table and the tracked frames. *)
Lemma inv_set_disk s d : inv s -> inv (set_disk s d).
Proof. intros []. by split. Qed.

Lemma inv_set_next_page_id s n : inv s -> inv (set_next_page_id s n).
Proof. intros []. by split. Qed.

Lemma inv_set_page s f p :
  inv s -> frame_ok s f -> page_id_ p = page_id_ (page_at s f) ->
  inv (set_page s f p).
Proof.
  intros Hinv Hf Hp. split; simpl; try apply Hinv.
  - rewrite length_insert. apply Hinv.
  - intros pid g Hpid.
    destruct (inv_resident s Hinv pid g Hpid) as (Hg & Hfree & Hid & Htr).
    split; [done|]. split; [done|]. split; [|done].
    destruct (Z.eq_dec g f) as [->|Hne].
    + rewrite page_at_set_page_same; [congruence|apply Hf|].
      rewrite (inv_pages s Hinv). unfold frame_ok in Hf. lia.
    + rewrite page_at_set_page_other; [done|apply Hf|apply Hg|done].
Qed.

Lemma inv_set_replacer s r :
  inv s ->
  LRUKReplacer.replacer_size_ r = LRUKReplacer.replacer_size_ (replacer_ s) ->
  (forall g, tracked r g -> g <> -1 -> frame_ok s g) ->
  (forall g, tracked r g -> frame_ok s g) ->
  (forall pid g, page_table_ s !! pid = Some g -> tracked r g) ->
  inv (set_replacer s r).
Proof.
  intros Hinv Hsize _ Hrange Hres. split; simpl; try apply Hinv.
  - rewrite Hsize. apply Hinv.
  - done.
  - intros pid g Hpid.
    destruct (inv_resident s Hinv pid g Hpid) as (Hg & Hfree & Hid & Htr).
    split; [done|]. split; [done|]. split; [done|]. by eapply Hres.
Qed.

Lemma pool_inv_RecordAccess s f r :
  inv s -> frame_ok s f ->
  LRUKReplacer.RecordAccess (replacer_ s) f = Return tt r ->
  inv (set_replacer s r).
Proof.
  intros Hinv Hf Hr. pose proof (LRUKReplacer.RecordAccess_Return _ _ _ Hr) as [Hsz _].
  apply inv_set_replacer; try done.
  - intros g Hg _. apply (tracked_RecordAccess _ _ _ g Hr) in Hg as [->|Hg]; [done|].
    by apply (inv_tracked s Hinv).
  - intros g Hg. apply (tracked_RecordAccess _ _ _ g Hr) in Hg as [->|Hg]; [done|].
    by apply (inv_tracked s Hinv).
  - intros pid g Hpid. apply (tracked_RecordAccess _ _ _ g Hr). right.
    by apply (inv_resident s Hinv pid g).
Qed.

Lemma pool_inv_SetEvictable s f b r :
  inv s ->
  LRUKReplacer.SetEvictable (replacer_ s) f b = Return tt r ->
  inv (set_replacer s r).
Proof.
  intros Hinv Hr. pose proof (LRUKReplacer.SetEvictable_Return _ _ _ _ Hr) as [Hsz _].
  apply inv_set_replacer; try done.
  - intros g Hg _. apply (tracked_SetEvictable _ _ _ _ g Hr) in Hg.
    by apply (inv_tracked s Hinv).
  - intros g Hg. apply (tracked_SetEvictable _ _ _ _ g Hr) in Hg.
    by apply (inv_tracked s Hinv).
  - intros pid g Hpid. apply (tracked_SetEvictable _ _ _ _ g Hr).
    by apply (inv_resident s Hinv pid g).
Qed.

Lemma set_replacer_same s : set_replacer s (replacer_ s) = s.
Proof. by destruct s. Qed.

(** [touch] returns once the frame id passes the replacer's check, and
    leaves the frame tracked. *)
Lemma touch_Return r f :
  (to_size_t f >? LRUKReplacer.replacer_size_ r) = false ->
  exists r', touch r f = Return tt r' /\
    LRUKReplacer.replacer_size_ r' = LRUKReplacer.replacer_size_ r /\
    (forall g, tracked r' g <-> g = f \/ tracked r g).
Proof.
  intros Hacc. unfold touch.
  destruct (LRUKReplacer.RecordAccess r f) as [[] r1|r1] eqn:E1.
  2:{ apply LRUKReplacer.RecordAccess_Throw_checked in E1. congruence. }
  pose proof (LRUKReplacer.RecordAccess_Return _ _ _ E1) as [Hsz1 _].
  destruct (LRUKReplacer.SetEvictable r1 f false) as [[] r2|r2] eqn:E2.
  2:{ apply LRUKReplacer.SetEvictable_Throw_checked in E2. congruence. }
  pose proof (LRUKReplacer.SetEvictable_Return _ _ _ _ E2) as [Hsz2 _].
  exists r2. split; [done|]. split; [congruence|]. intros g.
  rewrite (tracked_SetEvictable _ _ _ _ g E2). apply (tracked_RecordAccess _ _ _ g E1).
Qed.

Lemma inv_touch s f r :
  inv s -> frame_ok s f -> touch (replacer_ s) f = Return tt r ->
  inv (set_replacer s r) /\ tracked r f.
Proof.
  intros Hinv Hf Hr.
  destruct (touch_Return (replacer_ s) f (replacer_accepts s f Hinv Hf))
    as (r' & Hr' & Hsz & Htr).
  rewrite Hr in Hr'. injection Hr' as <-. split; [|apply Htr; by left].
  apply inv_set_replacer; try done.
  - intros g [->|Hg]%Htr _; [done|]. by apply (inv_tracked s Hinv).
  - intros g [->|Hg]%Htr; [done|]. by apply (inv_tracked s Hinv).
  - intros pid g Hpid. apply Htr. right. by apply (inv_resident s Hinv pid g).
Qed.

Lemma inv_delete_entry s pid :
  inv s -> inv (set_page_table s (delete pid (page_table_ s))).
Proof.
  intros Hinv. split; simpl; try apply Hinv.
  intros pid' g [_ Hpid]%lookup_delete_Some. by apply (inv_resident s Hinv).
Qed.

(** A frame that is not free and that no page-table entry names can take a
    new page. *)
Lemma inv_install s f p :
  inv s -> frame_ok s f -> (f ∉ free_list_ s) ->
  (forall pid, page_table_ s !! pid <> Some f) ->
  tracked (replacer_ s) f ->
  inv (set_page_table (set_page s f p) (<[page_id_ p := f]> (page_table_ s))).
Proof.
  intros Hinv Hf Hfree Hnone Htr. split; simpl; try apply Hinv.
  - rewrite length_insert. apply Hinv.
  - intros pid g. rewrite lookup_insert. case_decide as Hpid.
    + intros [= <-]. subst pid. split; [done|]. split; [done|]. split; [|done].
      change (page_id_ (page_at (set_page s f p) f) = page_id_ p).
      rewrite page_at_set_page_same; [done|apply Hf|].
      rewrite (inv_pages s Hinv). unfold frame_ok in Hf. lia.
    + intros Hg. destruct (inv_resident s Hinv pid g Hg) as (Hgok & Hgfree & Hid & Hgtr).
      split; [done|]. split; [done|]. split; [|done].
      change (page_id_ (page_at (set_page s f p) g) = pid).
      rewrite page_at_set_page_other; [done|apply Hf|apply Hgok|].
      intros ->. by apply (Hnone pid).
Qed.

(** The frame that [find_frame] hands out. *)
Lemma find_frame_Some s f s1 :
  inv s -> find_frame s = (Some f, s1) ->
  inv s1 /\ frame_ok s1 f /\ (f ∉ free_list_ s1) /\
  (forall pid, page_table_ s1 !! pid <> Some f) /\
  pool_size_ s1 = pool_size_ s.
Proof.
  intros Hinv. unfold find_frame.
  destruct (free_list_ s) as [|f0 rest] eqn:Hfl.
  - (* a victim of the replacer *)
    destruct (LRUKReplacer.Evict (replacer_ s)) as [[c|] r] eqn:HE; [|done].
    destruct (LRUKReplacer.Evict_Some _ _ _ (pool_inv_keys_valid s Hinv) HE)
      as [(ci & Hci & _) Hr].
    assert (Hctr : tracked (replacer_ s) c) by (by apply (tracked_elem _ (c, ci))).
    assert (Hc : frame_ok s c) by (by apply (inv_tracked s Hinv)).
    set (old_page := page_at (set_replacer s r) c).
    assert (HinvA : inv (set_page_table (set_replacer s r)
                           (delete (page_id_ old_page) (page_table_ s)))).
    { split; simpl; try apply Hinv.
      - rewrite Hr. simpl. apply Hinv.
      - intros g Hg. apply (inv_tracked s Hinv). unfold tracked in *.
        rewrite Hr in Hg. simpl in Hg. by eapply tracked_erase.
      - intros pid g [Hne Hpid]%lookup_delete_Some.
        destruct (inv_resident s Hinv pid g Hpid) as (Hgok & Hgfree & Hid & Hgtr).
        split; [done|]. split; [done|]. split; [done|].
        unfold tracked. rewrite Hr. simpl.
        rewrite LRUKReplacer.ft_find_erase_other; [done|].
        intros ->. apply Hne. symmetry. done. }
    assert (HnoneA : forall pid,
              delete (page_id_ old_page) (page_table_ s) !! pid <> Some c).
    { intros pid [Hne Hpid]%lookup_delete_Some.
      destruct (inv_resident s Hinv pid c Hpid) as (_ & _ & Hid & _).
      apply Hne. symmetry. done. }
    intros [= <- <-].
    assert (Hrest : forall s1, pool_size_ s1 = pool_size_ s ->
              free_list_ s1 = free_list_ s ->
              page_table_ s1 = delete (page_id_ old_page) (page_table_ s) ->
              frame_ok s1 c /\ (c ∉ free_list_ s1) /\
              (forall pid, page_table_ s1 !! pid <> Some c) /\
              pool_size_ s1 = pool_size_ s).
    { intros s1 Hps Hfl1 Hpt1. unfold frame_ok. rewrite Hps, Hfl1, Hpt1, Hfl.
      split; [done|]. split; [apply not_elem_of_nil|]. done. }
    destruct (is_dirty_ old_page).
    + split; [|by apply Hrest].
      exact (inv_set_page _ c
               {| data := data old_page; page_id_ := page_id_ old_page;
                  pin_count_ := pin_count_ old_page; is_dirty_ := false |}
               (inv_set_disk _
                  (WritePage (disk_manager_ s) (page_id_ old_page) (data old_page))
                  HinvA)
               Hc eq_refl).
    + split; [done|]. by apply Hrest.
  - (* the head of the free list *)
    intros [= <- <-].
    pose proof (inv_free s Hinv) as Hfree. rewrite Hfl in Hfree.
    apply Forall_cons in Hfree as [Hf0 Hrest].
    pose proof (inv_free_nodup s Hinv) as Hnd. rewrite Hfl in Hnd.
    apply NoDup_cons in Hnd as [Hf0rest Hnd].
    assert (Hnone : forall pid, page_table_ s !! pid <> Some f0).
    { intros pid Hpid. destruct (inv_resident s Hinv pid f0 Hpid) as (_ & Hnf & _).
      apply Hnf. rewrite Hfl. left. }
    split; [|done]. split; simpl; try apply Hinv; try done.
    intros pid g Hpid.
    destruct (inv_resident s Hinv pid g Hpid) as (Hgok & Hgfree & Hid & Hgtr).
    split; [done|]. split; [|done]. intros Hin. apply Hgfree. rewrite Hfl. by right.
Qed.

Lemma find_frame_None s s1 : find_frame s = (None, s1) -> s1 = s.
Proof.
  unfold find_frame. destruct (free_list_ s); [|done].
  destruct (LRUKReplacer.Evict (replacer_ s)) as [[c|] r] eqn:HE; [done|].
  intros [= <-]. apply LRUKReplacer.Evict_None in HE as ->. apply set_replacer_same.
Qed.

(** A new page in a frame handed out by [find_frame], then [touch_frame]. *)
Lemma inv_install_touch {A} s f p (a : A) :
  inv s -> frame_ok s f -> (f ∉ free_list_ s) ->
  (forall pid, page_table_ s !! pid <> Some f) ->
  exists r,
    touch_frame (set_page_table (set_page s f p) (<[page_id_ p := f]> (page_table_ s))) f a
    = Return a
        (set_replacer
           (set_page_table (set_page s f p) (<[page_id_ p := f]> (page_table_ s))) r) /\
    touch (replacer_ s) f = Return tt r /\
    inv (set_replacer
           (set_page_table (set_page s f p) (<[page_id_ p := f]> (page_table_ s))) r).
Proof.
  intros Hinv Hf Hfree Hnone.
  destruct (touch_Return (replacer_ s) f (replacer_accepts s f Hinv Hf))
    as (r & Hr & _).
  exists r. unfold touch_frame. simpl. rewrite Hr. split; [done|]. split; [done|].
  destruct (inv_touch s f r Hinv Hf Hr) as [Hinv' Htr].
  by apply (inv_install (set_replacer s r) f p).
Qed.

Lemma inv_NewPgImp s : inv s -> inv (state_of (NewPgImp s)).
Proof.
  intros Hinv. unfold NewPgImp.
  destruct (find_frame s) as [[f|] s1] eqn:Hff.
  - destruct (find_frame_Some s f s1 Hinv Hff) as (Hinv1 & Hf & Hfree & Hnone & _).
    set (p := {| data := zero_data; page_id_ := next_page_id_ s1; pin_count_ := 1;
                 is_dirty_ := false |}).
    set (s2 := set_next_page_id s1 (next_page_id_ s1 + 1)).
    destruct (inv_install_touch s2 f p (Some (next_page_id_ s1, f))
                (inv_set_next_page_id _ _ Hinv1) Hf Hfree Hnone) as (r & HT & _ & Hinv').
    change (inv (state_of
      (touch_frame (set_page_table (set_page s2 f p) (<[page_id_ p := f]> (page_table_ s2)))
         f (Some (next_page_id_ s1, f))))).
    rewrite HT. done.
  - apply find_frame_None in Hff as ->. done.
Qed.

Lemma inv_FetchPgImp s pid : inv s -> inv (state_of (FetchPgImp s pid)).
Proof.
  intros Hinv. unfold FetchPgImp.
  destruct (page_table_ s !! pid) as [f|] eqn:Hpid.
  - destruct (inv_resident s Hinv pid f Hpid) as (Hf & _ & _ & _).
    set (p := {| data := data (page_at s f); page_id_ := page_id_ (page_at s f);
                 pin_count_ := pin_count_ (page_at s f) + 1;
                 is_dirty_ := is_dirty_ (page_at s f) |}).
    pose proof (inv_set_page s f p Hinv Hf eq_refl) as Hinv1.
    destruct (touch_Return (replacer_ (set_page s f p)) f
                (replacer_accepts _ f Hinv1 Hf)) as (r & Hr & _).
    unfold touch_frame. rewrite Hr. simpl.
    by apply (inv_touch (set_page s f p) f r).
  - destruct (find_frame s) as [[f|] s1] eqn:Hff.
    + destruct (find_frame_Some s f s1 Hinv Hff) as (Hinv1 & Hf & Hfree & Hnone & _).
      destruct (ReadPage (disk_manager_ s1) pid) as [bytes d] eqn:HR.
      set (p := {| data := bytes; page_id_ := pid; pin_count_ := 1;
                   is_dirty_ := false |}).
      destruct (inv_install_touch (set_disk s1 d) f p
                  (Some f) (inv_set_disk _ d Hinv1) Hf Hfree Hnone)
        as (r & HT & _ & Hinv').
      change (inv (state_of
        (touch_frame
           (set_page_table (set_page (set_disk s1 d) f p)
              (<[page_id_ p := f]> (page_table_ (set_disk s1 d))))
           f (Some f)))).
      rewrite HT. done.
    + apply find_frame_None in Hff as ->. done.
Qed.

Lemma inv_UnpinPgImp s pid d : inv s -> inv (state_of (UnpinPgImp s pid d)).
Proof.
  intros Hinv. unfold UnpinPgImp.
  destruct (page_table_ s !! pid) as [f|] eqn:Hpid; [|done].
  destruct (inv_resident s Hinv pid f Hpid) as (Hf & _ & _ & _).
  destruct (pin_count_ (page_at s f) <=? 0); [done|].
  set (p := {| data := data (page_at s f); page_id_ := page_id_ (page_at s f);
               pin_count_ := pin_count_ (page_at s f) - 1;
               is_dirty_ := if d then true else is_dirty_ (page_at s f) |}).
  pose proof (inv_set_page s f p Hinv Hf eq_refl) as Hinv1.
  simpl. destruct (pin_count_ (page_at s f) - 1 =? 0); [|done].
  destruct (LRUKReplacer.SetEvictable (replacer_ s) f true)
    as [[] r|r] eqn:E; simpl.
  - exact (pool_inv_SetEvictable (set_page s f p) f true r Hinv1 E).
  - apply LRUKReplacer.SetEvictable_Throw in E as ->.
    exact (eq_ind_r inv Hinv1 (set_replacer_same (set_page s f p))).
Qed.

Lemma inv_flush s f pid :
  inv s -> frame_ok s f ->
  inv (set_page (set_disk s (WritePage (disk_manager_ s) pid (data (page_at s f)))) f
         {| data := data (page_at s f); page_id_ := page_id_ (page_at s f);
            pin_count_ := pin_count_ (page_at s f); is_dirty_ := false |}).
Proof.
  intros Hinv Hf. apply inv_set_page; [by apply inv_set_disk|done|done].
Qed.

Lemma inv_FlushPgImp s pid : inv s -> inv (state_of (FlushPgImp s pid)).
Proof.
  intros Hinv. unfold FlushPgImp.
  destruct (page_table_ s !! pid) as [f|] eqn:Hpid; [|done].
  destruct (inv_resident s Hinv pid f Hpid) as (Hf & _ & _ & _).
  simpl. by apply inv_flush.
Qed.

Lemma inv_FlushAll_body s i :
  inv s -> 0 <= i < pool_size_ s ->
  inv (FlushAll_body s i) /\ pool_size_ (FlushAll_body s i) = pool_size_ s.
Proof.
  intros Hinv Hi. unfold FlushAll_body.
  destruct (negb (page_id_ (page_at s i) =? INVALID_PAGE_ID) && is_dirty_ (page_at s i));
    [|done].
  split; [|done]. by apply inv_flush.
Qed.

Lemma inv_FlushAllPgsImp s : inv s -> inv (FlushAllPgsImp s).
Proof.
  intros Hinv. unfold FlushAllPgsImp.
  assert (Hall : Forall (fun i => 0 <= i < pool_size_ s) (seqZ 0 (pool_size_ s))).
  { apply Forall_forall. intros i Hi%elem_of_seqZ. lia. }
  revert Hall. generalize (seqZ 0 (pool_size_ s)) as l.
  assert (Hgen : forall l s', inv s' -> pool_size_ s' = pool_size_ s ->
            Forall (fun i => 0 <= i < pool_size_ s) l ->
            inv (fold_left FlushAll_body l s')).
  { induction l as [|i l IH]; intros s' Hinv' Hsz Hall; simpl; [done|].
    apply Forall_cons in Hall as [Hi Hall].
    destruct (inv_FlushAll_body s' i Hinv') as [Hinv'' Hsz'']; [lia|].
    apply IH; [done|congruence|done]. }
  intros l Hall. by apply Hgen.
Qed.

Lemma inv_DeletePgImp s pid : inv s -> inv (state_of (DeletePgImp s pid)).
Proof.
  intros Hinv. unfold DeletePgImp.
  destruct (page_table_ s !! pid) as [f|] eqn:Hpid; [|done].
  destruct (inv_resident s Hinv pid f Hpid) as (Hf & Hffree & Hfid & Hftr).
  destruct (pin_count_ (page_at s f) >? 0); [done|].
  set (s1 := if is_dirty_ (page_at s f)
             then set_disk s (WritePage (disk_manager_ s) pid (data (page_at s f)))
             else s).
  assert (Hinv1 : inv s1) by (unfold s1; destruct (is_dirty_ _); [by apply inv_set_disk|done]).
  assert (Hsame : page_table_ s1 = page_table_ s /\ replacer_ s1 = replacer_ s /\
                  free_list_ s1 = free_list_ s /\ pool_size_ s1 = pool_size_ s /\
                  pages_ s1 = pages_ s).
  { unfold s1. by destruct (is_dirty_ _). }
  destruct Hsame as (Hpt & Hrep & Hfl & Hps & Hpg).
  pose proof (inv_delete_entry s1 pid Hinv1) as Hinv2.
  destruct (LRUKReplacer.Remove
              (replacer_ (set_page_table s1 (delete pid (page_table_ s1)))) f)
    as [[] r|r] eqn:E; simpl.
  2:{ apply LRUKReplacer.Remove_Throw in E as ->. by rewrite set_replacer_same. }
  simpl in E.
  pose proof (LRUKReplacer.Remove_Return _ _ _ E) as [Hsz Hr].
  assert (Hnone : forall pid' g,
            delete pid (page_table_ s1) !! pid' = Some g -> g <> f).
  { intros pid' g [Hne Hg]%lookup_delete_Some ->. rewrite Hpt in Hg.
    destruct (inv_resident s Hinv pid' f Hg) as (_ & _ & Hid & _). congruence. }
  split; simpl.
  - apply Hinv1.
  - rewrite length_insert. apply Hinv1.
  - rewrite Hsz. apply Hinv1.
  - apply Forall_app. split; [apply Hinv1|]. apply Forall_singleton.
    unfold frame_ok in *. simpl. lia.
  - apply NoDup_app. split; [apply Hinv1|]. split; [|apply NoDup_singleton].
    intros x Hx ->%list_elem_of_singleton. by rewrite Hfl in Hx.
  - intros g Hg. apply (inv_tracked s1 Hinv1). by eapply tracked_Remove.
  - intros pid' g Hg. pose proof (Hnone pid' g Hg) as Hgf.
    destruct (inv_resident _ Hinv2 pid' g Hg) as (Hgok & Hgfree & Hid & Hgtr).
    simpl in *. split; [done|]. split; [|split].
    + intros [Hin|Hin%list_elem_of_singleton]%elem_of_app; [by apply Hgfree|done].
    + change (page_id_ (page_at (set_page s1 f Page_default) g) = pid').
      rewrite page_at_set_page_other; [done| | |done].
      * unfold frame_ok in Hf. lia.
      * unfold frame_ok in Hgok. simpl in Hgok. lia.
    + destruct Hr as [->|Hr]; [done|]. unfold tracked. rewrite Hr.
      by rewrite LRUKReplacer.ft_find_erase_other.
Qed.

Lemma pool_step_inv s s' : inv s -> step s s' -> inv s'.
Proof.
  intros Hinv Hstep. destruct Hstep.
  - by apply inv_NewPgImp.
  - by apply inv_FetchPgImp.
  - by apply inv_UnpinPgImp.
  - by apply inv_FlushPgImp.
  - by apply inv_FlushAllPgsImp.
  - by apply inv_DeletePgImp.
  - by apply inv_set_page.
Qed.

Lemma pool_reachable_inv pool_size disk replacer_k s :
  0 <= pool_size < 2 ^ 31 -> reachable pool_size disk replacer_k s -> inv s.
Proof.
  intros Hp Hreach. induction Hreach as [|s s' _ IH Hstep].
  - by apply pool_inv_init.
  - by eapply pool_step_inv.
Qed.

(** *** Unpinning *)

(** The flag of a frame in the replacer. *)
Definition evictable (r : LRUKReplacer.t) (frame_id : Z) : option bool :=
  LRUKReplacer.is_evictable <$>
    LRUKReplacer.ft_find frame_id (LRUKReplacer.frame_table_ r).

(** C7. In every reachable state of the pool: [UnpinPgImp] returns false
    and changes nothing when the page is not resident or its pin count is
    already 0 (not positive); otherwise it returns true, the pin count of
    the page is one less, its dirty flag is set when [is_dirty] is true and
    kept when it is false, every other frame, the page table, the free
    list and the disk are as before, and the replacer is told that the
    frame is evictable exactly when the new pin count is 0: in that case
    the replacer is what [SetEvictable(frame, true)] returns and the flag
    of the frame is set, otherwise the replacer is as before. *)
Theorem UnpinPgImp_spec pool_size disk replacer_k s page_id is_dirty :
  0 <= pool_size < 2 ^ 31 ->
  reachable pool_size disk replacer_k s ->
  match page_table_ s !! page_id with
  | None => UnpinPgImp s page_id is_dirty = Return false s
  | Some frame_id =>
      let page := page_at s frame_id in
      if pin_count_ page <=? 0 then UnpinPgImp s page_id is_dirty = Return false s
      else
        exists s',
          UnpinPgImp s page_id is_dirty = Return true s' /\
          page_at s' frame_id =
            {| data := data page; page_id_ := page_id_ page;
               pin_count_ := pin_count_ page - 1;
               is_dirty_ := is_dirty || is_dirty_ page |} /\
          pages_ s' = <[Z.to_nat frame_id := page_at s' frame_id]> (pages_ s) /\
          page_table_ s' = page_table_ s /\
          free_list_ s' = free_list_ s /\
          disk_manager_ s' = disk_manager_ s /\
          next_page_id_ s' = next_page_id_ s /\
          pool_size_ s' = pool_size_ s /\
          (pin_count_ page - 1 = 0 ->
             LRUKReplacer.SetEvictable (replacer_ s) frame_id true
               = Return tt (replacer_ s') /\
             evictable (replacer_ s') frame_id = Some true) /\
          (pin_count_ page - 1 <> 0 -> replacer_ s' = replacer_ s)
  end.
Proof.
  intros Hp Hreach. pose proof (pool_reachable_inv _ _ _ _ Hp Hreach) as Hinv.
  unfold UnpinPgImp.
  destruct (page_table_ s !! page_id) as [f|] eqn:Hpid; [|done].
  destruct (inv_resident s Hinv page_id f Hpid) as (Hf & _ & _ & Htr).
  cbv zeta. destruct (pin_count_ (page_at s f) <=? 0); [done|].
  set (page := page_at s f).
  set (p := {| data := data page; page_id_ := page_id_ page;
               pin_count_ := pin_count_ page - 1;
               is_dirty_ := if is_dirty then true else is_dirty_ page |}).
  assert (Hp' : p = {| data := data page; page_id_ := page_id_ page;
                      pin_count_ := pin_count_ page - 1;
                      is_dirty_ := is_dirty || is_dirty_ page |}).
  { unfold p. by destruct is_dirty. }
  assert (Hat0 : page_at (set_page s f p) f = p).
  { apply page_at_set_page_same; [apply Hf|].
    rewrite (inv_pages s Hinv). unfold frame_ok in Hf. lia. }
  assert (Hat : forall r, page_at (set_replacer (set_page s f p) r) f = p).
  { intros r. exact Hat0. }
  simpl pin_count_.
  destruct (Z.eqb_spec (pin_count_ page - 1) 0) as [H0|H0].
  - destruct (LRUKReplacer.SetEvictable (replacer_ (set_page s f p)) f true)
      as [[] r|r] eqn:E.
    2:{ apply LRUKReplacer.SetEvictable_Throw_checked in E.
        pose proof (replacer_accepts s f Hinv Hf). simpl in E. congruence. }
    exists (set_replacer (set_page s f p) r). split; [done|].
    rewrite Hat, <- Hp'. split; [done|]. simpl.
    do 6 (split; [done|]). split; [|done]. intros _. split; [done|].
    simpl in E. unfold evictable.
    unfold LRUKReplacer.SetEvictable in E.
    rewrite (replacer_accepts s f Hinv Hf) in E.
    destruct Htr as [fi Hfi]. rewrite Hfi in E.
    destruct (LRUKReplacer.is_evictable fi) eqn:Hev; simpl in E; injection E as <-.
    + (* the flag was set already *)
      by rewrite Hfi, <- Hev.
    + simpl. by rewrite LRUKReplacer.ft_find_set, Z.eqb_refl.
  - exists (set_page s f p). split; [done|].
    rewrite Hat0, <- Hp'. split; [done|]. simpl.
    do 6 (split; [done|]). split; done.
Qed.

(** *** Eviction of a dirty page *)

(** C2. In every reachable state of the pool with an empty free list in
    which the replacer gives up frame [frame_id] and the page in that
    frame is dirty: the first step of [NewPgImp] and of [FetchPgImp]
    ([find_frame]) calls [WritePage] with the id and the bytes of the
    victim, clears its dirty flag and removes the victim's page id from
    the page table; [NewPgImp] then returns the frame with the fresh page
    id, and [FetchPgImp] of a page that is not resident reads that page
    from the disk after the write; in both, the only entry that the page
    table gains is the one of the new page. *)
Theorem dirty_victim_written_before_reuse pool_size disk replacer_k s frame_id r :
  0 <= pool_size < 2 ^ 31 ->
  reachable pool_size disk replacer_k s ->
  free_list_ s = [] ->
  LRUKReplacer.Evict (replacer_ s) = (Some frame_id, r) ->
  is_dirty_ (page_at s frame_id) = true ->
  let old := page_at s frame_id in
  let written := WritePage (disk_manager_ s) (page_id_ old) (data old) in
  calls written = calls (disk_manager_ s) ++ [WritePage_call (page_id_ old) (data old)] /\
  (exists s1,
     find_frame s = (Some frame_id, s1) /\
     disk_manager_ s1 = written /\
     is_dirty_ (page_at s1 frame_id) = false /\
     page_table_ s1 = delete (page_id_ old) (page_table_ s) /\
     page_table_ s1 !! page_id_ old = None) /\
  (exists s',
     NewPgImp s = Return (Some (next_page_id_ s, frame_id)) s' /\
     disk_manager_ s' = written /\
     page_table_ s' =
       <[next_page_id_ s := frame_id]> (delete (page_id_ old) (page_table_ s)) /\
     page_at s' frame_id =
       {| data := zero_data; page_id_ := next_page_id_ s; pin_count_ := 1;
          is_dirty_ := false |}) /\
  (forall page_id,
     page_table_ s !! page_id = None ->
     exists s',
       FetchPgImp s page_id = Return (Some frame_id) s' /\
       calls (disk_manager_ s') =
         calls (disk_manager_ s)
           ++ [WritePage_call (page_id_ old) (data old); ReadPage_call page_id] /\
       page_table_ s' =
         <[page_id := frame_id]> (delete (page_id_ old) (page_table_ s)) /\
       page_at s' frame_id =
         {| data := fst (ReadPage written page_id); page_id_ := page_id;
            pin_count_ := 1; is_dirty_ := false |}).
Proof.
  intros Hp Hreach Hfl HE Hdirty old written.
  pose proof (pool_reachable_inv _ _ _ _ Hp Hreach) as Hinv.
  set (cleared := {| data := data old; page_id_ := page_id_ old;
                     pin_count_ := pin_count_ old; is_dirty_ := false |}).
  set (s1 := set_page_table
               (set_page (set_disk (set_replacer s r) written) frame_id cleared)
               (delete (page_id_ old) (page_table_ s))).
  assert (Hff : find_frame s = (Some frame_id, s1)).
  { unfold find_frame. rewrite Hfl, HE.
    change (page_at (set_replacer s r) frame_id) with old.
    assert (Hd : is_dirty_ old = true) by exact Hdirty.
    rewrite Hd. done. }
  destruct (find_frame_Some s frame_id s1 Hinv Hff) as (Hinv1 & Hf & Hfree & Hnone & _).
  assert (Hlen : (Z.to_nat frame_id < length (pages_ s))%nat).
  { rewrite (inv_pages s Hinv). unfold frame_ok in Hf. simpl in Hf. lia. }
  split; [done|]. split; [|split].
  - exists s1. split; [done|]. split; [done|]. split; [|split; [done|]].
    + change (is_dirty_ (page_at (set_page s frame_id cleared) frame_id) = false).
      rewrite page_at_set_page_same; [done|apply Hf|done].
    + apply lookup_delete_eq.
  - (* NewPgImp *)
    set (p := {| data := zero_data; page_id_ := next_page_id_ s1; pin_count_ := 1;
                 is_dirty_ := false |}).
    set (s2 := set_next_page_id s1 (next_page_id_ s1 + 1)).
    destruct (inv_install_touch s2 frame_id p (Some (next_page_id_ s1, frame_id))
                (inv_set_next_page_id _ _ Hinv1) Hf Hfree Hnone) as (r' & HT & _ & _).
    exists (set_replacer
              (set_page_table (set_page s2 frame_id p)
                 (<[page_id_ p := frame_id]> (page_table_ s2))) r').
    split.
    + unfold NewPgImp. rewrite Hff. exact HT.
    + split; [done|]. split; [done|].
      change (page_at (set_page s2 frame_id p) frame_id = p).
      apply page_at_set_page_same; [apply Hf|]. simpl. by rewrite length_insert.
  - (* FetchPgImp *)
    intros page_id Hpid.
    set (p := {| data := fst (ReadPage written page_id); page_id_ := page_id;
                 pin_count_ := 1; is_dirty_ := false |}).
    set (d := snd (ReadPage written page_id)).
    destruct (inv_install_touch (set_disk s1 d) frame_id p (Some frame_id)
                (inv_set_disk _ d Hinv1) Hf Hfree Hnone) as (r' & HT & _ & _).
    exists (set_replacer
              (set_page_table (set_page (set_disk s1 d) frame_id p)
                 (<[page_id_ p := frame_id]> (page_table_ (set_disk s1 d)))) r').
    split.
    + unfold FetchPgImp. rewrite Hpid, Hff. exact HT.
    + split; [|split; [done|]].
      * simpl. by rewrite <- app_assoc.
      * change (page_at (set_page (set_disk s1 d) frame_id p) frame_id = p).
        apply page_at_set_page_same; [apply Hf|]. simpl. by rewrite length_insert.
Qed.

(** *** Two pools *)

Definition empty_disk : DiskManager := {| stored := ∅; calls := [] |}.

(** A pool of two frames after one [NewPgImp]: page 0 is pinned once. *)
Definition example_pinned : t :=
  state_of (NewPgImp (BufferPoolManagerInstance 2 empty_disk 2)).

Lemma example_pinned_reachable : reachable 2 empty_disk 2 example_pinned.
Proof. eapply reach_step; [apply reach_init|apply step_NewPg]. Defined.

Lemma UnpinPgImp_spec_witness :
  0 <= 2 < 2 ^ 31 /\
  reachable 2 empty_disk 2 example_pinned /\
  exists s',
    UnpinPgImp example_pinned 0 true = Return true s' /\
    pin_count_ (page_at s' 0) = 0 /\
    is_dirty_ (page_at s' 0) = true /\
    evictable (replacer_ s') 0 = Some true.
Proof.
  assert (Hp : 0 <= 2 < 2 ^ 31) by lia.
  split; [done|]. split; [apply example_pinned_reachable|].
  pose proof (UnpinPgImp_spec 2 empty_disk 2 example_pinned 0 true Hp
                example_pinned_reachable) as H.
  assert (Hpt : page_table_ example_pinned !! 0 = Some 0) by (vm_compute; reflexivity).
  rewrite Hpt in H. cbv zeta in H.
  assert (Hpin : pin_count_ (page_at example_pinned 0) = 1) by (vm_compute; reflexivity).
  rewrite Hpin in H. simpl Z.leb in H. cbv iota in H.
  destruct H as (s' & HU & Hpage & _ & _ & _ & _ & _ & _ & Hev & _).
  exists s'. split; [done|]. rewrite Hpage. simpl.
  split; [done|]. split; [done|]. by apply Hev.
Defined.

(** A pool of one frame whose only page was unpinned dirty: the free list
    is empty and the replacer gives up frame 0. *)
Definition example_dirty : t :=
  let s0 := BufferPoolManagerInstance 1 empty_disk 2 in
  let s1 := state_of (NewPgImp s0) in
  state_of (UnpinPgImp s1 0 true).

Lemma example_dirty_reachable : reachable 1 empty_disk 2 example_dirty.
Proof.
  eapply reach_step; [eapply reach_step; [apply reach_init|apply step_NewPg]|].
  apply step_UnpinPg.
Defined.

Lemma dirty_victim_written_before_reuse_witness :
  0 <= 1 < 2 ^ 31 /\
  reachable 1 empty_disk 2 example_dirty /\
  free_list_ example_dirty = [] /\
  fst (LRUKReplacer.Evict (replacer_ example_dirty)) = Some 0 /\
  is_dirty_ (page_at example_dirty 0) = true /\
  exists s',
    NewPgImp example_dirty = Return (Some (1, 0)) s' /\
    calls (disk_manager_ s') = [WritePage_call 0 zero_data] /\
    page_table_ s' !! 0 = None.
Proof.
  assert (Hp : 0 <= 1 < 2 ^ 31) by lia.
  assert (Hfl : free_list_ example_dirty = []) by (vm_compute; reflexivity).
  assert (HE : LRUKReplacer.Evict (replacer_ example_dirty)
               = (Some 0, snd (LRUKReplacer.Evict (replacer_ example_dirty))))
    by (vm_compute; reflexivity).
  assert (Hd : is_dirty_ (page_at example_dirty 0) = true) by (vm_compute; reflexivity).
  split; [done|]. split; [apply example_dirty_reachable|]. split; [done|].
  split; [by rewrite HE|]. split; [done|].
  destruct (dirty_victim_written_before_reuse 1 empty_disk 2 example_dirty 0 _ Hp
              example_dirty_reachable Hfl HE Hd)
    as (_ & _ & (s' & HN & Hdisk & Hpt & _) & _).
  exists s'. split; [exact HN|]. split.
  - rewrite Hdisk. vm_compute. reflexivity.
  - rewrite Hpt. vm_compute. reflexivity.
Defined.
(** *** Pools whose clients fetch the pages that were allocated *)

(** The calls of a client that fetches only page ids that [NewPgImp] has
    handed out ([AllocatePage] counts them from 0). *)
Inductive used_step : t -> t -> Prop :=
| used_NewPg s : used_step s (state_of (NewPgImp s))
| used_FetchPg s page_id :
    page_id < next_page_id_ s -> used_step s (state_of (FetchPgImp s page_id))
| used_UnpinPg s page_id is_dirty :
    used_step s (state_of (UnpinPgImp s page_id is_dirty))
| used_FlushPg s page_id : used_step s (state_of (FlushPgImp s page_id))
| used_FlushAllPgs s : used_step s (FlushAllPgsImp s)
| used_DeletePg s page_id : used_step s (state_of (DeletePgImp s page_id))
| used_write_data s frame_id bytes :
    0 <= frame_id < pool_size_ s ->
    used_step s
      (set_page s frame_id
         {| data := bytes; page_id_ := page_id_ (page_at s frame_id);
            pin_count_ := pin_count_ (page_at s frame_id);
            is_dirty_ := is_dirty_ (page_at s frame_id) |}).

Inductive well_used (pool_size : Z) (disk : DiskManager) (replacer_k : Z) : t -> Prop :=
| used_init :
    well_used pool_size disk replacer_k
      (BufferPoolManagerInstance pool_size disk replacer_k)
| used_next s s' :
    well_used pool_size disk replacer_k s -> used_step s s' ->
    well_used pool_size disk replacer_k s'.

Lemma used_step_step s s' : used_step s s' -> step s s'.
Proof. intros []; by constructor. Qed.

Lemma well_used_reachable pool_size disk replacer_k s :
  well_used pool_size disk replacer_k s -> reachable pool_size disk replacer_k s.
Proof.
  induction 1 as [|s s' _ IH Hstep]; [apply reach_init|].
  eapply reach_step; [exact IH|by apply used_step_step].
Qed.

(** What holds of pins, flags and frames in such a pool: resident page
    ids have been allocated; the replacer tracks the frames of the
    resident pages only; the flag of such a frame is set exactly when its
    pin count is 0, and pin counts are not negative; a frame is free or
    holds a resident page. *)
Record pins_ok (s : t) : Prop := mkPins {
  pins_counted : LRUKReplacer.counted (replacer_ s);
  pins_next :
    forall page_id frame_id,
      page_table_ s !! page_id = Some frame_id -> page_id < next_page_id_ s;
  pins_tracked :
    forall frame_id, tracked (replacer_ s) frame_id ->
      exists page_id, page_table_ s !! page_id = Some frame_id;
  pins_flag :
    forall page_id frame_id,
      page_table_ s !! page_id = Some frame_id ->
      0 <= pin_count_ (page_at s frame_id) /\
      evictable (replacer_ s) frame_id = Some (pin_count_ (page_at s frame_id) =? 0);
  pins_frames :
    forall frame_id, frame_ok s frame_id ->
      frame_id ∈ free_list_ s \/ exists page_id, page_table_ s !! page_id = Some frame_id
}.

(** The state between taking the frame [f] (from the free list or from
    its evicted page) and installing a page in it. *)
Record taken (s : t) (f : Z) : Prop := mkTaken {
  taken_inv : inv s;
  taken_counted : LRUKReplacer.counted (replacer_ s);
  taken_next :
    forall page_id frame_id,
      page_table_ s !! page_id = Some frame_id -> page_id < next_page_id_ s;
  taken_tracked :
    forall frame_id, tracked (replacer_ s) frame_id ->
      exists page_id, page_table_ s !! page_id = Some frame_id;
  taken_flag :
    forall page_id frame_id,
      page_table_ s !! page_id = Some frame_id ->
      0 <= pin_count_ (page_at s frame_id) /\
      evictable (replacer_ s) frame_id = Some (pin_count_ (page_at s frame_id) =? 0);
  taken_frames :
    forall frame_id, frame_ok s frame_id -> frame_id <> f ->
      frame_id ∈ free_list_ s \/ exists page_id, page_table_ s !! page_id = Some frame_id;
  taken_ok : frame_ok s f;
  taken_free : f ∉ free_list_ s;
  taken_resident : forall page_id, page_table_ s !! page_id <> Some f
}.

Lemma tracked_evictable r f : tracked r f <-> is_Some (evictable r f).
Proof.
  unfold tracked, evictable.
  destruct (LRUKReplacer.ft_find f (LRUKReplacer.frame_table_ r)); simpl.
  - split; intros _; by eexists.
  - split; intros [? ?]; done.
Qed.

Lemma page_at_set_page_table s pt f : page_at (set_page_table s pt) f = page_at s f.
Proof. done. Qed.

Lemma page_at_set_replacer s r f : page_at (set_replacer s r) f = page_at s f.
Proof. done. Qed.

Lemma page_at_set_disk s d f : page_at (set_disk s d) f = page_at s f.
Proof. done. Qed.

Lemma page_at_set_free_list s fl f : page_at (set_free_list s fl) f = page_at s f.
Proof. done. Qed.

Lemma page_at_set_next_page_id s n f : page_at (set_next_page_id s n) f = page_at s f.
Proof. done. Qed.

Lemma evictable_flag_of r f : evictable r f = LRUKReplacer.flag_of r f.
Proof. done. Qed.

Lemma frame_in_range s f :
  inv s -> frame_ok s f -> 0 <= f <= LRUKReplacer.replacer_size_ (replacer_ s).
Proof. intros Hinv Hf. rewrite (inv_replacer_size s Hinv). unfold frame_ok in Hf. lia. Qed.

Lemma counted_touch r f r' :
  LRUKReplacer.counted r -> 0 <= f <= LRUKReplacer.replacer_size_ r ->
  touch r f = Return tt r' ->
  LRUKReplacer.counted r' /\
  forall g, evictable r' g = if g =? f then Some false else evictable r g.
Proof.
  intros Hc Hf. unfold touch.
  destruct (LRUKReplacer.RecordAccess r f) as [[] r1|r1] eqn:E1; [|done].
  intros E2.
  destruct (LRUKReplacer.counted_RecordAccess r f r1 Hc Hf E1) as [Hc1 Hfl1].
  destruct (LRUKReplacer.counted_SetEvictable r1 f false r' Hc1 E2) as [Hc2 Hfl2].
  split; [done|]. intros g.
  change (evictable r' g) with (LRUKReplacer.flag_of r' g).
  rewrite Hfl2. destruct (Z.eqb_spec g f) as [->|Hne].
  - rewrite Hfl1, Z.eqb_refl. done.
  - rewrite Hfl1. by destruct (Z.eqb_spec g f).
Qed.

Lemma page_table_injective s pid1 pid2 f :
  inv s -> page_table_ s !! pid1 = Some f -> page_table_ s !! pid2 = Some f ->
  pid1 = pid2.
Proof.
  intros Hinv H1 H2.
  destruct (inv_resident s Hinv pid1 f H1) as (_ & _ & <- & _).
  by destruct (inv_resident s Hinv pid2 f H2) as (_ & _ & <- & _).
Qed.

Lemma pins_ok_init pool_size disk replacer_k :
  0 <= pool_size < 2 ^ 31 ->
  pins_ok (BufferPoolManagerInstance pool_size disk replacer_k).
Proof.
  intros Hp. split; simpl.
  - by apply LRUKReplacer.counted_init.
  - intros pid f H. by rewrite lookup_empty in H.
  - intros f [? H]. done.
  - intros pid f H. by rewrite lookup_empty in H.
  - intros f Hf. left. apply elem_of_seqZ. unfold frame_ok in Hf. simpl in Hf. lia.
Qed.

Lemma find_frame_taken s f s1 :
  inv s -> pins_ok s -> find_frame s = (Some f, s1) ->
  taken s1 f /\ next_page_id_ s1 = next_page_id_ s.
Proof.
  intros Hinv Hpins Hff.
  destruct (find_frame_Some s f s1 Hinv Hff) as (Hinv1 & Hf & Hfree & Hnone & Hps).
  revert Hff Hinv1 Hf Hfree Hnone Hps. unfold find_frame.
  destruct (free_list_ s) as [|f0 rest] eqn:Hfl.
  - destruct (LRUKReplacer.counted_Evict (replacer_ s) (pins_counted s Hpins))
      as [[HE _]|(c & r & HE & Hflag & Hcnt & _ & Hflags)];
      rewrite HE; [done|].
    assert (Hctr : tracked (replacer_ s) c).
    { apply tracked_evictable. rewrite evictable_flag_of, Hflag. by eexists. }
    destruct (pins_tracked s Hpins c Hctr) as [pidc Hpidc].
    destruct (inv_resident s Hinv pidc c Hpidc) as (Hcok & _ & Hcid & _).
    set (old_page := page_at (set_replacer s r) c).
    assert (Hold : page_id_ old_page = pidc) by exact Hcid.
    set (s2 := if is_dirty_ old_page then _ else _).
    intros [= <- <-] Hinv1 Hf Hfree Hnone Hps.
    assert (Hsame : page_table_ s2 = page_table_ s /\ replacer_ s2 = r /\
                    free_list_ s2 = [] /\ next_page_id_ s2 = next_page_id_ s /\
                    pool_size_ s2 = pool_size_ s /\
                    forall g, 0 <= g -> g <> c ->
                      pin_count_ (page_at s2 g) = pin_count_ (page_at s g)).
    { unfold s2. destruct (is_dirty_ old_page); simpl.
      - do 5 (split; [done|]). intros g Hg Hgc.
        change (pin_count_ (page_at (set_page s c
                  {| data := data old_page; page_id_ := page_id_ old_page;
                     pin_count_ := pin_count_ old_page; is_dirty_ := false |}) g)
                = pin_count_ (page_at s g)).
        rewrite page_at_set_page_other; [done| |done|done].
        unfold frame_ok in Hcok. lia.
      - by do 5 (split; [done|]). }
    destruct Hsame as (Hpt & Hrep & Hfl2 & Hnx & _ & Hpin).
    split; [|by simpl].
    split; simpl; try done.
    + by rewrite Hrep.
    + intros pid g. rewrite Hpt. intros [_ Hg]%lookup_delete_Some.
      rewrite Hnx. by apply (pins_next s Hpins pid g).
    + intros g Hg. rewrite Hrep in Hg. apply tracked_evictable in Hg.
      change (evictable r g) with (LRUKReplacer.flag_of r g) in Hg.
      rewrite Hflags in Hg. destruct (Z.eqb_spec g c) as [Heq|Hgc].
      { by destruct Hg. }
      apply tracked_evictable in Hg.
      destruct (pins_tracked s Hpins g Hg) as [pid Hpid].
      exists pid. rewrite Hpt. apply lookup_delete_Some. split; [|done].
      intros <-. rewrite Hold in Hpid. congruence.
    + intros pid g. rewrite Hpt. intros [Hne Hg]%lookup_delete_Some.
      assert (Hgc : g <> c).
      { intros ->. apply Hne. rewrite Hold.
        by apply (page_table_injective s pidc pid c). }
      destruct (inv_resident s Hinv pid g Hg) as (Hgok & _).
      destruct (pins_flag s Hpins pid g Hg) as [Hp0 Hev].
      rewrite page_at_set_page_table.
      rewrite Hpin; [|unfold frame_ok in Hgok; lia|done].
      split; [done|]. rewrite Hrep.
      change (evictable r g) with (LRUKReplacer.flag_of r g).
      rewrite Hflags. by destruct (Z.eqb_spec g c).
    + intros g Hg Hgc. right.
      assert (Hg' : frame_ok s g) by (unfold frame_ok in *; simpl in *; lia).
      destruct (pins_frames s Hpins g Hg') as [Hin|[pid Hpid]].
      { rewrite Hfl in Hin. by apply elem_of_nil in Hin. }
      exists pid. rewrite Hpt. apply lookup_delete_Some. split; [|done].
      intros <-. rewrite Hold in Hpid. congruence.
  - intros [= <- <-] Hinv1 Hf Hfree Hnone Hps. split; [|done].
    split; simpl; try done.
    + apply Hpins.
    + apply (pins_next s Hpins).
    + apply (pins_tracked s Hpins).
    + apply (pins_flag s Hpins).
    + intros g Hg Hgf.
      destruct (pins_frames s Hpins g Hg) as [Hin|Hres]; [|by right].
      left. rewrite Hfl in Hin. apply elem_of_cons in Hin as [->|Hin]; done.
Qed.

Lemma taken_install {A} s f p (a : A) :
  taken s f ->
  page_id_ p < next_page_id_ s ->
  page_table_ s !! page_id_ p = None ->
  pin_count_ p = 1 ->
  exists r,
    touch_frame (set_page_table (set_page s f p) (<[page_id_ p := f]> (page_table_ s))) f a
    = Return a
        (set_replacer
           (set_page_table (set_page s f p) (<[page_id_ p := f]> (page_table_ s))) r) /\
    inv (set_replacer
           (set_page_table (set_page s f p) (<[page_id_ p := f]> (page_table_ s))) r) /\
    pins_ok (set_replacer
               (set_page_table (set_page s f p) (<[page_id_ p := f]> (page_table_ s))) r).
Proof.
  intros Ht Hnext Hfresh Hpin.
  pose proof (taken_inv s f Ht) as Hinv. pose proof (taken_ok s f Ht) as Hf.
  destruct (inv_install_touch s f p a Hinv Hf (taken_free s f Ht) (taken_resident s f Ht))
    as (r & HT & Htouch & Hinv').
  destruct (counted_touch (replacer_ s) f r (taken_counted s f Ht)
              (frame_in_range s f Hinv Hf) Htouch) as [Hcnt Hflags].
  exists r. split; [done|]. split; [done|].
  assert (Hat : page_at (set_page s f p) f = p).
  { apply page_at_set_page_same; [apply Hf|].
    rewrite (inv_pages s Hinv). unfold frame_ok in Hf. lia. }
  split; simpl.
  - done.
  - intros pid g [[<- <-]|[Hne Hg]]%lookup_insert_Some; [done|].
    by apply (taken_next s f Ht pid g).
  - intros g Hg. apply tracked_evictable in Hg. rewrite Hflags in Hg.
    destruct (Z.eqb_spec g f) as [Heq|Hgf].
    { exists (page_id_ p). rewrite Heq. by rewrite lookup_insert_eq. }
    apply tracked_evictable in Hg.
    destruct (taken_tracked s f Ht g Hg) as [pid Hpid]. exists pid.
    rewrite lookup_insert_ne; [done|]. intros Heq. congruence.
  - intros pid g [[<- <-]|[Hne Hg]]%lookup_insert_Some.
    + rewrite page_at_set_replacer, page_at_set_page_table, Hat, Hpin.
      split; [done|]. by rewrite Hflags, Z.eqb_refl.
    + assert (Hgf : g <> f).
      { intros ->. by apply (taken_resident s f Ht pid). }
      destruct (inv_resident s Hinv pid g Hg) as (Hgok & _).
      destruct (taken_flag s f Ht pid g Hg) as [Hp0 Hev].
      rewrite page_at_set_replacer, page_at_set_page_table.
      rewrite page_at_set_page_other;
        [|unfold frame_ok in Hf; lia|unfold frame_ok in Hgok; lia|done].
      split; [done|]. rewrite Hflags. by destruct (Z.eqb_spec g f).
  - intros g Hg. destruct (decide (g = f)) as [->|Hgf].
    { right. exists (page_id_ p). by rewrite lookup_insert_eq. }
    destruct (taken_frames s f Ht g Hg Hgf) as [Hin|[pid Hpid]]; [by left|].
    right. exists pid. rewrite lookup_insert_ne; [done|]. intros Heq. congruence.
Qed.

Lemma taken_set_next_page_id s f n :
  taken s f -> next_page_id_ s <= n -> taken (set_next_page_id s n) f.
Proof.
  intros Ht Hn. split; simpl.
  - apply inv_set_next_page_id, (taken_inv s f Ht).
  - apply (taken_counted s f Ht).
  - intros pid g Hg. pose proof (taken_next s f Ht pid g Hg). lia.
  - apply (taken_tracked s f Ht).
  - apply (taken_flag s f Ht).
  - apply (taken_frames s f Ht).
  - apply (taken_ok s f Ht).
  - apply (taken_free s f Ht).
  - apply (taken_resident s f Ht).
Qed.

Lemma taken_set_disk s f d : taken s f -> taken (set_disk s d) f.
Proof.
  intros Ht. split; simpl.
  - apply inv_set_disk, (taken_inv s f Ht).
  - apply (taken_counted s f Ht).
  - apply (taken_next s f Ht).
  - apply (taken_tracked s f Ht).
  - apply (taken_flag s f Ht).
  - apply (taken_frames s f Ht).
  - apply (taken_ok s f Ht).
  - apply (taken_free s f Ht).
  - apply (taken_resident s f Ht).
Qed.

Lemma pins_NewPgImp s : inv s -> pins_ok s -> pins_ok (state_of (NewPgImp s)).
Proof.
  intros Hinv Hpins. unfold NewPgImp.
  destruct (find_frame s) as [[f|] s1] eqn:Hff.
  - destruct (find_frame_taken s f s1 Hinv Hpins Hff) as [Ht Hnx].
    set (p := {| data := zero_data; page_id_ := next_page_id_ s1; pin_count_ := 1;
                 is_dirty_ := false |}).
    set (s2 := set_next_page_id s1 (next_page_id_ s1 + 1)).
    assert (Ht2 : taken s2 f) by (apply taken_set_next_page_id; [done|lia]).
    assert (Hfresh : page_table_ s2 !! page_id_ p = None).
    { destruct (page_table_ s2 !! page_id_ p) as [g|] eqn:Hg; [|done].
      pose proof (taken_next s1 f Ht _ g Hg). simpl in *. lia. }
    destruct (taken_install s2 f p (Some (next_page_id_ s1, f)) Ht2)
      as (r & HT & _ & Hpins'); [simpl; lia|done|done|].
    change (pins_ok (state_of
      (touch_frame (set_page_table (set_page s2 f p) (<[page_id_ p := f]> (page_table_ s2)))
         f (Some (next_page_id_ s1, f))))).
    rewrite HT. done.
  - apply find_frame_None in Hff as ->. done.
Qed.

Lemma pins_set_disk s d : pins_ok s -> pins_ok (set_disk s d).
Proof. intros Hpins. split; simpl; apply Hpins. Qed.

(** A write to a frame that keeps the pin count. *)
Lemma pins_set_page s f p :
  inv s -> pins_ok s -> frame_ok s f ->
  pin_count_ p = pin_count_ (page_at s f) ->
  pins_ok (set_page s f p).
Proof.
  intros Hinv Hpins Hf Hpin.
  assert (Hat : forall g, frame_ok s g ->
            pin_count_ (page_at (set_page s f p) g) = pin_count_ (page_at s g)).
  { intros g Hg. destruct (decide (g = f)) as [->|Hgf].
    - rewrite page_at_set_page_same; [done|apply Hf|].
      rewrite (inv_pages s Hinv). unfold frame_ok in Hf. lia.
    - rewrite page_at_set_page_other; [done| | |done]; unfold frame_ok in *; lia. }
  split; simpl.
  - apply Hpins.
  - apply (pins_next s Hpins).
  - apply (pins_tracked s Hpins).
  - intros pid g Hg. destruct (inv_resident s Hinv pid g Hg) as (Hgok & _).
    rewrite (Hat g Hgok). by apply (pins_flag s Hpins pid).
  - apply (pins_frames s Hpins).
Qed.

Lemma pins_FetchPgImp s pid :
  inv s -> pins_ok s -> pid < next_page_id_ s ->
  pins_ok (state_of (FetchPgImp s pid)).
Proof.
  intros Hinv Hpins Hpid. unfold FetchPgImp.
  destruct (page_table_ s !! pid) as [f|] eqn:Hres.
  - destruct (inv_resident s Hinv pid f Hres) as (Hf & _ & _ & _).
    destruct (pins_flag s Hpins pid f Hres) as [Hp0 _].
    set (p := {| data := data (page_at s f); page_id_ := page_id_ (page_at s f);
                 pin_count_ := pin_count_ (page_at s f) + 1;
                 is_dirty_ := is_dirty_ (page_at s f) |}).
    pose proof (inv_set_page s f p Hinv Hf eq_refl) as Hinv1.
    destruct (touch_Return (replacer_ (set_page s f p)) f
                (replacer_accepts _ f Hinv1 Hf)) as (r & Hr & _).
    unfold touch_frame. rewrite Hr. simpl.
    destruct (counted_touch (replacer_ s) f r (pins_counted s Hpins)
                (frame_in_range s f Hinv Hf) Hr) as [Hcnt Hflags].
    assert (Hat : page_at (set_page s f p) f = p).
    { apply page_at_set_page_same; [apply Hf|].
      rewrite (inv_pages s Hinv). unfold frame_ok in Hf. lia. }
    split; simpl.
    + done.
    + apply (pins_next s Hpins).
    + intros g Hg. apply tracked_evictable in Hg. rewrite Hflags in Hg.
      destruct (Z.eqb_spec g f) as [Heq|Hgf]; [exists pid; by rewrite Heq|].
      apply tracked_evictable in Hg. by apply (pins_tracked s Hpins).
    + intros pid' g Hg. rewrite page_at_set_replacer, Hflags.
      destruct (Z.eqb_spec g f) as [Heq|Hgf].
      * rewrite Heq, Hat. simpl. split; [lia|]. f_equal. symmetry. apply Z.eqb_neq. lia.
      * destruct (inv_resident s Hinv pid' g Hg) as (Hgok & _).
        rewrite page_at_set_page_other;
          [|unfold frame_ok in Hf; lia|unfold frame_ok in Hgok; lia|done].
        by apply (pins_flag s Hpins pid').
    + apply (pins_frames s Hpins).
  - destruct (find_frame s) as [[f|] s1] eqn:Hff.
    + destruct (find_frame_taken s f s1 Hinv Hpins Hff) as [Ht Hnx].
      assert (Hres1 : page_table_ s1 !! pid = None).
      { destruct (page_table_ s1 !! pid) as [g|] eqn:Hg; [|done].
        revert Hff Hg. unfold find_frame.
        destruct (free_list_ s); [|intros [= <- <-]; simpl; congruence].
        destruct (LRUKReplacer.Evict (replacer_ s)) as [[c|] r]; [|done].
        intros [= <- <-]. simpl.
        intros [_ Hg]%lookup_delete_Some. revert Hg.
        destruct (is_dirty_ (page_at (set_replacer s r) c)); simpl; congruence. }
      destruct (ReadPage (disk_manager_ s1) pid) as [bytes d] eqn:HR.
      set (p := {| data := bytes; page_id_ := pid; pin_count_ := 1;
                   is_dirty_ := false |}).
      destruct (taken_install (set_disk s1 d) f p (Some f) (taken_set_disk s1 f d Ht))
        as (r & HT & _ & Hpins'); [simpl; lia|done|done|].
      change (pins_ok (state_of
        (touch_frame
           (set_page_table (set_page (set_disk s1 d) f p)
              (<[page_id_ p := f]> (page_table_ (set_disk s1 d))))
           f (Some f)))).
      rewrite HT. done.
    + apply find_frame_None in Hff as ->. done.
Qed.

Lemma pins_UnpinPgImp s pid d :
  inv s -> pins_ok s -> pins_ok (state_of (UnpinPgImp s pid d)).
Proof.
  intros Hinv Hpins. unfold UnpinPgImp.
  destruct (page_table_ s !! pid) as [f|] eqn:Hres; [|done].
  destruct (inv_resident s Hinv pid f Hres) as (Hf & _ & _ & _).
  destruct (pins_flag s Hpins pid f Hres) as [Hp0 Hev].
  cbv zeta. destruct (Z.leb_spec (pin_count_ (page_at s f)) 0) as [|Hpos]; [done|].
  set (page := page_at s f) in *.
  set (p := {| data := data page; page_id_ := page_id_ page;
               pin_count_ := pin_count_ page - 1;
               is_dirty_ := if d then true else is_dirty_ page |}).
  assert (Hat : page_at (set_page s f p) f = p).
  { apply page_at_set_page_same; [apply Hf|].
    rewrite (inv_pages s Hinv). unfold frame_ok in Hf. lia. }
  assert (Hother : forall pid' g, page_table_ s !! pid' = Some g -> g <> f ->
            page_at (set_page s f p) g = page_at s g).
  { intros pid' g Hg Hgf. destruct (inv_resident s Hinv pid' g Hg) as (Hgok & _).
    apply page_at_set_page_other; [| |done]; unfold frame_ok in *; lia. }
  simpl pin_count_.
  destruct (Z.eqb_spec (pin_count_ page - 1) 0) as [H0|H0].
  - destruct (LRUKReplacer.SetEvictable (replacer_ (set_page s f p)) f true)
      as [[] r|r] eqn:E.
    2:{ apply LRUKReplacer.SetEvictable_Throw_checked in E.
        pose proof (replacer_accepts s f Hinv Hf). simpl in E. congruence. }
    simpl in E.
    destruct (LRUKReplacer.counted_SetEvictable _ _ _ _ (pins_counted s Hpins) E)
      as [Hcnt Hflags].
    split; simpl.
    + done.
    + apply (pins_next s Hpins).
    + intros g Hg. apply (pins_tracked s Hpins).
      apply tracked_evictable. apply tracked_evictable in Hg.
      rewrite evictable_flag_of, Hflags in Hg.
      destruct (Z.eqb_spec g f) as [Heq|]; [|done].
      rewrite Heq, Hev. by eexists.
    + intros pid' g Hg. rewrite page_at_set_replacer, evictable_flag_of, Hflags.
      destruct (Z.eqb_spec g f) as [Heq|Hgf].
      * rewrite Heq, Hat. simpl. split; [lia|].
        rewrite <- evictable_flag_of, Hev. simpl. f_equal. symmetry.
        by apply Z.eqb_eq.
      * rewrite (Hother pid' g Hg Hgf). by apply (pins_flag s Hpins pid').
    + apply (pins_frames s Hpins).
  - split; simpl.
    + apply Hpins.
    + apply (pins_next s Hpins).
    + apply (pins_tracked s Hpins).
    + intros pid' g Hg. destruct (decide (g = f)) as [->|Hgf].
      * rewrite Hat. simpl. split; [lia|]. rewrite Hev. f_equal.
        transitivity false; [apply Z.eqb_neq; lia|symmetry; by apply Z.eqb_neq].
      * rewrite (Hother pid' g Hg Hgf). by apply (pins_flag s Hpins pid').
    + apply (pins_frames s Hpins).
Qed.

Lemma pins_FlushPgImp s pid :
  inv s -> pins_ok s -> pins_ok (state_of (FlushPgImp s pid)).
Proof.
  intros Hinv Hpins. unfold FlushPgImp.
  destruct (page_table_ s !! pid) as [f|] eqn:Hres; [|done].
  destruct (inv_resident s Hinv pid f Hres) as (Hf & _).
  simpl. apply pins_set_page; [by apply inv_set_disk|by apply pins_set_disk|done|done].
Qed.

Lemma pins_FlushAll_body s i :
  inv s -> pins_ok s -> 0 <= i < pool_size_ s -> pins_ok (FlushAll_body s i).
Proof.
  intros Hinv Hpins Hi. unfold FlushAll_body.
  destruct (negb (page_id_ (page_at s i) =? INVALID_PAGE_ID) && is_dirty_ (page_at s i));
    [|done].
  apply pins_set_page; [by apply inv_set_disk|by apply pins_set_disk|done|done].
Qed.

Lemma pins_FlushAllPgsImp s : inv s -> pins_ok s -> pins_ok (FlushAllPgsImp s).
Proof.
  intros Hinv Hpins. unfold FlushAllPgsImp.
  assert (Hall : Forall (fun i => 0 <= i < pool_size_ s) (seqZ 0 (pool_size_ s))).
  { apply Forall_forall. intros i Hi%elem_of_seqZ. lia. }
  revert Hall. generalize (seqZ 0 (pool_size_ s)) as l.
  assert (Hgen : forall l s', inv s' -> pins_ok s' -> pool_size_ s' = pool_size_ s ->
            Forall (fun i => 0 <= i < pool_size_ s) l ->
            pins_ok (fold_left FlushAll_body l s')).
  { induction l as [|i l IH]; intros s' Hinv' Hpins' Hsz Hall; simpl; [done|].
    apply Forall_cons in Hall as [Hi Hall].
    destruct (inv_FlushAll_body s' i Hinv') as [Hinv'' Hsz'']; [lia|].
    apply IH; [done| |congruence|done].
    apply pins_FlushAll_body; [done|done|lia]. }
  intros l Hall. by apply Hgen.
Qed.

Lemma pins_DeletePgImp s pid :
  inv s -> pins_ok s -> pins_ok (state_of (DeletePgImp s pid)).
Proof.
  intros Hinv Hpins. unfold DeletePgImp.
  destruct (page_table_ s !! pid) as [f|] eqn:Hres; [|done].
  destruct (inv_resident s Hinv pid f Hres) as (Hf & Hffree & Hfid & Hftr).
  destruct (pins_flag s Hpins pid f Hres) as [Hp0 Hev].
  destruct (Z.gtb_spec (pin_count_ (page_at s f)) 0) as [|Hle]; [done|].
  assert (H0 : pin_count_ (page_at s f) = 0) by lia.
  rewrite H0 in Hev. simpl in Hev.
  set (s1 := if is_dirty_ (page_at s f)
             then set_disk s (WritePage (disk_manager_ s) pid (data (page_at s f)))
             else s).
  assert (Hsame : page_table_ s1 = page_table_ s /\ replacer_ s1 = replacer_ s /\
                  free_list_ s1 = free_list_ s /\ pool_size_ s1 = pool_size_ s /\
                  pages_ s1 = pages_ s /\ next_page_id_ s1 = next_page_id_ s).
  { unfold s1. by destruct (is_dirty_ _). }
  destruct Hsame as (Hpt & Hrep & Hfl & Hps & Hpg & Hnx).
  simpl replacer_. rewrite Hrep.
  pose proof (LRUKReplacer.counted_Remove (replacer_ s) f (pins_counted s Hpins))
    as HRem.
  rewrite <- evictable_flag_of, Hev in HRem.
  destruct HRem as (r & -> & Hcnt & Hflags). simpl.
  assert (Hne : forall pid' g,
            delete pid (page_table_ s1) !! pid' = Some g ->
            page_table_ s !! pid' = Some g /\ g <> f).
  { intros pid' g [Hne Hg]%lookup_delete_Some. rewrite Hpt in Hg. split; [done|].
    intros ->. apply Hne. by apply (page_table_injective s pid pid' f). }
  assert (Hat : forall g, frame_ok s g -> g <> f ->
            page_at (set_page
                       (set_free_list
                          (set_replacer
                             (set_page_table s1 (delete pid (page_table_ s1))) r)
                          (free_list_ s1 ++ [f])) f Page_default) g = page_at s g).
  { intros g Hg Hgf.
    rewrite page_at_set_page_other; [| | |done]; [|unfold frame_ok in *; lia..].
    unfold page_at. simpl. by rewrite Hpg. }
  split; simpl.
  - done.
  - intros pid' g Hg. rewrite Hnx. destruct (Hne pid' g Hg) as [Hg' _].
    by apply (pins_next s Hpins pid' g).
  - intros g Hg. apply tracked_evictable in Hg.
    rewrite evictable_flag_of, Hflags in Hg.
    destruct (Z.eqb_spec g f) as [Heq|Hgf]; [by destruct Hg|].
    rewrite <- evictable_flag_of in Hg. apply tracked_evictable in Hg.
    destruct (pins_tracked s Hpins g Hg) as [pid' Hpid']. exists pid'.
    rewrite Hpt. apply lookup_delete_Some. split; [|done]. intros <-. congruence.
  - intros pid' g Hg. destruct (Hne pid' g Hg) as [Hg' Hgf].
    destruct (inv_resident s Hinv pid' g Hg') as (Hgok & _).
    rewrite (Hat g Hgok Hgf), evictable_flag_of, Hflags.
    destruct (Z.eqb_spec g f) as [Heq|_]; [done|].
    by apply (pins_flag s Hpins pid').
  - intros g Hg. destruct (decide (g = f)) as [->|Hgf].
    { left. apply elem_of_app. right. by apply list_elem_of_singleton. }
    assert (Hg' : frame_ok s g) by (unfold frame_ok in *; simpl in *; lia).
    destruct (pins_frames s Hpins g Hg') as [Hin|[pid' Hpid']].
    + left. apply elem_of_app. left. by rewrite Hfl.
    + right. exists pid'. rewrite Hpt. apply lookup_delete_Some. split; [|done].
      intros <-. congruence.
Qed.

Lemma pins_used_step s s' : inv s -> pins_ok s -> used_step s s' -> pins_ok s'.
Proof.
  intros Hinv Hpins Hstep. revert Hinv Hpins.
  destruct Hstep as [r|r pid Hpid|r pid d|r pid|r|r pid|r f bytes Hf];
    intros Hinv Hpins.
  - by apply pins_NewPgImp.
  - by apply pins_FetchPgImp.
  - by apply pins_UnpinPgImp.
  - by apply pins_FlushPgImp.
  - by apply pins_FlushAllPgsImp.
  - by apply pins_DeletePgImp.
  - by apply pins_set_page.
Qed.

Lemma well_used_pins pool_size disk replacer_k s :
  0 <= pool_size < 2 ^ 31 -> well_used pool_size disk replacer_k s ->
  inv s /\ pins_ok s.
Proof.
  intros Hp. induction 1 as [|s s' Hused [Hinv Hpins] Hstep].
  - split; [by apply pool_inv_init|by apply pins_ok_init].
  - split; [eapply pool_step_inv; [done|by apply used_step_step]|].
    by apply (pins_used_step s).
Qed.

Lemma find_frame_pool_size s : pool_size_ (snd (find_frame s)) = pool_size_ s.
Proof.
  unfold find_frame. destruct (free_list_ s); [|done].
  destruct (LRUKReplacer.Evict (replacer_ s)) as [[c|] r]; [|done]. simpl.
  by destruct (is_dirty_ (page_at (set_replacer s r) c)).
Qed.

Lemma touch_frame_pool_size {A} s f (a : A) :
  pool_size_ (state_of (touch_frame s f a)) = pool_size_ s.
Proof. unfold touch_frame. by destruct (touch (replacer_ s) f). Qed.

Lemma FlushAll_fold_pool_size l : forall s,
  pool_size_ (fold_left FlushAll_body l s) = pool_size_ s.
Proof.
  induction l as [|i l IH]; intros s; [done|]. simpl. rewrite IH.
  unfold FlushAll_body. by destruct (negb _ && _).
Qed.

Lemma step_pool_size s s' : step s s' -> pool_size_ s' = pool_size_ s.
Proof.
  intros [r|r pid|r pid d|r pid|r|r pid|r f bytes _]; simpl; try done.
  - unfold NewPgImp. pose proof (find_frame_pool_size r) as Hff.
    destruct (find_frame r) as [[f|] s1]; simpl in *; [|done].
    by rewrite touch_frame_pool_size.
  - unfold FetchPgImp. destruct (page_table_ r !! pid) as [f|].
    { by rewrite touch_frame_pool_size. }
    pose proof (find_frame_pool_size r) as Hff.
    destruct (find_frame r) as [[f|] s1]; simpl in *; [|done].
    by rewrite touch_frame_pool_size.
  - unfold UnpinPgImp. destruct (page_table_ r !! pid) as [f|]; [|done].
    cbv zeta. destruct (pin_count_ (page_at r f) <=? 0); [done|].
    destruct (_ =? 0); [|done]. by destruct (LRUKReplacer.SetEvictable _ _ _).
  - unfold FlushPgImp. by destruct (page_table_ r !! pid).
  - apply FlushAll_fold_pool_size.
  - unfold DeletePgImp. destruct (page_table_ r !! pid) as [f|]; [|done].
    destruct (pin_count_ (page_at r f) >? 0); [done|].
    destruct (LRUKReplacer.Remove _ _); simpl; by destruct (is_dirty_ _).
Qed.

Lemma reachable_pool_size pool_size disk replacer_k s :
  reachable pool_size disk replacer_k s -> pool_size_ s = pool_size.
Proof.
  induction 1 as [|s s' _ IH Hstep]; [done|].
  by rewrite (step_pool_size s s' Hstep).
Qed.

(** Where the frame of [find_frame] comes from. *)
Lemma find_frame_cases s :
  inv s -> pins_ok s ->
  match find_frame s with
  | (None, s1) =>
      s1 = s /\ free_list_ s = [] /\
      forall pid f, page_table_ s !! pid = Some f -> 0 < pin_count_ (page_at s f)
  | (Some f, s1) =>
      (exists rest, free_list_ s = f :: rest /\ page_table_ s1 = page_table_ s) \/
      (free_list_ s = [] /\
       exists old_pid,
         page_table_ s !! old_pid = Some f /\
         pin_count_ (page_at s f) = 0 /\
         page_table_ s1 = delete old_pid (page_table_ s))
  end.
Proof.
  intros Hinv Hpins. unfold find_frame.
  destruct (free_list_ s) as [|f0 rest] eqn:Hfl.
  - destruct (LRUKReplacer.counted_Evict (replacer_ s) (pins_counted s Hpins))
      as [[HE Hnone]|(c & r & HE & Hflag & _)]; rewrite HE.
    + split; [by rewrite set_replacer_same|]. split; [done|].
      intros pid f Hres. destruct (pins_flag s Hpins pid f Hres) as [Hp0 Hev].
      destruct (Z.eqb_spec (pin_count_ (page_at s f)) 0) as [H0|H0]; [|lia].
      exfalso. apply (Hnone f). by rewrite <- evictable_flag_of.
    + right. split; [done|].
      assert (Hctr : tracked (replacer_ s) c).
      { apply tracked_evictable. rewrite evictable_flag_of, Hflag. by eexists. }
      destruct (pins_tracked s Hpins c Hctr) as [pidc Hpidc].
      destruct (inv_resident s Hinv pidc c Hpidc) as (_ & _ & Hcid & _).
      destruct (pins_flag s Hpins pidc c Hpidc) as [_ Hev].
      rewrite evictable_flag_of, Hflag in Hev.
      exists pidc. split; [done|]. split.
      { injection Hev as Hev. symmetry in Hev. by apply Z.eqb_eq in Hev. }
      rewrite page_at_set_replacer, Hcid.
      by destruct (is_dirty_ (page_at s c)).
  - left. by exists rest.
Qed.

(** X6: in a pool whose clients fetch only page ids that [NewPgImp]
    returned: a resident page sits in a frame that is not free and holds
    its page id, its pin count is not negative, and its frame is evictable
    in the replacer exactly when the pin count is 0; every frame is free
    or holds a resident page; the replacer tracks no other frame. *)
Theorem pins_flags_and_frames pool_size disk replacer_k s :
  0 <= pool_size < 2 ^ 31 ->
  well_used pool_size disk replacer_k s ->
  (forall page_id frame_id,
     page_table_ s !! page_id = Some frame_id ->
     0 <= frame_id < pool_size /\
     (frame_id ∉ free_list_ s) /\
     page_id_ (page_at s frame_id) = page_id /\
     0 <= pin_count_ (page_at s frame_id) /\
     evictable (replacer_ s) frame_id = Some (pin_count_ (page_at s frame_id) =? 0)) /\
  (forall frame_id,
     0 <= frame_id < pool_size ->
     frame_id ∈ free_list_ s \/ exists page_id, page_table_ s !! page_id = Some frame_id) /\
  (forall frame_id,
     evictable (replacer_ s) frame_id <> None ->
     exists page_id, page_table_ s !! page_id = Some frame_id).
Proof.
  intros Hp Hused. destruct (well_used_pins _ _ _ s Hp Hused) as [Hinv Hpins].
  pose proof (reachable_pool_size _ _ _ s (well_used_reachable _ _ _ s Hused)) as Hsize.
  split; [|split].
  - intros pid f Hres.
    destruct (inv_resident s Hinv pid f Hres) as (Hf & Hfree & Hid & _).
    destruct (pins_flag s Hpins pid f Hres) as [Hp0 Hev].
    unfold frame_ok in Hf. rewrite Hsize in Hf. done.
  - intros f Hf. apply (pins_frames s Hpins). unfold frame_ok. by rewrite Hsize.
  - intros f Hf. apply (pins_tracked s Hpins), tracked_evictable.
    by destruct (evictable (replacer_ s) f); [eexists|].
Qed.

(** A pool of two frames after two [NewPgImp] and [UnpinPgImp(0, true)]:
    page 0 in frame 0 is unpinned and dirty, page 1 in frame 1 is
    pinned. *)
Definition example_two_pages : t :=
  let s0 := BufferPoolManagerInstance 2 empty_disk 2 in
  let s1 := state_of (NewPgImp s0) in
  let s2 := state_of (NewPgImp s1) in
  state_of (UnpinPgImp s2 0 true).

Lemma example_two_pages_used : well_used 2 empty_disk 2 example_two_pages.
Proof.
  unfold example_two_pages.
  eapply used_next; [eapply used_next; [eapply used_next; [apply used_init|]|]|].
  - apply used_NewPg.
  - apply used_NewPg.
  - apply used_UnpinPg.
Defined.

Lemma pins_flags_and_frames_witness :
  0 <= pin_count_ (page_at example_two_pages 0) /\
  evictable (replacer_ example_two_pages) 0
    = Some (pin_count_ (page_at example_two_pages 0) =? 0).
Proof.
  assert (Hp : 0 <= 2 < 2 ^ 31) by lia.
  destruct (pins_flags_and_frames 2 empty_disk 2 example_two_pages Hp
              example_two_pages_used) as (Hres & _ & _).
  destruct (Hres 0 0) as (_ & _ & _ & Hpin & Hev).
  - vm_compute. reflexivity.
  - split; [exact Hpin|exact Hev].
Defined.

(** X7: in such a pool [NewPgImp] does not throw.  It returns [nullptr],
    changing nothing, only when the free list is empty and every resident
    page is pinned.  Otherwise it returns the page id [next_page_id_] in a
    frame that was free or held a resident page with pin count 0 (whose
    entry has left the page table); the frame holds zeroed bytes with pin
    count 1, is not dirty and is not evictable, and the next page id is
    one more. *)
Theorem NewPgImp_cases pool_size disk replacer_k s :
  0 <= pool_size < 2 ^ 31 ->
  well_used pool_size disk replacer_k s ->
  match NewPgImp s with
  | Throw _ => False
  | Return None s' =>
      s' = s /\ free_list_ s = [] /\
      forall pid f, page_table_ s !! pid = Some f -> 0 < pin_count_ (page_at s f)
  | Return (Some (page_id, frame_id)) s' =>
      page_id = next_page_id_ s /\
      next_page_id_ s' = next_page_id_ s + 1 /\
      page_table_ s' !! page_id = Some frame_id /\
      page_at s' frame_id =
        {| data := zero_data; page_id_ := page_id; pin_count_ := 1;
           is_dirty_ := false |} /\
      evictable (replacer_ s') frame_id = Some false /\
      ((exists rest, free_list_ s = frame_id :: rest /\ free_list_ s' = rest) \/
       (free_list_ s = [] /\
        exists old_pid,
          page_table_ s !! old_pid = Some frame_id /\
          pin_count_ (page_at s frame_id) = 0 /\
          page_table_ s' !! old_pid = None))
  end.
Proof.
  intros Hp Hused. destruct (well_used_pins _ _ _ s Hp Hused) as [Hinv Hpins].
  pose proof (find_frame_cases s Hinv Hpins) as Hcases.
  unfold NewPgImp.
  destruct (find_frame s) as [[f|] s1] eqn:Hff; [|done].
  destruct (find_frame_taken s f s1 Hinv Hpins Hff) as [Ht Hnx].
  set (p := {| data := zero_data; page_id_ := next_page_id_ s1; pin_count_ := 1;
               is_dirty_ := false |}).
  set (s2 := set_next_page_id s1 (next_page_id_ s1 + 1)).
  assert (Ht2 : taken s2 f) by (apply taken_set_next_page_id; [done|lia]).
  pose proof (taken_inv s2 f Ht2) as Hinv2. pose proof (taken_ok s2 f Ht2) as Hf.
  destruct (inv_install_touch s2 f p (Some (next_page_id_ s1, f)) Hinv2 Hf
              (taken_free s2 f Ht2) (taken_resident s2 f Ht2))
    as (r & HT & Htouch & _).
  destruct (counted_touch (replacer_ s2) f r (taken_counted s2 f Ht2)
              (frame_in_range s2 f Hinv2 Hf) Htouch) as [_ Hflags].
  cbv zeta. set (o := touch_frame _ _ _).
  assert (Ho : o = Return (Some (next_page_id_ s1, f))
                     (set_replacer
                        (set_page_table (set_page s2 f p)
                           (<[page_id_ p := f]> (page_table_ s2))) r))
    by exact HT.
  clearbody o. subst o. simpl.
  split; [done|]. split; [lia|]. split; [by rewrite lookup_insert_eq|].
  split.
  { rewrite page_at_set_replacer, page_at_set_page_table.
    apply page_at_set_page_same; [apply Hf|].
    rewrite (inv_pages s2 Hinv2). unfold frame_ok in Hf. lia. }
  split; [by rewrite Hflags, Z.eqb_refl|].
  destruct Hcases as [(rest & Hfl & _)|(Hfl & old_pid & Hold & Hpin & Hpt)].
  - left. exists rest. split; [done|].
    revert Hff. unfold find_frame. rewrite Hfl. by intros [= <-].
  - right. split; [done|]. exists old_pid. split; [done|]. split; [done|].
    rewrite lookup_insert_ne.
    + rewrite Hpt. apply lookup_delete_eq.
    + pose proof (pins_next s Hpins old_pid f Hold). lia.
Qed.

Lemma NewPgImp_cases_witness :
  exists r s', NewPgImp example_two_pages = Return r s'.
Proof.
  assert (Hp : 0 <= 2 < 2 ^ 31) by lia.
  pose proof (NewPgImp_cases 2 empty_disk 2 example_two_pages Hp
                example_two_pages_used) as Hcases.
  destruct (NewPgImp example_two_pages) as [r s'|s'].
  - exists r, s'. reflexivity.
  - destruct Hcases.
Defined.

(** X8: in such a pool [FetchPgImp] of an allocated page id does not
    throw.  For a resident page it returns its frame with the pin count
    one more and the frame not evictable, and makes no disk call.  For a
    page that is not resident it returns [nullptr], changing nothing, only
    when the free list is empty and every resident page is pinned;
    otherwise the frame it returns holds the bytes the disk has for the
    page, with pin count 1, and is not dirty. *)
Theorem FetchPgImp_cases pool_size disk replacer_k s page_id :
  0 <= pool_size < 2 ^ 31 ->
  well_used pool_size disk replacer_k s ->
  page_id < next_page_id_ s ->
  match page_table_ s !! page_id with
  | Some frame_id =>
      exists s',
        FetchPgImp s page_id = Return (Some frame_id) s' /\
        page_at s' frame_id =
          {| data := data (page_at s frame_id); page_id_ := page_id;
             pin_count_ := pin_count_ (page_at s frame_id) + 1;
             is_dirty_ := is_dirty_ (page_at s frame_id) |} /\
        evictable (replacer_ s') frame_id = Some false /\
        disk_manager_ s' = disk_manager_ s /\
        page_table_ s' = page_table_ s /\
        free_list_ s' = free_list_ s
  | None =>
      match FetchPgImp s page_id with
      | Throw _ => False
      | Return None s' =>
          s' = s /\ free_list_ s = [] /\
          forall pid f, page_table_ s !! pid = Some f -> 0 < pin_count_ (page_at s f)
      | Return (Some frame_id) s' =>
          page_table_ s' !! page_id = Some frame_id /\
          page_at s' frame_id =
            {| data := default zero_data (stored (disk_manager_ s') !! page_id);
               page_id_ := page_id; pin_count_ := 1; is_dirty_ := false |} /\
          evictable (replacer_ s') frame_id = Some false /\
          exists before,
            calls (disk_manager_ s') = before ++ [ReadPage_call page_id]
      end
  end.
Proof.
  intros Hp Hused Hpid. destruct (well_used_pins _ _ _ s Hp Hused) as [Hinv Hpins].
  unfold FetchPgImp.
  destruct (page_table_ s !! page_id) as [f|] eqn:Hres.
  - destruct (inv_resident s Hinv page_id f Hres) as (Hf & _ & Hid & _).
    set (p := {| data := data (page_at s f); page_id_ := page_id_ (page_at s f);
                 pin_count_ := pin_count_ (page_at s f) + 1;
                 is_dirty_ := is_dirty_ (page_at s f) |}).
    pose proof (inv_set_page s f p Hinv Hf eq_refl) as Hinv1.
    destruct (touch_Return (replacer_ (set_page s f p)) f
                (replacer_accepts _ f Hinv1 Hf)) as (r & Hr & _).
    destruct (counted_touch (replacer_ s) f r (pins_counted s Hpins)
                (frame_in_range s f Hinv Hf) Hr) as [_ Hflags].
    exists (set_replacer (set_page s f p) r).
    unfold touch_frame. rewrite Hr. split; [done|]. simpl.
    split.
    { rewrite page_at_set_replacer, page_at_set_page_same;
        [unfold p; by rewrite Hid|apply Hf|].
      rewrite (inv_pages s Hinv). unfold frame_ok in Hf. lia. }
    split; [by rewrite Hflags, Z.eqb_refl|done].
  - pose proof (find_frame_cases s Hinv Hpins) as Hcases.
    destruct (find_frame s) as [[f|] s1] eqn:Hff; [|done].
    destruct (find_frame_taken s f s1 Hinv Hpins Hff) as [Ht Hnx].
    unfold ReadPage.
    set (d := {| stored := stored (disk_manager_ s1);
                 calls := calls (disk_manager_ s1) ++ [ReadPage_call page_id] |}).
    set (p := {| data := default zero_data (stored (disk_manager_ s1) !! page_id);
                 page_id_ := page_id; pin_count_ := 1; is_dirty_ := false |}).
    pose proof (taken_set_disk s1 f d Ht) as Ht2.
    pose proof (taken_inv _ f Ht2) as Hinv2. pose proof (taken_ok _ f Ht2) as Hf.
    destruct (inv_install_touch (set_disk s1 d) f p (Some f) Hinv2 Hf
                (taken_free _ f Ht2) (taken_resident _ f Ht2))
      as (r & HT & Htouch & _).
    destruct (counted_touch (replacer_ (set_disk s1 d)) f r (taken_counted _ f Ht2)
                (frame_in_range _ f Hinv2 Hf) Htouch) as [_ Hflags].
    set (o := touch_frame _ _ _).
    assert (Ho : o = Return (Some f)
                       (set_replacer
                          (set_page_table (set_page (set_disk s1 d) f p)
                             (<[page_id_ p := f]> (page_table_ (set_disk s1 d)))) r))
      by exact HT.
    clearbody o. subst o. simpl.
    split; [by rewrite lookup_insert_eq|]. split.
    { rewrite page_at_set_replacer, page_at_set_page_table.
      apply page_at_set_page_same; [apply Hf|].
      rewrite (inv_pages _ Hinv2). unfold frame_ok in Hf. lia. }
    split; [by rewrite Hflags, Z.eqb_refl|]. by eexists.
Qed.

Lemma FetchPgImp_cases_witness :
  exists s',
    FetchPgImp example_two_pages 1 = Return (Some 1) s' /\
    pin_count_ (page_at s' 1) = 2.
Proof.
  assert (Hp : 0 <= 2 < 2 ^ 31) by lia.
  pose proof (FetchPgImp_cases 2 empty_disk 2 example_two_pages 1 Hp
                example_two_pages_used) as Hcases.
  change (page_table_ example_two_pages !! 1) with (Some 1) in Hcases.
  destruct Hcases as (s' & HF & Hpage & _).
  - vm_compute. reflexivity.
  - exists s'. split; [exact HF|]. rewrite Hpage. vm_compute. reflexivity.
Defined.

(** X9: in such a pool [DeletePgImp] does not throw.  It returns true and
    changes nothing for a page that is not resident, returns false and
    changes nothing for a pinned page, and otherwise returns true: the
    page is written to disk when it was dirty, its entry leaves the page
    table, the replacer no longer tracks its frame, the frame goes to the
    end of the free list and holds no page. *)
Theorem DeletePgImp_cases pool_size disk replacer_k s page_id :
  0 <= pool_size < 2 ^ 31 ->
  well_used pool_size disk replacer_k s ->
  match page_table_ s !! page_id with
  | None => DeletePgImp s page_id = Return true s
  | Some frame_id =>
      let page := page_at s frame_id in
      if pin_count_ page >? 0 then DeletePgImp s page_id = Return false s
      else
        exists s',
          DeletePgImp s page_id = Return true s' /\
          page_table_ s' = delete page_id (page_table_ s) /\
          free_list_ s' = free_list_ s ++ [frame_id] /\
          page_at s' frame_id = Page_default /\
          evictable (replacer_ s') frame_id = None /\
          disk_manager_ s' =
            (if is_dirty_ page
             then WritePage (disk_manager_ s) page_id (data page)
             else disk_manager_ s)
  end.
Proof.
  intros Hp Hused. destruct (well_used_pins _ _ _ s Hp Hused) as [Hinv Hpins].
  unfold DeletePgImp.
  destruct (page_table_ s !! page_id) as [f|] eqn:Hres; [|done].
  destruct (inv_resident s Hinv page_id f Hres) as (Hf & _).
  destruct (pins_flag s Hpins page_id f Hres) as [Hp0 Hev].
  cbv zeta.
  destruct (Z.gtb_spec (pin_count_ (page_at s f)) 0) as [|Hle]; [done|].
  assert (H0 : pin_count_ (page_at s f) = 0) by lia.
  rewrite H0 in Hev. simpl in Hev.
  set (s1 := if is_dirty_ (page_at s f)
             then set_disk s (WritePage (disk_manager_ s) page_id (data (page_at s f)))
             else s).
  assert (Hsame : page_table_ s1 = page_table_ s /\ replacer_ s1 = replacer_ s /\
                  free_list_ s1 = free_list_ s /\
                  length (pages_ s1) = length (pages_ s) /\
                  disk_manager_ s1 =
                    (if is_dirty_ (page_at s f)
                     then WritePage (disk_manager_ s) page_id (data (page_at s f))
                     else disk_manager_ s)).
  { unfold s1. by destruct (is_dirty_ _). }
  destruct Hsame as (Hpt & Hrep & Hfl & Hpg & Hdisk).
  simpl replacer_. rewrite Hrep.
  pose proof (LRUKReplacer.counted_Remove (replacer_ s) f (pins_counted s Hpins))
    as HRem.
  rewrite <- evictable_flag_of, Hev in HRem.
  destruct HRem as (r & -> & _ & Hflags).
  eexists. split; [done|]. simpl.
  split; [by rewrite Hpt|]. split; [by rewrite Hfl|]. split.
  { apply page_at_set_page_same; [apply Hf|]. simpl.
    rewrite Hpg, (inv_pages s Hinv). unfold frame_ok in Hf. lia. }
  split; [|done]. by rewrite evictable_flag_of, Hflags, Z.eqb_refl.
Qed.

Lemma DeletePgImp_cases_witness :
  exists s',
    DeletePgImp example_two_pages 0 = Return true s' /\
    free_list_ s' = [0] /\
    calls (disk_manager_ s') = [WritePage_call 0 zero_data].
Proof.
  assert (Hp : 0 <= 2 < 2 ^ 31) by lia.
  pose proof (DeletePgImp_cases 2 empty_disk 2 example_two_pages 0 Hp
                example_two_pages_used) as Hcases.
  change (page_table_ example_two_pages !! 0) with (Some 0) in Hcases.
  cbv zeta in Hcases.
  change (pin_count_ (page_at example_two_pages 0) >? 0) with false in Hcases.
  destruct Hcases as (s' & HD & _ & Hfl & _ & _ & Hdisk).
  exists s'. split; [exact HD|]. split; [exact Hfl|]. rewrite Hdisk. reflexivity.
Defined.

(** X10: in every reachable state of the pool, [FlushPgImp] returns false
    and changes nothing for a page that is not resident; for a resident
    page, dirty or not, it writes the bytes of the page to disk, so that
    the disk holds them, clears the dirty flag and changes nothing else of
    the page, the page table, the free list or the replacer. *)
Theorem FlushPgImp_cases pool_size disk replacer_k s page_id :
  0 <= pool_size < 2 ^ 31 ->
  reachable pool_size disk replacer_k s ->
  match page_table_ s !! page_id with
  | None => FlushPgImp s page_id = Return false s
  | Some frame_id =>
      let page := page_at s frame_id in
      exists s',
        FlushPgImp s page_id = Return true s' /\
        calls (disk_manager_ s')
          = calls (disk_manager_ s) ++ [WritePage_call page_id (data page)] /\
        stored (disk_manager_ s') !! page_id = Some (data page) /\
        page_at s' frame_id =
          {| data := data page; page_id_ := page_id;
             pin_count_ := pin_count_ page; is_dirty_ := false |} /\
        (forall g, 0 <= g -> g <> frame_id -> page_at s' g = page_at s g) /\
        page_table_ s' = page_table_ s /\
        free_list_ s' = free_list_ s /\
        replacer_ s' = replacer_ s
  end.
Proof.
  intros Hp Hreach. pose proof (pool_reachable_inv _ _ _ _ Hp Hreach) as Hinv.
  unfold FlushPgImp.
  destruct (page_table_ s !! page_id) as [f|] eqn:Hres; [|done].
  destruct (inv_resident s Hinv page_id f Hres) as (Hf & _ & Hid & _).
  cbv zeta. eexists. split; [done|]. simpl.
  split; [done|]. split; [by rewrite lookup_insert_eq|]. split.
  { rewrite page_at_set_page_same; [by rewrite Hid|apply Hf|]. simpl.
    rewrite (inv_pages s Hinv). unfold frame_ok in Hf. lia. }
  split; [|done]. intros g Hg Hgf.
  rewrite page_at_set_page_other; [done| |done|done]. unfold frame_ok in Hf. lia.
Qed.

Lemma FlushPgImp_cases_witness :
  exists s',
    FlushPgImp example_two_pages 0 = Return true s' /\
    stored (disk_manager_ s') !! 0 = Some zero_data /\
    is_dirty_ (page_at s' 0) = false.
Proof.
  assert (Hp : 0 <= 2 < 2 ^ 31) by lia.
  pose proof (FlushPgImp_cases 2 empty_disk 2 example_two_pages 0 Hp
                (well_used_reachable _ _ _ _ example_two_pages_used)) as Hcases.
  change (page_table_ example_two_pages !! 0) with (Some 0) in Hcases.
  destruct Hcases as (s' & HF & _ & Hstored & Hpage & _).
  exists s'. split; [exact HF|]. split; [exact Hstored|]. by rewrite Hpage.
Defined.

(** What [FlushAllPgsImp] does to the page of one frame. *)
Definition flushed (p : Page) : Page :=
  if negb (page_id_ p =? INVALID_PAGE_ID) && is_dirty_ p
  then {| data := data p; page_id_ := page_id_ p; pin_count_ := pin_count_ p;
          is_dirty_ := false |}
  else p.

Lemma FlushAll_body_page_at s i g :
  0 <= i -> (Z.to_nat i < length (pages_ s))%nat -> 0 <= g ->
  page_at (FlushAll_body s i) g = if g =? i then flushed (page_at s i) else page_at s g.
Proof.
  intros Hi Hlen Hg. unfold FlushAll_body, flushed.
  destruct (Z.eqb_spec g i) as [->|Hgi].
  - destruct (negb (page_id_ (page_at s i) =? INVALID_PAGE_ID) && is_dirty_ (page_at s i));
      [|done].
    by rewrite page_at_set_page_same.
  - destruct (negb (page_id_ (page_at s i) =? INVALID_PAGE_ID) && is_dirty_ (page_at s i));
      [|done].
    by rewrite page_at_set_page_other.
Qed.

Lemma FlushAll_body_fields s i :
  page_table_ (FlushAll_body s i) = page_table_ s /\
  free_list_ (FlushAll_body s i) = free_list_ s /\
  replacer_ (FlushAll_body s i) = replacer_ s /\
  next_page_id_ (FlushAll_body s i) = next_page_id_ s /\
  length (pages_ (FlushAll_body s i)) = length (pages_ s).
Proof.
  unfold FlushAll_body.
  destruct (negb (page_id_ (page_at s i) =? INVALID_PAGE_ID) && is_dirty_ (page_at s i));
    [|done].
  simpl. by rewrite length_insert.
Qed.

Lemma FlushAll_fold l : forall s,
  NoDup l ->
  Forall (fun i => 0 <= i /\ (Z.to_nat i < length (pages_ s))%nat) l ->
  (forall g, 0 <= g ->
     page_at (fold_left FlushAll_body l s) g =
     if bool_decide (g ∈ l) then flushed (page_at s g) else page_at s g) /\
  page_table_ (fold_left FlushAll_body l s) = page_table_ s /\
  free_list_ (fold_left FlushAll_body l s) = free_list_ s /\
  replacer_ (fold_left FlushAll_body l s) = replacer_ s /\
  next_page_id_ (fold_left FlushAll_body l s) = next_page_id_ s.
Proof.
  induction l as [|i l IH]; intros s Hnd Hall; simpl fold_left.
  - split; [|done]. intros g Hg. case_bool_decide as Hin; [|done].
    by apply elem_of_nil in Hin.
  - apply NoDup_cons in Hnd as [Hil Hnd]. apply Forall_cons in Hall as [[Hi Hlen] Hall].
    destruct (FlushAll_body_fields s i) as (Hpt & Hfl & Hrep & Hnx & Hlen').
    destruct (IH (FlushAll_body s i) Hnd) as (Hat & Hpt' & Hfl' & Hrep' & Hnx').
    { eapply Forall_impl; [exact Hall|]. simpl. intros j [? ?]. split; [done|].
      by rewrite Hlen'. }
    split; [|by rewrite Hpt', Hfl', Hrep', Hnx'].
    intros g Hg. rewrite Hat by done. rewrite !FlushAll_body_page_at by done.
    destruct (Z.eqb_spec g i) as [->|Hgi].
    + rewrite (bool_decide_eq_false_2 (i ∈ l)) by done.
      by rewrite bool_decide_eq_true_2 by left.
    + destruct (decide (g ∈ l)) as [Hin|Hnin].
      * rewrite !bool_decide_eq_true_2; [done|by right|done].
      * rewrite !bool_decide_eq_false_2; [done| |done].
        intros [->|Hin]%elem_of_cons; done.
Qed.

(** X11: in every reachable state of the pool, [FlushAllPgsImp] clears
    the dirty flag of every frame whose page id is not [INVALID_PAGE_ID]
    and leaves the bytes, page ids and pin counts of the frames, the page
    table, the free list and the replacer as they are; a frame whose page
    id is [INVALID_PAGE_ID] is left alone. *)
Theorem FlushAllPgsImp_clears_dirty pool_size disk replacer_k s :
  0 <= pool_size < 2 ^ 31 ->
  reachable pool_size disk replacer_k s ->
  (forall frame_id, 0 <= frame_id < pool_size ->
     page_at (FlushAllPgsImp s) frame_id = flushed (page_at s frame_id)) /\
  (forall frame_id, 0 <= frame_id < pool_size ->
     page_id_ (page_at s frame_id) <> INVALID_PAGE_ID ->
     is_dirty_ (page_at (FlushAllPgsImp s) frame_id) = false) /\
  page_table_ (FlushAllPgsImp s) = page_table_ s /\
  free_list_ (FlushAllPgsImp s) = free_list_ s /\
  replacer_ (FlushAllPgsImp s) = replacer_ s.
Proof.
  intros Hp Hreach. pose proof (pool_reachable_inv _ _ _ _ Hp Hreach) as Hinv.
  pose proof (reachable_pool_size _ _ _ s Hreach) as Hsize.
  destruct (FlushAll_fold (seqZ 0 (pool_size_ s)) s) as (Hat & Hpt & Hfl & Hrep & _).
  { apply NoDup_seqZ. }
  { apply Forall_forall. intros i Hi%elem_of_seqZ.
    rewrite (inv_pages s Hinv). lia. }
  assert (Hflushed : forall f, 0 <= f < pool_size ->
            page_at (FlushAllPgsImp s) f = flushed (page_at s f)).
  { intros f Hf. unfold FlushAllPgsImp. rewrite Hat by lia.
    rewrite bool_decide_eq_true_2; [done|]. apply elem_of_seqZ. lia. }
  split; [done|]. split; [|done].
  intros f Hf Hvalid. rewrite Hflushed by done. unfold flushed.
  destruct (Z.eqb_spec (page_id_ (page_at s f)) INVALID_PAGE_ID); [done|]. simpl.
  by destruct (is_dirty_ (page_at s f)) eqn:Hd.
Qed.

Lemma FlushAllPgsImp_clears_dirty_witness :
  is_dirty_ (page_at example_two_pages 0) = true /\
  is_dirty_ (page_at (FlushAllPgsImp example_two_pages) 0) = false.
Proof.
  assert (Hp : 0 <= 2 < 2 ^ 31) by lia.
  destruct (FlushAllPgsImp_clears_dirty 2 empty_disk 2 example_two_pages Hp
              (well_used_reachable _ _ _ _ example_two_pages_used))
    as (_ & Hclean & _).
  split; [reflexivity|]. apply Hclean; [lia|].
  vm_compute. intros H. discriminate H.
Defined.

End BufferPoolManagerInstance.

(** ** Extendible hash table (project1-submission,
       container/hash/extendible_hash_table.cpp) *)

Module ExtendibleHashTable.

Section Table.

(** The key and value types of the template, and [std::hash<K>] (its
    results are [size_t] values). *)
Context {K V : Type} `{EqDecision K} (hash : K -> Z).

(** [class Bucket]: capacity, local depth and the items in insertion
    order. *)
Record Bucket : Type := mkBucket {
  size_ : Z;
  depth_ : Z;
  list_ : list (K * V)
}.

(** The table.  A [std::shared_ptr<Bucket>] is the index of its bucket in
    [buckets]: directory slots that hold the same index share the bucket,
    and [std::make_shared] adds a bucket at the end. *)
Record t : Type := mkTable {
  global_depth_ : Z;
  bucket_size_ : Z;
  num_buckets_ : Z;
  dir_ : list nat;
  buckets : list Bucket
}.

(** [ExtendibleHashTable::ExtendibleHashTable(bucket_size)]. *)
Definition ExtendibleHashTable (bucket_size : Z) : t :=
  {| global_depth_ := 0; bucket_size_ := bucket_size; num_buckets_ := 1;
     dir_ := [0%nat];
     buckets := [{| size_ := bucket_size; depth_ := 0; list_ := [] |}] |}.

(** [Bucket::Find]. *)
Fixpoint Bucket_Find_list (l : list (K * V)) (key : K) : option V :=
  match l with
  | [] => None
  | (k, v) :: rest => if decide (k = key) then Some v else Bucket_Find_list rest key
  end.

Definition Bucket_Find (b : Bucket) (key : K) : option V :=
  Bucket_Find_list (list_ b) key.

(** [Bucket::Remove]: the first item with the key is erased. *)
Fixpoint Bucket_Remove_list (l : list (K * V)) (key : K) : bool * list (K * V) :=
  match l with
  | [] => (false, [])
  | (k, v) :: rest =>
      if decide (k = key) then (true, rest)
      else
        let '(found, rest') := Bucket_Remove_list rest key in
        (found, (k, v) :: rest')
  end.

Definition Bucket_Remove (b : Bucket) (key : K) : bool * Bucket :=
  let '(found, l) := Bucket_Remove_list (list_ b) key in
  (found, {| size_ := size_ b; depth_ := depth_ b; list_ := l |}).

(** The first loop of [Bucket::Insert]: the value of an item with the key
    is overwritten. *)
Fixpoint Bucket_update_list (l : list (K * V)) (key : K) (value : V)
  : option (list (K * V)) :=
  match l with
  | [] => None
  | (k, v) :: rest =>
      if decide (k = key) then Some ((k, value) :: rest)
      else option_map (cons (k, v)) (Bucket_update_list rest key value)
  end.

(** [Bucket::IsFull]. *)
Definition Bucket_IsFull (b : Bucket) : bool :=
  Z.of_nat (length (list_ b)) =? size_ b.

(** [Bucket::Insert]. *)
Definition Bucket_Insert (b : Bucket) (key : K) (value : V) : bool * Bucket :=
  match Bucket_update_list (list_ b) key value with
  | Some l => (true, {| size_ := size_ b; depth_ := depth_ b; list_ := l |})
  | None =>
      if Bucket_IsFull b then (false, b)
      else
        (true,
         {| size_ := size_ b; depth_ := depth_ b;
            list_ := list_ b ++ [(key, value)] |})
  end.

(** [ExtendibleHashTable::IndexOf]: [hash & ((1 << global_depth_) - 1)].
    [1 << global_depth_] is an [int]: the shift is defined, and the
    subtraction does not overflow, for depths 0..30 only ([None]
    otherwise). *)
Definition IndexOf (s : t) (key : K) : option Z :=
  if (0 <=? global_depth_ s) && (global_depth_ s <? 31)
  then Some (Z.land (hash key) (Z.shiftl 1 (global_depth_ s) - 1))
  else None.

(** [(x >> old_depth) & 1] as a [bool]. *)
Definition bit_at (x old_depth : Z) : bool :=
  negb (Z.land (Z.shiftr x old_depth) 1 =? 0).

(** [dir_[idx]] and the bucket it points to. *)
Definition bucket_at (s : t) (idx : Z) : option (nat * Bucket) :=
  match dir_ s !! Z.to_nat idx with
  | Some b =>
      match buckets s !! b with
      | Some bucket => Some (b, bucket)
      | None => None
      end
  | None => None
  end.

(** [ExtendibleHashTable::Find]; [None] inside: the key is absent. *)
Definition Find (s : t) (key : K) : option (option V) :=
  match IndexOf s key with
  | Some idx =>
      match bucket_at s idx with
      | Some (_, bucket) => Some (Bucket_Find bucket key)
      | None => None
      end
  | None => None
  end.

(** [ExtendibleHashTable::Remove]. *)
Definition Remove (s : t) (key : K) : option (bool * t) :=
  match IndexOf s key with
  | Some idx =>
      match bucket_at s idx with
      | Some (b, bucket) =>
          let '(found, bucket') := Bucket_Remove bucket key in
          Some (found,
                {| global_depth_ := global_depth_ s; bucket_size_ := bucket_size_ s;
                   num_buckets_ := num_buckets_ s; dir_ := dir_ s;
                   buckets := <[b := bucket']> (buckets s) |})
      | None => None
      end
  | None => None
  end.

(** The first loop of [SplitBucket]: the items whose hash has the bit
    [old_depth] set go to the new bucket through [Bucket::Insert] and are
    erased from the old one; the result is [(items kept, new bucket)]. *)
Fixpoint redistribute (old_depth : Z) (items : list (K * V)) (new_bucket : Bucket)
  : list (K * V) * Bucket :=
  match items with
  | [] => ([], new_bucket)
  | (k, v) :: rest =>
      if bit_at (hash k) old_depth then
        redistribute old_depth rest (snd (Bucket_Insert new_bucket k v))
      else
        let '(kept, nb) := redistribute old_depth rest new_bucket in
        ((k, v) :: kept, nb)
  end.

(** [ExtendibleHashTable::SplitBucket(bucket, bucket_idx)], for the bucket
    with index [b] in [buckets]. *)
Definition SplitBucket (s : t) (b : nat) (bucket : Bucket) : t :=
  let old_depth := depth_ bucket in
  let new_bucket :=
    {| size_ := bucket_size_ s; depth_ := old_depth + 1; list_ := [] |} in
  let '(kept, new_bucket') := redistribute old_depth (list_ bucket) new_bucket in
  let bucket' :=
    {| size_ := size_ bucket; depth_ := old_depth + 1; list_ := kept |} in
  let new_b := length (buckets s) in
  {| global_depth_ := global_depth_ s; bucket_size_ := bucket_size_ s;
     num_buckets_ := num_buckets_ s + 1;
     dir_ :=
       imap (fun i p =>
               if bool_decide (p = b) && bit_at (Z.of_nat i) old_depth
               then new_b else p)
            (dir_ s);
     buckets := <[b := bucket']> (buckets s) ++ [new_bucket'] |}.

(** The directory doubled: [global_depth_++; dir_.resize(old_size * 2);
    dir_[i + old_size] = dir_[i]]. *)
Definition double_directory (s : t) : t :=
  {| global_depth_ := global_depth_ s + 1; bucket_size_ := bucket_size_ s;
     num_buckets_ := num_buckets_ s; dir_ := dir_ s ++ dir_ s;
     buckets := buckets s |}.

(** [ExtendibleHashTable::Insert]: the [while (true)] loop, run for at most
    [fuel] turns.  [None]: the loop has not returned within [fuel] turns,
    or a turn computes [1 << global_depth_] with a depth outside 0..30. *)
Fixpoint Insert (fuel : nat) (s : t) (key : K) (value : V) : option t :=
  match fuel with
  | O => None
  | S fuel' =>
      match IndexOf s key with
      | None => None
      | Some idx =>
          match bucket_at s idx with
          | None => None
          | Some (b, bucket) =>
              match Bucket_Insert bucket key value with
              | (true, bucket') =>
                  Some {| global_depth_ := global_depth_ s;
                          bucket_size_ := bucket_size_ s;
                          num_buckets_ := num_buckets_ s; dir_ := dir_ s;
                          buckets := <[b := bucket']> (buckets s) |}
              | (false, _) =>
                  let s1 :=
                    if depth_ bucket =? global_depth_ s
                    then double_directory s else s in
                  Insert fuel' (SplitBucket s1 b bucket) key value
              end
          end
      end
  end.

(** *** The states the table can be in *)

Inductive step : t -> t -> Prop :=
| step_Insert fuel s key value s' :
    Insert fuel s key value = Some s' -> step s s'
| step_Remove s key found s' :
    Remove s key = Some (found, s') -> step s s'
| step_Find s (key : K) : Find s key <> None -> step s s.

Inductive reachable (bucket_size : Z) : t -> Prop :=
| reach_init : reachable bucket_size (ExtendibleHashTable bucket_size)
| reach_step s s' : reachable bucket_size s -> step s s' -> reachable bucket_size s'.

(** [x & ((1 << depth) - 1)]. *)
Definition low_bits (x depth : Z) : Z := Z.land x (Z.shiftl 1 depth - 1).

(** The invariant of the loop of [Insert] and of the reachable states. *)
Record inv (s : t) : Prop := mkInv {
  inv_depth : 0 <= global_depth_ s;
  inv_dir : Z.of_nat (length (dir_ s)) = 2 ^ global_depth_ s;
  inv_bucket :
    forall (i b : nat), dir_ s !! i = Some b ->
      exists bucket, buckets s !! b = Some bucket /\
        0 <= depth_ bucket <= global_depth_ s /\
        forall k v, (k, v) ∈ list_ bucket ->
          low_bits (hash k) (depth_ bucket) = low_bits (Z.of_nat i) (depth_ bucket);
  inv_shared :
    forall (i j b : nat) bucket,
      dir_ s !! i = Some b -> dir_ s !! j = Some b -> buckets s !! b = Some bucket ->
      low_bits (Z.of_nat i) (depth_ bucket) = low_bits (Z.of_nat j) (depth_ bucket)
}.

(** *** Low bits *)

Lemma low_bits_mod x d : 0 <= d -> low_bits x d = x mod 2 ^ d.
Proof.
  intros Hd. unfold low_bits. rewrite Z.shiftl_1_l, <- Z.land_ones by done.
  f_equal. rewrite Z.ones_equiv. lia.
Qed.

Lemma bit_at_testbit x d : 0 <= d -> bit_at x d = Z.testbit x d.
Proof.
  intros Hd. unfold bit_at. change 1 with (Z.ones 1).
  rewrite Z.land_ones, Z.pow_1_r, Zmod_odd, <- Z.bit0_odd, Z.shiftr_spec by lia.
  rewrite Z.add_0_l. by destruct (Z.testbit x d).
Qed.

Lemma low_bits_succ x y d :
  0 <= d -> low_bits x d = low_bits y d -> bit_at x d = bit_at y d ->
  low_bits x (d + 1) = low_bits y (d + 1).
Proof.
  intros Hd Hlow Hbit. rewrite !low_bits_mod in * by lia.
  rewrite !bit_at_testbit in Hbit by done.
  assert (H2 : 2 ^ d <> 0) by (apply Z.pow_nonzero; lia).
  rewrite Z.pow_add_r, Z.pow_1_r, !Z.rem_mul_r by lia.
  rewrite <- !Z.testbit_spec' by done. by rewrite Hlow, Hbit.
Qed.

Lemma low_bits_le x y d d' :
  0 <= d <= d' -> low_bits x d' = low_bits y d' -> low_bits x d = low_bits y d.
Proof.
  intros Hd Hlow. rewrite !low_bits_mod in * by lia.
  assert (Hdiv : (2 ^ d | 2 ^ d')).
  { exists (2 ^ (d' - d)). rewrite <- Z.pow_add_r by lia. f_equal. lia. }
  rewrite <- (Z.mod_mod_divide x _ _ Hdiv), <- (Z.mod_mod_divide y _ _ Hdiv).
  by rewrite Hlow.
Qed.

Lemma low_bits_add_pow2 x d gd :
  0 <= d <= gd -> low_bits (x + 2 ^ gd) d = low_bits x d.
Proof.
  intros Hd. rewrite !low_bits_mod by lia.
  replace (2 ^ gd) with (2 ^ (gd - d) * 2 ^ d)
    by (rewrite <- Z.pow_add_r by lia; f_equal; lia).
  apply Z.mod_add. apply Z.pow_nonzero; lia.
Qed.

Lemma IndexOf_Some s key idx :
  IndexOf s key = Some idx ->
  0 <= global_depth_ s < 31 /\
  idx = low_bits (hash key) (global_depth_ s) /\
  0 <= idx < 2 ^ global_depth_ s.
Proof.
  unfold IndexOf.
  destruct (Z.leb_spec 0 (global_depth_ s)); [|done].
  destruct (Z.ltb_spec (global_depth_ s) 31); [|done].
  intros [= <-]. split; [lia|]. split; [done|].
  fold (low_bits (hash key) (global_depth_ s)). rewrite low_bits_mod by done.
  apply Z.mod_pos_bound. apply Z.pow_pos_nonneg; lia.
Qed.

(** *** The items of a bucket *)

Lemma Bucket_Remove_list_sub l key found l' :
  Bucket_Remove_list l key = (found, l') -> forall e, e ∈ l' -> e ∈ l.
Proof.
  revert found l'. induction l as [|[k v] rest IH]; simpl; intros found l'.
  - by intros [= <- <-].
  - destruct (decide (k = key)) as [Heq|Hne].
    + intros [= <- <-] e He. by right.
    + destruct (Bucket_Remove_list rest key) as [f' r'] eqn:E.
      intros [= <- <-] e [->|He]%elem_of_cons; [left|right]. by eapply IH.
Qed.

Lemma Bucket_update_list_keys l key value l' :
  Bucket_update_list l key value = Some l' ->
  forall k v, (k, v) ∈ l' -> k = key \/ (k, v) ∈ l.
Proof.
  revert l'. induction l as [|[k0 v0] rest IH]; simpl; intros l'; [done|].
  destruct (decide (k0 = key)) as [->|Hne].
  - intros [= <-] k v [[= -> ->]|Hin]%elem_of_cons; [by left|right; by right].
  - destruct (Bucket_update_list rest key value) as [r'|]; [|done].
    simpl. intros [= <-] k v [[= -> ->]|Hin]%elem_of_cons; [right; left|].
    destruct (IH r' eq_refl k v Hin) as [?|?]; [by left|right; by right].
Qed.

Lemma Bucket_Insert_keys b key value ok b' :
  Bucket_Insert b key value = (ok, b') ->
  size_ b' = size_ b /\ depth_ b' = depth_ b /\
  forall k v, (k, v) ∈ list_ b' -> k = key \/ (k, v) ∈ list_ b.
Proof.
  unfold Bucket_Insert.
  destruct (Bucket_update_list (list_ b) key value) as [l|] eqn:E.
  - intros [= <- <-]. simpl. repeat split. by eapply Bucket_update_list_keys.
  - destruct (Bucket_IsFull b).
    + intros [= <- <-]. repeat split. auto.
    + intros [= <- <-]. simpl. repeat split.
      intros k v [Hin|[= -> ->]%list_elem_of_singleton]%elem_of_app; auto.
Qed.

Lemma redistribute_spec d items : forall nb kept nb',
  redistribute d items nb = (kept, nb') ->
  depth_ nb' = depth_ nb /\
  (forall k v, (k, v) ∈ list_ nb' ->
     (k, v) ∈ list_ nb \/
     (bit_at (hash k) d = true /\ exists v', (k, v') ∈ items)) /\
  (forall k v, (k, v) ∈ kept -> (k, v) ∈ items /\ bit_at (hash k) d = false).
Proof.
  induction items as [|[k0 v0] rest IH]; simpl; intros nb kept nb'.
  - intros [= <- <-]. split; [done|]. split; [auto|].
    intros k v H. by apply elem_of_nil in H.
  - destruct (bit_at (hash k0) d) eqn:Hbit.
    + intros Hr. destruct (Bucket_Insert nb k0 v0) as [ok nb1] eqn:HI. simpl in Hr.
      destruct (Bucket_Insert_keys _ _ _ _ _ HI) as (_ & Hd1 & Hk1).
      destruct (IH _ _ _ Hr) as (Hd & Hnew & Hkept).
      split; [congruence|]. split.
      * intros k v Hin. destruct (Hnew k v Hin) as [Hin1|[Hb (v' & Hv')]].
        -- destruct (Hk1 k v Hin1) as [->|?]; [|by left].
           right. split; [done|]. exists v0. left.
        -- right. split; [done|]. exists v'. by right.
      * intros k v Hin. destruct (Hkept k v Hin). split; [by right|done].
    + destruct (redistribute d rest nb) as [kept1 nb1] eqn:Hr.
      intros [= <- <-]. destruct (IH _ _ _ Hr) as (Hd & Hnew & Hkept).
      split; [done|]. split.
      * intros k v Hin. destruct (Hnew k v Hin) as [?|[Hb (v' & Hv')]]; [by left|].
        right. split; [done|]. exists v'. by right.
      * intros k v [[= -> ->]|Hin]%elem_of_cons.
        -- split; [left|done].
        -- destruct (Hkept k v Hin). split; [by right|done].
Qed.

(** *** The invariant is kept *)

Lemma ht_inv_init bucket_size : inv (ExtendibleHashTable bucket_size).
Proof.
  split; simpl; try done.
  - intros [|i] b Hb; [|done]. injection Hb as <-.
    eexists. split; [done|]. simpl. split; [lia|].
    intros k v H. by apply elem_of_nil in H.
  - intros [|i] [|j] b bucket Hi Hj; done.
Qed.

(** The items of one bucket change, to items that were there or whose
    hash agrees with a slot of the bucket. *)
Lemma inv_set_bucket s (i0 b : nat) bucket bucket' :
  inv s -> dir_ s !! i0 = Some b -> buckets s !! b = Some bucket ->
  depth_ bucket' = depth_ bucket ->
  (forall k v, (k, v) ∈ list_ bucket' ->
     low_bits (hash k) (depth_ bucket) = low_bits (Z.of_nat i0) (depth_ bucket) \/
     exists v', (k, v') ∈ list_ bucket) ->
  inv {| global_depth_ := global_depth_ s; bucket_size_ := bucket_size_ s;
         num_buckets_ := num_buckets_ s; dir_ := dir_ s;
         buckets := <[b := bucket']> (buckets s) |}.
Proof.
  intros Hinv Hdir Hb Hdepth Hkeys.
  pose proof (lookup_lt_Some _ _ _ Hb) as Hlt.
  split; simpl; try apply Hinv.
  - intros i p Hp. destruct (inv_bucket s Hinv i p Hp) as (bk & Hbk & Hd & Hk).
    destruct (decide (p = b)) as [->|Hne].
    + exists bucket'. rewrite list_lookup_insert_eq by done.
      rewrite Hb in Hbk. injection Hbk as <-. rewrite Hdepth.
      split; [done|]. split; [done|]. intros k v Hin.
      destruct (Hkeys k v Hin) as [Hlow|[v' Hv']]; [|by eapply Hk].
      rewrite Hlow. by apply (inv_shared s Hinv i0 i b bucket).
    + exists bk. by rewrite list_lookup_insert_ne.
  - intros i j p bk Hi Hj Hbk. destruct (decide (p = b)) as [->|Hne].
    + rewrite list_lookup_insert_eq in Hbk by done. injection Hbk as <-.
      rewrite Hdepth. by apply (inv_shared s Hinv i j b bucket).
    + rewrite list_lookup_insert_ne in Hbk by done.
      by apply (inv_shared s Hinv i j p bk).
Qed.

Lemma lookup_doubled (l : list nat) (i b : nat) :
  (l ++ l) !! i = Some b ->
  exists i', l !! i' = Some b /\ (i = i' \/ i = (i' + length l)%nat).
Proof.
  intros H. destruct (decide (i < length l)%nat) as [Hlt|Hge].
  - rewrite lookup_app_l in H by done. exists i. auto.
  - rewrite lookup_app_r in H by lia. exists (i - length l)%nat.
    split; [done|]. right. lia.
Qed.

Lemma inv_double s : inv s -> inv (double_directory s).
Proof.
  intros Hinv. pose proof (inv_depth s Hinv) as Hgd.
  pose proof (inv_dir s Hinv) as Hlen.
  assert (Hnorm : forall (i i' : nat) d, 0 <= d <= global_depth_ s ->
            (i = i' \/ i = (i' + length (dir_ s))%nat) ->
            low_bits (Z.of_nat i) d = low_bits (Z.of_nat i') d).
  { intros i i' d Hd [-> | ->]; [done|].
    rewrite Nat2Z.inj_add, Hlen. by apply low_bits_add_pow2. }
  split; simpl.
  - lia.
  - rewrite length_app, Nat2Z.inj_add, Hlen, Z.pow_add_r by lia. lia.
  - intros i b Hb. apply lookup_doubled in Hb as (i' & Hb & Hi).
    destruct (inv_bucket s Hinv i' b Hb) as (bk & Hbk & Hd & Hk).
    exists bk. split; [done|]. split; [lia|]. intros k v Hin.
    rewrite (Hk k v Hin). symmetry. by apply Hnorm.
  - intros i j b bk Hi Hj Hbk.
    apply lookup_doubled in Hi as (i' & Hi & Hii).
    apply lookup_doubled in Hj as (j' & Hj & Hjj).
    destruct (inv_bucket s Hinv i' b Hi) as (bk' & Hbk' & Hd & _).
    rewrite Hbk in Hbk'. injection Hbk' as <-.
    rewrite (Hnorm i i'), (Hnorm j j') by done.
    by apply (inv_shared s Hinv i' j' b bk).
Qed.

Lemma inv_split s (i0 b : nat) bucket :
  inv s -> dir_ s !! i0 = Some b -> buckets s !! b = Some bucket ->
  depth_ bucket < global_depth_ s ->
  inv (SplitBucket s b bucket).
Proof.
  intros Hinv Hdir Hb Hlt. unfold SplitBucket.
  set (d := depth_ bucket).
  destruct (redistribute d (list_ bucket)
              {| size_ := bucket_size_ s; depth_ := d + 1; list_ := [] |})
    as [kept nb'] eqn:Hr.
  destruct (redistribute_spec _ _ _ _ _ Hr) as (Hnd & Hnew & Hkept). simpl in Hnd, Hnew.
  pose proof (lookup_lt_Some _ _ _ Hb) as Hblt.
  destruct (inv_bucket s Hinv i0 b Hdir) as (bk0 & Hbk0 & Hd0 & _).
  rewrite Hb in Hbk0. injection Hbk0 as <-. fold d in Hd0.
  set (new_b := length (buckets s)).
  set (bucket' := {| size_ := size_ bucket; depth_ := d + 1; list_ := kept |}).
  (* the buckets after the split *)
  assert (Hold : (<[b := bucket']> (buckets s) ++ [nb']) !! b = Some bucket').
  { rewrite lookup_app_l by (rewrite length_insert; done).
    by apply list_lookup_insert_eq. }
  assert (Hnewb : (<[b := bucket']> (buckets s) ++ [nb']) !! new_b = Some nb').
  { rewrite lookup_app_r by (rewrite length_insert; done).
    rewrite length_insert. unfold new_b. by rewrite Nat.sub_diag. }
  assert (Hother : forall p bk, p <> b -> buckets s !! p = Some bk ->
            (<[b := bucket']> (buckets s) ++ [nb']) !! p = Some bk).
  { intros p bk Hne Hp. pose proof (lookup_lt_Some _ _ _ Hp).
    rewrite lookup_app_l by (rewrite length_insert; done).
    by rewrite list_lookup_insert_ne. }
  (* the slots after the split *)
  assert (Hslot : forall (i p' : nat),
            imap (fun i p =>
                    if bool_decide (p = b) && bit_at (Z.of_nat i) d
                    then new_b else p) (dir_ s) !! i = Some p' ->
            (dir_ s !! i = Some b /\ bit_at (Z.of_nat i) d = true /\ p' = new_b) \/
            (dir_ s !! i = Some b /\ bit_at (Z.of_nat i) d = false /\ p' = b) \/
            (dir_ s !! i = Some p' /\ p' <> b /\ p' <> new_b)).
  { intros i p'. rewrite list_lookup_imap.
    destruct (dir_ s !! i) as [p|] eqn:Hp; [|done]. simpl.
    destruct (bool_decide_reflect (p = b)) as [->|Hne]; simpl.
    - destruct (bit_at (Z.of_nat i) d); intros [= <-]; auto.
    - intros [= <-]. right. right. split; [done|]. split; [done|].
      destruct (inv_bucket s Hinv i p Hp) as (bk & Hbk & _).
      apply lookup_lt_Some in Hbk. unfold new_b. lia. }
  split; simpl.
  - apply Hinv.
  - rewrite length_imap. apply Hinv.
  - intros i p' Hp'.
    destruct (Hslot i p' Hp') as [(Hi & Hbit & ->)|[(Hi & Hbit & ->)|(Hi & Hne & Hne')]].
    + exists nb'. split; [done|]. rewrite Hnd. split; [lia|].
      intros k v Hin. destruct (Hnew k v Hin) as [Hin'|[Hkb (v' & Hv')]].
      { by apply elem_of_nil in Hin'. }
      destruct (inv_bucket s Hinv i b Hi) as (bk & Hbk & _ & Hk).
      rewrite Hb in Hbk. injection Hbk as <-.
      apply low_bits_succ; [lia|by eapply Hk|congruence].
    + exists bucket'. split; [done|]. simpl. split; [lia|].
      intros k v Hin. destruct (Hkept k v Hin) as [Hin' Hkb].
      destruct (inv_bucket s Hinv i b Hi) as (bk & Hbk & _ & Hk).
      rewrite Hb in Hbk. injection Hbk as <-.
      apply low_bits_succ; [lia|by eapply Hk|congruence].
    + destruct (inv_bucket s Hinv i p' Hi) as (bk & Hbk & Hd & Hk).
      exists bk. split; [by apply Hother|]. done.
  - intros i j p' bk Hi Hj Hbk.
    destruct (Hslot i p' Hi) as [(Hi' & Hbi & ->)|[(Hi' & Hbi & ->)|(Hi' & Hne & Hne')]];
    destruct (Hslot j _ Hj) as [(Hj' & Hbj & E)|[(Hj' & Hbj & E)|(Hj' & Hnj & Hnj')]];
      try (exfalso; unfold new_b in *; lia); try done.
    + rewrite Hnewb in Hbk. injection Hbk as <-. rewrite Hnd.
      apply low_bits_succ; [lia| |congruence].
      by apply (inv_shared s Hinv i j b bucket).
    + rewrite Hold in Hbk. injection Hbk as <-. simpl.
      apply low_bits_succ; [lia| |congruence].
      by apply (inv_shared s Hinv i j b bucket).
    + destruct (inv_bucket s Hinv i p' Hi') as (bk' & Hbk' & _).
      rewrite (Hother p' bk' Hne Hbk') in Hbk. injection Hbk as <-.
      by apply (inv_shared s Hinv i j p' bk').
Qed.

Lemma ht_inv_Insert fuel : forall s key value s',
  inv s -> Insert fuel s key value = Some s' ->
  inv s' /\ global_depth_ s' < 31.
Proof.
  induction fuel as [|fuel IH]; intros s key value s' Hinv; simpl; [done|].
  destruct (IndexOf s key) as [idx|] eqn:Hidx; [|done].
  destruct (IndexOf_Some s key idx Hidx) as (Hgd & Hlow & Hrange).
  unfold bucket_at.
  destruct (dir_ s !! Z.to_nat idx) as [b|] eqn:Hdir; [|done].
  destruct (buckets s !! b) as [bucket|] eqn:Hb; [|done].
  destruct (inv_bucket s Hinv _ b Hdir) as (bk & Hbk & Hd & _).
  rewrite Hb in Hbk. injection Hbk as <-.
  destruct (Bucket_Insert bucket key value) as [[|] bucket'] eqn:HI.
  - (* the item is stored *)
    intros [= <-]. split; [|simpl; lia].
    destruct (Bucket_Insert_keys _ _ _ _ _ HI) as (_ & Hdepth & Hkeys).
    apply (inv_set_bucket s (Z.to_nat idx) b bucket bucket'); try done.
    intros k v Hin. destruct (Hkeys k v Hin) as [->|Hin']; [left|right; by exists v].
    rewrite Z2Nat.id by lia. rewrite Hlow.
    apply low_bits_le with (d' := global_depth_ s); [lia|].
    rewrite (low_bits_mod (low_bits _ _)), (low_bits_mod (hash key)) by lia.
    by rewrite Z.mod_mod by (apply Z.pow_nonzero; lia).
  - (* the bucket is full: split, and again *)
    apply IH.
    destruct (Z.eqb_spec (depth_ bucket) (global_depth_ s)) as [Heq|Hne].
    + apply (inv_split (double_directory s) (Z.to_nat idx) b bucket).
      * by apply inv_double.
      * simpl. rewrite lookup_app_l; [done|]. by eapply lookup_lt_Some.
      * done.
      * simpl. lia.
    + apply (inv_split s (Z.to_nat idx) b bucket); try done. lia.
Qed.

Lemma ht_inv_Remove s key found s' : inv s -> Remove s key = Some (found, s') -> inv s'.
Proof.
  intros Hinv. unfold Remove, bucket_at.
  destruct (IndexOf s key) as [idx|] eqn:Hidx; [|done].
  destruct (dir_ s !! Z.to_nat idx) as [b|] eqn:Hdir; [|done].
  destruct (buckets s !! b) as [bucket|] eqn:Hb; [|done].
  unfold Bucket_Remove.
  destruct (Bucket_Remove_list (list_ bucket) key) as [f l] eqn:HR.
  intros [= <- <-].
  apply (inv_set_bucket s (Z.to_nat idx) b bucket); try done.
  intros k v Hin. right. exists v. by eapply Bucket_Remove_list_sub.
Qed.

Lemma ht_reachable_inv bucket_size s :
  reachable bucket_size s -> inv s /\ global_depth_ s < 31.
Proof.
  induction 1 as [|s s' _ [IH Hgd] Hstep].
  - split; [apply ht_inv_init|simpl; lia].
  - destruct Hstep as [fuel s key value s' HI|s key found s' HR|s key _].
    + by eapply ht_inv_Insert.
    + split; [by eapply ht_inv_Remove|].
      unfold Remove in HR. destruct (IndexOf s key); [|done].
      destruct (bucket_at s z) as [[b bucket]|]; [|done].
      destruct (Bucket_Remove bucket key). by injection HR as _ <-.
    + done.
Qed.

(** C6. In every state of the table reached from the initial one by
    [Insert], [Remove] and [Find] calls that return: the directory has
    [2 ^ global_depth_] slots, and for every slot [i], the bucket it points
    to has a local depth between 0 and the global depth, and every key [k]
    stored in it satisfies
    [hash(k) & ((1 << depth) - 1) = i & ((1 << depth) - 1)]. *)
Theorem directory_and_bucket_invariant bucket_size s :
  reachable bucket_size s ->
  Z.of_nat (length (dir_ s)) = 2 ^ global_depth_ s /\
  forall (i b : nat),
    dir_ s !! i = Some b ->
    exists bucket,
      buckets s !! b = Some bucket /\
      0 <= depth_ bucket <= global_depth_ s /\
      forall k v,
        (k, v) ∈ list_ bucket ->
        Z.land (hash k) (Z.shiftl 1 (depth_ bucket) - 1)
        = Z.land (Z.of_nat i) (Z.shiftl 1 (depth_ bucket) - 1).
Proof.
  intros Hreach. destruct (ht_reachable_inv _ _ Hreach) as [Hinv _].
  split; [apply Hinv|]. intros i b Hb.
  destruct (inv_bucket s Hinv i b Hb) as (bucket & Hbk & Hd & Hk).
  exists bucket. split; [done|]. split; [done|]. apply Hk.
Qed.

(** *** The table as a finite map *)

Lemma Bucket_Find_list_None l key :
  Bucket_Find_list l key = None <-> key ∉ l.*1.
Proof.
  induction l as [|[k v] l IH]; simpl.
  - split; [intros _; apply not_elem_of_nil|done].
  - destruct (decide (k = key)) as [->|Hne].
    + split; [done|]. intros Hnin. exfalso. apply Hnin. left.
    + rewrite IH. split.
      * intros Hnin [?|Hin]%elem_of_cons; [congruence|done].
      * intros Hnin Hin. apply Hnin. by right.
Qed.

Lemma Bucket_update_list_None l key value :
  Bucket_update_list l key value = None <-> key ∉ l.*1.
Proof.
  induction l as [|[k v] l IH]; simpl.
  - split; [intros _; apply not_elem_of_nil|done].
  - destruct (decide (k = key)) as [->|Hne].
    + split; [done|]. intros Hnin. exfalso. apply Hnin. left.
    + destruct (Bucket_update_list l key value) as [l'|] eqn:E; simpl.
      * split; [done|]. intros Hnin.
        assert (Hl : key ∉ l.*1) by (intros Hin; apply Hnin; by right).
        by apply IH in Hl.
      * split; [|done]. intros _ [?|Hin]%elem_of_cons; [congruence|].
        by apply (proj1 IH).
Qed.

Lemma Bucket_Find_list_app l1 l2 key :
  Bucket_Find_list (l1 ++ l2) key =
  match Bucket_Find_list l1 key with
  | Some v => Some v
  | None => Bucket_Find_list l2 key
  end.
Proof.
  induction l1 as [|[k v] l1 IH]; simpl; [done|].
  by destruct (decide (k = key)).
Qed.

(** What [Bucket::Find] sees after the first loop of [Bucket::Insert]
    has overwritten a value. *)
Lemma Bucket_Find_update_list l key value l' key' :
  Bucket_update_list l key value = Some l' ->
  Bucket_Find_list l' key' =
  if decide (key' = key) then Some value else Bucket_Find_list l key'.
Proof.
  revert l'. induction l as [|[k v] l IH]; intros l'; simpl; [done|].
  destruct (decide (k = key)) as [->|Hne].
  - intros [= <-]. simpl. destruct (decide (key = key')) as [<-|Hne'].
    + by rewrite decide_True.
    + by rewrite decide_False by congruence.
  - destruct (Bucket_update_list l key value) as [l0|]; [|done]. simpl.
    intros [= <-]. simpl. destruct (decide (k = key')) as [<-|Hne'].
    + by rewrite decide_False.
    + by apply IH.
Qed.

Lemma Bucket_update_list_keys_eq l key value l' :
  Bucket_update_list l key value = Some l' -> l'.*1 = l.*1.
Proof.
  revert l'. induction l as [|[k v] l IH]; intros l'; simpl; [done|].
  destruct (decide (k = key)) as [->|Hne].
  - by intros [= <-].
  - destruct (Bucket_update_list l key value) as [l0|]; [|done]. simpl.
    intros [= <-]. csimpl. f_equal. by apply IH.
Qed.

(** [Bucket::Find] after a [Bucket::Insert] that returns true. *)
Lemma Bucket_Find_Insert b key value b' key' :
  Bucket_Insert b key value = (true, b') ->
  Bucket_Find b' key' =
  if decide (key' = key) then Some value else Bucket_Find b key'.
Proof.
  unfold Bucket_Insert, Bucket_Find.
  destruct (Bucket_update_list (list_ b) key value) as [l|] eqn:E.
  - intros [= <-]. simpl. by apply (Bucket_Find_update_list _ _ _ _ _ E).
  - destruct (Bucket_IsFull b); [done|]. intros [= <-]. simpl.
    rewrite Bucket_Find_list_app. simpl.
    apply Bucket_update_list_None, Bucket_Find_list_None in E.
    destruct (decide (key' = key)) as [->|Hne].
    + by rewrite E, decide_True.
    + rewrite decide_False by congruence.
      by destruct (Bucket_Find_list (list_ b) key').
Qed.

Lemma Find_set_bucket s key idx (b : nat) bucket bucket' :
  IndexOf s key = Some idx ->
  dir_ s !! Z.to_nat idx = Some b ->
  buckets s !! b = Some bucket ->
  Find {| global_depth_ := global_depth_ s; bucket_size_ := bucket_size_ s;
          num_buckets_ := num_buckets_ s; dir_ := dir_ s;
          buckets := <[b := bucket']> (buckets s) |} key
  = Some (Bucket_Find bucket' key).
Proof.
  intros Hidx Hdir Hb. unfold Find, IndexOf in *. simpl.
  destruct ((0 <=? global_depth_ s) && (global_depth_ s <? 31)); [|done].
  injection Hidx as <-. unfold bucket_at. simpl. rewrite Hdir.
  by rewrite list_lookup_insert_eq by by eapply lookup_lt_Some.
Qed.

Lemma Bucket_Find_list_filter (P : K * V -> Prop) `{forall e, Decision (P e)} l key :
  (forall v, P (key, v)) ->
  Bucket_Find_list (filter P l) key = Bucket_Find_list l key.
Proof.
  intros HP. induction l as [|[k v] l IH]; [done|].
  rewrite filter_cons. destruct (decide (P (k, v))) as [Hp|Hp]; simpl.
  - by destruct (decide (k = key)).
  - destruct (decide (k = key)) as [->|Hne]; [|done]. by destruct Hp.
Qed.

Lemma Bucket_Insert_false b key value b' :
  Bucket_Insert b key value = (false, b') ->
  Z.of_nat (length (list_ b)) = size_ b.
Proof.
  unfold Bucket_Insert.
  destruct (Bucket_update_list (list_ b) key value); [done|].
  unfold Bucket_IsFull. by destruct (Z.eqb_spec (Z.of_nat (length (list_ b))) (size_ b)).
Qed.

Lemma Bucket_Insert_NoDup b key value ok b' :
  Bucket_Insert b key value = (ok, b') ->
  NoDup (list_ b).*1 -> NoDup (list_ b').*1.
Proof.
  unfold Bucket_Insert.
  destruct (Bucket_update_list (list_ b) key value) as [l|] eqn:E.
  - intros [= <- <-]. simpl. by rewrite (Bucket_update_list_keys_eq _ _ _ _ E).
  - destruct (Bucket_IsFull b); intros [= <- <-]; [done|]. simpl.
    intros Hnd. rewrite fmap_app. apply NoDup_app. split; [done|].
    split; [|apply NoDup_singleton].
    intros k Hin ->%list_elem_of_singleton.
    by apply Bucket_update_list_None in E.
Qed.

(** [Bucket::Remove]: what it returns and what [Bucket::Find] sees
    afterwards. *)
Lemma Bucket_Remove_list_spec l key found l' :
  Bucket_Remove_list l key = (found, l') ->
  found = match Bucket_Find_list l key with Some _ => true | None => false end /\
  (forall key', key' <> key -> Bucket_Find_list l' key' = Bucket_Find_list l key') /\
  (NoDup l.*1 -> NoDup l'.*1 /\ Bucket_Find_list l' key = None).
Proof.
  revert found l'. induction l as [|[k v] l IH]; simpl; intros found l'.
  - intros [= <- <-]. split; [done|]. split; [done|]. intros _. split; [constructor|done].
  - destruct (decide (k = key)) as [->|Hne].
    + intros [= <- <-]. split; [done|]. split.
      * intros key' Hne. by rewrite decide_False by congruence.
      * intros [Hnin Hnd]%NoDup_cons. split; [done|].
        by apply Bucket_Find_list_None.
    + destruct (Bucket_Remove_list l key) as [f r] eqn:E.
      intros [= <- <-]. destruct (IH f r eq_refl) as (Hf & Hother & Hnd).
      split; [done|]. split.
      * intros key' Hne'. simpl. destruct (decide (k = key')); [done|]. by apply Hother.
      * intros [Hnin Hnd']%NoDup_cons. destruct (Hnd Hnd') as [Hr Hk].
        simpl. rewrite decide_False by done. split; [|done].
        apply NoDup_cons. split; [|done]. intros Hin. apply Hnin.
        apply list_elem_of_fmap in Hin as ([k' v'] & -> & Hin). simpl.
        apply list_elem_of_fmap. exists (k', v'). split; [done|].
        by eapply Bucket_Remove_list_sub.
Qed.

(** The first loop of [SplitBucket] on a bucket that holds every key once,
    when the new bucket has room for the items that move: the items are
    split by the bit [old_depth] of their hash, in their order. *)
Lemma redistribute_filter d items : forall nb,
  NoDup items.*1 ->
  (forall k, k ∈ items.*1 -> k ∉ (list_ nb).*1) ->
  Z.of_nat (length (list_ nb))
  + Z.of_nat (length (filter (fun e => bit_at (hash e.1) d = true) items))
  <= size_ nb ->
  redistribute d items nb =
  (filter (fun e => bit_at (hash e.1) d = false) items,
   {| size_ := size_ nb; depth_ := depth_ nb;
      list_ := list_ nb ++ filter (fun e => bit_at (hash e.1) d = true) items |}).
Proof.
  induction items as [|[k v] rest IH]; intros nb Hnd Hdisj Hroom.
  - simpl. rewrite app_nil_r. by destruct nb.
  - apply NoDup_cons in Hnd as [Hk Hnd]. simpl redistribute.
    rewrite !filter_cons in *. simpl in *.
    destruct (bit_at (hash k) d) eqn:Hbit.
    + rewrite decide_True in Hroom by done.
      rewrite decide_False, decide_True by done. simpl in Hroom.
      assert (HI : Bucket_Insert nb k v =
                (true, {| size_ := size_ nb; depth_ := depth_ nb;
                          list_ := list_ nb ++ [(k, v)] |})).
      { unfold Bucket_Insert.
        assert (E : Bucket_update_list (list_ nb) k v = None).
        { apply Bucket_update_list_None, Hdisj. left. }
        rewrite E. unfold Bucket_IsFull.
        by destruct (Z.eqb_spec (Z.of_nat (length (list_ nb))) (size_ nb)); [lia|]. }
      rewrite HI. simpl. rewrite IH; simpl.
      * by rewrite <- app_assoc.
      * done.
      * intros k' Hin. rewrite fmap_app. intros [Hin'|Hin']%elem_of_app.
        -- apply (Hdisj k'); [by right|done].
        -- csimpl in Hin'. apply list_elem_of_singleton in Hin'. by subst k'.
      * rewrite length_app. simpl. lia.
    + rewrite decide_False in Hroom by done.
      rewrite decide_True, decide_False by done.
      rewrite IH; [done|done| |done].
      intros k' Hin. apply Hdisj. by right.
Qed.

Lemma bit_at_low_bits x d gd :
  0 <= d < gd -> bit_at (low_bits x gd) d = bit_at x d.
Proof.
  intros Hd. rewrite !bit_at_testbit by lia. unfold low_bits.
  rewrite Z.shiftl_1_l, Z.sub_1_r, <- Z.ones_equiv, Z.land_spec.
  rewrite Z.ones_spec_low by lia. apply andb_true_r.
Qed.

Lemma low_bits_double x gd :
  0 <= gd ->
  low_bits x (gd + 1) = low_bits x gd \/
  low_bits x (gd + 1) = low_bits x gd + 2 ^ gd.
Proof.
  intros Hgd. rewrite !low_bits_mod by lia.
  assert (H2 : 0 < 2 ^ gd) by (apply Z.pow_pos_nonneg; lia).
  rewrite Z.pow_add_r, Z.pow_1_r, Z.rem_mul_r by lia.
  pose proof (Z.mod_pos_bound (x / 2 ^ gd) 2 ltac:(lia)) as Hb.
  assert (Hc : (x / 2 ^ gd) mod 2 = 0 \/ (x / 2 ^ gd) mod 2 = 1) by lia.
  destruct Hc as [-> | ->]; [left|right]; lia.
Qed.

(** Every bucket has the capacity of the table and holds a key once. *)
Definition buckets_ok (s : t) : Prop :=
  forall (b : nat) bucket, buckets s !! b = Some bucket ->
    size_ bucket = bucket_size_ s /\ NoDup (list_ bucket).*1.

Lemma buckets_ok_init bucket_size : buckets_ok (ExtendibleHashTable bucket_size).
Proof.
  intros [|b] bucket; simpl; [|done]. intros [= <-]. simpl. split; [done|constructor].
Qed.

Lemma buckets_ok_set_bucket s (b : nat) bucket' :
  buckets_ok s ->
  size_ bucket' = bucket_size_ s -> NoDup (list_ bucket').*1 ->
  buckets_ok {| global_depth_ := global_depth_ s; bucket_size_ := bucket_size_ s;
                num_buckets_ := num_buckets_ s; dir_ := dir_ s;
                buckets := <[b := bucket']> (buckets s) |}.
Proof.
  intros Hok Hsize Hnd p bk. simpl.
  destruct (decide (p = b)) as [->|Hne].
  - destruct (decide (b < length (buckets s))%nat) as [Hlt|Hge].
    + rewrite list_lookup_insert_eq by done. by intros [= <-].
    + rewrite list_insert_ge by lia. apply Hok.
  - rewrite list_lookup_insert_ne by done. apply Hok.
Qed.

(** The two buckets that [SplitBucket] leaves. *)
Lemma SplitBucket_filter s (b : nat) bucket :
  buckets_ok s -> buckets s !! b = Some bucket ->
  Z.of_nat (length (list_ bucket)) <= size_ bucket ->
  SplitBucket s b bucket =
  {| global_depth_ := global_depth_ s; bucket_size_ := bucket_size_ s;
     num_buckets_ := num_buckets_ s + 1;
     dir_ :=
       imap (fun i p =>
               if bool_decide (p = b) && bit_at (Z.of_nat i) (depth_ bucket)
               then length (buckets s) else p)
            (dir_ s);
     buckets :=
       <[b := {| size_ := size_ bucket; depth_ := depth_ bucket + 1;
                 list_ := filter (fun e => bit_at (hash e.1) (depth_ bucket) = false)
                            (list_ bucket) |}]> (buckets s)
       ++ [{| size_ := bucket_size_ s; depth_ := depth_ bucket + 1;
              list_ := filter (fun e => bit_at (hash e.1) (depth_ bucket) = true)
                         (list_ bucket) |}] |}.
Proof.
  intros Hok Hb Hfull. destruct (Hok b bucket Hb) as [Hsize Hnd].
  unfold SplitBucket. rewrite redistribute_filter; simpl; [done|done| | ].
  - intros k _. apply not_elem_of_nil.
  - pose proof (length_filter (fun e : K * V => bit_at (hash e.1) (depth_ bucket) = true)
                  (list_ bucket)). lia.
Qed.

Lemma NoDup_keys_filter (P : K * V -> Prop) `{forall e, Decision (P e)} l :
  NoDup l.*1 -> NoDup (filter P l).*1.
Proof.
  intros Hnd. apply (sublist_NoDup _ (l.*1)); [done|].
  apply fmap_sublist, sublist_filter.
Qed.

Lemma buckets_ok_split s (b : nat) bucket :
  buckets_ok s -> buckets s !! b = Some bucket ->
  Z.of_nat (length (list_ bucket)) <= size_ bucket ->
  buckets_ok (SplitBucket s b bucket).
Proof.
  intros Hok Hb Hfull. rewrite SplitBucket_filter by done.
  destruct (Hok b bucket Hb) as [Hsize Hnd].
  pose proof (lookup_lt_Some _ _ _ Hb) as Hlt.
  intros p bk. simpl. intros Hp.
  apply lookup_app_Some in Hp as [Hp|[Hlen Hp]].
  - destruct (decide (p = b)) as [->|Hne].
    + rewrite list_lookup_insert_eq in Hp by done. injection Hp as <-. simpl.
      split; [done|]. by apply NoDup_keys_filter.
    + rewrite list_lookup_insert_ne in Hp by done. by apply (Hok p).
  - apply list_lookup_singleton_Some in Hp as [_ <-]. simpl.
    split; [done|]. by apply NoDup_keys_filter.
Qed.

(** [Find] does not see a split. *)
Lemma Find_split s (i0 b : nat) bucket key :
  inv s -> buckets_ok s ->
  dir_ s !! i0 = Some b -> buckets s !! b = Some bucket ->
  depth_ bucket < global_depth_ s ->
  Z.of_nat (length (list_ bucket)) <= size_ bucket ->
  Find (SplitBucket s b bucket) key = Find s key.
Proof.
  intros Hinv Hok Hdir Hb Hlt Hfull. rewrite SplitBucket_filter by done.
  pose proof (lookup_lt_Some _ _ _ Hb) as Hblt.
  destruct (inv_bucket s Hinv i0 b Hdir) as (bk0 & Hbk0 & Hd0 & _).
  rewrite Hb in Hbk0. injection Hbk0 as <-.
  unfold Find. change (IndexOf _ key) with (IndexOf s key) at 1.
  destruct (IndexOf s key) as [idx|] eqn:Hidx; [|done].
  destruct (IndexOf_Some s key idx Hidx) as (Hgd & Hlow & Hrange).
  unfold bucket_at. simpl. rewrite list_lookup_imap.
  destruct (dir_ s !! Z.to_nat idx) as [p|] eqn:Hp; [|done]. simpl.
  destruct (bool_decide_reflect (p = b)) as [->|Hne]; simpl.
  - rewrite Z2Nat.id, Hlow, bit_at_low_bits by lia. rewrite Hb.
    destruct (bit_at (hash key) (depth_ bucket)) eqn:Hbit.
    + rewrite lookup_app_r by (rewrite length_insert; done).
      rewrite length_insert, Nat.sub_diag. simpl. f_equal.
      unfold Bucket_Find. simpl. by apply Bucket_Find_list_filter.
    + rewrite lookup_app_l by (rewrite length_insert; done).
      rewrite list_lookup_insert_eq by done. f_equal.
      unfold Bucket_Find. simpl. by apply Bucket_Find_list_filter.
  - destruct (inv_bucket s Hinv _ p Hp) as (bk & Hbk & _).
    pose proof (lookup_lt_Some _ _ _ Hbk).
    rewrite lookup_app_l by (rewrite length_insert; done).
    by rewrite list_lookup_insert_ne.
Qed.

(** [Find] does not see the directory double. *)
Lemma Find_double s key :
  inv s -> global_depth_ s + 1 < 31 ->
  Find (double_directory s) key = Find s key.
Proof.
  intros Hinv Hgd. pose proof (inv_depth s Hinv) as Hgd0.
  pose proof (inv_dir s Hinv) as Hlen.
  unfold Find, IndexOf. simpl.
  destruct (Z.leb_spec 0 (global_depth_ s + 1)); [|lia].
  destruct (Z.ltb_spec (global_depth_ s + 1) 31); [|lia].
  destruct (Z.leb_spec 0 (global_depth_ s)); [|lia].
  destruct (Z.ltb_spec (global_depth_ s) 31); [|lia]. simpl.
  fold (low_bits (hash key) (global_depth_ s + 1)).
  fold (low_bits (hash key) (global_depth_ s)).
  assert (Hrange : 0 <= low_bits (hash key) (global_depth_ s) < 2 ^ global_depth_ s).
  { rewrite low_bits_mod by done. apply Z.mod_pos_bound, Z.pow_pos_nonneg; lia. }
  unfold bucket_at. simpl.
  destruct (low_bits_double (hash key) (global_depth_ s) Hgd0) as [-> | ->].
  - by rewrite lookup_app_l by lia.
  - rewrite lookup_app_r by lia.
    replace (Z.to_nat (low_bits (hash key) (global_depth_ s) + 2 ^ global_depth_ s)
             - length (dir_ s))%nat
      with (Z.to_nat (low_bits (hash key) (global_depth_ s))) by lia.
    done.
Qed.

Lemma Insert_Some_depth fuel s key value s' :
  Insert fuel s key value = Some s' -> 0 <= global_depth_ s < 31.
Proof.
  destruct fuel as [|fuel]; simpl; [done|].
  destruct (IndexOf s key) as [idx|] eqn:Hidx; [|done]. intros _.
  by destruct (IndexOf_Some s key idx Hidx).
Qed.

(** [Insert(key, value)] keeps the buckets well formed and leaves what
    [Find] gives for every other key. *)
Lemma Insert_other_keys fuel : forall s key value s',
  inv s -> buckets_ok s -> Insert fuel s key value = Some s' ->
  buckets_ok s' /\ forall key', key' <> key -> Find s' key' = Find s key'.
Proof.
  induction fuel as [|fuel IH]; intros s key value s' Hinv Hok; simpl; [done|].
  destruct (IndexOf s key) as [idx|] eqn:Hidx; [|done].
  destruct (IndexOf_Some s key idx Hidx) as (Hgd & Hlow & Hrange).
  unfold bucket_at.
  destruct (dir_ s !! Z.to_nat idx) as [b|] eqn:Hdir; [|done].
  destruct (buckets s !! b) as [bucket|] eqn:Hb; [|done].
  destruct (inv_bucket s Hinv _ b Hdir) as (bk & Hbk & Hd & _).
  rewrite Hb in Hbk. injection Hbk as <-.
  destruct (Hok b bucket Hb) as [Hsize Hnd].
  pose proof (lookup_lt_Some _ _ _ Hb) as Hblt.
  destruct (Bucket_Insert bucket key value) as [[|] bucket'] eqn:HI.
  - (* the item is stored *)
    intros [= <-]. destruct (Bucket_Insert_keys _ _ _ _ _ HI) as (Hsz & _ & _).
    split.
    + apply buckets_ok_set_bucket; [done|congruence|by eapply Bucket_Insert_NoDup].
    + intros key' Hne. unfold Find.
      change (IndexOf _ key') with (IndexOf s key') at 1.
      destruct (IndexOf s key') as [idx'|]; [|done].
      unfold bucket_at. simpl.
      destruct (dir_ s !! Z.to_nat idx') as [p|] eqn:Hp; [|done].
      destruct (decide (p = b)) as [->|Hpb].
      * rewrite list_lookup_insert_eq, Hb by done. f_equal.
        by rewrite (Bucket_Find_Insert _ _ _ _ key' HI), decide_False.
      * by rewrite list_lookup_insert_ne.
  - (* the bucket is full: split, and again *)
    intros HIns. pose proof (Insert_Some_depth _ _ _ _ _ HIns) as Hgd'.
    pose proof (Bucket_Insert_false _ _ _ _ HI) as Hfull.
    destruct (Z.eqb_spec (depth_ bucket) (global_depth_ s)) as [Heq|Hne].
    + assert (Hdir' : dir_ (double_directory s) !! Z.to_nat idx = Some b).
      { simpl. rewrite lookup_app_l; [done|]. by eapply lookup_lt_Some. }
      assert (Hgd1 : global_depth_ s + 1 < 31).
      { unfold SplitBucket in Hgd'.
        destruct (redistribute _ _ _) in Hgd'. simpl in Hgd'. lia. }
      destruct (IH _ _ _ _
                  (inv_split (double_directory s) (Z.to_nat idx) b bucket
                     (inv_double s Hinv) Hdir' Hb ltac:(simpl; lia))
                  (buckets_ok_split (double_directory s) b bucket Hok Hb ltac:(lia))
                  HIns) as [Hok' Hother].
      split; [done|]. intros key' Hne'. rewrite (Hother key' Hne').
      rewrite (Find_split (double_directory s) (Z.to_nat idx) b bucket key');
        [by apply Find_double|by apply inv_double|done|done|done|simpl; lia|lia].
    + destruct (IH _ _ _ _
                  (inv_split s (Z.to_nat idx) b bucket Hinv Hdir Hb ltac:(lia))
                  (buckets_ok_split s b bucket Hok Hb ltac:(lia))
                  HIns) as [Hok' Hother].
      split; [done|]. intros key' Hne'. rewrite (Hother key' Hne').
      apply (Find_split s (Z.to_nat idx) b bucket key'); try done; lia.
Qed.

Lemma buckets_ok_Remove s key found s' :
  buckets_ok s -> Remove s key = Some (found, s') -> buckets_ok s'.
Proof.
  intros Hok. unfold Remove, bucket_at.
  destruct (IndexOf s key) as [idx|]; [|done].
  destruct (dir_ s !! Z.to_nat idx) as [b|]; [|done].
  destruct (buckets s !! b) as [bucket|] eqn:Hb; [|done].
  unfold Bucket_Remove.
  destruct (Bucket_Remove_list (list_ bucket) key) as [f l] eqn:HR.
  intros [= <- <-]. destruct (Hok b bucket Hb) as [Hsize Hnd].
  apply buckets_ok_set_bucket; [done|done|]. simpl.
  by apply (Bucket_Remove_list_spec _ _ _ _ HR).
Qed.

Lemma ht_reachable_ok bucket_size s : reachable bucket_size s -> buckets_ok s.
Proof.
  induction 1 as [|s s' Hreach IH Hstep].
  - apply buckets_ok_init.
  - destruct (ht_reachable_inv _ _ Hreach) as [Hinv _].
    destruct Hstep as [fuel s key value s' HI|s key found s' HR|s key _].
    + by apply (Insert_other_keys _ _ _ _ _ Hinv IH HI).
    + by eapply buckets_ok_Remove.
    + done.
Qed.

(** In a reachable state the slot of every key is in the directory, and
    points to a bucket. *)
Lemma reachable_bucket_at bucket_size s key :
  reachable bucket_size s ->
  exists idx (b : nat) bucket,
    IndexOf s key = Some idx /\ dir_ s !! Z.to_nat idx = Some b /\
    buckets s !! b = Some bucket.
Proof.
  intros Hreach. destruct (ht_reachable_inv _ _ Hreach) as [Hinv Hgd].
  pose proof (inv_depth s Hinv) as Hgd0. pose proof (inv_dir s Hinv) as Hlen.
  unfold IndexOf.
  destruct (Z.leb_spec 0 (global_depth_ s)); [|lia].
  destruct (Z.ltb_spec (global_depth_ s) 31); [|lia]. simpl.
  fold (low_bits (hash key) (global_depth_ s)).
  assert (Hrange : 0 <= low_bits (hash key) (global_depth_ s) < 2 ^ global_depth_ s).
  { rewrite low_bits_mod by done. apply Z.mod_pos_bound, Z.pow_pos_nonneg; lia. }
  destruct (lookup_lt_is_Some_2 (dir_ s)
              (Z.to_nat (low_bits (hash key) (global_depth_ s))) ltac:(lia))
    as [b Hb].
  destruct (inv_bucket s Hinv _ b Hb) as (bucket & Hbk & _).
  by exists (low_bits (hash key) (global_depth_ s)), b, bucket.
Qed.

(** X12: when [Insert(key, value)] returns, [Find(key)] gives [value]. *)
Theorem Find_after_Insert fuel : forall s key value s',
  Insert fuel s key value = Some s' ->
  Find s' key = Some (Some value).
Proof.
  induction fuel as [|fuel IH]; intros s key value s'; simpl; [done|].
  destruct (IndexOf s key) as [idx|] eqn:Hidx; [|done].
  unfold bucket_at.
  destruct (dir_ s !! Z.to_nat idx) as [b|] eqn:Hdir; [|done].
  destruct (buckets s !! b) as [bucket|] eqn:Hb; [|done].
  destruct (Bucket_Insert bucket key value) as [[|] bucket'] eqn:HI.
  - intros [= <-]. rewrite (Find_set_bucket s key idx b bucket bucket') by done.
    by rewrite (Bucket_Find_Insert _ _ _ _ key HI), decide_True.
  - apply IH.
Qed.

(** *** The buckets the directory points to *)

(** [GetGlobalDepth], [GetNumBuckets] and [GetLocalDepth] (behind the
    latch). *)
Definition GetGlobalDepth (s : t) : Z := global_depth_ s.

Definition GetNumBuckets (s : t) : Z := num_buckets_ s.

Definition GetLocalDepth (s : t) (dir_index : Z) : option Z :=
  if (dir_index <? 0) || (Z.of_nat (length (dir_ s)) <=? dir_index) then Some (-1)
  else
    match bucket_at s dir_index with
    | Some (_, bucket) => Some (depth_ bucket)
    | None => None
    end.

(** The slots of a bucket are all the slots with its low bits, every
    bucket has a slot, and [num_buckets_] counts the buckets. *)
Record full (s : t) : Prop := mkFull {
  full_num : num_buckets_ s = Z.of_nat (length (buckets s));
  full_slots :
    forall (i j b : nat) bucket,
      dir_ s !! i = Some b -> buckets s !! b = Some bucket ->
      (j < length (dir_ s))%nat ->
      low_bits (Z.of_nat j) (depth_ bucket) = low_bits (Z.of_nat i) (depth_ bucket) ->
      dir_ s !! j = Some b;
  full_used :
    forall b : nat, (b < length (buckets s))%nat -> exists i : nat, dir_ s !! i = Some b
}.

Lemma full_init bucket_size : full (ExtendibleHashTable bucket_size).
Proof.
  split; simpl.
  - done.
  - intros [|i] j b bucket Hi Hb Hj _; [|done]. by destruct j as [|j]; [|simpl in Hj; lia].
  - intros b Hb. exists 0%nat. by destruct b as [|b]; [|lia].
Qed.

Lemma full_set_bucket s (b : nat) bucket bucket' :
  full s -> buckets s !! b = Some bucket -> depth_ bucket' = depth_ bucket ->
  full {| global_depth_ := global_depth_ s; bucket_size_ := bucket_size_ s;
          num_buckets_ := num_buckets_ s; dir_ := dir_ s;
          buckets := <[b := bucket']> (buckets s) |}.
Proof.
  intros Hfull Hb Hdepth. pose proof (lookup_lt_Some _ _ _ Hb) as Hlt.
  split; simpl.
  - rewrite length_insert. apply Hfull.
  - intros i j p bk Hi Hbk Hj Hlow. destruct (decide (p = b)) as [->|Hne].
    + rewrite list_lookup_insert_eq in Hbk by done. injection Hbk as <-.
      rewrite Hdepth in Hlow. by apply (full_slots s Hfull i j b bucket).
    + rewrite list_lookup_insert_ne in Hbk by done.
      by apply (full_slots s Hfull i j p bk).
  - intros p Hp. rewrite length_insert in Hp. by apply Hfull.
Qed.

Lemma lookup_doubled_mod (l : list nat) (i : nat) :
  (0 < length l)%nat -> (i < length l + length l)%nat ->
  (l ++ l) !! i = l !! (i mod length l)%nat.
Proof.
  intros Hpos Hi. destruct (decide (i < length l)%nat) as [Hlt|Hge].
  - rewrite lookup_app_l by done. by rewrite Nat.mod_small.
  - rewrite lookup_app_r by lia. f_equal.
    rewrite <- (Nat.mod_small (i - length l) (length l)) by lia.
    replace i with (i - length l + 1 * length l)%nat at 2 by lia.
    by rewrite Nat.Div0.mod_add.
Qed.

Lemma low_bits_mod_pow2 x d gd :
  0 <= d <= gd -> low_bits (x mod 2 ^ gd) d = low_bits x d.
Proof.
  intros Hd. rewrite !low_bits_mod by lia.
  assert (Hdiv : (2 ^ d | 2 ^ gd)).
  { exists (2 ^ (gd - d)). rewrite <- Z.pow_add_r by lia. f_equal. lia. }
  by rewrite (Z.mod_mod_divide x _ _ Hdiv).
Qed.

Lemma full_double s : inv s -> full s -> full (double_directory s).
Proof.
  intros Hinv Hfull. pose proof (inv_depth s Hinv) as Hgd.
  pose proof (inv_dir s Hinv) as Hlen.
  assert (Hpos : (0 < length (dir_ s))%nat).
  { assert (0 < 2 ^ global_depth_ s) by (apply Z.pow_pos_nonneg; lia). lia. }
  assert (Hnorm : forall (i : nat) d, 0 <= d <= global_depth_ s ->
            low_bits (Z.of_nat (i mod length (dir_ s))) d = low_bits (Z.of_nat i) d).
  { intros i d Hd. rewrite Nat2Z.inj_mod, Hlen. by apply low_bits_mod_pow2. }
  split; simpl.
  - apply Hfull.
  - intros i j b bucket Hi Hb Hj Hlow. rewrite length_app in Hj.
    assert (Hilt : (i < length (dir_ s) + length (dir_ s))%nat).
    { apply lookup_lt_Some in Hi. by rewrite length_app in Hi. }
    rewrite lookup_doubled_mod in Hi by done. rewrite lookup_doubled_mod by done.
    destruct (inv_bucket s Hinv _ b Hi) as (bk & Hbk & Hd & _).
    rewrite Hb in Hbk. injection Hbk as <-.
    apply (full_slots s Hfull (i mod length (dir_ s)) (j mod length (dir_ s)) b bucket);
      [done|done| |].
    + apply Nat.mod_upper_bound. lia.
    + by rewrite !Hnorm by lia.
  - intros b Hb. destruct (full_used s Hfull b Hb) as [i Hi].
    exists i. rewrite lookup_app_l; [done|]. by eapply lookup_lt_Some.
Qed.

Lemma low_bits_succ_bit x y d :
  0 <= d -> low_bits x (d + 1) = low_bits y (d + 1) ->
  low_bits x d = low_bits y d /\ bit_at x d = bit_at y d.
Proof.
  intros Hd Hlow. split.
  - apply (low_bits_le x y d (d + 1)); [lia|done].
  - rewrite !bit_at_testbit by done.
    rewrite !low_bits_mod in Hlow by lia.
    rewrite <- (Z.mod_pow2_bits_low x (d + 1) d), <- (Z.mod_pow2_bits_low y (d + 1) d)
      by lia.
    by rewrite Hlow.
Qed.

Lemma bit_at_add_pow2 x d :
  0 <= d -> 0 <= x -> bit_at (low_bits x d) d = false /\
  bit_at (low_bits x d + 2 ^ d) d = true /\
  low_bits (low_bits x d + 2 ^ d) d = low_bits x d /\
  low_bits (low_bits x d) d = low_bits x d.
Proof.
  intros Hd Hx. rewrite !bit_at_testbit by done.
  assert (H2 : 0 < 2 ^ d) by (apply Z.pow_pos_nonneg; lia).
  assert (Hr : 0 <= low_bits x d < 2 ^ d).
  { rewrite low_bits_mod by done. by apply Z.mod_pos_bound. }
  split; [|split; [|split]].
  - rewrite low_bits_mod by done. apply Z.mod_pow2_bits_high. lia.
  - rewrite Z.testbit_true by done.
    rewrite <- (Z.mul_1_l (2 ^ d)) at 1. rewrite Z.div_add by lia.
    rewrite Z.div_small by lia. done.
  - rewrite low_bits_add_pow2 by lia.
    rewrite !low_bits_mod by done. apply Z.mod_mod. lia.
  - rewrite !low_bits_mod by done. apply Z.mod_mod. lia.
Qed.

Lemma full_split s (i0 b : nat) bucket :
  inv s -> full s -> dir_ s !! i0 = Some b -> buckets s !! b = Some bucket ->
  depth_ bucket < global_depth_ s ->
  full (SplitBucket s b bucket).
Proof.
  intros Hinv Hfull Hdir Hb Hlt. unfold SplitBucket.
  set (d := depth_ bucket).
  destruct (redistribute d (list_ bucket)
              {| size_ := bucket_size_ s; depth_ := d + 1; list_ := [] |})
    as [kept nb'] eqn:Hr.
  destruct (redistribute_spec _ _ _ _ _ Hr) as (Hnd & _ & _). simpl in Hnd.
  pose proof (lookup_lt_Some _ _ _ Hb) as Hblt.
  destruct (inv_bucket s Hinv i0 b Hdir) as (bk0 & Hbk0 & Hd0 & _).
  rewrite Hb in Hbk0. injection Hbk0 as <-. fold d in Hd0.
  pose proof (inv_dir s Hinv) as Hlen.
  set (new_b := length (buckets s)).
  set (bucket' := {| size_ := size_ bucket; depth_ := d + 1; list_ := kept |}).
  set (dir' := imap (fun i p =>
                       if bool_decide (p = b) && bit_at (Z.of_nat i) d
                       then new_b else p) (dir_ s)).
  assert (Hold : (<[b := bucket']> (buckets s) ++ [nb']) !! b = Some bucket').
  { rewrite lookup_app_l by (rewrite length_insert; done).
    by apply list_lookup_insert_eq. }
  assert (Hnewb : (<[b := bucket']> (buckets s) ++ [nb']) !! new_b = Some nb').
  { rewrite lookup_app_r by (rewrite length_insert; done).
    rewrite length_insert. unfold new_b. by rewrite Nat.sub_diag. }
  assert (Hother : forall p, p <> b -> p <> new_b ->
            (<[b := bucket']> (buckets s) ++ [nb']) !! p = buckets s !! p).
  { intros p Hne Hne'.
    destruct (decide (p < length (buckets s))%nat) as [Hp|Hp].
    - rewrite lookup_app_l by (rewrite length_insert; done).
      by rewrite list_lookup_insert_ne.
    - rewrite !lookup_ge_None_2; [done|lia|].
      rewrite length_app, length_insert. simpl. unfold new_b in Hne'. lia. }
  assert (Hfwd : forall (j p : nat), dir_ s !! j = Some p ->
            dir' !! j = Some (if bool_decide (p = b) && bit_at (Z.of_nat j) d
                              then new_b else p)).
  { intros j p Hj. unfold dir'. rewrite list_lookup_imap, Hj. done. }
  assert (Hslot : forall (i p' : nat), dir' !! i = Some p' ->
            (dir_ s !! i = Some b /\ bit_at (Z.of_nat i) d = true /\ p' = new_b) \/
            (dir_ s !! i = Some b /\ bit_at (Z.of_nat i) d = false /\ p' = b) \/
            (dir_ s !! i = Some p' /\ p' <> b /\ p' <> new_b)).
  { intros i p'. unfold dir'. rewrite list_lookup_imap.
    destruct (dir_ s !! i) as [p|] eqn:Hp; [|done]. simpl.
    destruct (bool_decide_reflect (p = b)) as [->|Hne]; simpl.
    - destruct (bit_at (Z.of_nat i) d); intros [= <-]; auto.
    - intros [= <-]. right. right. split; [done|]. split; [done|].
      destruct (inv_bucket s Hinv i p Hp) as (bk & Hbk & _).
      apply lookup_lt_Some in Hbk. unfold new_b. lia. }
  split; simpl; fold dir'.
  - rewrite length_app, length_insert. simpl. rewrite (full_num s Hfull). lia.
  - intros i j p' bk Hi Hbk Hj Hlow. unfold dir' in Hj. rewrite length_imap in Hj.
    destruct (lookup_lt_is_Some_2 (dir_ s) j Hj) as [q Hq].
    destruct (Hslot i p' Hi) as [(Hi' & Hbit & ->)|[(Hi' & Hbit & ->)|(Hi' & Hne & Hne')]].
    + rewrite Hnewb in Hbk. injection Hbk as <-. rewrite Hnd in Hlow.
      apply low_bits_succ_bit in Hlow as [Hlow Hbj]; [|lia].
      pose proof (full_slots s Hfull i j b bucket Hi' Hb Hj Hlow) as Hjb.
      rewrite (Hfwd j b Hjb). rewrite bool_decide_eq_true_2 by done.
      by rewrite Hbj, Hbit.
    + rewrite Hold in Hbk. injection Hbk as <-. simpl in Hlow.
      apply low_bits_succ_bit in Hlow as [Hlow Hbj]; [|lia].
      pose proof (full_slots s Hfull i j b bucket Hi' Hb Hj Hlow) as Hjb.
      rewrite (Hfwd j b Hjb). rewrite bool_decide_eq_true_2 by done.
      by rewrite Hbj, Hbit.
    + rewrite Hother in Hbk by done.
      pose proof (full_slots s Hfull i j p' bk Hi' Hbk Hj Hlow) as Hjp.
      rewrite (Hfwd j p' Hjp). by rewrite bool_decide_eq_false_2.
  - intros p Hp. rewrite length_app, length_insert in Hp. simpl in Hp.
    assert (Hrange : forall x, 0 <= x < 2 ^ (d + 1) ->
              (Z.to_nat x < length (dir_ s))%nat).
    { intros x Hx.
      assert (2 ^ (d + 1) <= 2 ^ global_depth_ s) by (apply Z.pow_le_mono_r; lia).
      lia. }
    destruct (bit_at_add_pow2 (Z.of_nat i0) d ltac:(lia) ltac:(lia))
      as (Hb0 & Hb1 & Hl1 & Hl0).
    assert (Hr0 : 0 <= low_bits (Z.of_nat i0) d < 2 ^ d).
    { rewrite low_bits_mod by lia. apply Z.mod_pos_bound, Z.pow_pos_nonneg; lia. }
    assert (Hpow : 2 ^ (d + 1) = 2 * 2 ^ d).
    { rewrite Z.pow_add_r by lia. lia. }
    destruct (decide (p = new_b)) as [->|Hne'].
    + exists (Z.to_nat (low_bits (Z.of_nat i0) d + 2 ^ d)).
      rewrite (Hfwd _ b).
      * rewrite bool_decide_eq_true_2 by done. rewrite Z2Nat.id by lia.
        by rewrite Hb1.
      * apply (full_slots s Hfull i0 _ b bucket Hdir Hb); [apply Hrange; lia|].
        rewrite Z2Nat.id by lia. exact Hl1.
    + destruct (decide (p = b)) as [->|Hne].
      * exists (Z.to_nat (low_bits (Z.of_nat i0) d)).
        rewrite (Hfwd _ b).
        -- rewrite bool_decide_eq_true_2 by done. rewrite Z2Nat.id by lia.
           by rewrite Hb0.
        -- apply (full_slots s Hfull i0 _ b bucket Hdir Hb); [apply Hrange; lia|].
           rewrite Z2Nat.id by lia. exact Hl0.
      * destruct (full_used s Hfull p ltac:(unfold new_b in Hne'; lia)) as [i Hi].
        exists i. rewrite (Hfwd i p Hi). by rewrite bool_decide_eq_false_2.
Qed.

Lemma full_Insert fuel : forall s key value s',
  inv s -> full s -> Insert fuel s key value = Some s' -> full s'.
Proof.
  induction fuel as [|fuel IH]; intros s key value s' Hinv Hfull; simpl; [done|].
  destruct (IndexOf s key) as [idx|] eqn:Hidx; [|done].
  destruct (IndexOf_Some s key idx Hidx) as (Hgd & Hlow & Hrange).
  unfold bucket_at.
  destruct (dir_ s !! Z.to_nat idx) as [b|] eqn:Hdir; [|done].
  destruct (buckets s !! b) as [bucket|] eqn:Hb; [|done].
  destruct (inv_bucket s Hinv _ b Hdir) as (bk & Hbk & Hd & _).
  rewrite Hb in Hbk. injection Hbk as <-.
  destruct (Bucket_Insert bucket key value) as [[|] bucket'] eqn:HI.
  - intros [= <-]. destruct (Bucket_Insert_keys _ _ _ _ _ HI) as (_ & Hdepth & _).
    by apply (full_set_bucket s b bucket bucket').
  - assert (Hdir' : dir_ (double_directory s) !! Z.to_nat idx = Some b).
    { simpl. rewrite lookup_app_l; [done|]. by eapply lookup_lt_Some. }
    destruct (Z.eqb_spec (depth_ bucket) (global_depth_ s)) as [Heq|Hne].
    + apply IH.
      * apply (inv_split (double_directory s) (Z.to_nat idx) b bucket);
          [by apply inv_double|done|done|simpl; lia].
      * apply (full_split (double_directory s) (Z.to_nat idx) b bucket);
          [by apply inv_double|by apply full_double|done|done|simpl; lia].
    + apply IH.
      * apply (inv_split s (Z.to_nat idx) b bucket); try done. lia.
      * apply (full_split s (Z.to_nat idx) b bucket); try done. lia.
Qed.

Lemma full_Remove s key found s' : full s -> Remove s key = Some (found, s') -> full s'.
Proof.
  intros Hfull. unfold Remove, bucket_at.
  destruct (IndexOf s key) as [idx|]; [|done].
  destruct (dir_ s !! Z.to_nat idx) as [b|]; [|done].
  destruct (buckets s !! b) as [bucket|] eqn:Hb; [|done].
  unfold Bucket_Remove.
  destruct (Bucket_Remove_list (list_ bucket) key) as [f l] eqn:HR.
  intros [= <- <-]. by apply (full_set_bucket s b bucket).
Qed.

Lemma ht_reachable_full bucket_size s : reachable bucket_size s -> full s.
Proof.
  induction 1 as [|s s' Hreach IH Hstep].
  - apply full_init.
  - destruct (ht_reachable_inv _ _ Hreach) as [Hinv _].
    destruct Hstep as [fuel s key value s' HI|s key found s' HR|s key _].
    + by eapply full_Insert.
    + by eapply full_Remove.
    + done.
Qed.

(** X13: in a table reached from the initial one, an [Insert(key, value)]
    that returns leaves what [Find] gives for every other key. *)
Theorem Insert_keeps_other_keys bucket_size fuel s key value s' key' :
  reachable bucket_size s ->
  Insert fuel s key value = Some s' ->
  key' <> key ->
  Find s' key' = Find s key'.
Proof.
  intros Hreach HI Hne. destruct (ht_reachable_inv _ _ Hreach) as [Hinv _].
  by apply (Insert_other_keys _ _ _ _ _ Hinv (ht_reachable_ok _ _ Hreach) HI).
Qed.

(** X14: in a table reached from the initial one, [Remove(key)] returns,
    with true exactly when [Find(key)] found the key; afterwards
    [Find(key)] finds nothing, and [Find] of every other key is as
    before. *)
Theorem Remove_erases_the_key bucket_size s key :
  reachable bucket_size s ->
  exists found s',
    Remove s key = Some (found, s') /\
    found = match Find s key with Some (Some _) => true | _ => false end /\
    Find s' key = Some None /\
    forall key', key' <> key -> Find s' key' = Find s key'.
Proof.
  intros Hreach.
  destruct (reachable_bucket_at bucket_size s key Hreach)
    as (idx & b & bucket & Hidx & Hdir & Hb).
  destruct (ht_reachable_ok _ _ Hreach b bucket Hb) as [_ Hnd].
  pose proof (lookup_lt_Some _ _ _ Hb) as Hblt.
  unfold Remove, Find at 1, bucket_at. rewrite Hidx, Hdir, Hb. unfold Bucket_Remove.
  destruct (Bucket_Remove_list (list_ bucket) key) as [f l] eqn:HR.
  destruct (Bucket_Remove_list_spec _ _ _ _ HR) as (Hf & Hother & Hgone).
  destruct (Hgone Hnd) as [_ Hnone].
  eexists _, _. split; [done|]. split; [|split].
  - rewrite Hf. unfold Bucket_Find. by destruct (Bucket_Find_list (list_ bucket) key).
  - rewrite (Find_set_bucket s key idx b bucket) by done.
    unfold Bucket_Find. simpl. by rewrite Hnone.
  - intros key' Hne. unfold Find.
    change (IndexOf _ key') with (IndexOf s key') at 1.
    destruct (IndexOf s key') as [idx'|]; [|done].
    unfold bucket_at. simpl.
    destruct (dir_ s !! Z.to_nat idx') as [p|] eqn:Hp; [|done].
    destruct (decide (p = b)) as [->|Hpb].
    + rewrite list_lookup_insert_eq, Hb by done. f_equal.
      unfold Bucket_Find. simpl. by apply Hother.
    + by rewrite list_lookup_insert_ne.
Qed.

Lemma size_list_to_set_le (l : list nat) :
  (size (list_to_set l : gset nat) <= length l)%nat.
Proof.
  induction l as [|x l IH]; simpl; [done|].
  - rewrite size_union_alt, size_singleton.
    assert (Hsub : (list_to_set l : gset nat) ∖ {[x]} ⊆ list_to_set l)
      by apply subseteq_difference_l, reflexivity.
    apply subseteq_size in Hsub. lia.
Qed.

(** X15: in a table reached from the initial one, [GetLocalDepth] of a
    slot [i] of the directory is between 0 and [GetGlobalDepth()], and a
    slot [j] points to the same bucket as [i] exactly when [i] and [j]
    agree on that many low bits. *)
Theorem slots_share_low_bits bucket_size s (i j : nat) :
  reachable bucket_size s ->
  (i < length (dir_ s))%nat -> (j < length (dir_ s))%nat ->
  exists d,
    GetLocalDepth s (Z.of_nat i) = Some d /\
    0 <= d <= GetGlobalDepth s /\
    (dir_ s !! j = dir_ s !! i <->
     Z.land (Z.of_nat j) (Z.shiftl 1 d - 1) = Z.land (Z.of_nat i) (Z.shiftl 1 d - 1)).
Proof.
  intros Hreach Hi Hj. destruct (ht_reachable_inv _ _ Hreach) as [Hinv _].
  pose proof (ht_reachable_full _ _ Hreach) as Hfull.
  destruct (lookup_lt_is_Some_2 (dir_ s) i Hi) as [b Hb].
  destruct (inv_bucket s Hinv i b Hb) as (bucket & Hbk & Hd & _).
  exists (depth_ bucket). split; [|split; [done|]].
  - unfold GetLocalDepth, bucket_at.
    destruct (Z.ltb_spec (Z.of_nat i) 0); [lia|].
    destruct (Z.leb_spec (Z.of_nat (length (dir_ s))) (Z.of_nat i)); [lia|]. simpl.
    by rewrite Nat2Z.id, Hb, Hbk.
  - fold (low_bits (Z.of_nat j) (depth_ bucket)).
    fold (low_bits (Z.of_nat i) (depth_ bucket)). rewrite Hb. split.
    + intros Hjb. by apply (inv_shared s Hinv j i b bucket).
    + intros Hlow. by apply (full_slots s Hfull i j b bucket).
Qed.

(** X16: in a table reached from the initial one, [GetNumBuckets()] is the
    number of different buckets the slots of the directory point to. *)
Theorem GetNumBuckets_counts_buckets bucket_size s :
  reachable bucket_size s ->
  GetNumBuckets s = Z.of_nat (size (list_to_set (dir_ s) : gset nat)) /\
  1 <= GetNumBuckets s <= 2 ^ GetGlobalDepth s.
Proof.
  intros Hreach. destruct (ht_reachable_inv _ _ Hreach) as [Hinv _].
  pose proof (ht_reachable_full _ _ Hreach) as Hfull.
  assert (Hset : (list_to_set (dir_ s) : gset nat)
                 = list_to_set (seq 0 (length (buckets s)))).
  { apply set_eq. intros b. rewrite !elem_of_list_to_set, elem_of_seq. split.
    - intros [i Hi]%list_elem_of_lookup_1.
      destruct (inv_bucket s Hinv i b Hi) as (bucket & Hbk & _).
      apply lookup_lt_Some in Hbk. lia.
    - intros Hb. destruct (full_used s Hfull b ltac:(lia)) as [i Hi].
      by eapply list_elem_of_lookup_2. }
  assert (Hsize : size (list_to_set (dir_ s) : gset nat) = length (buckets s)).
  { rewrite Hset, size_list_to_set by apply NoDup_seq. apply length_seq. }
  unfold GetNumBuckets, GetGlobalDepth. rewrite (full_num s Hfull), Hsize.
  split; [done|]. split.
  - destruct (lookup_lt_is_Some_2 (dir_ s) 0) as [b Hb].
    + pose proof (inv_dir s Hinv) as Hlen.
      assert (0 < 2 ^ global_depth_ s)
        by (apply Z.pow_pos_nonneg; [lia|apply Hinv]). lia.
    + destruct (inv_bucket s Hinv 0%nat b Hb) as (bucket & Hbk & _).
      apply lookup_lt_Some in Hbk. lia.
  - rewrite <- (inv_dir s Hinv). rewrite <- Hsize.
    apply Nat2Z.inj_le, size_list_to_set_le.
Qed.

End Table.

(** *** A table of [int] keys *)

(** [std::hash<int>]: the key itself, as a [size_t]. *)
Definition hash_int (k : Z) : Z := to_size_t k.

Definition insert_or_keep (s : t (K := Z) (V := Z)) (key value : Z) : t :=
  default s (Insert hash_int 10 s key value).

(** Buckets of two items; the keys 0, 4, 2, 6 are inserted in this order
    (the directory doubles twice on the third). *)
Definition example_table : t (K := Z) (V := Z) :=
  let t0 := ExtendibleHashTable 2 in
  let t1 := insert_or_keep t0 0 100 in
  let t2 := insert_or_keep t1 4 104 in
  let t3 := insert_or_keep t2 2 102 in
  insert_or_keep t3 6 106.

Lemma reachable_insert_or_keep bucket_size s key value :
  reachable hash_int bucket_size s ->
  reachable hash_int bucket_size (insert_or_keep s key value).
Proof.
  intros Hreach. unfold insert_or_keep.
  destruct (Insert hash_int 10 s key value) as [s'|] eqn:E; simpl; [|done].
  eapply reach_step; [done|]. by eapply step_Insert.
Defined.

Lemma example_table_reachable : reachable hash_int 2 example_table.
Proof.
  unfold example_table. repeat apply reachable_insert_or_keep. apply reach_init.
Defined.

Lemma directory_and_bucket_invariant_witness :
  reachable hash_int 2 example_table /\
  global_depth_ example_table = 2 /\
  Z.of_nat (length (dir_ example_table)) = 2 ^ global_depth_ example_table /\
  forall (i b : nat),
    dir_ example_table !! i = Some b ->
    exists bucket,
      buckets example_table !! b = Some bucket /\
      0 <= depth_ bucket <= global_depth_ example_table /\
      forall k v,
        (k, v) ∈ list_ bucket ->
        Z.land (hash_int k) (Z.shiftl 1 (depth_ bucket) - 1)
        = Z.land (Z.of_nat i) (Z.shiftl 1 (depth_ bucket) - 1).
Proof.
  split; [apply example_table_reachable|]. split; [reflexivity|].
  exact (directory_and_bucket_invariant hash_int 2 example_table
           example_table_reachable).
Defined.

Lemma Find_after_Insert_witness :
  Find hash_int (insert_or_keep example_table 8 108) 8 = Some (Some 108).
Proof.
  apply (Find_after_Insert hash_int 10 example_table 8 108).
  vm_compute. reflexivity.
Defined.

Lemma Insert_keeps_other_keys_witness :
  Find hash_int (insert_or_keep example_table 8 108) 4
  = Find hash_int example_table 4.
Proof.
  apply (Insert_keeps_other_keys hash_int 2 10 example_table 8 108).
  - apply example_table_reachable.
  - vm_compute. reflexivity.
  - lia.
Defined.

Lemma Remove_erases_the_key_witness :
  exists found s',
    Remove hash_int example_table 4 = Some (found, s') /\
    found = match Find hash_int example_table 4 with
            | Some (Some _) => true
            | _ => false
            end /\
    Find hash_int s' 4 = Some None /\
    forall key', key' <> 4 -> Find hash_int s' key' = Find hash_int example_table key'.
Proof.
  exact (Remove_erases_the_key hash_int 2 example_table 4 example_table_reachable).
Defined.

Lemma slots_share_low_bits_witness :
  exists d,
    GetLocalDepth example_table 0 = Some d /\
    0 <= d <= GetGlobalDepth example_table /\
    (dir_ example_table !! 2%nat = dir_ example_table !! 0%nat <->
     Z.land (Z.of_nat 2) (Z.shiftl 1 d - 1) = Z.land (Z.of_nat 0) (Z.shiftl 1 d - 1)).
Proof.
  apply (slots_share_low_bits hash_int 2 example_table 0 2 example_table_reachable).
  - vm_compute. lia.
  - vm_compute. lia.
Defined.

Lemma GetNumBuckets_counts_buckets_witness :
  GetNumBuckets example_table
  = Z.of_nat (size (list_to_set (dir_ example_table) : gset nat)) /\
  1 <= GetNumBuckets example_table <= 2 ^ GetGlobalDepth example_table.
Proof.
  exact (GetNumBuckets_counts_buckets hash_int 2 example_table example_table_reachable).
Defined.

End ExtendibleHashTable.

(** ** B+ tree pages (storage/page/b_plus_tree_*_page.cpp) *)

(** The flexible array [array_] of a page is the list of its slots from
    slot 0; slots past the end of the list hold the zero bytes that a new
    page has.  [size_] is a field of the header, as in the source: the
    slots at and past [size_] keep what was last written there.  The page
    is taken to have room for every slot that is written. *)
Module PageArray.

Section Slots.
Context {E : Type} (zero : E).

(** [array_[i]], read. *)
Definition read (a : list E) (i : Z) : E :=
  if 0 <=? i then nth (Z.to_nat i) a zero else zero.

(** [array_[i] = x]. *)
Definition write (a : list E) (i : Z) (x : E) : list E :=
  if 0 <=? i
  then <[Z.to_nat i := x]> (a ++ replicate (Z.to_nat i + 1 - length a) zero)
  else a.

(** [for (int i = from; i > idx; i--) array_[i] = array_[i - 1];] with
    [n] turns left. *)
Fixpoint shift_up (a : list E) (i : Z) (n : nat) : list E :=
  match n with
  | O => a
  | S n' => shift_up (write a i (read a (i - 1))) (i - 1) n'
  end.

(** [for (int i = from; i < size; i++) array_[i - 1] = array_[i];] with
    [n] turns left. *)
Fixpoint shift_down (a : list E) (i : Z) (n : nat) : list E :=
  match n with
  | O => a
  | S n' => shift_down (write a (i - 1) (read a i)) (i + 1) n'
  end.

(** The live slots [array_[0 .. size)]. *)
Definition live (a : list E) (size : Z) : list E :=
  map (read a) (seqZ 0 size).

Lemma read_write_eq (a : list E) (i : Z) (x : E) :
  0 <= i -> read (write a i x) i = x.
Proof.
  intros Hi. unfold read, write.
  destruct (Z.leb_spec 0 i) as [_|]; [|lia].
  apply nth_lookup_Some with (d := zero).
  apply list_lookup_insert_eq.
  rewrite length_app, length_replicate. lia.
Qed.

Lemma read_write_ne (a : list E) (i j : Z) (x : E) :
  i <> j -> read (write a i x) j = read a j.
Proof.
  intros Hij. unfold read, write.
  destruct (Z.leb_spec 0 j) as [Hj|]; [|done].
  destruct (Z.leb_spec 0 i) as [Hi|]; [|done].
  assert (Hne : Z.to_nat i <> Z.to_nat j) by lia.
  destruct (decide (Z.to_nat j < length a)%nat) as [Hlt|Hge].
  - destruct (lookup_lt_is_Some_2 a (Z.to_nat j) Hlt) as [y Hy].
    rewrite (nth_lookup_Some _ _ zero y).
    + by rewrite (nth_lookup_Some _ _ zero y Hy).
    + rewrite list_lookup_insert_ne by done.
      by apply lookup_app_l_Some.
  - rewrite (nth_overflow a) by lia.
    set (b := a ++ replicate (Z.to_nat i + 1 - length a) zero).
    destruct (decide (Z.to_nat j < length b)%nat) as [Hlt|Hge'].
    + destruct (lookup_lt_is_Some_2 b (Z.to_nat j) Hlt) as [y Hy].
      rewrite (nth_lookup_Some _ _ zero y).
      * unfold b in Hy. rewrite lookup_app_r in Hy by lia.
        apply lookup_replicate in Hy. by destruct Hy.
      * by rewrite list_lookup_insert_ne.
    + apply nth_overflow. rewrite length_insert. lia.
Qed.

Lemma read_shift_up (n : nat) : forall (a : list E) (i j : Z),
  Z.of_nat n <= i ->
  read (shift_up a i n) j =
  if (i - Z.of_nat n <? j) && (j <=? i) then read a (j - 1) else read a j.
Proof.
  induction n as [|n IH]; intros a i j Hn; simpl shift_up.
  - destruct (Z.ltb_spec (i - Z.of_nat 0) j), (Z.leb_spec j i); simpl; try done; lia.
  - rewrite IH by lia.
    destruct (Z.ltb_spec (i - 1 - Z.of_nat n) j), (Z.leb_spec j (i - 1)),
      (Z.ltb_spec (i - Z.of_nat (S n)) j), (Z.leb_spec j i); simpl; try lia.
    + apply read_write_ne. lia.
    + assert (j = i) as -> by lia. apply read_write_eq. lia.
    + apply read_write_ne. lia.
    + apply read_write_ne. lia.
Qed.

Lemma read_shift_down (n : nat) : forall (a : list E) (i j : Z),
  1 <= i ->
  read (shift_down a i n) j =
  if (i - 1 <=? j) && (j <? i - 1 + Z.of_nat n) then read a (j + 1) else read a j.
Proof.
  induction n as [|n IH]; intros a i j Hi; simpl shift_down.
  - destruct (Z.leb_spec (i - 1) j), (Z.ltb_spec j (i - 1 + Z.of_nat 0)); simpl; try done; lia.
  - rewrite IH by lia. replace (i + 1 - 1) with i by lia.
    destruct (Z.leb_spec i j), (Z.ltb_spec j (i + Z.of_nat n)),
      (Z.leb_spec (i - 1) j), (Z.ltb_spec j (i - 1 + Z.of_nat (S n))); simpl; try lia.
    + apply read_write_ne. lia.
    + apply read_write_ne. lia.
    + assert (j = i - 1) as -> by lia.
      replace (i - 1 + 1) with i by lia. apply read_write_eq. lia.
    + apply read_write_ne. lia.
Qed.

Lemma length_live (a : list E) (size : Z) : length (live a size) = Z.to_nat size.
Proof. unfold live. by rewrite length_map, length_seqZ. Qed.

Lemma lookup_live (a : list E) (size : Z) (i : nat) :
  Z.of_nat i < size -> live a size !! i = Some (read a (Z.of_nat i)).
Proof.
  intros Hi. unfold live.
  change (map (read a) (seqZ 0 size)) with (read a <$> seqZ 0 size).
  rewrite list_lookup_fmap, lookup_seqZ_lt by lia. simpl. by rewrite Z.add_0_l.
Qed.

Lemma live_ext (a b : list E) (size : Z) :
  (forall i, 0 <= i < size -> read a i = read b i) -> live a size = live b size.
Proof.
  intros Hab. unfold live. apply map_ext_in. intros i Hi.
  apply list_elem_of_In, elem_of_seqZ in Hi. apply Hab. lia.
Qed.

Lemma live_S (a : list E) (size : Z) :
  0 <= size -> live a (size + 1) = live a size ++ [read a size].
Proof.
  intros Hs. unfold live.
  rewrite seqZ_app by lia. rewrite map_app. by rewrite Z.add_0_l.
Qed.

Lemma live_cons (a : list E) (size : Z) :
  0 <= size ->
  live a (size + 1) = read a 0 :: map (fun i => read a (i + 1)) (seqZ 0 size).
Proof.
  intros Hs. unfold live.
  replace (size + 1) with (Z.succ size) by lia.
  rewrite seqZ_cons by lia. simpl. f_equal.
  replace (Z.pred (Z.succ size)) with size by lia.
  replace (Z.succ 0) with (1 + 0) by lia.
  rewrite <- fmap_add_seqZ.
  change (map (read a) (Z.add 1 <$> seqZ 0 size))
    with (map (read a) (map (Z.add 1) (seqZ 0 size))).
  rewrite map_map. apply map_ext. intros i. f_equal. lia.
Qed.

(** Taking the head away: what [for (i = 1; i < size; i++) array_[i - 1] =
    array_[i]] leaves in the first [size - 1] slots. *)
Lemma live_shift_down_head (a : list E) (size : Z) :
  0 < size ->
  live a size = read a 0 :: live (shift_down a 1 (Z.to_nat (size - 1))) (size - 1).
Proof.
  intros Hs. replace size with (size - 1 + 1) at 1 by lia.
  rewrite live_cons by lia. f_equal. unfold live.
  apply map_ext_in. intros i Hi.
  apply list_elem_of_In, elem_of_seqZ in Hi.
  rewrite read_shift_down by lia. rewrite Z2Nat.id by lia.
  by destruct (Z.leb_spec (1 - 1) i), (Z.ltb_spec i (1 - 1 + (size - 1))); try lia.
Qed.

(** Appending: [array_[size] = x]. *)
Lemma live_write_end (a : list E) (size : Z) (x : E) :
  0 <= size -> live (write a size x) (size + 1) = live a size ++ [x].
Proof.
  intros Hs. rewrite live_S by lia. rewrite read_write_eq by lia. f_equal.
  apply live_ext. intros i Hi. apply read_write_ne. lia.
Qed.

(** Putting a head in front: [for (i = size; i > 0; i--) array_[i] =
    array_[i - 1]; array_[0] = x]. *)
Lemma live_shift_up_head (a : list E) (size : Z) (x : E) :
  0 <= size ->
  live (write (shift_up a size (Z.to_nat size)) 0 x) (size + 1) = x :: live a size.
Proof.
  intros Hs. rewrite live_cons by lia. rewrite read_write_eq by lia. f_equal.
  unfold live. apply map_ext_in. intros i Hi.
  apply list_elem_of_In, elem_of_seqZ in Hi.
  rewrite read_write_ne by lia. rewrite read_shift_up by lia.
  rewrite Z2Nat.id by lia.
  destruct (Z.ltb_spec (size - size) (i + 1)), (Z.leb_spec (i + 1) size);
    simpl; try lia.
  f_equal. lia.
Qed.

(** Taking the slot [index] away: [for (i = index + 1; i < size; i++)
    array_[i - 1] = array_[i]]. *)
Lemma live_shift_down_delete (a : list E) (size index : Z) :
  0 <= index < size ->
  live (shift_down a (index + 1) (Z.to_nat (size - (index + 1)))) (size - 1)
  = delete (Z.to_nat index) (live a size).
Proof.
  intros Hi. apply list_eq. intros n.
  destruct (decide (Z.of_nat n < size - 1)) as [Hn|Hn].
  - rewrite lookup_live by done. rewrite read_shift_down by lia.
    rewrite Z2Nat.id by lia.
    destruct (Z.leb_spec (index + 1 - 1) (Z.of_nat n)),
      (Z.ltb_spec (Z.of_nat n) (index + 1 - 1 + (size - (index + 1)))); simpl; try lia.
    + rewrite list_lookup_delete_ge by lia.
      rewrite lookup_live by lia. f_equal. f_equal. lia.
    + rewrite list_lookup_delete_lt by lia. by rewrite lookup_live by lia.
  - rewrite !lookup_ge_None_2; [done| |].
    + rewrite length_delete.
      * rewrite length_live. lia.
      * apply lookup_lt_is_Some_2. rewrite length_live. lia.
    + rewrite length_live. lia.
Qed.

End Slots.

End PageArray.

(** Keys, values and the comparator of the instantiated templates. *)
Module Index.

(** Modelled from the spec: storage/index/generic_key.h is not among the
    sources.  A [GenericKey<N>] set from an integer is that integer; a
    value-initialised key is 0; [GenericComparator] orders keys as
    integers and returns -1, 0 or 1. *)
Definition KeyType : Type := Z.

Definition KeyType_default : KeyType := 0.

Definition comparator (a b : KeyType) : Z :=
  match a ?= b with
  | Lt => -1
  | Eq => 0
  | Gt => 1
  end.

(** Modelled from the spec: common/rid.h is not among the sources.  A
    record id is a page id and a slot number; [RID()] has the page id
    [INVALID_PAGE_ID] and slot 0. *)
Record RID : Type := mkRID {
  rid_page_id : Z;
  rid_slot_num : Z
}.

Definition ValueType : Type := RID.

Definition ValueType_default : ValueType :=
  {| rid_page_id := INVALID_PAGE_ID; rid_slot_num := 0 |}.

(** The zero bytes of a slot. *)
Definition leaf_zero : KeyType * ValueType :=
  (0, {| rid_page_id := 0; rid_slot_num := 0 |}).

Definition internal_zero : KeyType * Z := (0, 0).

(** Modelled from the spec: storage/page/b_plus_tree_page.{h,cpp} are not
    among the sources.  The header of a page, without the page type (a
    page is a leaf or an internal page by its constructor below) and the
    lsn. *)
Record Header : Type := mkHeader {
  size_ : Z;
  max_size_ : Z;
  parent_page_id_ : Z;
  page_id_ : Z
}.

(** Modelled from the spec: [min_size] is the ceiling of [max_size / 2]. *)
Definition min_size_of (max_size : Z) : Z := (max_size + 1) / 2.

End Index.

Module BPlusTreeLeafPage.
Import Index.

Record t : Type := mkLeaf {
  header : Header;
  next_page_id_ : Z;
  array_ : list (KeyType * ValueType)
}.

Definition GetSize (p : t) : Z := size_ (header p).
Definition GetMaxSize (p : t) : Z := max_size_ (header p).
Definition GetMinSize (p : t) : Z := min_size_of (max_size_ (header p)).
Definition GetPageId (p : t) : Z := page_id_ (header p).
Definition GetParentPageId (p : t) : Z := parent_page_id_ (header p).
Definition IsRootPage (p : t) : bool := parent_page_id_ (header p) =? INVALID_PAGE_ID.
Definition GetNextPageId (p : t) : Z := next_page_id_ p.

Definition SetSize (p : t) (size : Z) : t :=
  {| header :=
       {| size_ := size; max_size_ := max_size_ (header p);
          parent_page_id_ := parent_page_id_ (header p);
          page_id_ := page_id_ (header p) |};
     next_page_id_ := next_page_id_ p; array_ := array_ p |}.

Definition IncreaseSize (p : t) (amount : Z) : t := SetSize p (GetSize p + amount).

Definition SetParentPageId (p : t) (parent_id : Z) : t :=
  {| header :=
       {| size_ := size_ (header p); max_size_ := max_size_ (header p);
          parent_page_id_ := parent_id; page_id_ := page_id_ (header p) |};
     next_page_id_ := next_page_id_ p; array_ := array_ p |}.

Definition SetNextPageId (p : t) (next_page_id : Z) : t :=
  {| header := header p; next_page_id_ := next_page_id; array_ := array_ p |}.

Definition set_array (p : t) (a : list (KeyType * ValueType)) : t :=
  {| header := header p; next_page_id_ := next_page_id_ p; array_ := a |}.

(** [array_[i]]. *)
Definition at_ (p : t) (i : Z) : KeyType * ValueType :=
  PageArray.read leaf_zero (array_ p) i.

(** The live entries [array_[0 .. size)]. *)
Definition entries (p : t) : list (KeyType * ValueType) :=
  PageArray.live leaf_zero (array_ p) (GetSize p).

(** [B_PLUS_TREE_LEAF_PAGE_TYPE::Init], on the zeroed memory of a new
    page. *)
Definition Init (page_id parent_id max_size : Z) : t :=
  {| header :=
       {| size_ := 0; max_size_ := max_size; parent_page_id_ := parent_id;
          page_id_ := page_id |};
     next_page_id_ := INVALID_PAGE_ID; array_ := [] |}.

(** [B_PLUS_TREE_LEAF_PAGE_TYPE::KeyAt]. *)
Definition KeyAt (p : t) (index : Z) : KeyType :=
  if (0 <=? index) && (index <? GetSize p) then fst (at_ p index)
  else KeyType_default.

(** [B_PLUS_TREE_LEAF_PAGE_TYPE::ValueAt]. *)
Definition ValueAt (p : t) (index : Z) : ValueType :=
  if (0 <=? index) && (index <? GetSize p) then snd (at_ p index)
  else ValueType_default.

(** [B_PLUS_TREE_LEAF_PAGE_TYPE::SetValueAt]. *)
Definition SetValueAt (p : t) (index : Z) (value : ValueType) : t :=
  if (0 <=? index) && (index <? GetSize p)
  then set_array p (PageArray.write leaf_zero (array_ p) index (fst (at_ p index), value))
  else p.

(** The loop of [KeyIndex]: [while (left <= right)], for at most [fuel]
    turns (the interval shrinks every turn, so [size] turns are never
    exceeded). *)
Fixpoint KeyIndex_loop (fuel : nat) (p : t) (key : KeyType) (left right ans : Z) : Z :=
  match fuel with
  | O => ans
  | S fuel' =>
      if left <=? right then
        let mid := (left + right) / 2 in
        if comparator (fst (at_ p mid)) key >=? 0
        then KeyIndex_loop fuel' p key left (mid - 1) mid
        else KeyIndex_loop fuel' p key (mid + 1) right ans
      else ans
  end.

(** [B_PLUS_TREE_LEAF_PAGE_TYPE::KeyIndex]. *)
Definition KeyIndex (p : t) (key : KeyType) : Z :=
  KeyIndex_loop (Z.to_nat (GetSize p)) p key 0 (GetSize p - 1) (GetSize p).

(** [B_PLUS_TREE_LEAF_PAGE_TYPE::Lookup]. *)
Definition Lookup (p : t) (key : KeyType) : option ValueType :=
  let idx := KeyIndex p key in
  if (idx <? GetSize p) && (comparator (fst (at_ p idx)) key =? 0)
  then Some (snd (at_ p idx))
  else None.

(** [B_PLUS_TREE_LEAF_PAGE_TYPE::Insert]: the result and the page. *)
Definition Insert (p : t) (key : KeyType) (value : ValueType) : Z * t :=
  let size := GetSize p in
  let idx := KeyIndex p key in
  if (idx <? size) && (comparator (fst (at_ p idx)) key =? 0) then (-1, p)
  else
    let shifted := PageArray.shift_up leaf_zero (array_ p) size (Z.to_nat (size - idx)) in
    let p' :=
      IncreaseSize
        (set_array p (PageArray.write leaf_zero shifted idx (key, value))) 1 in
    (GetSize p', p').

(** [B_PLUS_TREE_LEAF_PAGE_TYPE::RemoveAt]. *)
Definition RemoveAt (p : t) (index : Z) : t :=
  let size := GetSize p in
  if (index <? 0) || (index >=? size) then p
  else
    IncreaseSize
      (set_array p
         (PageArray.shift_down leaf_zero (array_ p) (index + 1)
            (Z.to_nat (size - (index + 1)))))
      (-1).

(** [B_PLUS_TREE_LEAF_PAGE_TYPE::ShiftHeadItemToBack]: the donor [p] and
    the recipient, as [(donor, recipient)]. *)
Definition ShiftHeadItemToBack (p recipient : t) : t * t :=
  let donor_size := GetSize p in
  if donor_size =? 0 then (p, recipient)
  else
    let item := at_ p 0 in
    let p' :=
      IncreaseSize
        (set_array p
           (PageArray.shift_down leaf_zero (array_ p) 1 (Z.to_nat (donor_size - 1))))
        (-1) in
    let recip_size := GetSize recipient in
    (p',
     IncreaseSize
       (set_array recipient
          (PageArray.write leaf_zero (array_ recipient) recip_size item)) 1).

(** [B_PLUS_TREE_LEAF_PAGE_TYPE::ShiftTailItemToFront]. *)
Definition ShiftTailItemToFront (p recipient : t) : t * t :=
  let donor_size := GetSize p in
  if donor_size =? 0 then (p, recipient)
  else
    let item := at_ p (donor_size - 1) in
    let p' := IncreaseSize p (-1) in
    let recip_size := GetSize recipient in
    let shifted :=
      PageArray.shift_up leaf_zero (array_ recipient) recip_size (Z.to_nat recip_size) in
    (p',
     IncreaseSize
       (set_array recipient (PageArray.write leaf_zero shifted 0 item)) 1).

(** The keys of the live entries. *)
Definition keys (p : t) : list KeyType := map fst (entries p).

(** Strictly increasing in the order of the comparator. *)
Fixpoint increasing (l : list KeyType) : bool :=
  match l with
  | [] => true
  | k1 :: l' =>
      match l' with
      | [] => true
      | k2 :: _ => (comparator k1 k2 <? 0) && increasing l'
      end
  end.

(** The invariant of a leaf: its keys are unique and in order. *)
Definition sorted (p : t) : Prop := increasing (keys p) = true.

Lemma comparator_lt (a b : KeyType) : (comparator a b <? 0) = true <-> a < b.
Proof.
  unfold comparator. destruct (Z.compare_spec a b); split; intros H'; try done; lia.
Qed.

Lemma comparator_eq (a b : KeyType) : (comparator a b =? 0) = true <-> a = b.
Proof.
  unfold comparator. destruct (Z.compare_spec a b); split; intros H'; try done; lia.
Qed.

Lemma comparator_ge (a b : KeyType) : (comparator a b >=? 0) = true <-> b <= a.
Proof.
  unfold comparator. destruct (Z.compare_spec a b); split; intros H'; try done; lia.
Qed.

Lemma comparator_gt (a b : KeyType) : (comparator a b >? 0) = true <-> b < a.
Proof.
  unfold comparator. destruct (Z.compare_spec a b); split; intros H'; try done; lia.
Qed.

Lemma increasing_cons (k : KeyType) (l : list KeyType) :
  increasing (k :: l) = true <-> Forall (fun k' => k < k') l /\ increasing l = true.
Proof.
  revert k. induction l as [|k2 l IH]; intros k.
  - simpl. split; [by split|done].
  - change (increasing (k :: k2 :: l))
      with ((comparator k k2 <? 0) && increasing (k2 :: l)).
    rewrite andb_true_iff, comparator_lt. split.
    + intros [Hk Hl]. split; [|done]. constructor; [done|].
      apply IH in Hl as [Hl _]. eapply Forall_impl; [exact Hl|].
      simpl. intros. lia.
    + intros [Hk Hl]. by inversion Hk.
Qed.

Lemma increasing_lookup (l : list KeyType) : increasing l = true ->
  forall (i j : nat) (x y : KeyType),
    l !! i = Some x -> l !! j = Some y -> (i < j)%nat -> x < y.
Proof.
  induction l as [|k l IH]; intros Hl i j x y Hi Hj Hij; [done|].
  apply increasing_cons in Hl as [Hk Hl].
  destruct j as [|j]; [lia|]. simpl in Hj.
  destruct i as [|i].
  - simpl in Hi. injection Hi as <-.
    rewrite Forall_forall in Hk. apply Hk. by eapply list_elem_of_lookup_2.
  - simpl in Hi. apply (IH Hl i j); [done..|lia].
Qed.

Lemma increasing_app (l1 l2 : list KeyType) :
  increasing l1 = true -> increasing l2 = true ->
  (forall x y, x ∈ l1 -> y ∈ l2 -> x < y) ->
  increasing (l1 ++ l2) = true.
Proof.
  induction l1 as [|k l1 IH]; intros H1 H2 H12; [done|].
  apply increasing_cons in H1 as [Hk H1].
  change ((k :: l1) ++ l2) with (k :: (l1 ++ l2)).
  apply increasing_cons. split.
  - apply Forall_app. split; [done|].
    apply Forall_forall. intros y Hy. apply H12; [left|done].
  - apply IH; [done..|]. intros x y Hx Hy. apply H12; [by right|done].
Qed.

Lemma lookup_entries (p : t) (i : Z) :
  0 <= i < GetSize p -> entries p !! Z.to_nat i = Some (at_ p i).
Proof.
  intros Hi. unfold entries. rewrite PageArray.lookup_live by lia.
  by rewrite Z2Nat.id by lia.
Qed.

Lemma lookup_keys (p : t) (i : Z) :
  0 <= i < GetSize p -> keys p !! Z.to_nat i = Some (fst (at_ p i)).
Proof.
  intros Hi. unfold keys. change (map fst (entries p)) with (fst <$> entries p).
  by rewrite list_lookup_fmap, lookup_entries.
Qed.

Lemma elem_of_keys (p : t) (key : KeyType) :
  key ∈ keys p <-> exists i, 0 <= i < GetSize p /\ fst (at_ p i) = key.
Proof.
  split.
  - intros Hk. apply list_elem_of_lookup_1 in Hk as [n Hn].
    assert (Hlen : (n < length (keys p))%nat) by by eapply lookup_lt_Some.
    unfold keys in Hlen. rewrite length_map in Hlen. unfold entries in Hlen.
    rewrite PageArray.length_live in Hlen.
    exists (Z.of_nat n). split; [lia|].
    rewrite <- (Nat2Z.id n), lookup_keys in Hn by lia. by injection Hn.
  - intros (i & Hi & <-). eapply list_elem_of_lookup_2. by apply lookup_keys.
Qed.

Lemma sorted_at (p : t) (i j : Z) :
  sorted p -> 0 <= i -> i < j -> j < GetSize p -> fst (at_ p i) < fst (at_ p j).
Proof.
  intros Hs Hi Hij Hj.
  apply (increasing_lookup (keys p) Hs (Z.to_nat i) (Z.to_nat j)).
  - apply lookup_keys. lia.
  - apply lookup_keys. lia.
  - lia.
Qed.

Lemma sorted_at_le (p : t) (i j : Z) :
  sorted p -> 0 <= i -> i <= j -> j < GetSize p -> fst (at_ p i) <= fst (at_ p j).
Proof.
  intros Hs Hi Hij Hj. destruct (decide (i = j)) as [->|]; [lia|].
  apply Z.lt_le_incl, sorted_at; [done|lia..].
Qed.

(** The binary search of [KeyIndex] over increasing keys: the result is
    the first slot whose key is not less than [key]. *)
Lemma KeyIndex_loop_spec (p : t) (key : KeyType) : sorted p ->
  forall (fuel : nat) (left right : Z),
    0 <= left -> left <= right + 1 -> right < GetSize p ->
    right - left + 1 <= Z.of_nat fuel ->
    (forall i, 0 <= i < left -> fst (at_ p i) < key) ->
    (forall i, right < i < GetSize p -> key <= fst (at_ p i)) ->
    let r := KeyIndex_loop fuel p key left right (right + 1) in
    0 <= r <= GetSize p /\
    (forall i, 0 <= i < r -> fst (at_ p i) < key) /\
    (forall i, r <= i < GetSize p -> key <= fst (at_ p i)).
Proof.
  intros Hs. induction fuel as [|fuel IH];
    intros left right Hl Hlr Hr Hfuel Hlow Hhigh; simpl.
  - assert (Heq : left = right + 1) by lia. rewrite <- Heq.
    split; [lia|]. split; [done|]. intros i Hi. apply Hhigh. lia.
  - destruct (Z.leb_spec left right) as [Hle|Hgt].
    + assert (Hmid : left <= (left + right) / 2 <= right).
      { split; [apply Z.div_le_lower_bound|apply Z.div_le_upper_bound]; lia. }
      set (mid := (left + right) / 2) in *.
      destruct (comparator (fst (at_ p mid)) key >=? 0) eqn:Hc.
      * apply comparator_ge in Hc.
        specialize (IH left (mid - 1)).
        replace (mid - 1 + 1) with mid in IH by lia.
        apply IH; try lia; [done|].
        intros i Hi. etrans; [exact Hc|]. apply sorted_at_le; [done|lia..].
      * assert (Hlt : fst (at_ p mid) < key).
        { destruct (Z.lt_ge_cases (fst (at_ p mid)) key) as [|Hge]; [done|].
          apply Z.ge_le_iff, Z.ge_le in Hge. apply comparator_ge in Hge. congruence. }
        apply IH; try lia; [|done].
        intros i Hi. eapply Z.le_lt_trans; [|exact Hlt].
        apply sorted_at_le; [done|lia..].
    + assert (Heq : left = right + 1) by lia. rewrite <- Heq.
      split; [lia|]. split; [done|]. intros i Hi. apply Hhigh. lia.
Qed.

Lemma KeyIndex_spec (p : t) (key : KeyType) : 0 <= GetSize p -> sorted p ->
  0 <= KeyIndex p key <= GetSize p /\
  (forall i, 0 <= i < KeyIndex p key -> fst (at_ p i) < key) /\
  (forall i, KeyIndex p key <= i < GetSize p -> key <= fst (at_ p i)).
Proof.
  intros Hsize Hs. unfold KeyIndex.
  pose proof (KeyIndex_loop_spec p key Hs (Z.to_nat (GetSize p)) 0 (GetSize p - 1))
    as Hloop.
  replace (GetSize p - 1 + 1) with (GetSize p) in Hloop by lia.
  apply Hloop; lia.
Qed.

Lemma GetSize_IncreaseSize (p : t) (amount : Z) :
  GetSize (IncreaseSize p amount) = GetSize p + amount.
Proof. done. Qed.

Lemma GetSize_set_array (p : t) (a : list (KeyType * ValueType)) :
  GetSize (set_array p a) = GetSize p.
Proof. done. Qed.

Lemma array_IncreaseSize (p : t) (amount : Z) :
  array_ (IncreaseSize p amount) = array_ p.
Proof. done. Qed.

Lemma length_entries (p : t) : length (entries p) = Z.to_nat (GetSize p).
Proof. apply PageArray.length_live. Qed.

(** A key of the leaf is found by the search. *)
Lemma KeyIndex_present (p : t) (key : KeyType) :
  0 <= GetSize p -> sorted p -> key ∈ keys p ->
  KeyIndex p key < GetSize p /\ fst (at_ p (KeyIndex p key)) = key.
Proof.
  intros Hsize Hs Hk. apply elem_of_keys in Hk as (i & Hi & Hkey).
  destruct (KeyIndex_spec p key Hsize Hs) as (Hidx & Hlow & Hhigh).
  assert (Hle : KeyIndex p key <= i).
  { destruct (Z.le_gt_cases (KeyIndex p key) i) as [|Hgt]; [done|].
    specialize (Hlow i). lia. }
  split; [lia|].
  pose proof (Hhigh (KeyIndex p key)) as H1.
  pose proof (sorted_at_le p (KeyIndex p key) i Hs) as H2. lia.
Qed.

Lemma Insert_present (p : t) (key : KeyType) (value : ValueType) :
  0 <= GetSize p -> sorted p -> key ∈ keys p -> Insert p key value = (-1, p).
Proof.
  intros Hsize Hs Hk.
  destruct (KeyIndex_present p key Hsize Hs Hk) as [Hlt Heq].
  unfold Insert.
  destruct (Z.ltb_spec (KeyIndex p key) (GetSize p)); [|lia].
  rewrite Heq. by rewrite (proj2 (comparator_eq key key) eq_refl).
Qed.

(** The slots of the leaf after an insertion at [idx]. *)
Lemma at_inserted (p : t) (idx j : Z) (e : KeyType * ValueType) :
  0 <= idx <= GetSize p ->
  PageArray.read leaf_zero
    (PageArray.write leaf_zero
       (PageArray.shift_up leaf_zero (array_ p) (GetSize p)
          (Z.to_nat (GetSize p - idx))) idx e) j =
  if j <? idx then at_ p j else if j =? idx then e else
  if j <=? GetSize p then at_ p (j - 1) else at_ p j.
Proof.
  intros Hidx.
  destruct (Z.eqb_spec j idx) as [->|Hne].
  - rewrite PageArray.read_write_eq by lia.
    by destruct (Z.ltb_spec idx idx); [lia|].
  - rewrite PageArray.read_write_ne by done.
    rewrite PageArray.read_shift_up by lia.
    rewrite Z2Nat.id by lia.
    replace (GetSize p - (GetSize p - idx)) with idx by lia.
    unfold at_.
    destruct (Z.ltb_spec idx j), (Z.leb_spec j (GetSize p)), (Z.ltb_spec j idx);
      simpl; try done; lia.
Qed.

Lemma Insert_absent (p : t) (key : KeyType) (value : ValueType) :
  0 <= GetSize p -> sorted p -> (key ∉ keys p) ->
  let idx := Z.to_nat (KeyIndex p key) in
  fst (Insert p key value) = GetSize p + 1 /\
  GetSize (snd (Insert p key value)) = GetSize p + 1 /\
  entries (snd (Insert p key value)) =
    take idx (entries p) ++ (key, value) :: drop idx (entries p) /\
  Forall (fun e => fst e < key) (take idx (entries p)) /\
  Forall (fun e => key < fst e) (drop idx (entries p)).
Proof.
  intros Hsize Hs Hk idx.
  destruct (KeyIndex_spec p key Hsize Hs) as (Hidx & Hlow & Hhigh).
  assert (Habs : forall i, 0 <= i < GetSize p -> fst (at_ p i) <> key).
  { intros i Hi Heq. apply Hk, elem_of_keys. by exists i. }
  unfold Insert.
  destruct ((KeyIndex p key <? GetSize p)
            && (comparator (fst (at_ p (KeyIndex p key))) key =? 0)) eqn:Hc.
  { apply andb_true_iff in Hc as [Hlt Heq].
    apply Z.ltb_lt in Hlt. apply comparator_eq in Heq.
    exfalso. apply (Habs (KeyIndex p key)); [lia|done]. }
  cbn [fst snd]. split; [done|]. split; [done|]. split; [|split].
  - apply (list_eq_same_length _ _ (Z.to_nat (GetSize p + 1))).
    + rewrite length_app, length_take. simpl. rewrite length_drop, length_entries.
      unfold idx. lia.
    + apply length_entries.
    + intros i x y Hi Hx Hy.
      unfold entries in Hx.
      rewrite GetSize_IncreaseSize, GetSize_set_array in Hx.
      rewrite PageArray.lookup_live in Hx by lia.
      rewrite array_IncreaseSize in Hx. cbn [array_ set_array] in Hx.
      injection Hx as <-.
      rewrite at_inserted by lia.
      destruct (Z.ltb_spec (Z.of_nat i) (KeyIndex p key)) as [Hlt|Hge].
      * rewrite lookup_app_l in Hy
          by (rewrite length_take, length_entries; unfold idx; lia).
        rewrite lookup_take_lt in Hy by (unfold idx; lia).
        rewrite <- (Nat2Z.id i), lookup_entries in Hy by lia. by injection Hy.
      * rewrite lookup_app_r in Hy
          by (rewrite length_take, length_entries; unfold idx; lia).
        rewrite length_take, length_entries in Hy.
        rewrite Nat.min_l in Hy by (unfold idx; lia).
        destruct (Z.eqb_spec (Z.of_nat i) (KeyIndex p key)) as [Heq|Hne].
        { replace (i - idx)%nat with 0%nat in Hy by (unfold idx; lia).
          by injection Hy. }
        destruct (i - idx)%nat as [|n] eqn:Hn; [unfold idx in Hn; lia|].
        simpl in Hy. rewrite lookup_drop in Hy.
        destruct (Z.leb_spec (Z.of_nat i) (GetSize p)); [|lia].
        replace (idx + n)%nat with (Z.to_nat (Z.of_nat i - 1)) in Hy
          by (unfold idx in *; lia).
        rewrite lookup_entries in Hy by lia. by injection Hy.
  - apply Forall_forall. intros e He.
    apply list_elem_of_lookup_1 in He as [n Hn].
    apply lookup_take_Some in Hn as [Hn Hlt].
    assert (Hlen : (n < length (entries p))%nat) by by eapply lookup_lt_Some.
    rewrite length_entries in Hlen.
    rewrite <- (Nat2Z.id n), lookup_entries in Hn by lia. injection Hn as <-.
    apply Hlow. unfold idx in Hlt. lia.
  - apply Forall_forall. intros e He.
    apply list_elem_of_lookup_1 in He as [n Hn].
    rewrite lookup_drop in Hn.
    assert (Hlen : (idx + n < length (entries p))%nat) by by eapply lookup_lt_Some.
    rewrite length_entries in Hlen.
    rewrite <- (Nat2Z.id (idx + n)), lookup_entries in Hn by lia. injection Hn as <-.
    assert (Hr : KeyIndex p key <= Z.of_nat (idx + n) < GetSize p)
      by (unfold idx; lia).
    apply Z.le_neq. split; [by apply Hhigh|].
    intros Heq. apply (Habs (Z.of_nat (idx + n))); [lia|done].
Qed.

Lemma increasing_app_inv (l1 l2 : list KeyType) :
  increasing (l1 ++ l2) = true -> increasing l1 = true /\ increasing l2 = true.
Proof.
  induction l1 as [|k l1 IH]; intros H12; [done|].
  change ((k :: l1) ++ l2) with (k :: (l1 ++ l2)) in H12.
  apply increasing_cons in H12 as [Hk H12].
  destruct (IH H12) as [H1 H2]. split; [|done].
  apply increasing_cons. split; [|done].
  by apply Forall_app in Hk as [Hk _].
Qed.

(** [Insert] keeps the keys of the leaf in order. *)
Lemma Insert_sorted (p : t) (key : KeyType) (value : ValueType) :
  0 <= GetSize p -> sorted p -> sorted (snd (Insert p key value)).
Proof.
  intros Hsize Hs.
  destruct (decide (key ∈ keys p)) as [Hk|Hk].
  { by rewrite Insert_present. }
  destruct (Insert_absent p key value Hsize Hs Hk) as (_ & _ & Hent & Hlow & Hhigh).
  unfold sorted, keys. rewrite Hent, map_app. simpl.
  unfold sorted, keys in Hs.
  rewrite <- (take_drop (Z.to_nat (KeyIndex p key)) (entries p)), map_app in Hs.
  apply increasing_app_inv in Hs as [Hs1 Hs2].
  rewrite Forall_forall in Hlow. rewrite Forall_forall in Hhigh.
  apply increasing_app; [done| |].
  - apply increasing_cons. split; [|done].
    apply Forall_forall. intros k Hk'.
    apply list_elem_of_In, in_map_iff in Hk' as (e & <- & He).
    apply Hhigh. by apply list_elem_of_In.
  - intros x y Hx Hy.
    apply list_elem_of_In, in_map_iff in Hx as (e & <- & He).
    apply list_elem_of_In in He. specialize (Hlow e He).
    apply elem_of_cons in Hy as [->|Hy]; [done|].
    apply list_elem_of_In, in_map_iff in Hy as (e' & <- & He').
    apply list_elem_of_In in He'. specialize (Hhigh e' He').
    exact (Z.lt_trans _ _ _ Hlow Hhigh).
Qed.

Lemma Init_sorted (page_id parent_id max_size : Z) :
  sorted (Init page_id parent_id max_size).
Proof. done. Qed.

(** [Lookup] and [Insert] decide on the same test. *)
Lemma Lookup_Some_Insert (p : t) (key : KeyType) (value found : ValueType) :
  Lookup p key = Some found -> Insert p key value = (-1, p).
Proof.
  unfold Lookup, Insert.
  by destruct ((KeyIndex p key <? GetSize p)
               && (comparator (fst (at_ p (KeyIndex p key))) key =? 0)).
Qed.

(** [ShiftHeadItemToBack] moves the first entry of the donor behind the
    last entry of the recipient. *)
Lemma ShiftHeadItemToBack_entries (p recipient : t) :
  0 < GetSize p -> 0 <= GetSize recipient ->
  entries p = at_ p 0 :: entries (fst (ShiftHeadItemToBack p recipient)) /\
  entries (snd (ShiftHeadItemToBack p recipient)) = entries recipient ++ [at_ p 0] /\
  GetSize (fst (ShiftHeadItemToBack p recipient)) = GetSize p - 1 /\
  GetSize (snd (ShiftHeadItemToBack p recipient)) = GetSize recipient + 1.
Proof.
  intros Hp Hr. unfold ShiftHeadItemToBack.
  destruct (Z.eqb_spec (GetSize p) 0) as [|_]; [lia|]. cbn [fst snd].
  split; [|split; [|done]].
  - unfold entries at 1. rewrite PageArray.live_shift_down_head by lia. done.
  - unfold entries at 1.
    rewrite GetSize_IncreaseSize, GetSize_set_array, array_IncreaseSize.
    cbn [array_ set_array]. by apply PageArray.live_write_end.
Qed.

(** *** Searching and changing a leaf *)

Lemma KeyAt_at (p : t) (i : Z) : 0 <= i < GetSize p -> KeyAt p i = fst (at_ p i).
Proof.
  intros Hi. unfold KeyAt.
  destruct (Z.leb_spec 0 i); [|lia]. by destruct (Z.ltb_spec i (GetSize p)); [|lia].
Qed.

Lemma ValueAt_at (p : t) (i : Z) : 0 <= i < GetSize p -> ValueAt p i = snd (at_ p i).
Proof.
  intros Hi. unfold ValueAt.
  destruct (Z.leb_spec 0 i); [|lia]. by destruct (Z.ltb_spec i (GetSize p)); [|lia].
Qed.

Lemma elem_of_entries (p : t) (e : KeyType * ValueType) :
  e ∈ entries p <-> exists i, 0 <= i < GetSize p /\ at_ p i = e.
Proof.
  split.
  - intros He. apply list_elem_of_lookup_1 in He as [n Hn].
    assert (Hlen : (n < length (entries p))%nat) by by eapply lookup_lt_Some.
    rewrite length_entries in Hlen.
    exists (Z.of_nat n). split; [lia|].
    rewrite <- (Nat2Z.id n), lookup_entries in Hn by lia. by injection Hn.
  - intros (i & Hi & <-). eapply list_elem_of_lookup_2. by apply lookup_entries.
Qed.

Lemma elem_of_keys_entries (p : t) (key : KeyType) :
  key ∈ keys p <-> exists value, (key, value) ∈ entries p.
Proof.
  rewrite elem_of_keys. split.
  - intros (i & Hi & <-). exists (snd (at_ p i)). apply elem_of_entries.
    exists i. split; [done|]. by destruct (at_ p i).
  - intros (value & (i & Hi & He)%elem_of_entries). exists i. by rewrite He.
Qed.

(** In a leaf whose keys are in order, [Lookup] finds the entries. *)
Lemma Lookup_Some (p : t) (key : KeyType) (value : ValueType) :
  0 <= GetSize p -> sorted p ->
  Lookup p key = Some value <-> (key, value) ∈ entries p.
Proof.
  intros Hsize Hs.
  destruct (KeyIndex_spec p key Hsize Hs) as (Hidx & Hlow & Hhigh).
  unfold Lookup. split.
  - destruct (Z.ltb_spec (KeyIndex p key) (GetSize p)) as [Hlt|]; [|done].
    destruct (comparator (fst (at_ p (KeyIndex p key))) key =? 0) eqn:Hc; [|done].
    apply comparator_eq in Hc. simpl. intros [= <-].
    apply elem_of_entries. exists (KeyIndex p key). split; [lia|].
    destruct (at_ p (KeyIndex p key)) as [k v]. simpl in Hc. by rewrite Hc.
  - intros (i & Hi & He)%elem_of_entries.
    assert (Hk : key ∈ keys p).
    { apply elem_of_keys. exists i. by rewrite He. }
    destruct (KeyIndex_present p key Hsize Hs Hk) as [Hlt Heq].
    destruct (Z.ltb_spec (KeyIndex p key) (GetSize p)); [|lia].
    rewrite Heq, (proj2 (comparator_eq key key) eq_refl). simpl.
    assert (Hi' : i = KeyIndex p key).
    { destruct (Z.lt_trichotomy i (KeyIndex p key)) as [Hlt'|[?|Hgt]]; [|done|].
      - pose proof (sorted_at p i (KeyIndex p key) Hs ltac:(lia) Hlt' Hlt) as Hord.
        rewrite Heq, He in Hord. simpl in Hord. lia.
      - pose proof (sorted_at p (KeyIndex p key) i Hs ltac:(lia) Hgt ltac:(lia)) as Hord.
        rewrite Heq, He in Hord. simpl in Hord. lia. }
    rewrite <- Hi', He. done.
Qed.

Lemma Lookup_None (p : t) (key : KeyType) :
  0 <= GetSize p -> sorted p -> Lookup p key = None <-> key ∉ keys p.
Proof.
  intros Hsize Hs. split.
  - intros Hnone (value & He)%elem_of_keys_entries.
    apply (Lookup_Some p key value Hsize Hs) in He. congruence.
  - intros Hk. destruct (Lookup p key) as [value|] eqn:E; [|done].
    exfalso. apply Hk, elem_of_keys_entries. exists value.
    by apply (Lookup_Some p key value Hsize Hs).
Qed.

(** [Lookup] depends on the entries only. *)
Lemma Lookup_ext (p q : t) (key : KeyType) :
  0 <= GetSize p -> sorted p -> 0 <= GetSize q -> sorted q ->
  (forall value, (key, value) ∈ entries p <-> (key, value) ∈ entries q) ->
  Lookup p key = Lookup q key.
Proof.
  intros Hp Hsp Hq Hsq Hiff.
  destruct (Lookup p key) as [v|] eqn:E1.
  - apply (Lookup_Some p key v Hp Hsp), Hiff, (Lookup_Some q key v Hq Hsq) in E1.
    by rewrite E1.
  - destruct (Lookup q key) as [v|] eqn:E2; [|done].
    apply (Lookup_Some q key v Hq Hsq), Hiff, (Lookup_Some p key v Hp Hsp) in E2.
    congruence.
Qed.

Lemma RemoveAt_entries (p : t) (index : Z) :
  0 <= index < GetSize p ->
  GetSize (RemoveAt p index) = GetSize p - 1 /\
  entries (RemoveAt p index) = delete (Z.to_nat index) (entries p).
Proof.
  intros Hi. unfold RemoveAt.
  destruct (Z.ltb_spec index 0); [lia|].
  destruct (Z.geb_spec index (GetSize p)); [lia|]. simpl.
  split; [done|]. unfold entries at 1.
  rewrite GetSize_IncreaseSize, GetSize_set_array, array_IncreaseSize.
  cbn [array_ set_array].
  replace (GetSize p + -1) with (GetSize p - 1) by lia.
  by apply PageArray.live_shift_down_delete.
Qed.

Lemma increasing_delete (l : list KeyType) (n : nat) :
  increasing l = true -> increasing (delete n l) = true.
Proof.
  revert n. induction l as [|k l IH]; intros n Hl; [by destruct n|].
  apply increasing_cons in Hl as [Hk Hl]. destruct n as [|n]; [done|].
  simpl. apply increasing_cons. split; [|by apply IH].
  apply Forall_forall. intros x Hx. rewrite Forall_forall in Hk. apply Hk.
  by eapply list_elem_of_delete_inv.
Qed.

(** [ShiftTailItemToFront] moves the last entry of the donor before the
    first entry of the recipient. *)
Lemma ShiftTailItemToFront_entries (p recipient : t) :
  0 < GetSize p -> 0 <= GetSize recipient ->
  entries p = entries (fst (ShiftTailItemToFront p recipient)) ++ [at_ p (GetSize p - 1)] /\
  entries (snd (ShiftTailItemToFront p recipient))
  = at_ p (GetSize p - 1) :: entries recipient /\
  GetSize (fst (ShiftTailItemToFront p recipient)) = GetSize p - 1 /\
  GetSize (snd (ShiftTailItemToFront p recipient)) = GetSize recipient + 1.
Proof.
  intros Hp Hr. unfold ShiftTailItemToFront.
  destruct (Z.eqb_spec (GetSize p) 0) as [|_]; [lia|]. cbn [fst snd].
  split; [|split; [|done]].
  - unfold entries. rewrite GetSize_IncreaseSize, array_IncreaseSize.
    replace (GetSize p) with (GetSize p + -1 + 1) at 1 by lia.
    rewrite PageArray.live_S by lia.
    by replace (GetSize p + -1) with (GetSize p - 1) by lia.
  - unfold entries at 1.
    rewrite GetSize_IncreaseSize, GetSize_set_array, array_IncreaseSize.
    cbn [array_ set_array]. by apply PageArray.live_shift_up_head.
Qed.

(** Whatever the keys, [KeyIndex] returns [GetSize()] or a slot below
    it. *)
Lemma KeyIndex_loop_range (p : t) (key : KeyType) :
  forall (fuel : nat) (lo hi ans : Z),
    let r := KeyIndex_loop fuel p key lo hi ans in
    r = ans \/ lo <= r <= hi.
Proof.
  induction fuel as [|fuel IH]; intros lo hi ans; simpl; [by left|].
  destruct (Z.leb_spec lo hi) as [Hle|Hgt]; [|by left].
  assert (Hmid : lo <= (lo + hi) / 2 <= hi).
  { split; [apply Z.div_le_lower_bound|apply Z.div_le_upper_bound]; lia. }
  destruct (comparator (fst (at_ p ((lo + hi) / 2))) key >=? 0).
  - destruct (IH lo ((lo + hi) / 2 - 1) ((lo + hi) / 2)) as [->|Hr];
      right; lia.
  - destruct (IH ((lo + hi) / 2 + 1) hi ans) as [->|Hr]; [by left|].
    right. lia.
Qed.

Lemma KeyIndex_range (p : t) (key : KeyType) :
  KeyIndex p key = GetSize p \/ 0 <= KeyIndex p key < GetSize p.
Proof.
  unfold KeyIndex.
  destruct (KeyIndex_loop_range p key (Z.to_nat (GetSize p)) 0 (GetSize p - 1)
              (GetSize p)) as [->|Hr]; [by left|right; lia].
Qed.

(** The fields of a leaf that moving entries leaves alone. *)
Definition same_fields (p q : t) : Prop :=
  GetMaxSize q = GetMaxSize p /\ GetParentPageId q = GetParentPageId p /\
  GetPageId q = GetPageId p /\ GetNextPageId q = GetNextPageId p.

Lemma same_fields_refl (p : t) : same_fields p p.
Proof. done. Qed.

Lemma same_fields_trans (p q r : t) :
  same_fields p q -> same_fields q r -> same_fields p r.
Proof.
  intros (H1 & H2 & H3 & H4) (H1' & H2' & H3' & H4').
  repeat split; congruence.
Qed.

Lemma ShiftTailItemToFront_fields (p recipient : t) :
  same_fields p (fst (ShiftTailItemToFront p recipient)) /\
  same_fields recipient (snd (ShiftTailItemToFront p recipient)).
Proof. unfold ShiftTailItemToFront. by destruct (GetSize p =? 0). Qed.

Lemma Insert_fields (p : t) (key : KeyType) (value : ValueType) :
  same_fields p (snd (Insert p key value)).
Proof.
  unfold Insert.
  by destruct ((KeyIndex p key <? GetSize p)
               && (comparator (fst (at_ p (KeyIndex p key))) key =? 0)).
Qed.

Lemma increasing_app_lt (l1 l2 : list KeyType) :
  increasing (l1 ++ l2) = true -> forall x y, x ∈ l1 -> y ∈ l2 -> x < y.
Proof.
  induction l1 as [|k l1 IH]; intros H12 x y Hx Hy.
  - by apply elem_of_nil in Hx.
  - change ((k :: l1) ++ l2) with (k :: (l1 ++ l2)) in H12.
    apply increasing_cons in H12 as [Hk H12].
    apply elem_of_cons in Hx as [->|Hx]; [|by apply IH].
    rewrite Forall_forall in Hk. apply Hk. apply elem_of_app. by right.
Qed.

(** A leaf that holds the first [j] entries of a sorted leaf, or the
    others, answers [Lookup] as that leaf does for the keys on its side. *)
Lemma Lookup_part (p q : t) (before after : list (KeyType * ValueType)) (key : KeyType) :
  0 <= GetSize p -> sorted p -> 0 <= GetSize q ->
  entries p = before ++ after ->
  (entries q = before /\ (forall e, e ∈ after -> key < fst e) \/
   entries q = after /\ (forall e, e ∈ before -> fst e < key)) ->
  sorted q /\ Lookup q key = Lookup p key.
Proof.
  intros Hp Hs Hq Hent Hside.
  assert (Hinc : increasing (map fst before ++ map fst after) = true).
  { rewrite <- map_app, <- Hent. exact Hs. }
  destruct (increasing_app_inv _ _ Hinc) as [Hb Ha].
  assert (Hsq : sorted q).
  { unfold sorted, keys. by destruct Hside as [[-> _]|[-> _]]. }
  split; [done|].
  apply Lookup_ext; [done..|]. intros v. rewrite Hent, elem_of_app.
  destruct Hside as [[-> Hout]|[-> Hout]].
  - split; [by left|]. intros [?|Hin]; [done|]. apply Hout in Hin. simpl in Hin. lia.
  - split; [by right|]. intros [Hin|?]; [|done]. apply Hout in Hin. simpl in Hin. lia.
Qed.

Lemma RemoveAt_fields (p : t) (index : Z) : same_fields p (RemoveAt p index).
Proof. unfold RemoveAt. by destruct ((index <? 0) || (index >=? GetSize p)). Qed.

(** X17: on a leaf whose keys are in order, [KeyIndex] returns the first
    slot whose key is not less than [key] ([GetSize()] when there is
    none); [Lookup] returns the value stored with the key, and nothing
    exactly when the key is not among the keys of the leaf. *)
Theorem Lookup_finds_the_entries (p : t) (key : KeyType) :
  0 <= GetSize p -> sorted p ->
  0 <= KeyIndex p key <= GetSize p /\
  (forall i, 0 <= i < KeyIndex p key -> KeyAt p i < key) /\
  (forall i, KeyIndex p key <= i < GetSize p -> key <= KeyAt p i) /\
  (forall value, Lookup p key = Some value <-> (key, value) ∈ entries p) /\
  (Lookup p key = None <-> key ∉ keys p).
Proof.
  intros Hsize Hs.
  destruct (KeyIndex_spec p key Hsize Hs) as (Hidx & Hlow & Hhigh).
  split; [done|]. split; [|split; [|split]].
  - intros i Hi. rewrite KeyAt_at by lia. by apply Hlow.
  - intros i Hi. rewrite KeyAt_at by lia. by apply Hhigh.
  - intros value. by apply Lookup_Some.
  - by apply Lookup_None.
Qed.

Lemma Insert_absent_perm (p : t) (key : KeyType) (value : ValueType) :
  0 <= GetSize p -> sorted p -> (key ∉ keys p) ->
  entries (snd (Insert p key value)) ≡ₚ (key, value) :: entries p.
Proof.
  intros Hsize Hs Hk.
  destruct (Insert_absent p key value Hsize Hs Hk) as (_ & _ & Hent & _ & _).
  rewrite Hent. rewrite <- Permutation_middle. by rewrite take_drop.
Qed.

(** [Lookup] after the [Insert] of a new key. *)
Lemma Lookup_Insert (p : t) (key : KeyType) (value : ValueType) (key' : KeyType) :
  0 <= GetSize p -> sorted p -> (key ∉ keys p) ->
  Lookup (snd (Insert p key value)) key' =
  if decide (key' = key) then Some value else Lookup p key'.
Proof.
  intros Hsize Hs Hk.
  destruct (Insert_absent p key value Hsize Hs Hk) as (_ & Hsz & _ & _ & _).
  pose proof (Insert_sorted p key value Hsize Hs) as Hs'.
  pose proof (Insert_absent_perm p key value Hsize Hs Hk) as Hperm.
  destruct (decide (key' = key)) as [->|Hne].
  - apply Lookup_Some; [lia|done|]. rewrite Hperm. left.
  - apply Lookup_ext; [lia|done|done|done|].
    intros v. rewrite Hperm. rewrite elem_of_cons. split; [|by right].
    intros [[= ? _]|?]; [done|done].
Qed.

(** X18: [Insert] of a key that a leaf with keys in order does not hold
    returns the new size, one more than before; the keys are still in
    order, [Lookup] finds the new value, finds for every other key what it
    found before, and the entries are the old ones and the new one. *)
Theorem Insert_new_key (p : t) (key : KeyType) (value : ValueType) :
  0 <= GetSize p -> sorted p -> (key ∉ keys p) ->
  fst (Insert p key value) = GetSize p + 1 /\
  GetSize (snd (Insert p key value)) = GetSize p + 1 /\
  sorted (snd (Insert p key value)) /\
  Lookup (snd (Insert p key value)) key = Some value /\
  (forall key', key' <> key ->
     Lookup (snd (Insert p key value)) key' = Lookup p key') /\
  entries (snd (Insert p key value)) ≡ₚ (key, value) :: entries p.
Proof.
  intros Hsize Hs Hk.
  destruct (Insert_absent p key value Hsize Hs Hk) as (Hrv & Hsz & _ & _ & _).
  split; [done|]. split; [done|]. split; [by apply Insert_sorted|].
  split; [|split].
  - by rewrite Lookup_Insert, decide_True.
  - intros key' Hne. by rewrite Lookup_Insert, decide_False.
  - by apply Insert_absent_perm.
Qed.

(** [Lookup] after [RemoveAt] on a leaf with keys in order. *)
Lemma RemoveAt_Lookup (p : t) (index : Z) :
  sorted p -> 0 <= index < GetSize p ->
  sorted (RemoveAt p index) /\
  forall key',
    Lookup (RemoveAt p index) key' =
    if decide (key' = KeyAt p index) then None else Lookup p key'.
Proof.
  intros Hs Hi. destruct (RemoveAt_entries p index Hi) as [Hsz Hent].
  assert (Hs' : sorted (RemoveAt p index)).
  { unfold sorted, keys. rewrite Hent.
    change (map fst (delete (Z.to_nat index) (entries p)))
      with (fst <$> delete (Z.to_nat index) (entries p)).
    rewrite list_fmap_delete. by apply increasing_delete. }
  assert (Hin : forall e, e ∈ entries (RemoveAt p index) <->
            e ∈ entries p /\ fst e <> KeyAt p index).
  { intros e. rewrite Hent, KeyAt_at by done. split.
    - intros He. apply list_elem_of_lookup_1 in He as [n Hn].
      assert (Hlen : (n < length (delete (Z.to_nat index) (entries p)))%nat)
        by by eapply lookup_lt_Some.
      rewrite length_delete, length_entries in Hlen
        by (apply lookup_lt_is_Some_2; rewrite length_entries; lia).
      destruct (decide (n < Z.to_nat index)%nat) as [Hlt|Hge].
      + rewrite list_lookup_delete_lt in Hn by done.
        split; [by eapply list_elem_of_lookup_2|].
        rewrite <- (Nat2Z.id n), lookup_entries in Hn by lia. injection Hn as <-.
        pose proof (sorted_at p (Z.of_nat n) index Hs). lia.
      + rewrite list_lookup_delete_ge in Hn by lia.
        split; [by eapply list_elem_of_lookup_2|].
        rewrite <- (Nat2Z.id (S n)), lookup_entries in Hn by lia. injection Hn as <-.
        pose proof (sorted_at p index (Z.of_nat (S n)) Hs). lia.
    - intros [(i & Hi' & <-)%elem_of_entries Hne].
      assert (i <> index) by congruence.
      destruct (decide (i < index)) as [Hlt|Hge].
      + apply (list_elem_of_lookup_2 _ (Z.to_nat i)).
        rewrite list_lookup_delete_lt by lia. by apply lookup_entries.
      + apply (list_elem_of_lookup_2 _ (Z.to_nat (i - 1))).
        rewrite list_lookup_delete_ge by lia.
        replace (S (Z.to_nat (i - 1))) with (Z.to_nat i) by lia.
        by apply lookup_entries. }
  split; [done|]. intros key'. destruct (decide (key' = KeyAt p index)) as [->|Hne].
  - apply Lookup_None; [lia|done|].
    intros (value & He)%elem_of_keys_entries. apply Hin in He as [_ Hne]. done.
  - apply Lookup_ext; [lia|done|lia|done|].
    intros v. rewrite Hin. simpl. split; [by intros [? _]|done].
Qed.

(** X19: [RemoveAt] with an index outside [0, GetSize()) leaves the leaf as
    it is.  With an index inside, it takes that entry away and keeps the
    others in their order; on a leaf with keys in order [Lookup] no longer
    finds the key that was there, and finds for every other key what it
    found before. *)
Theorem RemoveAt_takes_one_entry (p : t) (index : Z) :
  (index < 0 \/ GetSize p <= index -> RemoveAt p index = p) /\
  (0 <= index < GetSize p ->
   GetSize (RemoveAt p index) = GetSize p - 1 /\
   entries (RemoveAt p index) = delete (Z.to_nat index) (entries p) /\
   (sorted p ->
    sorted (RemoveAt p index) /\
    Lookup (RemoveAt p index) (KeyAt p index) = None /\
    forall key', key' <> KeyAt p index ->
      Lookup (RemoveAt p index) key' = Lookup p key')).
Proof.
  split.
  - intros Hout. unfold RemoveAt.
    destruct (Z.ltb_spec index 0); [done|].
    destruct (Z.geb_spec index (GetSize p)); [done|lia].
  - intros Hi. destruct (RemoveAt_entries p index Hi) as [Hsz Hent].
    split; [done|]. split; [done|]. intros Hs.
    destruct (RemoveAt_Lookup p index Hs Hi) as [Hs' Hlook].
    split; [done|]. split.
    + by rewrite Hlook, decide_True.
    + intros key' Hne. by rewrite Hlook, decide_False.
Qed.

(** X20: [ShiftTailItemToFront] from a leaf to the leaf on its right, and
    [ShiftHeadItemToBack] from a leaf to the leaf on its left, move one
    entry when the donor has one and nothing otherwise; either way the
    entries of the two leaves, read from left to right, are the same
    before and after. *)
Theorem Shift_keeps_the_entries (left right : t) :
  0 <= GetSize left -> 0 <= GetSize right ->
  (let '(left', right') := ShiftTailItemToFront left right in
   entries left' ++ entries right' = entries left ++ entries right /\
   GetSize left' = (if GetSize left =? 0 then 0 else GetSize left - 1) /\
   GetSize left' + GetSize right' = GetSize left + GetSize right) /\
  (let '(right', left') := ShiftHeadItemToBack right left in
   entries left' ++ entries right' = entries left ++ entries right /\
   GetSize right' = (if GetSize right =? 0 then 0 else GetSize right - 1) /\
   GetSize left' + GetSize right' = GetSize left + GetSize right).
Proof.
  intros Hl Hr. split.
  - destruct (Z.eqb_spec (GetSize left) 0) as [Hz|Hnz].
    + unfold ShiftTailItemToFront. rewrite Hz. simpl. by rewrite Hz.
    + destruct (ShiftTailItemToFront_entries left right ltac:(lia) Hr)
        as (H1 & H2 & H3 & H4).
      destruct (ShiftTailItemToFront left right) as [left' right']. simpl in *.
      rewrite H1, H2, <- app_assoc. split; [done|]. lia.
  - destruct (Z.eqb_spec (GetSize right) 0) as [Hz|Hnz].
    + unfold ShiftHeadItemToBack. rewrite Hz. simpl. by rewrite Hz.
    + destruct (ShiftHeadItemToBack_entries right left ltac:(lia) Hl)
        as (H1 & H2 & H3 & H4).
      destruct (ShiftHeadItemToBack right left) as [right' left']. simpl in *.
      rewrite H1, H2, <- app_assoc. split; [done|]. lia.
Qed.

(** A leaf with the keys 10, 20 and 30, inserted as 20, 10, 30. *)
Definition rid_of (key : KeyType) : ValueType :=
  {| rid_page_id := key; rid_slot_num := key |}.

Definition three_keys : t :=
  let p0 := Init 1 INVALID_PAGE_ID 4 in
  let p1 := snd (Insert p0 20 (rid_of 20)) in
  let p2 := snd (Insert p1 10 (rid_of 10)) in
  snd (Insert p2 30 (rid_of 30)).

Lemma three_keys_size : 0 <= GetSize three_keys.
Proof. vm_compute. discriminate. Defined.

Lemma three_keys_sorted : sorted three_keys.
Proof. vm_compute. reflexivity. Defined.

Lemma Lookup_finds_the_entries_witness :
  0 <= KeyIndex three_keys 20 <= GetSize three_keys /\
  (forall i, 0 <= i < KeyIndex three_keys 20 -> KeyAt three_keys i < 20) /\
  (forall i, KeyIndex three_keys 20 <= i < GetSize three_keys ->
     20 <= KeyAt three_keys i) /\
  (forall value,
     Lookup three_keys 20 = Some value <-> (20, value) ∈ entries three_keys) /\
  (Lookup three_keys 20 = None <-> 20 ∉ keys three_keys).
Proof.
  exact (Lookup_finds_the_entries three_keys 20 three_keys_size three_keys_sorted).
Defined.

Lemma Insert_new_key_witness :
  fst (Insert three_keys 15 (rid_of 15)) = GetSize three_keys + 1 /\
  GetSize (snd (Insert three_keys 15 (rid_of 15))) = GetSize three_keys + 1 /\
  sorted (snd (Insert three_keys 15 (rid_of 15))) /\
  Lookup (snd (Insert three_keys 15 (rid_of 15))) 15 = Some (rid_of 15) /\
  (forall key', key' <> 15 ->
     Lookup (snd (Insert three_keys 15 (rid_of 15))) key' = Lookup three_keys key') /\
  entries (snd (Insert three_keys 15 (rid_of 15))) ≡ₚ (15, rid_of 15) :: entries three_keys.
Proof.
  apply (Insert_new_key three_keys 15 (rid_of 15) three_keys_size three_keys_sorted).
  vm_compute. intros Hin.
  repeat (apply elem_of_cons in Hin as [Hin|Hin]; [discriminate Hin|]).
  by apply elem_of_nil in Hin.
Defined.

Lemma RemoveAt_takes_one_entry_witness :
  GetSize (RemoveAt three_keys 1) = GetSize three_keys - 1 /\
  entries (RemoveAt three_keys 1) = delete (Z.to_nat 1) (entries three_keys) /\
  (sorted three_keys ->
   sorted (RemoveAt three_keys 1) /\
   Lookup (RemoveAt three_keys 1) (KeyAt three_keys 1) = None /\
   forall key', key' <> KeyAt three_keys 1 ->
     Lookup (RemoveAt three_keys 1) key' = Lookup three_keys key').
Proof.
  apply (RemoveAt_takes_one_entry three_keys 1). vm_compute. by split.
Defined.

Lemma Shift_keeps_the_entries_witness :
  (let '(left', right') := ShiftTailItemToFront three_keys (Init 2 INVALID_PAGE_ID 4) in
   entries left' ++ entries right'
   = entries three_keys ++ entries (Init 2 INVALID_PAGE_ID 4) /\
   GetSize left' = (if GetSize three_keys =? 0 then 0 else GetSize three_keys - 1) /\
   GetSize left' + GetSize right'
   = GetSize three_keys + GetSize (Init 2 INVALID_PAGE_ID 4)) /\
  (let '(right', left') := ShiftHeadItemToBack (Init 2 INVALID_PAGE_ID 4) three_keys in
   entries left' ++ entries right'
   = entries three_keys ++ entries (Init 2 INVALID_PAGE_ID 4) /\
   GetSize right' = (if GetSize (Init 2 INVALID_PAGE_ID 4) =? 0 then 0
                     else GetSize (Init 2 INVALID_PAGE_ID 4) - 1) /\
   GetSize left' + GetSize right'
   = GetSize three_keys + GetSize (Init 2 INVALID_PAGE_ID 4)).
Proof.
  apply (Shift_keeps_the_entries three_keys (Init 2 INVALID_PAGE_ID 4)).
  - exact three_keys_size.
  - vm_compute. discriminate.
Defined.

End BPlusTreeLeafPage.

Module BPlusTreeInternalPage.
Import Index.

Record t : Type := mkInternal {
  header : Header;
  array_ : list (KeyType * Z)
}.

Definition GetSize (p : t) : Z := size_ (header p).
Definition GetMaxSize (p : t) : Z := max_size_ (header p).
Definition GetMinSize (p : t) : Z := min_size_of (max_size_ (header p)).
Definition GetPageId (p : t) : Z := page_id_ (header p).
Definition GetParentPageId (p : t) : Z := parent_page_id_ (header p).
Definition IsRootPage (p : t) : bool := parent_page_id_ (header p) =? INVALID_PAGE_ID.

Definition SetSize (p : t) (size : Z) : t :=
  {| header :=
       {| size_ := size; max_size_ := max_size_ (header p);
          parent_page_id_ := parent_page_id_ (header p);
          page_id_ := page_id_ (header p) |};
     array_ := array_ p |}.

Definition IncreaseSize (p : t) (amount : Z) : t := SetSize p (GetSize p + amount).

Definition SetParentPageId (p : t) (parent_id : Z) : t :=
  {| header :=
       {| size_ := size_ (header p); max_size_ := max_size_ (header p);
          parent_page_id_ := parent_id; page_id_ := page_id_ (header p) |};
     array_ := array_ p |}.

Definition set_array (p : t) (a : list (KeyType * Z)) : t :=
  {| header := header p; array_ := a |}.

(** [array_[i]]. *)
Definition at_ (p : t) (i : Z) : KeyType * Z :=
  PageArray.read internal_zero (array_ p) i.

(** The live entries [array_[0 .. size)]. *)
Definition entries (p : t) : list (KeyType * Z) :=
  PageArray.live internal_zero (array_ p) (GetSize p).

(** [B_PLUS_TREE_INTERNAL_PAGE_TYPE::Init], on the zeroed memory of a new
    page. *)
Definition Init (page_id parent_id max_size : Z) : t :=
  {| header :=
       {| size_ := 0; max_size_ := max_size; parent_page_id_ := parent_id;
          page_id_ := page_id |};
     array_ := [] |}.

(** [B_PLUS_TREE_INTERNAL_PAGE_TYPE::KeyAt]. *)
Definition KeyAt (p : t) (index : Z) : KeyType :=
  if (0 <=? index) && (index <? GetSize p) then fst (at_ p index)
  else KeyType_default.

(** [B_PLUS_TREE_INTERNAL_PAGE_TYPE::SetKeyAt]: no check of the index. *)
Definition SetKeyAt (p : t) (index : Z) (key : KeyType) : t :=
  set_array p (PageArray.write internal_zero (array_ p) index (key, snd (at_ p index))).

(** [B_PLUS_TREE_INTERNAL_PAGE_TYPE::ValueAt]. *)
Definition ValueAt (p : t) (index : Z) : Z :=
  if (0 <=? index) && (index <? GetSize p) then snd (at_ p index)
  else INVALID_PAGE_ID.

(** [B_PLUS_TREE_INTERNAL_PAGE_TYPE::SetValueAt]: no check of the index. *)
Definition SetValueAt (p : t) (index : Z) (value : Z) : t :=
  set_array p (PageArray.write internal_zero (array_ p) index (fst (at_ p index), value)).

(** The loop of [Lookup]: [while (left <= right)]. *)
Fixpoint Lookup_loop (fuel : nat) (p : t) (key : KeyType) (left right upper : Z) : Z :=
  match fuel with
  | O => upper
  | S fuel' =>
      if left <=? right then
        let mid := (left + right) / 2 in
        if comparator (KeyAt p mid) key >? 0
        then Lookup_loop fuel' p key left (mid - 1) mid
        else Lookup_loop fuel' p key (mid + 1) right upper
      else upper
  end.

(** [B_PLUS_TREE_INTERNAL_PAGE_TYPE::Lookup]; [None]: the assertion
    [size >= 1] fails. *)
Definition Lookup (p : t) (key : KeyType) : option Z :=
  let size := GetSize p in
  if size <? 1 then None
  else if size =? 1 then Some (ValueAt p 0)
  else if comparator key (KeyAt p 1) <? 0 then Some (ValueAt p 0)
  else
    let upper := Lookup_loop (Z.to_nat size) p key 1 (size - 1) size in
    Some (ValueAt p (upper - 1)).

(** [B_PLUS_TREE_INTERNAL_PAGE_TYPE::RemoveAt]. *)
Definition RemoveAt (p : t) (index : Z) : t :=
  let size := GetSize p in
  if (index <? 0) || (index >=? size) then p
  else
    IncreaseSize
      (set_array p
         (PageArray.shift_down internal_zero (array_ p) (index + 1)
            (Z.to_nat (size - (index + 1)))))
      (-1).

(** [B_PLUS_TREE_INTERNAL_PAGE_TYPE::BuildRoot]: the key of slot 0 is not
    written. *)
Definition BuildRoot (p : t) (key1 : KeyType) (val1 : Z) (key2 : KeyType) (val2 : Z) : t :=
  let a0 := PageArray.write internal_zero (array_ p) 0 (fst (at_ p 0), val1) in
  let a1 := PageArray.write internal_zero a0 1 (key2, val2) in
  SetSize (set_array p a1) 2.

(** The loop of [ValueIndex], from slot [i], with [n] slots left. *)
Fixpoint ValueIndex_loop (n : nat) (p : t) (value : Z) (i : Z) : Z :=
  match n with
  | O => -1
  | S n' =>
      if snd (at_ p i) =? value then i else ValueIndex_loop n' p value (i + 1)
  end.

(** [B_PLUS_TREE_INTERNAL_PAGE_TYPE::ValueIndex]. *)
Definition ValueIndex (p : t) (value : Z) : Z :=
  ValueIndex_loop (Z.to_nat (GetSize p)) p value 0.

(** The loop of [Insert]: [while (idx < size && comp(array_[idx].first,
    key) < 0) idx++]. *)
Fixpoint Insert_loop (fuel : nat) (p : t) (key : KeyType) (idx : Z) : Z :=
  match fuel with
  | O => idx
  | S fuel' =>
      if (idx <? GetSize p) && (comparator (fst (at_ p idx)) key <? 0)
      then Insert_loop fuel' p key (idx + 1)
      else idx
  end.

(** [B_PLUS_TREE_INTERNAL_PAGE_TYPE::Insert]. *)
Definition Insert (p : t) (key : KeyType) (value : Z) : Z * t :=
  let size := GetSize p in
  let idx := Insert_loop (Z.to_nat size) p key 1 in
  let shifted :=
    PageArray.shift_up internal_zero (array_ p) size (Z.to_nat (size - idx)) in
  let p' :=
    IncreaseSize
      (set_array p (PageArray.write internal_zero shifted idx (key, value))) 1 in
  (GetSize p', p').

(** The part of [RelocateHeadToBack] on the two pages:
    [(donor, recipient, moved child)]; [None] when the donor is empty and
    nothing is done. *)
Definition move_head_to_back (p recipient : t) : option (t * t * Z) :=
  let donor_size := GetSize p in
  if donor_size =? 0 then None
  else
    let item := at_ p 0 in
    let p' :=
      IncreaseSize
        (set_array p
           (PageArray.shift_down internal_zero (array_ p) 1 (Z.to_nat (donor_size - 1))))
        (-1) in
    let recip_size := GetSize recipient in
    Some
      (p',
       IncreaseSize
         (set_array recipient
            (PageArray.write internal_zero (array_ recipient) recip_size item)) 1,
       snd item).

(** The part of [RelocateTailToFront] on the two pages. *)
Definition move_tail_to_front (p recipient : t) : option (t * t * Z) :=
  let donor_size := GetSize p in
  if donor_size =? 0 then None
  else
    let item := at_ p (donor_size - 1) in
    let p' := IncreaseSize p (-1) in
    let recip_size := GetSize recipient in
    let shifted :=
      PageArray.shift_up internal_zero (array_ recipient) recip_size
        (Z.to_nat recip_size) in
    Some
      (p',
       IncreaseSize
         (set_array recipient (PageArray.write internal_zero shifted 0 item)) 1,
       snd item).

(** [RelocateHeadToBack] moves the first entry of the donor behind the
    last entry of the recipient. *)
Lemma move_head_to_back_entries (p recipient : t) :
  0 < GetSize p -> 0 <= GetSize recipient ->
  exists p' recipient',
    move_head_to_back p recipient = Some (p', recipient', snd (at_ p 0)) /\
    entries p = at_ p 0 :: entries p' /\
    entries recipient' = entries recipient ++ [at_ p 0] /\
    GetSize p' = GetSize p - 1 /\
    GetSize recipient' = GetSize recipient + 1 /\
    GetPageId recipient' = GetPageId recipient.
Proof.
  intros Hp Hr. unfold move_head_to_back.
  destruct (Z.eqb_spec (GetSize p) 0) as [|_]; [lia|].
  eexists. eexists. split; [done|]. split; [|split; [|done]].
  - unfold entries at 1. rewrite PageArray.live_shift_down_head by lia. done.
  - unfold entries at 1.
    change (GetSize (IncreaseSize ?q 1)) with (GetSize q + 1).
    cbn [array_ set_array IncreaseSize SetSize GetSize header size_].
    by apply PageArray.live_write_end.
Qed.

Lemma ValueIndex_loop_ge (n : nat) : forall (p : t) (value i : Z),
  0 <= i -> -1 <= ValueIndex_loop n p value i.
Proof.
  induction n as [|n IH]; intros p value i Hi; simpl; [lia|].
  destruct (snd (at_ p i) =? value); [lia|]. apply IH. lia.
Qed.

Lemma ValueIndex_ge (p : t) (value : Z) : -1 <= ValueIndex p value.
Proof. apply ValueIndex_loop_ge. lia. Qed.

Lemma KeyAt_SetKeyAt (p : t) (index : Z) (key : KeyType) :
  0 <= index < GetSize p -> KeyAt (SetKeyAt p index key) index = key.
Proof.
  intros Hi. unfold KeyAt.
  change (GetSize (SetKeyAt p index key)) with (GetSize p).
  destruct (Z.leb_spec 0 index); [|lia].
  destruct (Z.ltb_spec index (GetSize p)); [|lia]. simpl.
  unfold at_ at 1. unfold SetKeyAt. cbn [array_ set_array].
  by rewrite PageArray.read_write_eq by lia.
Qed.

(** *** Searching and changing an internal page *)

(** The keys of the slots 1 .. size - 1 (the key of slot 0 is not used). *)
Definition separators (p : t) : list KeyType := map fst (drop 1 (entries p)).

(** The invariant of an internal page: its keys are unique and in order. *)
Definition sorted (p : t) : Prop := BPlusTreeLeafPage.increasing (separators p) = true.

Lemma internal_KeyAt_at (p : t) (i : Z) : 0 <= i < GetSize p -> KeyAt p i = fst (at_ p i).
Proof.
  intros Hi. unfold KeyAt.
  destruct (Z.leb_spec 0 i); [|lia]. by destruct (Z.ltb_spec i (GetSize p)); [|lia].
Qed.

Lemma internal_ValueAt_at (p : t) (i : Z) : 0 <= i < GetSize p -> ValueAt p i = snd (at_ p i).
Proof.
  intros Hi. unfold ValueAt.
  destruct (Z.leb_spec 0 i); [|lia]. by destruct (Z.ltb_spec i (GetSize p)); [|lia].
Qed.

Lemma internal_length_entries (p : t) : length (entries p) = Z.to_nat (GetSize p).
Proof. apply PageArray.length_live. Qed.

Lemma internal_lookup_entries (p : t) (i : Z) :
  0 <= i < GetSize p -> entries p !! Z.to_nat i = Some (at_ p i).
Proof.
  intros Hi. unfold entries. rewrite PageArray.lookup_live by lia.
  by rewrite Z2Nat.id by lia.
Qed.

Lemma lookup_separators (p : t) (i : Z) :
  1 <= i < GetSize p -> separators p !! Z.to_nat (i - 1) = Some (KeyAt p i).
Proof.
  intros Hi. unfold separators.
  change (map fst (drop 1 (entries p))) with (fst <$> drop 1 (entries p)).
  rewrite list_lookup_fmap, lookup_drop.
  replace (1 + Z.to_nat (i - 1))%nat with (Z.to_nat i) by lia.
  rewrite internal_lookup_entries by lia. simpl. by rewrite internal_KeyAt_at by lia.
Qed.

Lemma sorted_KeyAt (p : t) (i j : Z) :
  sorted p -> 1 <= i -> i < j -> j < GetSize p -> KeyAt p i < KeyAt p j.
Proof.
  intros Hs Hi Hij Hj.
  apply (BPlusTreeLeafPage.increasing_lookup (separators p) Hs
           (Z.to_nat (i - 1)) (Z.to_nat (j - 1))).
  - apply lookup_separators. lia.
  - apply lookup_separators. lia.
  - lia.
Qed.

Lemma sorted_KeyAt_le (p : t) (i j : Z) :
  sorted p -> 1 <= i -> i <= j -> j < GetSize p -> KeyAt p i <= KeyAt p j.
Proof.
  intros Hs Hi Hij Hj. destruct (decide (i = j)) as [->|]; [lia|].
  apply Z.lt_le_incl, sorted_KeyAt; [done|lia..].
Qed.

(** The binary search of [Lookup] over increasing keys: the result is the
    first slot from 1 on whose key is greater than [key]. *)
Lemma Lookup_loop_spec (p : t) (key : KeyType) : sorted p ->
  forall (fuel : nat) (left right : Z),
    1 <= left -> left <= right + 1 -> right < GetSize p ->
    right - left + 1 <= Z.of_nat fuel ->
    (forall i, 1 <= i < left -> KeyAt p i <= key) ->
    (forall i, right < i < GetSize p -> key < KeyAt p i) ->
    let r := Lookup_loop fuel p key left right (right + 1) in
    1 <= r <= GetSize p /\
    (forall i, 1 <= i < r -> KeyAt p i <= key) /\
    (forall i, r <= i < GetSize p -> key < KeyAt p i).
Proof.
  intros Hs. induction fuel as [|fuel IH];
    intros left right Hl Hlr Hr Hfuel Hlow Hhigh; simpl.
  - assert (Heq : left = right + 1) by lia. rewrite <- Heq.
    split; [lia|]. split; [done|]. intros i Hi. apply Hhigh. lia.
  - destruct (Z.leb_spec left right) as [Hle|Hgt].
    + assert (Hmid : left <= (left + right) / 2 <= right).
      { split; [apply Z.div_le_lower_bound|apply Z.div_le_upper_bound]; lia. }
      set (mid := (left + right) / 2) in *.
      destruct (comparator (KeyAt p mid) key >? 0) eqn:Hc.
      * apply BPlusTreeLeafPage.comparator_gt in Hc.
        specialize (IH left (mid - 1)).
        replace (mid - 1 + 1) with mid in IH by lia.
        apply IH; try lia; [done|].
        intros i Hi. eapply Z.lt_le_trans; [exact Hc|].
        apply sorted_KeyAt_le; [done|lia..].
      * assert (Hge : KeyAt p mid <= key).
        { destruct (Z.le_gt_cases (KeyAt p mid) key) as [|Hgt]; [done|].
          apply BPlusTreeLeafPage.comparator_gt in Hgt. congruence. }
        apply IH; try lia; [|done].
        intros i Hi. etrans; [|exact Hge].
        apply sorted_KeyAt_le; [done|lia..].
    + assert (Heq : left = right + 1) by lia. rewrite <- Heq.
      split; [lia|]. split; [done|]. intros i Hi. apply Hhigh. lia.
Qed.

(** The scan of [Insert]: the first slot from [idx] on whose key is not
    less than [key]. *)
Lemma Insert_loop_spec (p : t) (key : KeyType) :
  forall (fuel : nat) (idx : Z),
    1 <= idx -> GetSize p - idx <= Z.of_nat fuel ->
    let r := Insert_loop fuel p key idx in
    idx <= r /\ (idx <= GetSize p -> r <= GetSize p) /\
    (forall j, idx <= j < r -> KeyAt p j < key) /\
    (r < GetSize p -> key <= KeyAt p r).
Proof.
  induction fuel as [|fuel IH]; intros idx Hidx Hfuel; simpl.
  - split; [lia|]. split; [done|]. split; [lia|]. lia.
  - destruct (Z.ltb_spec idx (GetSize p)) as [Hlt|Hge]; simpl.
    + destruct (comparator (fst (at_ p idx)) key <? 0) eqn:Hc.
      * apply BPlusTreeLeafPage.comparator_lt in Hc.
        destruct (IH (idx + 1) ltac:(lia) ltac:(lia)) as (H1 & H2 & H3 & H4).
        split; [lia|]. split; [lia|]. split; [|done].
        intros j Hj. destruct (decide (j = idx)) as [->|Hne].
        -- by rewrite internal_KeyAt_at by lia.
        -- apply H3. lia.
      * split; [lia|]. split; [lia|]. split; [lia|]. intros _.
        rewrite internal_KeyAt_at by lia.
        destruct (Z.le_gt_cases key (fst (at_ p idx))) as [|Hgt]; [done|].
        apply BPlusTreeLeafPage.comparator_lt in Hgt. congruence.
    + split; [lia|]. split; [done|]. split; [lia|]. lia.
Qed.

(** The slots of the page after an insertion at [idx]. *)
Lemma internal_at_inserted (p : t) (idx j : Z) (e : KeyType * Z) :
  0 <= idx <= GetSize p ->
  PageArray.read internal_zero
    (PageArray.write internal_zero
       (PageArray.shift_up internal_zero (array_ p) (GetSize p)
          (Z.to_nat (GetSize p - idx))) idx e) j =
  if j <? idx then at_ p j else if j =? idx then e else
  if j <=? GetSize p then at_ p (j - 1) else at_ p j.
Proof.
  intros Hidx.
  destruct (Z.eqb_spec j idx) as [->|Hne].
  - rewrite PageArray.read_write_eq by lia.
    by destruct (Z.ltb_spec idx idx); [lia|].
  - rewrite PageArray.read_write_ne by done.
    rewrite PageArray.read_shift_up by lia.
    rewrite Z2Nat.id by lia.
    replace (GetSize p - (GetSize p - idx)) with idx by lia.
    unfold at_.
    destruct (Z.ltb_spec idx j), (Z.leb_spec j (GetSize p)), (Z.ltb_spec j idx);
      simpl; try done; lia.
Qed.

Lemma ValueIndex_loop_spec (p : t) (value : Z) :
  forall (n : nat) (i : Z),
    0 <= i ->
    let r := ValueIndex_loop n p value i in
    (r = -1 /\ forall j, i <= j < i + Z.of_nat n -> snd (at_ p j) <> value) \/
    (i <= r < i + Z.of_nat n /\ snd (at_ p r) = value /\
     forall j, i <= j < r -> snd (at_ p j) <> value).
Proof.
  induction n as [|n IH]; intros i Hi; simpl.
  - left. split; [done|]. lia.
  - destruct (Z.eqb_spec (snd (at_ p i)) value) as [Heq|Hne].
    + right. split; [lia|]. split; [done|]. lia.
    + destruct (IH (i + 1) ltac:(lia)) as [[Hr Hall]|(Hr & Hv & Hall)].
      * left. split; [done|]. intros j Hj.
        destruct (decide (j = i)) as [->|]; [done|]. apply Hall. lia.
      * right. split; [lia|]. split; [done|]. intros j Hj.
        destruct (decide (j = i)) as [->|]; [done|]. apply Hall. lia.
Qed.

(** X21: [Lookup] on an internal page with at least one child and keys in
    order returns the child of the last slot whose key is not greater than
    [key], and the child of slot 0 when there is no such slot. *)
Theorem Lookup_selects_the_child (p : t) (key : KeyType) :
  1 <= GetSize p -> sorted p ->
  exists i,
    0 <= i < GetSize p /\
    Lookup p key = Some (ValueAt p i) /\
    (forall j, 1 <= j <= i -> KeyAt p j <= key) /\
    (forall j, i < j < GetSize p -> key < KeyAt p j).
Proof.
  intros Hsize Hs. unfold Lookup.
  destruct (Z.ltb_spec (GetSize p) 1); [lia|].
  destruct (Z.eqb_spec (GetSize p) 1) as [H1|H1].
  { exists 0. split; [lia|]. split; [done|]. split; intros j Hj; lia. }
  destruct (comparator key (KeyAt p 1) <? 0) eqn:Hc.
  { apply BPlusTreeLeafPage.comparator_lt in Hc.
    exists 0. split; [lia|]. split; [done|]. split; [intros j Hj; lia|].
    intros j Hj. eapply Z.lt_le_trans; [exact Hc|].
    apply sorted_KeyAt_le; [done|lia..]. }
  assert (Hge : KeyAt p 1 <= key).
  { destruct (Z.le_gt_cases (KeyAt p 1) key) as [|Hgt]; [done|].
    apply BPlusTreeLeafPage.comparator_lt in Hgt. congruence. }
  pose proof (Lookup_loop_spec p key Hs (Z.to_nat (GetSize p)) 1 (GetSize p - 1))
    as Hloop.
  replace (GetSize p - 1 + 1) with (GetSize p) in Hloop by lia.
  destruct Hloop as (Hr & Hlow & Hhigh); try lia.
  set (r := Lookup_loop (Z.to_nat (GetSize p)) p key 1 (GetSize p - 1) (GetSize p)) in *.
  assert (Hr2 : 2 <= r).
  { destruct (Z.le_gt_cases 2 r) as [|Hlt]; [done|].
    specialize (Hhigh 1 ltac:(lia)). lia. }
  exists (r - 1). split; [lia|]. split; [done|]. split.
  - intros j Hj. apply Hlow. lia.
  - intros j Hj. apply Hhigh. lia.
Qed.

(** X22: [Insert] on an internal page with at least one child puts the
    pair in the first slot from 1 on whose key is not less than [key] (at
    the end when there is none) and moves the later slots up by one: the
    size grows by one and the other entries keep their order. *)
Theorem Insert_places_the_key (p : t) (key : KeyType) (value : Z) :
  1 <= GetSize p ->
  exists idx,
    1 <= idx <= GetSize p /\
    (forall j, 1 <= j < idx -> KeyAt p j < key) /\
    (idx < GetSize p -> key <= KeyAt p idx) /\
    fst (Insert p key value) = GetSize p + 1 /\
    GetSize (snd (Insert p key value)) = GetSize p + 1 /\
    entries (snd (Insert p key value)) =
      take (Z.to_nat idx) (entries p) ++ (key, value) :: drop (Z.to_nat idx) (entries p).
Proof.
  intros Hsize.
  destruct (Insert_loop_spec p key (Z.to_nat (GetSize p)) 1 ltac:(lia) ltac:(lia))
    as (H1 & H2 & H3 & H4).
  unfold Insert.
  set (idx := Insert_loop (Z.to_nat (GetSize p)) p key 1) in *.
  specialize (H2 Hsize).
  exists idx. split; [lia|]. split; [done|]. split; [done|].
  cbn [fst snd]. split; [done|]. split; [done|].
  apply (list_eq_same_length _ _ (Z.to_nat (GetSize p + 1))).
  - rewrite length_app, length_take. simpl. rewrite length_drop, internal_length_entries. lia.
  - apply internal_length_entries.
  - intros i x y Hi Hx Hy.
    unfold entries in Hx.
    change (GetSize (IncreaseSize ?q 1)) with (GetSize q + 1) in Hx.
    change (GetSize (set_array p ?a)) with (GetSize p) in Hx.
    rewrite PageArray.lookup_live in Hx by lia.
    cbn [array_ set_array IncreaseSize SetSize] in Hx.
    injection Hx as <-.
    rewrite internal_at_inserted by lia.
    destruct (Z.ltb_spec (Z.of_nat i) idx) as [Hlt|Hge].
    + rewrite lookup_app_l in Hy by (rewrite length_take, internal_length_entries; lia).
      rewrite lookup_take_lt in Hy by lia.
      rewrite <- (Nat2Z.id i), internal_lookup_entries in Hy by lia. by injection Hy.
    + rewrite lookup_app_r in Hy by (rewrite length_take, internal_length_entries; lia).
      rewrite length_take, internal_length_entries in Hy.
      rewrite Nat.min_l in Hy by lia.
      destruct (Z.eqb_spec (Z.of_nat i) idx) as [Heq|Hne].
      { replace (i - Z.to_nat idx)%nat with 0%nat in Hy by lia. by injection Hy. }
      destruct (i - Z.to_nat idx)%nat as [|n] eqn:Hn; [lia|].
      simpl in Hy. rewrite lookup_drop in Hy.
      destruct (Z.leb_spec (Z.of_nat i) (GetSize p)); [|lia].
      replace (Z.to_nat idx + n)%nat with (Z.to_nat (Z.of_nat i - 1)) in Hy by lia.
      rewrite internal_lookup_entries in Hy by lia. by injection Hy.
Qed.

(** X23: [ValueIndex] returns the first slot below [GetSize()] that holds
    the child, and -1 exactly when no slot holds it. *)
Theorem ValueIndex_first_slot (p : t) (value : Z) :
  (ValueIndex p value = -1 /\
   forall j, 0 <= j < GetSize p -> ValueAt p j <> value) \/
  (0 <= ValueIndex p value < GetSize p /\
   ValueAt p (ValueIndex p value) = value /\
   forall j, 0 <= j < ValueIndex p value -> ValueAt p j <> value).
Proof.
  unfold ValueIndex.
  destruct (ValueIndex_loop_spec p value (Z.to_nat (GetSize p)) 0 ltac:(lia))
    as [[Hr Hall]|(Hr & Hv & Hall)].
  - left. split; [done|]. intros j Hj. rewrite internal_ValueAt_at by done. apply Hall. lia.
  - right. split; [lia|]. split.
    + rewrite internal_ValueAt_at by lia. done.
    + intros j Hj. rewrite internal_ValueAt_at by lia. by apply Hall.
Qed.

Lemma BuildRoot_slots (p : t) (key1 : KeyType) (val1 : Z) (key2 : KeyType) (val2 : Z) :
  GetSize (BuildRoot p key1 val1 key2 val2) = 2 /\
  at_ (BuildRoot p key1 val1 key2 val2) 0 = (fst (at_ p 0), val1) /\
  at_ (BuildRoot p key1 val1 key2 val2) 1 = (key2, val2).
Proof.
  split; [done|]. unfold BuildRoot, at_. cbn [array_ set_array SetSize]. split.
  - rewrite PageArray.read_write_ne by lia. by rewrite PageArray.read_write_eq by lia.
  - by rewrite PageArray.read_write_eq by lia.
Qed.

Lemma BuildRoot_children (p : t) (key1 : KeyType) (val1 : Z) (key2 : KeyType)
    (val2 : Z) :
  ValueAt (BuildRoot p key1 val1 key2 val2) 0 = val1 /\
  KeyAt (BuildRoot p key1 val1 key2 val2) 1 = key2 /\
  ValueAt (BuildRoot p key1 val1 key2 val2) 1 = val2 /\
  KeyAt (BuildRoot p key1 val1 key2 val2) 0 = fst (at_ p 0).
Proof.
  destruct (BuildRoot_slots p key1 val1 key2 val2) as (Hsize & H0 & H1).
  set (q := BuildRoot p key1 val1 key2 val2) in *.
  split; [by rewrite internal_ValueAt_at, H0 by lia|].
  split; [by rewrite internal_KeyAt_at, H1 by lia|].
  split; [by rewrite internal_ValueAt_at, H1 by lia|].
  by rewrite internal_KeyAt_at, H0 by lia.
Qed.

Lemma BuildRoot_Lookup (p : t) (key1 : KeyType) (val1 : Z) (key2 : KeyType)
    (val2 : Z) (key : KeyType) :
  Lookup (BuildRoot p key1 val1 key2 val2) key
  = Some (if key <? key2 then val1 else val2).
Proof.
  destruct (BuildRoot_slots p key1 val1 key2 val2) as (Hsize & _ & _).
  destruct (BuildRoot_children p key1 val1 key2 val2) as (Hv0 & Hk1 & Hv1 & _).
  set (q := BuildRoot p key1 val1 key2 val2) in *.
  unfold Lookup. rewrite Hsize. simpl Z.ltb. simpl Z.eqb. cbv iota.
  rewrite Hk1. destruct (Z.ltb_spec key key2) as [Hlt|Hge].
  - rewrite (proj2 (BPlusTreeLeafPage.comparator_lt key key2) Hlt). by rewrite Hv0.
  - destruct (comparator key key2 <? 0) eqn:Hc.
    { apply BPlusTreeLeafPage.comparator_lt in Hc. lia. }
    change (Z.to_nat 2) with 2%nat. simpl Lookup_loop.
    change ((1 + (2 - 1)) / 2) with 1. rewrite Hk1.
    destruct (comparator key2 key >? 0) eqn:Hc'.
    { apply BPlusTreeLeafPage.comparator_gt in Hc'. lia. }
    change (2 - 1) with 1. by rewrite Hv1.
Qed.

(** X24: after [BuildRoot(key1, val1, key2, val2)] the page has two
    children, and [Lookup] sends the keys below [key2] to [val1] and the
    others to [val2]; [key1] is not stored. *)
Theorem Lookup_after_BuildRoot (p : t) (key1 : KeyType) (val1 : Z) (key2 : KeyType)
    (val2 : Z) (key : KeyType) :
  GetSize (BuildRoot p key1 val1 key2 val2) = 2 /\
  ValueAt (BuildRoot p key1 val1 key2 val2) 0 = val1 /\
  KeyAt (BuildRoot p key1 val1 key2 val2) 1 = key2 /\
  ValueAt (BuildRoot p key1 val1 key2 val2) 1 = val2 /\
  KeyAt (BuildRoot p key1 val1 key2 val2) 0 = fst (at_ p 0) /\
  Lookup (BuildRoot p key1 val1 key2 val2) key
  = Some (if key <? key2 then val1 else val2).
Proof.
  destruct (BuildRoot_slots p key1 val1 key2 val2) as (Hsize & _ & _).
  destruct (BuildRoot_children p key1 val1 key2 val2) as (Hv0 & Hk1 & Hv1 & Hk0).
  split; [exact Hsize|]. split; [exact Hv0|]. split; [exact Hk1|].
  split; [exact Hv1|]. split; [exact Hk0|]. apply BuildRoot_Lookup.
Qed.

(** A page with the children 1, 2 and 4 and the keys 20 and 30. *)
Definition three_children : t :=
  let p0 := BuildRoot (Init 3 INVALID_PAGE_ID 4) 10 1 20 2 in
  snd (Insert p0 30 4).

Lemma Lookup_selects_the_child_witness :
  exists i,
    0 <= i < GetSize three_children /\
    Lookup three_children 25 = Some (ValueAt three_children i) /\
    (forall j, 1 <= j <= i -> KeyAt three_children j <= 25) /\
    (forall j, i < j < GetSize three_children -> 25 < KeyAt three_children j).
Proof.
  apply (Lookup_selects_the_child three_children 25).
  - vm_compute. discriminate.
  - vm_compute. reflexivity.
Defined.

Lemma Insert_places_the_key_witness :
  exists idx,
    1 <= idx <= GetSize three_children /\
    (forall j, 1 <= j < idx -> KeyAt three_children j < 25) /\
    (idx < GetSize three_children -> 25 <= KeyAt three_children idx) /\
    fst (Insert three_children 25 5) = GetSize three_children + 1 /\
    GetSize (snd (Insert three_children 25 5)) = GetSize three_children + 1 /\
    entries (snd (Insert three_children 25 5)) =
      take (Z.to_nat idx) (entries three_children)
      ++ (25, 5) :: drop (Z.to_nat idx) (entries three_children).
Proof.
  apply (Insert_places_the_key three_children 25 5). vm_compute. discriminate.
Defined.

End BPlusTreeInternalPage.

(** ** B+ tree (storage/index/b_plus_tree.cpp)

    The pages of the tree live in the buffer pool and the code reaches them
    through pointers; here the pool is a map from page ids to pages, a
    pointer is a page id, and every write goes to the map.  Pin counts and
    latches are left out: the pool is taken large enough for [NewPage] and
    [FetchPage] of an allocated page to succeed, and every call carries a
    transaction.  A call that faults, dereferences a page that was never
    allocated or does not come back is [None]. *)
Module BPlusTree.
Import Index.

Inductive node : Type :=
| LeafNode (p : BPlusTreeLeafPage.t)
| InternalNode (p : BPlusTreeInternalPage.t).

(** The [BPlusTreePage] view of a page. *)
Definition IsLeafPage (n : node) : bool :=
  match n with LeafNode _ => true | InternalNode _ => false end.

Definition header_of (n : node) : Header :=
  match n with
  | LeafNode p => BPlusTreeLeafPage.header p
  | InternalNode p => BPlusTreeInternalPage.header p
  end.

Definition node_GetSize (n : node) : Z := size_ (header_of n).
Definition node_GetMaxSize (n : node) : Z := max_size_ (header_of n).
Definition node_GetMinSize (n : node) : Z := min_size_of (max_size_ (header_of n)).
Definition node_GetPageId (n : node) : Z := page_id_ (header_of n).
Definition node_GetParentPageId (n : node) : Z := parent_page_id_ (header_of n).
Definition node_IsRootPage (n : node) : bool :=
  parent_page_id_ (header_of n) =? INVALID_PAGE_ID.

Definition node_SetParentPageId (n : node) (parent_id : Z) : node :=
  match n with
  | LeafNode p => LeafNode (BPlusTreeLeafPage.SetParentPageId p parent_id)
  | InternalNode p => InternalNode (BPlusTreeInternalPage.SetParentPageId p parent_id)
  end.

(** [N::KeyAt]. *)
Definition node_KeyAt (n : node) (index : Z) : KeyType :=
  match n with
  | LeafNode p => BPlusTreeLeafPage.KeyAt p index
  | InternalNode p => BPlusTreeInternalPage.KeyAt p index
  end.

Record t : Type := mkTree {
  root_page_id_ : Z;
  leaf_max_size_ : Z;
  internal_max_size_ : Z;
  pages : gmap Z node;
  next_page_id_ : Z
}.

(** [BPLUSTREE_TYPE::BPlusTree], on a pool whose next page id is
    [first_page_id]. *)
Definition BPlusTree (first_page_id leaf_max_size internal_max_size : Z) : t :=
  {| root_page_id_ := INVALID_PAGE_ID; leaf_max_size_ := leaf_max_size;
     internal_max_size_ := internal_max_size; pages := ∅;
     next_page_id_ := first_page_id |}.

(** [BPLUSTREE_TYPE::IsEmpty]. *)
Definition IsEmpty (s : t) : bool := root_page_id_ s =? INVALID_PAGE_ID.

Definition set_root (s : t) (root : Z) : t :=
  {| root_page_id_ := root; leaf_max_size_ := leaf_max_size_ s;
     internal_max_size_ := internal_max_size_ s; pages := pages s;
     next_page_id_ := next_page_id_ s |}.

(** A write through a pointer to the page [pid]. *)
Definition put (s : t) (pid : Z) (n : node) : t :=
  {| root_page_id_ := root_page_id_ s; leaf_max_size_ := leaf_max_size_ s;
     internal_max_size_ := internal_max_size_ s;
     pages := <[pid := n]> (pages s);
     next_page_id_ := next_page_id_ s |}.

(** [buffer_pool_manager_->NewPage(&pid)]. *)
Definition NewPage (s : t) : Z * t :=
  (next_page_id_ s,
   {| root_page_id_ := root_page_id_ s; leaf_max_size_ := leaf_max_size_ s;
      internal_max_size_ := internal_max_size_ s; pages := pages s;
      next_page_id_ := next_page_id_ s + 1 |}).

(** [buffer_pool_manager_->FetchPage(pid)], cast to a leaf or to an
    internal page. *)
Definition fetch_leaf (s : t) (pid : Z) : option BPlusTreeLeafPage.t :=
  match pages s !! pid with
  | Some (LeafNode p) => Some p
  | _ => None
  end.

Definition fetch_internal (s : t) (pid : Z) : option BPlusTreeInternalPage.t :=
  match pages s !! pid with
  | Some (InternalNode p) => Some p
  | _ => None
  end.

(** Fetch the page [pid] and set its parent page id. *)
Definition SetParentPageId (s : t) (pid parent_id : Z) : option t :=
  n ← pages s !! pid;
  Some (put s pid (node_SetParentPageId n parent_id)).

(** [donor->ShiftHeadItemToBack(recipient)] on two leaves of the pool. *)
Definition ShiftHeadItemToBack (s : t) (donor recipient : Z) : option t :=
  d ← fetch_leaf s donor;
  r ← fetch_leaf s recipient;
  let '(d', r') := BPlusTreeLeafPage.ShiftHeadItemToBack d r in
  Some (put (put s donor (LeafNode d')) recipient (LeafNode r')).

(** [donor->ShiftTailItemToFront(recipient)]. *)
Definition ShiftTailItemToFront (s : t) (donor recipient : Z) : option t :=
  d ← fetch_leaf s donor;
  r ← fetch_leaf s recipient;
  let '(d', r') := BPlusTreeLeafPage.ShiftTailItemToFront d r in
  Some (put (put s donor (LeafNode d')) recipient (LeafNode r')).

(** [B_PLUS_TREE_INTERNAL_PAGE_TYPE::RelocateHeadToBack]: the entry moves,
    then the moved child is fetched and given its new parent. *)
Definition RelocateHeadToBack (s : t) (donor recipient : Z) : option t :=
  d ← fetch_internal s donor;
  r ← fetch_internal s recipient;
  match BPlusTreeInternalPage.move_head_to_back d r with
  | None => Some s
  | Some (d', r', child_pid) =>
      SetParentPageId
        (put (put s donor (InternalNode d')) recipient (InternalNode r'))
        child_pid (BPlusTreeInternalPage.GetPageId r')
  end.

(** [B_PLUS_TREE_INTERNAL_PAGE_TYPE::RelocateTailToFront]. *)
Definition RelocateTailToFront (s : t) (donor recipient : Z) : option t :=
  d ← fetch_internal s donor;
  r ← fetch_internal s recipient;
  match BPlusTreeInternalPage.move_tail_to_front d r with
  | None => Some s
  | Some (d', r', child_pid) =>
      SetParentPageId
        (put (put s donor (InternalNode d')) recipient (InternalNode r'))
        child_pid (BPlusTreeInternalPage.GetPageId r')
  end.

(** [BPLUSTREE_TYPE::FindLeaf], from the page [page_id] on: the page id of
    the leaf. *)
Fixpoint FindLeaf (fuel : nat) (s : t) (key : KeyType) (page_id : Z) : option Z :=
  match fuel with
  | O => None
  | S fuel' =>
      match pages s !! page_id with
      | None => None
      | Some (LeafNode _) => Some page_id
      | Some (InternalNode internal) =>
          child ← BPlusTreeInternalPage.Lookup internal key;
          FindLeaf fuel' s key child
      end
  end.

(** [BPLUSTREE_TYPE::GetValue]: the flag and [*result]. *)
Definition GetValue (fuel : nat) (s : t) (key : KeyType) : option (bool * list ValueType) :=
  if IsEmpty s then Some (false, [])
  else
    leaf_pid ← FindLeaf fuel s key (root_page_id_ s);
    leaf ← fetch_leaf s leaf_pid;
    match BPlusTreeLeafPage.Lookup leaf key with
    | Some value => Some (true, [value])
    | None => Some (false, [])
    end.

(** [while (new_leaf->GetSize() < new_leaf->GetMinSize())
    leaf->ShiftTailItemToFront(new_leaf);] with [n] entries left in the
    donor; with none left the loop goes on for ever. *)
Fixpoint split_leaf_loop (n : nat) (s : t) (leaf new_leaf : Z) : option t :=
  nl ← fetch_leaf s new_leaf;
  if BPlusTreeLeafPage.GetSize nl <? BPlusTreeLeafPage.GetMinSize nl then
    match n with
    | O => None
    | S n' =>
        s' ← ShiftTailItemToFront s leaf new_leaf;
        split_leaf_loop n' s' leaf new_leaf
    end
  else Some s.

(** [while (new_internal->GetSize() < new_internal->GetMinSize())
    parent_node->RelocateTailToFront(new_internal, buffer_pool_manager_);] *)
Fixpoint split_internal_loop (n : nat) (s : t) (parent new_internal : Z) : option t :=
  ni ← fetch_internal s new_internal;
  if BPlusTreeInternalPage.GetSize ni <? BPlusTreeInternalPage.GetMinSize ni then
    match n with
    | O => None
    | S n' =>
        s' ← RelocateTailToFront s parent new_internal;
        split_internal_loop n' s' parent new_internal
    end
  else Some s.

(** The new root of [Insert] and [InsertIntoParent]. *)
Definition new_root (s : t) (old_key : KeyType) (old_node : Z) (new_key : KeyType)
    (new_node : Z) : option t :=
  old ← pages s !! old_node;
  new ← pages s !! new_node;
  let '(new_root_pid, s1) := NewPage s in
  let root_node :=
    BPlusTreeInternalPage.BuildRoot
      (BPlusTreeInternalPage.Init new_root_pid INVALID_PAGE_ID (internal_max_size_ s))
      old_key (node_GetPageId old) new_key (node_GetPageId new) in
  let s2 := put s1 new_root_pid (InternalNode root_node) in
  s3 ← SetParentPageId s2 old_node new_root_pid;
  s4 ← SetParentPageId s3 new_node new_root_pid;
  Some (set_root s4 new_root_pid).

(** [BPLUSTREE_TYPE::InsertIntoParent]. *)
Fixpoint InsertIntoParent (fuel : nat) (s : t) (old_key : KeyType) (old_node : Z)
    (new_key : KeyType) (new_node : Z) : option (bool * t) :=
  match fuel with
  | O => None
  | S fuel' =>
      old ← pages s !! old_node;
      new ← pages s !! new_node;
      let parent_id := node_GetParentPageId old in
      if parent_id =? INVALID_PAGE_ID then
        s' ← new_root s old_key old_node new_key new_node;
        Some (true, s')
      else
        parent_node ← fetch_internal s parent_id;
        let idx := BPlusTreeInternalPage.ValueIndex parent_node (node_GetPageId old) in
        if idx <? 0 then None
        else
          let parent_node := BPlusTreeInternalPage.SetKeyAt parent_node idx old_key in
          let parent_node :=
            snd (BPlusTreeInternalPage.Insert parent_node new_key (node_GetPageId new)) in
          let s1 := put s parent_id (InternalNode parent_node) in
          s2 ← SetParentPageId s1 new_node parent_id;
          if BPlusTreeInternalPage.GetSize parent_node
             >? BPlusTreeInternalPage.GetMaxSize parent_node
          then
            let '(new_pid, s3) := NewPage s2 in
            let new_internal :=
              BPlusTreeInternalPage.Init new_pid
                (BPlusTreeInternalPage.GetParentPageId parent_node)
                (BPlusTreeInternalPage.GetMaxSize parent_node) in
            let s4 := put s3 new_pid (InternalNode new_internal) in
            s5 ← split_internal_loop
                   (Z.to_nat (BPlusTreeInternalPage.GetSize parent_node))
                   s4 parent_id new_pid;
            parent_node ← fetch_internal s5 parent_id;
            new_internal ← fetch_internal s5 new_pid;
            let middle_key := BPlusTreeInternalPage.KeyAt new_internal 0 in
            r ← InsertIntoParent fuel' s5 (BPlusTreeInternalPage.KeyAt parent_node 0)
                  parent_id middle_key new_pid;
            Some (false, snd r)
          else Some (false, s2)
  end.

(** [BPLUSTREE_TYPE::Insert]. *)
Definition Insert (fuel : nat) (s : t) (key : KeyType) (value : ValueType) : option (bool * t) :=
  if IsEmpty s then
    let '(new_root_pid, s1) := NewPage s in
    let leaf := BPlusTreeLeafPage.Init new_root_pid INVALID_PAGE_ID (leaf_max_size_ s) in
    let '(rv, leaf) := BPlusTreeLeafPage.Insert leaf key value in
    Some (negb (rv =? -1), set_root (put s1 new_root_pid (LeafNode leaf)) new_root_pid)
  else
    leaf_pid ← FindLeaf fuel s key (root_page_id_ s);
    leaf ← fetch_leaf s leaf_pid;
    let '(rv, leaf) := BPlusTreeLeafPage.Insert leaf key value in
    if rv =? -1 then Some (false, s)
    else
      let s1 := put s leaf_pid (LeafNode leaf) in
      if BPlusTreeLeafPage.GetSize leaf <? BPlusTreeLeafPage.GetMaxSize leaf
      then Some (true, s1)
      else
        let '(new_pid, s2) := NewPage s1 in
        let new_leaf :=
          BPlusTreeLeafPage.Init new_pid (BPlusTreeLeafPage.GetParentPageId leaf)
            (BPlusTreeLeafPage.GetMaxSize leaf) in
        let new_leaf :=
          BPlusTreeLeafPage.SetNextPageId new_leaf (BPlusTreeLeafPage.GetNextPageId leaf) in
        let leaf :=
          BPlusTreeLeafPage.SetNextPageId leaf (BPlusTreeLeafPage.GetPageId new_leaf) in
        let s3 := put (put s2 new_pid (LeafNode new_leaf)) leaf_pid (LeafNode leaf) in
        s4 ← split_leaf_loop (Z.to_nat (BPlusTreeLeafPage.GetSize leaf)) s3 leaf_pid new_pid;
        leaf ← fetch_leaf s4 leaf_pid;
        new_leaf ← fetch_leaf s4 new_pid;
        let old_first_key := BPlusTreeLeafPage.KeyAt leaf 0 in
        let new_first_key := BPlusTreeLeafPage.KeyAt new_leaf 0 in
        if BPlusTreeLeafPage.IsRootPage leaf then
          s5 ← new_root s4 old_first_key leaf_pid new_first_key new_pid;
          Some (true, s5)
        else
          r ← InsertIntoParent fuel s4 old_first_key leaf_pid new_first_key new_pid;
          Some (true, snd r).

(** [BPLUSTREE_TYPE::HandleRootAfterDelete]. *)
Definition HandleRootAfterDelete (s : t) (node_pid : Z) : option t :=
  n ← pages s !! node_pid;
  if negb (node_IsRootPage n) then Some s
  else
    match n with
    | LeafNode leaf_root =>
        if BPlusTreeLeafPage.GetSize leaf_root =? 0
        then Some (set_root s INVALID_PAGE_ID)
        else Some s
    | InternalNode internal_root =>
        if BPlusTreeInternalPage.GetSize internal_root =? 1 then
          let child_pid := BPlusTreeInternalPage.ValueAt internal_root 0 in
          SetParentPageId (set_root s child_pid) child_pid INVALID_PAGE_ID
        else Some s
    end.

(** [while (cur_leaf->GetSize() > 0) cur_leaf->ShiftHeadItemToBack(
    neighbor_leaf);] with [n] turns left. *)
Fixpoint coalesce_leaf_loop (n : nat) (s : t) (neighbor cur : Z) : option t :=
  c ← fetch_leaf s cur;
  if BPlusTreeLeafPage.GetSize c >? 0 then
    match n with
    | O => None
    | S n' =>
        s' ← ShiftHeadItemToBack s cur neighbor;
        coalesce_leaf_loop n' s' neighbor cur
    end
  else Some s.

(** [BPLUSTREE_TYPE::CoalesceLeafNode]. *)
Definition CoalesceLeafNode (s : t) (neighbor cur : Z) : option t :=
  c ← fetch_leaf s cur;
  s1 ← coalesce_leaf_loop (Z.to_nat (BPlusTreeLeafPage.GetSize c)) s neighbor cur;
  nb ← fetch_leaf s1 neighbor;
  c' ← fetch_leaf s1 cur;
  Some (put s1 neighbor
          (LeafNode (BPlusTreeLeafPage.SetNextPageId nb (BPlusTreeLeafPage.GetNextPageId c')))).

Fixpoint coalesce_internal_loop (n : nat) (s : t) (neighbor cur : Z) : option t :=
  c ← fetch_internal s cur;
  if BPlusTreeInternalPage.GetSize c >? 0 then
    match n with
    | O => None
    | S n' =>
        s' ← RelocateHeadToBack s cur neighbor;
        coalesce_internal_loop n' s' neighbor cur
    end
  else Some s.

(** [BPLUSTREE_TYPE::CoalesceInternalNode]. *)
Definition CoalesceInternalNode (s : t) (neighbor cur : Z) : option t :=
  c ← fetch_internal s cur;
  coalesce_internal_loop (Z.to_nat (BPlusTreeInternalPage.GetSize c)) s neighbor cur.

(** [BPLUSTREE_TYPE::CoalesceNode]. *)
Definition CoalesceNode (s : t) (neighbor cur : Z) : option t :=
  c ← pages s !! cur;
  if IsLeafPage c then CoalesceLeafNode s neighbor cur
  else CoalesceInternalNode s neighbor cur.

(** [BPLUSTREE_TYPE::RedistributeLeafNode]. *)
Definition RedistributeLeafNode (s : t) (neighbor cur : Z) (from_prev : bool) : option t :=
  if from_prev then ShiftTailItemToFront s neighbor cur
  else ShiftHeadItemToBack s neighbor cur.

(** [BPLUSTREE_TYPE::RedistributeInternalNode]. *)
Definition RedistributeInternalNode (s : t) (neighbor cur : Z) (from_prev : bool) : option t :=
  if from_prev then RelocateTailToFront s neighbor cur
  else RelocateHeadToBack s neighbor cur.

(** [BPLUSTREE_TYPE::RedistributeNode]. *)
Definition RedistributeNode (s : t) (neighbor cur : Z) (from_prev : bool) : option t :=
  c ← pages s !! cur;
  if IsLeafPage c then RedistributeLeafNode s neighbor cur from_prev
  else RedistributeInternalNode s neighbor cur from_prev.

(** [FetchPage] and [WLatch] of a sibling of the node [node_pid], which
    is write-latched already: latching it a second time never returns. *)
Definition fetch_sibling (s : t) (node_pid sibling_pid : Z) : option node :=
  if sibling_pid =? node_pid then None else pages s !! sibling_pid.

(** [parent->SetKeyAt(index, key)] on the parent in the pool. *)
Definition parent_SetKeyAt (s : t) (parent_pid index : Z) (key : KeyType) : option t :=
  parent ← fetch_internal s parent_pid;
  Some (put s parent_pid (InternalNode (BPlusTreeInternalPage.SetKeyAt parent index key))).

(** [parent->RemoveAt(index)] on the parent in the pool. *)
Definition parent_RemoveAt (s : t) (parent_pid index : Z) : option t :=
  parent ← fetch_internal s parent_pid;
  Some (put s parent_pid (InternalNode (BPlusTreeInternalPage.RemoveAt parent index))).

(** The first block of [RedistributeOrMerge], borrowing from the left
    sibling: [Some s'] when the function returns from it in state [s'],
    [None] when it goes on to the next block. *)
Definition borrow_from_left (s : t) (node_pid parent_pid index : Z) : option (option t) :=
  parent ← fetch_internal s parent_pid;
  if index >? 0 then
    let left_pid := BPlusTreeInternalPage.ValueAt parent (index - 1) in
    left ← fetch_sibling s node_pid left_pid;
    if node_GetSize left >? node_GetMinSize left then
      s1 ← RedistributeNode s left_pid node_pid true;
      n ← pages s1 !! node_pid;
      s2 ← parent_SetKeyAt s1 parent_pid index (node_KeyAt n 0);
      Some (Some s2)
    else Some None
  else Some None.

(** The second block, borrowing from the right sibling. *)
Definition borrow_from_right (s : t) (node_pid parent_pid index : Z) : option (option t) :=
  parent ← fetch_internal s parent_pid;
  if index <? BPlusTreeInternalPage.GetSize parent - 1 then
    let right_pid := BPlusTreeInternalPage.ValueAt parent (index + 1) in
    right ← fetch_sibling s node_pid right_pid;
    if node_GetSize right >? node_GetMinSize right then
      s1 ← RedistributeNode s right_pid node_pid false;
      right ← pages s1 !! right_pid;
      s2 ← parent_SetKeyAt s1 parent_pid (index + 1) (node_KeyAt right 0);
      Some (Some s2)
    else Some None
  else Some None.

(** The third block, merging with the left or else with the right
    sibling. *)
Definition merge_with_sibling (s : t) (node_pid parent_pid index : Z) : option t :=
  parent ← fetch_internal s parent_pid;
  if index >? 0 then
    let left_pid := BPlusTreeInternalPage.ValueAt parent (index - 1) in
    left ← fetch_sibling s node_pid left_pid;
    if node_GetSize left =? node_GetMinSize left then
      s1 ← CoalesceNode s left_pid node_pid;
      parent_RemoveAt s1 parent_pid index
    else Some s
  else if index <? BPlusTreeInternalPage.GetSize parent - 1 then
    let right_pid := BPlusTreeInternalPage.ValueAt parent (index + 1) in
    right ← fetch_sibling s node_pid right_pid;
    if node_GetSize right =? node_GetMinSize right then
      s1 ← CoalesceNode s node_pid right_pid;
      parent_RemoveAt s1 parent_pid (index + 1)
    else Some s
  else Some s.

(** [BPLUSTREE_TYPE::RedistributeOrMerge]. *)
Fixpoint RedistributeOrMerge (fuel : nat) (s : t) (node_pid : Z) : option t :=
  match fuel with
  | O => None
  | S fuel' =>
      n ← pages s !! node_pid;
      if node_IsRootPage n then HandleRootAfterDelete s node_pid
      else
        let parent_pid := node_GetParentPageId n in
        parent ← fetch_internal s parent_pid;
        let index := BPlusTreeInternalPage.ValueIndex parent (node_GetPageId n) in
        from_left ← borrow_from_left s node_pid parent_pid index;
        match from_left with
        | Some s' => Some s'
        | None =>
            from_right ← borrow_from_right s node_pid parent_pid index;
            match from_right with
            | Some s' => Some s'
            | None =>
                s1 ← merge_with_sibling s node_pid parent_pid index;
                parent ← fetch_internal s1 parent_pid;
                if BPlusTreeInternalPage.GetSize parent
                   <? BPlusTreeInternalPage.GetMinSize parent
                then RedistributeOrMerge fuel' s1 parent_pid
                else Some s1
            end
        end
  end.

(** [BPLUSTREE_TYPE::Remove]. *)
Definition Remove (fuel : nat) (s : t) (key : KeyType) : option t :=
  if IsEmpty s then Some s
  else
    leaf_pid ← FindLeaf fuel s key (root_page_id_ s);
    leaf ← fetch_leaf s leaf_pid;
    let idx := BPlusTreeLeafPage.KeyIndex leaf key in
    if (idx >=? BPlusTreeLeafPage.GetSize leaf)
       || negb (comparator (BPlusTreeLeafPage.KeyAt leaf idx) key =? 0)
    then Some s
    else
      let s1 := put s leaf_pid (LeafNode (BPlusTreeLeafPage.RemoveAt leaf idx)) in
      leaf ← fetch_leaf s1 leaf_pid;
      if BPlusTreeLeafPage.GetSize leaf <? BPlusTreeLeafPage.GetMinSize leaf
      then RedistributeOrMerge fuel s1 leaf_pid
      else Some s1.

(** A run of [Insert]s, each key with the record id of slot [key] in page
    [key]. *)
Fixpoint insert_all (fuel : nat) (s : t) (keys : list KeyType) : option t :=
  match keys with
  | [] => Some s
  | key :: keys' =>
      r ← Insert fuel s key {| rid_page_id := key; rid_slot_num := key |};
      insert_all fuel (snd r) keys'
  end.

(** A run of [Remove]s. *)
Fixpoint remove_all (fuel : nat) (s : t) (keys : list KeyType) : option t :=
  match keys with
  | [] => Some s
  | key :: keys' =>
      s' ← Remove fuel s key;
      remove_all fuel s' keys'
  end.

(** *** Pages of either kind *)

(** What an entry carries: a record id in a leaf, a child in an internal
    page. *)
Inductive payload : Type :=
| Rid (r : ValueType)
| Child (pid : Z).

(** The live entries of a page. *)
Definition node_entries (n : node) : list (KeyType * payload) :=
  match n with
  | LeafNode p => map (fun e => (fst e, Rid (snd e))) (BPlusTreeLeafPage.entries p)
  | InternalNode p => map (fun e => (fst e, Child (snd e))) (BPlusTreeInternalPage.entries p)
  end.

(** The same page, up to its parent pointer. *)
Definition same_page (n n' : node) : Prop :=
  n' = n \/ exists parent_id, n' = node_SetParentPageId n parent_id.

Lemma same_page_refl (n : node) : same_page n n.
Proof. by left. Qed.

Lemma same_page_entries (n n' : node) :
  same_page n n' ->
  node_entries n' = node_entries n /\ node_GetSize n' = node_GetSize n /\
  IsLeafPage n' = IsLeafPage n /\ (forall i, node_KeyAt n' i = node_KeyAt n i).
Proof. intros [->|[parent_id ->]]; [done|]. by destruct n. Qed.

Lemma same_page_internal (p : BPlusTreeInternalPage.t) (n' : node) :
  same_page (InternalNode p) n' ->
  exists p', n' = InternalNode p' /\
    BPlusTreeInternalPage.GetSize p' = BPlusTreeInternalPage.GetSize p /\
    BPlusTreeInternalPage.array_ p' = BPlusTreeInternalPage.array_ p.
Proof. intros [->|[parent_id ->]]; by eexists. Qed.

Lemma SetParentPageId_lookup (s s' : t) (pid parent_id x : Z) (n : node) :
  SetParentPageId s pid parent_id = Some s' ->
  pages s !! x = Some n ->
  exists n', pages s' !! x = Some n' /\ same_page n n'.
Proof.
  unfold SetParentPageId. destruct (pages s !! pid) as [c|] eqn:Hc; [|done].
  csimpl. intros [= <-] Hx. simpl.
  destruct (decide (x = pid)) as [->|Hne].
  - rewrite lookup_insert_eq. eexists. split; [done|].
    right. exists parent_id. congruence.
  - rewrite lookup_insert_ne by done. exists n. split; [done|by left].
Qed.

Lemma SetParentPageId_is_Some (s : t) (pid parent_id : Z) :
  is_Some (pages s !! pid) -> is_Some (SetParentPageId s pid parent_id).
Proof. intros [c Hc]. unfold SetParentPageId. rewrite Hc. by eexists. Qed.

(** *** Borrowing from the right sibling *)

Lemma fetch_leaf_Some (s : t) (pid : Z) (p : BPlusTreeLeafPage.t) :
  pages s !! pid = Some (LeafNode p) -> fetch_leaf s pid = Some p.
Proof. intros Hp. unfold fetch_leaf. by rewrite Hp. Qed.

Lemma fetch_internal_Some (s : t) (pid : Z) (p : BPlusTreeInternalPage.t) :
  pages s !! pid = Some (InternalNode p) -> fetch_internal s pid = Some p.
Proof. intros Hp. unfold fetch_internal. by rewrite Hp. Qed.

Lemma fetch_internal_inv (s : t) (pid : Z) (p : BPlusTreeInternalPage.t) :
  fetch_internal s pid = Some p -> pages s !! pid = Some (InternalNode p).
Proof.
  unfold fetch_internal. destruct (pages s !! pid) as [[?|?]|]; congruence.
Qed.

(** [RedistributeNode(right, node, false)]: the head of the right sibling
    becomes the tail of the node; any other page keeps its entries. *)
Lemma RedistributeNode_from_right (s : t) (node_pid right_pid : Z) (n right : node) :
  pages s !! node_pid = Some n ->
  pages s !! right_pid = Some right ->
  right_pid <> node_pid ->
  IsLeafPage right = IsLeafPage n ->
  0 < node_GetSize right -> 0 <= node_GetSize n ->
  (forall key child, head (node_entries right) = Some (key, Child child) ->
                     is_Some (pages s !! child)) ->
  exists s1 n1 right1 moved,
    RedistributeNode s right_pid node_pid false = Some s1 /\
    pages s1 !! node_pid = Some n1 /\
    pages s1 !! right_pid = Some right1 /\
    node_entries right = moved :: node_entries right1 /\
    node_entries n1 = node_entries n ++ [moved] /\
    node_GetSize right1 = node_GetSize right - 1 /\
    (forall x m, x <> node_pid -> x <> right_pid -> pages s !! x = Some m ->
       exists m', pages s1 !! x = Some m' /\ same_page m m').
Proof.
  intros Hn Hr Hne Hkind Hrs Hns Hchild.
  unfold RedistributeNode. rewrite Hn. csimpl.
  destruct n as [nl|ni], right as [rl|ri]; try discriminate Hkind; simpl.
  - unfold ShiftHeadItemToBack.
    rewrite (fetch_leaf_Some s right_pid rl Hr), (fetch_leaf_Some s node_pid nl Hn).
    csimpl.
    destruct (BPlusTreeLeafPage.ShiftHeadItemToBack_entries rl nl Hrs Hns)
      as (Hd & Hrec & Hsz & _).
    destruct (BPlusTreeLeafPage.ShiftHeadItemToBack rl nl) as [d' r'].
    cbn [fst snd] in Hd, Hrec, Hsz.
    exists (put (put s right_pid (LeafNode d')) node_pid (LeafNode r')),
      (LeafNode r'), (LeafNode d'),
      (fst (BPlusTreeLeafPage.at_ rl 0), Rid (snd (BPlusTreeLeafPage.at_ rl 0))).
    split; [done|]. simpl. split; [by rewrite lookup_insert_eq|].
    split; [by rewrite lookup_insert_ne, lookup_insert_eq|].
    split; [by rewrite Hd|]. split; [by rewrite Hrec, map_app|].
    split; [done|].
    intros x m Hx1 Hx2 Hm. exists m. split; [|by left].
    by rewrite !lookup_insert_ne.
  - unfold RelocateHeadToBack.
    rewrite (fetch_internal_Some s right_pid ri Hr),
      (fetch_internal_Some s node_pid ni Hn).
    csimpl.
    destruct (BPlusTreeInternalPage.move_head_to_back_entries ri ni Hrs Hns)
      as (d' & r' & -> & Hd & Hrec & Hsz & _).
    set (s0 := put (put s right_pid (InternalNode d')) node_pid (InternalNode r')).
    assert (Hc : is_Some (pages s0 !! snd (BPlusTreeInternalPage.at_ ri 0))).
    { destruct (Hchild (fst (BPlusTreeInternalPage.at_ ri 0))
                  (snd (BPlusTreeInternalPage.at_ ri 0))) as [c Hc].
      { simpl. by rewrite Hd. }
      unfold s0. simpl.
      destruct (decide (snd (BPlusTreeInternalPage.at_ ri 0) = node_pid)) as [->|?].
      { rewrite lookup_insert_eq. by eexists. }
      rewrite lookup_insert_ne by done.
      destruct (decide (snd (BPlusTreeInternalPage.at_ ri 0) = right_pid)) as [->|?].
      { rewrite lookup_insert_eq. by eexists. }
      rewrite lookup_insert_ne by done. by eexists. }
    destruct (SetParentPageId_is_Some s0 _ (BPlusTreeInternalPage.GetPageId r') Hc)
      as [s1 Hs1].
    assert (Hn0 : pages s0 !! node_pid = Some (InternalNode r'))
      by (unfold s0; simpl; by rewrite lookup_insert_eq).
    assert (Hr0 : pages s0 !! right_pid = Some (InternalNode d'))
      by (unfold s0; simpl; by rewrite lookup_insert_ne, lookup_insert_eq).
    destruct (SetParentPageId_lookup _ _ _ _ _ _ Hs1 Hn0) as (n1 & Hn1 & Hsame1).
    destruct (SetParentPageId_lookup _ _ _ _ _ _ Hs1 Hr0) as (r1 & Hr1 & Hsame2).
    apply same_page_entries in Hsame1 as (He1 & _).
    apply same_page_entries in Hsame2 as (He2 & Hsz2 & _).
    exists s1, n1, r1,
      (fst (BPlusTreeInternalPage.at_ ri 0), Child (snd (BPlusTreeInternalPage.at_ ri 0))).
    split; [done|]. split; [done|]. split; [done|].
    split; [by rewrite He2; simpl; rewrite Hd|].
    split; [by rewrite He1; simpl; rewrite Hrec, map_app|].
    split; [by rewrite Hsz2|].
    intros x m Hx1 Hx2 Hm.
    apply (SetParentPageId_lookup _ _ _ _ x m Hs1).
    unfold s0. simpl. by rewrite !lookup_insert_ne.
Qed.

(** C5: in [RedistributeOrMerge] on a node that is not the root, when the
    left sibling lends nothing and the right sibling has more than
    [min_size] entries, the first entry of the right sibling is moved
    behind the last entry of the node, and the key of the parent at
    [index + 1] becomes the first key of the right sibling as it is after
    the move. *)
Theorem borrow_from_right_sets_separator
    (fuel : nat) (s : t) (node_pid : Z) (n right : node)
    (parent : BPlusTreeInternalPage.t) :
  let parent_pid := node_GetParentPageId n in
  let index := BPlusTreeInternalPage.ValueIndex parent (node_GetPageId n) in
  let right_pid := BPlusTreeInternalPage.ValueAt parent (index + 1) in
  pages s !! node_pid = Some n ->
  node_IsRootPage n = false ->
  fetch_internal s parent_pid = Some parent ->
  borrow_from_left s node_pid parent_pid index = Some None ->
  index < BPlusTreeInternalPage.GetSize parent - 1 ->
  pages s !! right_pid = Some right ->
  right_pid <> node_pid -> parent_pid <> node_pid -> parent_pid <> right_pid ->
  IsLeafPage right = IsLeafPage n ->
  node_GetMinSize right < node_GetSize right ->
  0 <= node_GetMinSize right ->
  0 <= node_GetSize n ->
  (forall key child, head (node_entries right) = Some (key, Child child) ->
                     is_Some (pages s !! child)) ->
  exists s' n' right' parent' moved,
    RedistributeOrMerge (S fuel) s node_pid = Some s' /\
    pages s' !! node_pid = Some n' /\
    pages s' !! right_pid = Some right' /\
    fetch_internal s' parent_pid = Some parent' /\
    node_entries right = moved :: node_entries right' /\
    node_entries n' = node_entries n ++ [moved] /\
    BPlusTreeInternalPage.KeyAt parent' (index + 1) = node_KeyAt right' 0.
Proof.
  intros parent_pid index right_pid Hn Hroot Hparent Hleft Hindex Hright
    Hne1 Hne2 Hne3 Hkind Hmin Hmin0 Hsize Hchild.
  destruct (RedistributeNode_from_right s node_pid right_pid n right)
    as (s1 & n1 & right1 & moved & Hred & Hn1 & Hr1 & Hmoved & Htail & _ & Hother);
    [done|done|done|done|lia|done|done|].
  destruct (Hother parent_pid (InternalNode parent)) as (m' & Hp1 & Hsame);
    [done|done|by apply fetch_internal_inv|].
  apply same_page_internal in Hsame as (parent1 & -> & Hsz1 & _).
  set (key := node_KeyAt right1 0).
  set (parent' := BPlusTreeInternalPage.SetKeyAt parent1 (index + 1) key).
  exists (put s1 parent_pid (InternalNode parent')), n1, right1, parent', moved.
  split.
  - simpl. rewrite Hn. csimpl. rewrite Hroot.
    fold parent_pid. rewrite Hparent. csimpl. fold index. rewrite Hleft. csimpl.
    unfold borrow_from_right. rewrite Hparent. csimpl.
    destruct (Z.ltb_spec index (BPlusTreeInternalPage.GetSize parent - 1)); [|lia].
    fold right_pid. unfold fetch_sibling.
    destruct (Z.eqb_spec right_pid node_pid); [done|].
    rewrite Hright. csimpl.
    destruct (Z.gtb_spec (node_GetSize right) (node_GetMinSize right)); [|lia].
    rewrite Hred. csimpl. rewrite Hr1. csimpl.
    unfold parent_SetKeyAt. by rewrite (fetch_internal_Some _ _ _ Hp1).
  - simpl. split; [by rewrite lookup_insert_ne|].
    split; [by rewrite lookup_insert_ne|].
    split; [by apply fetch_internal_Some; simpl; rewrite lookup_insert_eq|].
    split; [done|]. split; [done|].
    apply BPlusTreeInternalPage.KeyAt_SetKeyAt.
    pose proof (BPlusTreeInternalPage.ValueIndex_ge parent (node_GetPageId n)).
    fold index in H. lia.
Qed.

(** The tree with the keys 1 to 5 in leaves of at most 4 entries (the
    leaves are the pages 1 and 2, the root is the page 3), and the state
    in which [Remove(1)] calls [RedistributeOrMerge] on the page 1. *)
Definition example_five : t :=
  default (BPlusTree 1 4 4) (insert_all 4 (BPlusTree 1 4 4) [1; 2; 3; 4; 5]).

Definition example_underfull : t :=
  match fetch_leaf example_five 1 with
  | Some leaf => put example_five 1 (LeafNode (BPlusTreeLeafPage.RemoveAt leaf 0))
  | None => example_five
  end.

Definition example_page (pid : Z) : node :=
  default (LeafNode (BPlusTreeLeafPage.Init 0 0 0)) (pages example_underfull !! pid).

Definition example_parent : BPlusTreeInternalPage.t :=
  default (BPlusTreeInternalPage.Init 0 0 0) (fetch_internal example_underfull 3).

Lemma Remove_example_five :
  Remove 4 example_five 1 = RedistributeOrMerge 4 example_underfull 1.
Proof. vm_compute. reflexivity. Qed.

Lemma borrow_from_right_sets_separator_witness :
  exists s' n' right' parent' moved,
    RedistributeOrMerge 1 example_underfull 1 = Some s' /\
    pages s' !! 1 = Some n' /\
    pages s' !! 2 = Some right' /\
    fetch_internal s' 3 = Some parent' /\
    node_entries (example_page 2) = moved :: node_entries right' /\
    node_entries n' = node_entries (example_page 1) ++ [moved] /\
    BPlusTreeInternalPage.KeyAt parent' 1 = node_KeyAt right' 0.
Proof.
  apply (borrow_from_right_sets_separator 0 example_underfull 1
           (example_page 1) (example_page 2) example_parent).
  - vm_compute. reflexivity.
  - vm_compute. reflexivity.
  - vm_compute. reflexivity.
  - vm_compute. reflexivity.
  - vm_compute. reflexivity.
  - vm_compute. reflexivity.
  - vm_compute. intros H. discriminate H.
  - vm_compute. intros H. discriminate H.
  - vm_compute. intros H. discriminate H.
  - reflexivity.
  - reflexivity.
  - vm_compute. intros H. discriminate H.
  - vm_compute. intros H. discriminate H.
  - intros key child H. vm_compute in H. discriminate H.
Defined.

(** *** Accessors out of range *)

(** C10: on every leaf page and every internal page, [KeyAt] and
    [ValueAt] at an index outside [0, size) return without touching the
    array: the leaf and the internal [KeyAt] give the value-initialised
    key, the leaf [ValueAt] the value-initialised record id, the internal
    [ValueAt] [INVALID_PAGE_ID]. *)
Theorem KeyAt_ValueAt_out_of_range
    (leaf : BPlusTreeLeafPage.t) (internal : BPlusTreeInternalPage.t) (i j : Z)
    (Hi : ~ (0 <= i < BPlusTreeLeafPage.GetSize leaf))
    (Hj : ~ (0 <= j < BPlusTreeInternalPage.GetSize internal)) :
  BPlusTreeLeafPage.KeyAt leaf i = KeyType_default /\
  BPlusTreeLeafPage.ValueAt leaf i = ValueType_default /\
  BPlusTreeInternalPage.KeyAt internal j = KeyType_default /\
  BPlusTreeInternalPage.ValueAt internal j = INVALID_PAGE_ID.
Proof.
  unfold BPlusTreeLeafPage.KeyAt, BPlusTreeLeafPage.ValueAt,
    BPlusTreeInternalPage.KeyAt, BPlusTreeInternalPage.ValueAt.
  assert ((0 <=? i) && (i <? BPlusTreeLeafPage.GetSize leaf) = false) as ->.
  { apply andb_false_iff.
    destruct (Z.leb_spec 0 i); [|by left]. right. apply Z.ltb_ge. lia. }
  assert ((0 <=? j) && (j <? BPlusTreeInternalPage.GetSize internal) = false) as ->.
  { apply andb_false_iff.
    destruct (Z.leb_spec 0 j); [|by left]. right. apply Z.ltb_ge. lia. }
  done.
Qed.

(** A leaf with the keys 1 and 3, and an internal page with two children. *)
Definition example_leaf : BPlusTreeLeafPage.t :=
  snd (BPlusTreeLeafPage.Insert
         (snd (BPlusTreeLeafPage.Insert (BPlusTreeLeafPage.Init 1 INVALID_PAGE_ID 4)
                 3 {| rid_page_id := 3; rid_slot_num := 0 |}))
         1 {| rid_page_id := 1; rid_slot_num := 0 |}).

Definition example_internal : BPlusTreeInternalPage.t :=
  BPlusTreeInternalPage.BuildRoot
    (BPlusTreeInternalPage.Init 3 INVALID_PAGE_ID 4) 1 1 3 2.

Lemma KeyAt_ValueAt_out_of_range_witness :
  BPlusTreeLeafPage.KeyAt example_leaf 2 = KeyType_default /\
  BPlusTreeLeafPage.ValueAt example_leaf 2 = ValueType_default /\
  BPlusTreeInternalPage.KeyAt example_internal (-1) = KeyType_default /\
  BPlusTreeInternalPage.ValueAt example_internal (-1) = INVALID_PAGE_ID.
Proof.
  apply (KeyAt_ValueAt_out_of_range example_leaf example_internal 2 (-1)).
  - vm_compute. intros [_ H]. discriminate H.
  - vm_compute. intros [H _]. by apply H.
Defined.

(** *** Duplicate keys *)

Lemma Insert_found (fuel : nat) (s : t) (key : KeyType) (value : ValueType)
    (found : list ValueType) :
  GetValue fuel s key = Some (true, found) ->
  Insert fuel s key value = Some (false, s).
Proof.
  unfold GetValue, Insert. destruct (IsEmpty s); [done|].
  destruct (FindLeaf fuel s key (root_page_id_ s)) as [leaf_pid|]; [|done].
  csimpl. destruct (fetch_leaf s leaf_pid) as [leaf|]; [|done]. csimpl.
  destruct (BPlusTreeLeafPage.Lookup leaf key) as [v|] eqn:Hl; [|done].
  intros _. by rewrite (BPlusTreeLeafPage.Lookup_Some_Insert leaf key value v Hl).
Qed.

(** Duplicate keys, where the code rejects them.  On a leaf whose keys are
    in increasing order, [Insert] of a key of the leaf returns -1 and
    leaves the leaf as it is; [Insert] of a key that is not in the leaf
    puts the entry between the entries with smaller and the entries with
    larger keys and returns the new size.  On a tree in which [GetValue]
    finds the key, [Insert] returns false and the tree is unchanged; a
    key that the tree stores and [GetValue] does not find is another
    matter, taken up at the end of this module. *)
Theorem Insert_duplicate_key
    (leaf : BPlusTreeLeafPage.t) (key : KeyType) (value : ValueType)
    (Hsize : 0 <= BPlusTreeLeafPage.GetSize leaf)
    (Hsorted : BPlusTreeLeafPage.sorted leaf) :
  (key ∈ BPlusTreeLeafPage.keys leaf ->
   BPlusTreeLeafPage.Insert leaf key value = (-1, leaf)) /\
  ((key ∉ BPlusTreeLeafPage.keys leaf) ->
   exists before after,
     BPlusTreeLeafPage.entries leaf = before ++ after /\
     Forall (fun e => fst e < key) before /\
     Forall (fun e => key < fst e) after /\
     fst (BPlusTreeLeafPage.Insert leaf key value)
       = BPlusTreeLeafPage.GetSize leaf + 1 /\
     BPlusTreeLeafPage.GetSize (snd (BPlusTreeLeafPage.Insert leaf key value))
       = BPlusTreeLeafPage.GetSize leaf + 1 /\
     BPlusTreeLeafPage.entries (snd (BPlusTreeLeafPage.Insert leaf key value))
       = before ++ (key, value) :: after) /\
  (forall (fuel : nat) (s : t) (found : list ValueType),
     GetValue fuel s key = Some (true, found) ->
     Insert fuel s key value = Some (false, s)).
Proof.
  split; [|split].
  - by apply BPlusTreeLeafPage.Insert_present.
  - intros Hk.
    destruct (BPlusTreeLeafPage.Insert_absent leaf key value Hsize Hsorted Hk)
      as (Hr & Hsz & Hent & Hlow & Hhigh).
    exists (take (Z.to_nat (BPlusTreeLeafPage.KeyIndex leaf key))
              (BPlusTreeLeafPage.entries leaf)),
      (drop (Z.to_nat (BPlusTreeLeafPage.KeyIndex leaf key))
         (BPlusTreeLeafPage.entries leaf)).
    by rewrite take_drop.
  - intros fuel s found. apply Insert_found.
Qed.

(** The tree with the keys 1, 2 and 3 in leaves of at most 4 entries. *)
Definition example_tree : t :=
  default (BPlusTree 1 4 4) (insert_all 4 (BPlusTree 1 4 4) [1; 2; 3]).

Lemma Insert_duplicate_key_witness :
  BPlusTreeLeafPage.Insert example_leaf 3 {| rid_page_id := 9; rid_slot_num := 9 |}
    = (-1, example_leaf) /\
  fst (BPlusTreeLeafPage.Insert example_leaf 2 {| rid_page_id := 2; rid_slot_num := 0 |})
    = BPlusTreeLeafPage.GetSize example_leaf + 1 /\
  Insert 4 example_tree 3 {| rid_page_id := 9; rid_slot_num := 9 |}
    = Some (false, example_tree).
Proof.
  assert (Hsize : 0 <= BPlusTreeLeafPage.GetSize example_leaf)
    by (vm_compute; discriminate).
  assert (Hsorted : BPlusTreeLeafPage.sorted example_leaf) by reflexivity.
  destruct (Insert_duplicate_key example_leaf 3
              {| rid_page_id := 9; rid_slot_num := 9 |} Hsize Hsorted)
    as (Hpresent & _ & Htree).
  destruct (Insert_duplicate_key example_leaf 2
              {| rid_page_id := 2; rid_slot_num := 0 |} Hsize Hsorted)
    as (_ & Habsent & _).
  split; [|split].
  - apply Hpresent. vm_compute. apply elem_of_cons. right. apply elem_of_cons. by left.
  - destruct Habsent as (before & after & _ & _ & _ & Hr & _); [|exact Hr].
    vm_compute. intros H. apply elem_of_cons in H as [H|H]; [discriminate H|].
    apply elem_of_cons in H as [H|H]; [discriminate H|]. by apply elem_of_nil in H.
  - apply (Htree 4%nat example_tree [{| rid_page_id := 3; rid_slot_num := 3 |}]).
    reflexivity.
Defined.

(** *** Round trip *)

(** C4, at its failing input: with [leaf_max_size = 3] and
    [internal_max_size = 3], after [Insert] of the keys 1, 2, 3 and
    [Remove] of 2, 1, 3 the root is still the internal page made by the
    split, and [IsEmpty] is false. *)
Example round_trip_keeps_root :
  exists s s',
    insert_all 4 (BPlusTree 1 3 3) [1; 2; 3] = Some s /\
    remove_all 4 s [2; 1; 3] = Some s' /\
    GetValue 4 s' 1 = Some (false, []) /\
    GetValue 4 s' 2 = Some (false, []) /\
    GetValue 4 s' 3 = Some (false, []) /\
    root_page_id_ s' = 3 /\
    IsEmpty s' = false.
Proof.
  eexists. eexists. split; [vm_compute; reflexivity|].
  split; [vm_compute; reflexivity|]. by vm_compute.
Qed.

(** The same with [leaf_max_size = 2] and [internal_max_size = 2], where
    the minimum size is 1 whichever way the half is rounded: the root is
    left with one child and is not replaced by it. *)
Example round_trip_keeps_root_of_size_1 :
  exists s s',
    insert_all 4 (BPlusTree 1 2 2) [1; 2] = Some s /\
    remove_all 4 s [1; 2] = Some s' /\
    (exists root, fetch_internal s' (root_page_id_ s') = Some root /\
                  BPlusTreeInternalPage.GetSize root = 1) /\
    IsEmpty s' = false.
Proof.
  eexists. eexists. split; [vm_compute; reflexivity|].
  split; [vm_compute; reflexivity|].
  split; [|by vm_compute]. eexists. split; [vm_compute; reflexivity|done].
Qed.

(** *** Keys that are not there, and the empty tree *)

(** X25: [Remove] of a key that [GetValue] does not find returns and
    leaves the tree as it is. *)
Theorem Remove_absent_key (fuel : nat) (s : t) (key : KeyType) :
  GetValue fuel s key = Some (false, []) -> Remove fuel s key = Some s.
Proof.
  unfold GetValue, Remove. destruct (IsEmpty s); [done|].
  destruct (FindLeaf fuel s key (root_page_id_ s)) as [leaf_pid|]; [|done].
  csimpl. destruct (fetch_leaf s leaf_pid) as [leaf|]; [|done]. csimpl.
  unfold BPlusTreeLeafPage.Lookup.
  destruct (BPlusTreeLeafPage.KeyIndex_range leaf key) as [Heq|Hin].
  - intros _. rewrite Heq.
    by destruct (Z.geb_spec (BPlusTreeLeafPage.GetSize leaf)
                   (BPlusTreeLeafPage.GetSize leaf)); [|lia].
  - rewrite BPlusTreeLeafPage.KeyAt_at by done.
    destruct (Z.ltb_spec (BPlusTreeLeafPage.KeyIndex leaf key)
                (BPlusTreeLeafPage.GetSize leaf)); [|lia].
    destruct (Z.geb_spec (BPlusTreeLeafPage.KeyIndex leaf key)
                (BPlusTreeLeafPage.GetSize leaf)); [lia|]. simpl.
    by destruct (comparator
                   (BPlusTreeLeafPage.at_ leaf (BPlusTreeLeafPage.KeyIndex leaf key)).1
                   key =? 0).
Qed.

Lemma Remove_absent_key_witness :
  Remove 4 example_tree 7 = Some example_tree.
Proof.
  apply (Remove_absent_key 4 example_tree 7). vm_compute. reflexivity.
Defined.

(** X26: [Insert] into an empty tree returns true; the root is a new leaf
    with the page id the pool hands out, and afterwards [GetValue] finds
    the value of the key and nothing for any other key. *)
Theorem Insert_into_empty_tree (fuel fuel' : nat) (s : t) (key : KeyType)
    (value : ValueType) :
  IsEmpty s = true -> 0 <= next_page_id_ s ->
  exists s',
    Insert fuel s key value = Some (true, s') /\
    root_page_id_ s' = next_page_id_ s /\
    IsEmpty s' = false /\
    (exists leaf,
       fetch_leaf s' (root_page_id_ s') = Some leaf /\
       BPlusTreeLeafPage.entries leaf = [(key, value)] /\
       BPlusTreeLeafPage.IsRootPage leaf = true /\
       BPlusTreeLeafPage.GetNextPageId leaf = INVALID_PAGE_ID) /\
    forall key',
      GetValue (S fuel') s' key'
      = Some (if decide (key' = key) then (true, [value]) else (false, [])).
Proof.
  intros Hempty Hnext. unfold Insert, NewPage. rewrite Hempty. cbv iota beta.
  set (leaf0 := BPlusTreeLeafPage.Init (next_page_id_ s) INVALID_PAGE_ID (leaf_max_size_ s)).
  assert (Hsize0 : 0 <= BPlusTreeLeafPage.GetSize leaf0) by done.
  assert (Hs0 : BPlusTreeLeafPage.sorted leaf0) by done.
  assert (Hk0 : key ∉ BPlusTreeLeafPage.keys leaf0) by apply not_elem_of_nil.
  destruct (BPlusTreeLeafPage.Insert_absent leaf0 key value Hsize0 Hs0 Hk0)
    as (Hrv & Hsz & Hent & _ & _).
  pose proof (fun key' =>
    BPlusTreeLeafPage.Lookup_Insert leaf0 key value key' Hsize0 Hs0 Hk0) as Hlook.
  destruct (BPlusTreeLeafPage.Insert leaf0 key value) as [rv leaf] eqn:HI.
  simpl in Hrv, Hsz, Hent, Hlook.
  assert (Hhdr : BPlusTreeLeafPage.IsRootPage leaf = true /\
                 BPlusTreeLeafPage.GetNextPageId leaf = INVALID_PAGE_ID).
  { unfold BPlusTreeLeafPage.Insert in HI.
    destruct ((BPlusTreeLeafPage.KeyIndex leaf0 key <? BPlusTreeLeafPage.GetSize leaf0)
              && _) in HI; injection HI as _ <-; done. }
  eexists. split.
  { rewrite Hrv. change (BPlusTreeLeafPage.GetSize leaf0) with 0. reflexivity. }
  split; [done|].
  assert (Hroot : (next_page_id_ s =? INVALID_PAGE_ID) = false).
  { apply Z.eqb_neq. unfold INVALID_PAGE_ID. lia. }
  split; [exact Hroot|]. split.
  - exists leaf. unfold fetch_leaf. simpl. rewrite lookup_insert_eq.
    split; [done|]. split; [exact Hent|done].
  - intros key'. unfold GetValue, IsEmpty. simpl root_page_id_. rewrite Hroot.
    simpl FindLeaf. rewrite lookup_insert_eq. csimpl.
    unfold fetch_leaf. simpl pages. rewrite lookup_insert_eq. csimpl.
    rewrite Hlook. destruct (decide (key' = key)); [done|].
    change (BPlusTreeLeafPage.Lookup leaf0 key') with (@None ValueType). done.
Qed.

Lemma Insert_into_empty_tree_witness :
  exists s',
    Insert 4 (BPlusTree 1 4 4) 5 {| rid_page_id := 5; rid_slot_num := 0 |}
    = Some (true, s') /\
    root_page_id_ s' = 1 /\
    IsEmpty s' = false /\
    (exists leaf,
       fetch_leaf s' (root_page_id_ s') = Some leaf /\
       BPlusTreeLeafPage.entries leaf = [(5, {| rid_page_id := 5; rid_slot_num := 0 |})] /\
       BPlusTreeLeafPage.IsRootPage leaf = true /\
       BPlusTreeLeafPage.GetNextPageId leaf = INVALID_PAGE_ID) /\
    forall key',
      GetValue 1 s' key'
      = Some (if decide (key' = 5)
              then (true, [{| rid_page_id := 5; rid_slot_num := 0 |}])
              else (false, [])).
Proof.
  apply (Insert_into_empty_tree 4 0 (BPlusTree 1 4 4) 5
           {| rid_page_id := 5; rid_slot_num := 0 |}).
  - reflexivity.
  - vm_compute. discriminate.
Defined.

(** *** The index iterator (storage/index/index_iterator.cpp) *)

(** [leaf_] points into the page of a leaf: it is the page id of the leaf
    here, and [None] for [nullptr].  The latch and the pin of the page are
    left out, as for the tree. *)
Record IndexIterator : Type := mkIterator {
  leaf_ : option Z;
  index_ : Z
}.

(** [IndexIterator()], which is [BPLUSTREE_TYPE::End()]. *)
Definition End_ : IndexIterator := {| leaf_ := None; index_ := 0 |}.

(** [IndexIterator::IsEnd]. *)
Definition IsEnd (it : IndexIterator) : bool :=
  match leaf_ it with None => true | Some _ => false end.

(** [IndexIterator::operator==]. *)
Definition iterator_eqb (it1 it2 : IndexIterator) : bool :=
  bool_decide (leaf_ it1 = leaf_ it2) && (index_ it1 =? index_ it2).

(** What [operator*] gives: a reference to an entry, or the
    [std::runtime_error] it throws. *)
Inductive dereferenced : Type :=
| Entry (e : KeyType * ValueType)
| OutOfBound.

(** [IndexIterator::operator*]; [None]: [leaf_] points to no leaf. *)
Definition operator_star (s : t) (it : IndexIterator) : option dereferenced :=
  match leaf_ it with
  | None => Some OutOfBound
  | Some pid =>
      leaf ← fetch_leaf s pid;
      if (index_ it <? 0) || (index_ it >=? BPlusTreeLeafPage.GetSize leaf)
      then Some OutOfBound
      else Some (Entry (BPlusTreeLeafPage.at_ leaf (index_ it)))
  end.

(** [IndexIterator::operator++]. *)
Definition operator_inc (s : t) (it : IndexIterator) : option IndexIterator :=
  match leaf_ it with
  | None => Some it
  | Some pid =>
      leaf ← fetch_leaf s pid;
      let index := index_ it + 1 in
      if index <? BPlusTreeLeafPage.GetSize leaf
      then Some {| leaf_ := Some pid; index_ := index |}
      else
        let next_pid := BPlusTreeLeafPage.GetNextPageId leaf in
        if next_pid =? INVALID_PAGE_ID then Some End_
        else
          _ ← fetch_leaf s next_pid;
          Some {| leaf_ := Some next_pid; index_ := 0 |}
  end.

(** The loop of [BPLUSTREE_TYPE::Begin()]: [while (!node->IsLeafPage())
    pid = internal->ValueAt(0)]. *)
Fixpoint leftmost_leaf (fuel : nat) (s : t) (page_id : Z) : option Z :=
  match fuel with
  | O => None
  | S fuel' =>
      match pages s !! page_id with
      | None => None
      | Some (LeafNode _) => Some page_id
      | Some (InternalNode internal) =>
          leftmost_leaf fuel' s (BPlusTreeInternalPage.ValueAt internal 0)
      end
  end.

(** [IndexIterator(leaf, index, bpm, txn)]: the page is fetched again,
    by the page id in the header of the leaf. *)
Definition IndexIterator_at (s : t) (leaf : BPlusTreeLeafPage.t) (index : Z)
  : option IndexIterator :=
  let pid := BPlusTreeLeafPage.GetPageId leaf in
  _ ← fetch_leaf s pid;
  Some {| leaf_ := Some pid; index_ := index |}.

(** [BPLUSTREE_TYPE::Begin()]. *)
Definition Begin (fuel : nat) (s : t) : option IndexIterator :=
  if IsEmpty s then Some End_
  else
    leaf_pid ← leftmost_leaf fuel s (root_page_id_ s);
    leaf ← fetch_leaf s leaf_pid;
    IndexIterator_at s leaf 0.

(** [BPLUSTREE_TYPE::Begin(key)]. *)
Definition Begin_key (fuel : nat) (s : t) (key : KeyType) : option IndexIterator :=
  if IsEmpty s then Some End_
  else
    leaf_pid ← FindLeaf fuel s key (root_page_id_ s);
    leaf ← fetch_leaf s leaf_pid;
    IndexIterator_at s leaf (BPlusTreeLeafPage.KeyIndex leaf key).

(** [n] times [++it]. *)
Fixpoint advance (n : nat) (s : t) (it : IndexIterator) : option IndexIterator :=
  match n with
  | O => Some it
  | S n' => it' ← operator_inc s it; advance n' s it'
  end.

(** The leaves from the page [pid] on, along [next_page_id_]. *)
Fixpoint leaf_chain (s : t) (pid : Z) (leaves : list BPlusTreeLeafPage.t) : Prop :=
  match leaves with
  | [] => pid = INVALID_PAGE_ID
  | leaf :: rest =>
      pid <> INVALID_PAGE_ID /\ fetch_leaf s pid = Some leaf /\
      BPlusTreeLeafPage.GetPageId leaf = pid /\
      leaf_chain s (BPlusTreeLeafPage.GetNextPageId leaf) rest
  end.

Lemma advance_add (n m : nat) (s : t) (it : IndexIterator) :
  advance (n + m) s it = it' ← advance n s it; advance m s it'.
Proof.
  revert it. induction n as [|n IH]; intros it; simpl; [done|].
  destruct (operator_inc s it) as [it'|]; [|done]. simpl. apply IH.
Qed.

(** Inside a leaf [++it] moves to the next slot. *)
Lemma advance_in_leaf (s : t) (pid : Z) (leaf : BPlusTreeLeafPage.t) (k : nat) :
  forall i,
    fetch_leaf s pid = Some leaf ->
    i + Z.of_nat k < BPlusTreeLeafPage.GetSize leaf ->
    advance k s {| leaf_ := Some pid; index_ := i |}
    = Some {| leaf_ := Some pid; index_ := i + Z.of_nat k |}.
Proof.
  induction k as [|k IH]; intros i Hleaf Hi; simpl.
  - by rewrite Z.add_0_r.
  - unfold operator_inc. simpl. rewrite Hleaf. simpl.
    destruct (Z.ltb_spec (i + 1) (BPlusTreeLeafPage.GetSize leaf)); [|lia].
    simpl. rewrite IH by (done || lia). do 2 f_equal. lia.
Qed.

Lemma operator_star_in_leaf (s : t) (pid : Z) (leaf : BPlusTreeLeafPage.t) (i : Z) :
  fetch_leaf s pid = Some leaf ->
  0 <= i < BPlusTreeLeafPage.GetSize leaf ->
  operator_star s {| leaf_ := Some pid; index_ := i |}
  = Some (Entry (BPlusTreeLeafPage.at_ leaf i)).
Proof.
  intros Hleaf Hi. unfold operator_star. simpl. rewrite Hleaf. simpl.
  destruct (Z.ltb_spec i 0); [lia|].
  by destruct (Z.geb_spec i (BPlusTreeLeafPage.GetSize leaf)); [lia|].
Qed.

(** From the first slot of a leaf, as many [++it] as the leaf has entries
    lead to the first slot of the next leaf, or to [End()]. *)
Lemma advance_leaf (s : t) (pid : Z) (leaf : BPlusTreeLeafPage.t)
    (rest : list BPlusTreeLeafPage.t) :
  leaf_chain s pid (leaf :: rest) ->
  0 < BPlusTreeLeafPage.GetSize leaf ->
  advance (Z.to_nat (BPlusTreeLeafPage.GetSize leaf)) s {| leaf_ := Some pid; index_ := 0 |}
  = Some (match rest with
          | [] => End_
          | _ :: _ =>
              {| leaf_ := Some (BPlusTreeLeafPage.GetNextPageId leaf); index_ := 0 |}
          end).
Proof.
  intros (Hpid & Hleaf & _ & Hrest) Hsize.
  replace (Z.to_nat (BPlusTreeLeafPage.GetSize leaf))
    with (Z.to_nat (BPlusTreeLeafPage.GetSize leaf - 1) + 1)%nat by lia.
  rewrite advance_add, (advance_in_leaf s pid leaf) by (done || lia).
  simpl. unfold operator_inc. simpl. rewrite Hleaf. simpl.
  destruct (Z.ltb_spec (0 + Z.of_nat (Z.to_nat (BPlusTreeLeafPage.GetSize leaf - 1)) + 1)
              (BPlusTreeLeafPage.GetSize leaf)); [lia|].
  destruct rest as [|leaf' rest]; simpl in Hrest.
  - rewrite Hrest. done.
  - destruct Hrest as (Hnext & Hleaf' & _).
    destruct (Z.eqb_spec (BPlusTreeLeafPage.GetNextPageId leaf) INVALID_PAGE_ID); [done|].
    by rewrite Hleaf'.
Qed.

Lemma iterator_chain (s : t) (leaves : list BPlusTreeLeafPage.t) :
  forall pid,
    leaves <> [] ->
    leaf_chain s pid leaves ->
    Forall (fun leaf => 0 < BPlusTreeLeafPage.GetSize leaf) leaves ->
    (forall (n : nat) e,
       concat (map BPlusTreeLeafPage.entries leaves) !! n = Some e ->
       exists it,
         advance n s {| leaf_ := Some pid; index_ := 0 |} = Some it /\
         IsEnd it = false /\ operator_star s it = Some (Entry e)) /\
    advance (length (concat (map BPlusTreeLeafPage.entries leaves))) s
      {| leaf_ := Some pid; index_ := 0 |} = Some End_.
Proof.
  induction leaves as [|leaf rest IH]; intros pid Hne Hchain Hpos; [done|].
  apply Forall_cons in Hpos as [Hsize Hpos].
  pose proof (advance_leaf s pid leaf rest Hchain Hsize) as Hadv.
  destruct Hchain as (Hpid & Hleaf & _ & Hrest).
  simpl concat.
  pose proof (BPlusTreeLeafPage.length_entries leaf) as Hlen.
  split.
  - intros n e Hn.
    destruct (decide (n < length (BPlusTreeLeafPage.entries leaf))%nat) as [Hlt|Hge].
    + rewrite lookup_app_l in Hn by done.
      exists {| leaf_ := Some pid; index_ := 0 + Z.of_nat n |}.
      split; [apply (advance_in_leaf s pid leaf); [done|lia]|].
      split; [done|].
      rewrite (operator_star_in_leaf s pid leaf) by (done || lia).
      rewrite <- (Nat2Z.id n), BPlusTreeLeafPage.lookup_entries in Hn by lia.
      injection Hn as <-. by rewrite Z.add_0_l.
    + rewrite lookup_app_r in Hn by lia.
      destruct rest as [|leaf' rest].
      { simpl in Hn. by rewrite lookup_nil in Hn. }
      destruct (IH (BPlusTreeLeafPage.GetNextPageId leaf) ltac:(done) Hrest Hpos)
        as [Hall _].
      destruct (Hall _ e Hn) as (it & Hit & Hend & Hstar).
      exists it. split; [|done].
      replace n with (Z.to_nat (BPlusTreeLeafPage.GetSize leaf)
                      + (n - length (BPlusTreeLeafPage.entries leaf)))%nat by lia.
      by rewrite advance_add, Hadv.
  - rewrite length_app, Hlen, advance_add, Hadv. simpl.
    destruct rest as [|leaf' rest]; [done|].
    by apply (IH (BPlusTreeLeafPage.GetNextPageId leaf)).
Qed.

(** X27: on a tree that is not empty, [Begin()] stands at the first slot
    of the leaf reached through the first children.  Along the chain of
    leaves from there (each with its own page id and not empty) the
    iterator gives, after [n] times [++it], the [n]-th entry of the leaves
    read one after the other, and is not at the end; after as many [++it]
    as there are entries it is [End()], where [++it] changes nothing and
    [operator*] throws. *)
Theorem iterator_visits_the_chain (fuel : nat) (s : t) (pid : Z)
    (leaves : list BPlusTreeLeafPage.t) :
  IsEmpty s = false ->
  leftmost_leaf fuel s (root_page_id_ s) = Some pid ->
  leaves <> [] ->
  leaf_chain s pid leaves ->
  Forall (fun leaf => 0 < BPlusTreeLeafPage.GetSize leaf) leaves ->
  exists start,
    Begin fuel s = Some start /\
    (forall (n : nat) e,
       concat (map BPlusTreeLeafPage.entries leaves) !! n = Some e ->
       exists it,
         advance n s start = Some it /\
         IsEnd it = false /\ operator_star s it = Some (Entry e)) /\
    advance (length (concat (map BPlusTreeLeafPage.entries leaves))) s start
    = Some End_ /\
    operator_inc s End_ = Some End_ /\
    operator_star s End_ = Some OutOfBound.
Proof.
  intros Hempty Hleft Hne Hchain Hpos.
  destruct (iterator_chain s leaves pid Hne Hchain Hpos) as [Hall Hend].
  exists {| leaf_ := Some pid; index_ := 0 |}. split; [|by repeat split].
  unfold Begin, IndexIterator_at. rewrite Hempty, Hleft. simpl.
  destruct leaves as [|leaf rest]; [done|].
  destruct Hchain as (_ & Hleaf & Hpid & _).
  rewrite Hleaf. simpl. by rewrite Hpid, Hleaf.
Qed.

(** X28: [Begin(key)] on a tree that is not empty stands in the leaf that
    the search for [key] reaches (a leaf that carries its own page id), at
    the first entry whose key is not less than [key].  When every key of that leaf is less than [key] the iterator
    stands behind its last entry: it is not [End()], and [operator*]
    throws. *)
Theorem Begin_key_position (fuel : nat) (s : t) (key : KeyType) (leaf_pid : Z)
    (leaf : BPlusTreeLeafPage.t) :
  IsEmpty s = false ->
  FindLeaf fuel s key (root_page_id_ s) = Some leaf_pid ->
  fetch_leaf s leaf_pid = Some leaf ->
  BPlusTreeLeafPage.GetPageId leaf = leaf_pid ->
  0 <= BPlusTreeLeafPage.GetSize leaf ->
  BPlusTreeLeafPage.sorted leaf ->
  exists it,
    Begin_key fuel s key = Some it /\
    leaf_ it = Some leaf_pid /\ IsEnd it = false /\
    0 <= index_ it <= BPlusTreeLeafPage.GetSize leaf /\
    (forall i, 0 <= i < index_ it -> BPlusTreeLeafPage.KeyAt leaf i < key) /\
    (index_ it < BPlusTreeLeafPage.GetSize leaf ->
     key <= BPlusTreeLeafPage.KeyAt leaf (index_ it) /\
     operator_star s it = Some (Entry (BPlusTreeLeafPage.at_ leaf (index_ it)))) /\
    (index_ it = BPlusTreeLeafPage.GetSize leaf ->
     operator_star s it = Some OutOfBound).
Proof.
  intros Hempty Hfind Hleaf Hpid Hsize Hs.
  unfold Begin_key, IndexIterator_at. rewrite Hempty, Hfind. simpl.
  rewrite Hleaf. simpl. rewrite Hpid, Hleaf. simpl.
  destruct (BPlusTreeLeafPage.KeyIndex_spec leaf key Hsize Hs) as (Hidx & Hlow & Hhigh).
  eexists. split; [done|]. simpl. split; [done|]. split; [done|]. split; [done|].
  split; [|split].
  - intros i Hi. rewrite BPlusTreeLeafPage.KeyAt_at by lia. by apply Hlow.
  - intros Hlt. split.
    + rewrite BPlusTreeLeafPage.KeyAt_at by lia. apply Hhigh. lia.
    + apply operator_star_in_leaf; [done|lia].
  - intros Heq. unfold operator_star. simpl. rewrite Hleaf. simpl. rewrite Heq.
    destruct (Z.geb_spec (BPlusTreeLeafPage.GetSize leaf) (BPlusTreeLeafPage.GetSize leaf));
      [|lia].
    by rewrite orb_true_r.
Qed.

(** The tree with the keys 1, 2 and 3 in leaves of at most 3 entries: the
    leaf 1 holds the key 1, the leaf 2 the keys 2 and 3. *)
Definition example_split : t :=
  default (BPlusTree 1 3 3) (insert_all 4 (BPlusTree 1 3 3) [1; 2; 3]).

Definition leaf_of (s : t) (pid : Z) : BPlusTreeLeafPage.t :=
  default (BPlusTreeLeafPage.Init 0 0 0) (fetch_leaf s pid).

Lemma iterator_visits_the_chain_witness :
  exists start,
    Begin 4 example_split = Some start /\
    (forall (n : nat) e,
       concat (map BPlusTreeLeafPage.entries
                 [leaf_of example_split 1; leaf_of example_split 2]) !! n = Some e ->
       exists it,
         advance n example_split start = Some it /\
         IsEnd it = false /\ operator_star example_split it = Some (Entry e)) /\
    advance (length (concat (map BPlusTreeLeafPage.entries
                               [leaf_of example_split 1; leaf_of example_split 2])))
      example_split start = Some End_ /\
    operator_inc example_split End_ = Some End_ /\
    operator_star example_split End_ = Some OutOfBound.
Proof.
  apply (iterator_visits_the_chain 4 example_split 1
           [leaf_of example_split 1; leaf_of example_split 2]).
  - reflexivity.
  - vm_compute. reflexivity.
  - discriminate.
  - simpl. split; [discriminate|]. split; [vm_compute; reflexivity|].
    split; [reflexivity|].
    split; [vm_compute; discriminate|]. split; [vm_compute; reflexivity|].
    split; [reflexivity|]. vm_compute. reflexivity.
  - repeat constructor.
Defined.

Lemma Begin_key_position_witness :
  exists it,
    Begin_key 4 example_split 5 = Some it /\
    leaf_ it = Some 2 /\ IsEnd it = false /\
    0 <= index_ it <= BPlusTreeLeafPage.GetSize (leaf_of example_split 2) /\
    (forall i, 0 <= i < index_ it ->
       BPlusTreeLeafPage.KeyAt (leaf_of example_split 2) i < 5) /\
    (index_ it < BPlusTreeLeafPage.GetSize (leaf_of example_split 2) ->
     5 <= BPlusTreeLeafPage.KeyAt (leaf_of example_split 2) (index_ it) /\
     operator_star example_split it
     = Some (Entry (BPlusTreeLeafPage.at_ (leaf_of example_split 2) (index_ it)))) /\
    (index_ it = BPlusTreeLeafPage.GetSize (leaf_of example_split 2) ->
     operator_star example_split it = Some OutOfBound).
Proof.
  apply (Begin_key_position 4 example_split 5 2 (leaf_of example_split 2)).
  - reflexivity.
  - vm_compute. reflexivity.
  - vm_compute. reflexivity.
  - reflexivity.
  - vm_compute. discriminate.
  - vm_compute. reflexivity.
Defined.

(** *** The first split *)

Lemma fetch_leaf_put_eq (s : t) (pid : Z) (p : BPlusTreeLeafPage.t) :
  fetch_leaf (put s pid (LeafNode p)) pid = Some p.
Proof. unfold fetch_leaf. simpl. by rewrite lookup_insert_eq. Qed.

Lemma fetch_leaf_put_ne (s : t) (pid pid' : Z) (n : node) :
  pid <> pid' -> fetch_leaf (put s pid n) pid' = fetch_leaf s pid'.
Proof. intros Hne. unfold fetch_leaf. simpl. by rewrite lookup_insert_ne. Qed.

Lemma split_leaf_loop_unfold (n : nat) (s : t) (leaf new_leaf : Z) :
  split_leaf_loop n s leaf new_leaf =
  nl ← fetch_leaf s new_leaf;
  if BPlusTreeLeafPage.GetSize nl <? BPlusTreeLeafPage.GetMinSize nl then
    match n with
    | O => None
    | S n' =>
        s' ← ShiftTailItemToFront s leaf new_leaf;
        split_leaf_loop n' s' leaf new_leaf
    end
  else Some s.
Proof. by destruct n. Qed.

(** The loop that fills the new leaf of a split: it returns when the old
    leaf has the entries to give; the new leaf reaches its minimum size,
    the entries of the two leaves, old before new, stay the same, and no
    other page changes. *)
Lemma split_leaf_loop_spec (n : nat) :
  forall (s : t) (leaf_pid new_pid : Z) (d r : BPlusTreeLeafPage.t),
    leaf_pid <> new_pid ->
    fetch_leaf s leaf_pid = Some d -> fetch_leaf s new_pid = Some r ->
    0 <= BPlusTreeLeafPage.GetSize r <= BPlusTreeLeafPage.GetMinSize r ->
    BPlusTreeLeafPage.GetMinSize r - BPlusTreeLeafPage.GetSize r <= Z.of_nat n ->
    BPlusTreeLeafPage.GetMinSize r - BPlusTreeLeafPage.GetSize r
      <= BPlusTreeLeafPage.GetSize d ->
    exists s' d' r',
      split_leaf_loop n s leaf_pid new_pid = Some s' /\
      fetch_leaf s' leaf_pid = Some d' /\ fetch_leaf s' new_pid = Some r' /\
      (forall pid, pid <> leaf_pid -> pid <> new_pid -> pages s' !! pid = pages s !! pid) /\
      root_page_id_ s' = root_page_id_ s /\ next_page_id_ s' = next_page_id_ s /\
      internal_max_size_ s' = internal_max_size_ s /\
      BPlusTreeLeafPage.same_fields d d' /\ BPlusTreeLeafPage.same_fields r r' /\
      BPlusTreeLeafPage.entries d' ++ BPlusTreeLeafPage.entries r'
        = BPlusTreeLeafPage.entries d ++ BPlusTreeLeafPage.entries r /\
      BPlusTreeLeafPage.GetSize r' = BPlusTreeLeafPage.GetMinSize r /\
      BPlusTreeLeafPage.GetSize d' + BPlusTreeLeafPage.GetSize r'
        = BPlusTreeLeafPage.GetSize d + BPlusTreeLeafPage.GetSize r.
Proof.
  induction n as [|n IH]; intros s leaf_pid new_pid d r Hne Hd Hr Hsize Hfuel Hgive;
    rewrite split_leaf_loop_unfold, Hr; simpl.
  - destruct (Z.ltb_spec (BPlusTreeLeafPage.GetSize r) (BPlusTreeLeafPage.GetMinSize r));
      [lia|].
    exists s, d, r. repeat split; try done. lia.
  - destruct (Z.ltb_spec (BPlusTreeLeafPage.GetSize r) (BPlusTreeLeafPage.GetMinSize r))
      as [Hlt|Hge].
    + unfold ShiftTailItemToFront. rewrite Hd, Hr. simpl.
      destruct (BPlusTreeLeafPage.ShiftTailItemToFront_entries d r ltac:(lia) ltac:(lia))
        as (He1 & He2 & Hs1 & Hs2).
      destruct (BPlusTreeLeafPage.ShiftTailItemToFront_fields d r) as [Hf1 Hf2].
      destruct (BPlusTreeLeafPage.ShiftTailItemToFront d r) as [d1 r1]. simpl in *.
      assert (Hmin : BPlusTreeLeafPage.GetMinSize r1 = BPlusTreeLeafPage.GetMinSize r).
      { unfold BPlusTreeLeafPage.GetMinSize.
        destruct Hf2 as (Hmax & _). unfold BPlusTreeLeafPage.GetMaxSize in Hmax.
        by rewrite Hmax. }
      destruct (IH (put (put s leaf_pid (LeafNode d1)) new_pid (LeafNode r1))
                  leaf_pid new_pid d1 r1 Hne)
        as (s' & d' & r' & Hloop & Hd' & Hr' & Hframe & Hroot & Hnext & Himax
            & Hfd & Hfr & Hent & Hsz & Hsum).
      * rewrite fetch_leaf_put_ne by done. apply fetch_leaf_put_eq.
      * apply fetch_leaf_put_eq.
      * lia.
      * lia.
      * lia.
      * exists s', d', r'. rewrite Hloop.
        split; [done|]. split; [done|]. split; [done|]. split.
        { intros pid H1 H2. rewrite Hframe by done. simpl.
          by rewrite !lookup_insert_ne. }
        split; [done|]. split; [done|]. split; [done|].
        split; [by eapply BPlusTreeLeafPage.same_fields_trans|].
        split; [by eapply BPlusTreeLeafPage.same_fields_trans|].
        split; [|split; [congruence|lia]].
        rewrite Hent, He1, He2, <- app_assoc. done.
    + exists s, d, r. repeat split; try done. lia.
Qed.

Lemma fetch_leaf_inv (s : t) (pid : Z) (p : BPlusTreeLeafPage.t) :
  fetch_leaf s pid = Some p -> pages s !! pid = Some (LeafNode p).
Proof.
  unfold fetch_leaf. destruct (pages s !! pid) as [[?|?]|]; congruence.
Qed.

(** The new root over two leaves. *)
Lemma new_root_leaves (s : t) (old_key : KeyType) (old_pid : Z) (new_key : KeyType)
    (new_pid : Z) (old new : BPlusTreeLeafPage.t) :
  old_pid <> new_pid -> old_pid <> next_page_id_ s -> new_pid <> next_page_id_ s ->
  pages s !! old_pid = Some (LeafNode old) ->
  pages s !! new_pid = Some (LeafNode new) ->
  exists s',
    new_root s old_key old_pid new_key new_pid = Some s' /\
    root_page_id_ s' = next_page_id_ s /\
    next_page_id_ s' = next_page_id_ s + 1 /\
    pages s' =
      <[new_pid := LeafNode (BPlusTreeLeafPage.SetParentPageId new (next_page_id_ s))]>
        (<[old_pid := LeafNode (BPlusTreeLeafPage.SetParentPageId old (next_page_id_ s))]>
           (<[next_page_id_ s :=
                InternalNode
                  (BPlusTreeInternalPage.BuildRoot
                     (BPlusTreeInternalPage.Init (next_page_id_ s) INVALID_PAGE_ID
                        (internal_max_size_ s))
                     old_key (BPlusTreeLeafPage.GetPageId old)
                     new_key (BPlusTreeLeafPage.GetPageId new))]> (pages s))).
Proof.
  intros Hon Ho Hn Hold Hnew. unfold new_root, NewPage, SetParentPageId.
  rewrite Hold, Hnew. simpl.
  rewrite lookup_insert_ne, Hold by done. simpl.
  rewrite lookup_insert_ne, lookup_insert_ne, Hnew by done. simpl.
  eexists. by repeat split.
Qed.

(** The tree is one leaf, its root, and the leaf is not empty. *)
Record root_leaf (s : t) (leaf : BPlusTreeLeafPage.t) : Prop := mkRootLeaf {
  rl_root : 0 <= root_page_id_ s < next_page_id_ s;
  rl_leaf : fetch_leaf s (root_page_id_ s) = Some leaf;
  rl_page_id : BPlusTreeLeafPage.GetPageId leaf = root_page_id_ s;
  rl_parent : BPlusTreeLeafPage.IsRootPage leaf = true;
  rl_next : BPlusTreeLeafPage.GetNextPageId leaf = INVALID_PAGE_ID;
  rl_max : 1 <= BPlusTreeLeafPage.GetMaxSize leaf;
  rl_size : 1 <= BPlusTreeLeafPage.GetSize leaf;
  rl_sorted : BPlusTreeLeafPage.sorted leaf
}.

Lemma GetValue_root_leaf (fuel : nat) (s : t) (leaf : BPlusTreeLeafPage.t)
    (key : KeyType) :
  root_page_id_ s <> INVALID_PAGE_ID ->
  fetch_leaf s (root_page_id_ s) = Some leaf ->
  GetValue (S fuel) s key =
  Some (match BPlusTreeLeafPage.Lookup leaf key with
        | Some value => (true, [value])
        | None => (false, [])
        end).
Proof.
  intros Hroot Hleaf. unfold GetValue, IsEmpty.
  destruct (Z.eqb_spec (root_page_id_ s) INVALID_PAGE_ID); [done|].
  simpl FindLeaf. pose proof Hleaf as Hleaf'. unfold fetch_leaf in Hleaf'.
  destruct (pages s !! root_page_id_ s) as [[p|p]|]; [|done..].
  injection Hleaf' as ->. simpl. rewrite Hleaf. simpl.
  by destruct (BPlusTreeLeafPage.Lookup leaf key).
Qed.

Lemma Insert_root_leaf_split (fuel : nat) (s : t) (leaf : BPlusTreeLeafPage.t)
    (key : KeyType) (value : ValueType) :
  root_leaf s leaf -> (key ∉ BPlusTreeLeafPage.keys leaf) ->
  let leaf1 := snd (BPlusTreeLeafPage.Insert leaf key value) in
  BPlusTreeLeafPage.GetMaxSize leaf <= BPlusTreeLeafPage.GetSize leaf1 ->
  exists s' old new root,
    Insert (S fuel) s key value = Some (true, s') /\
    root_page_id_ s' = next_page_id_ s + 1 /\
    fetch_internal s' (root_page_id_ s') = Some root /\
    fetch_leaf s' (root_page_id_ s) = Some old /\
    fetch_leaf s' (next_page_id_ s) = Some new /\
    BPlusTreeLeafPage.entries old ++ BPlusTreeLeafPage.entries new
      = BPlusTreeLeafPage.entries leaf1 /\
    1 <= BPlusTreeLeafPage.GetSize old /\ 1 <= BPlusTreeLeafPage.GetSize new /\
    BPlusTreeLeafPage.GetPageId old = root_page_id_ s /\
    BPlusTreeLeafPage.GetNextPageId old = next_page_id_ s /\
    BPlusTreeLeafPage.GetPageId new = next_page_id_ s /\
    BPlusTreeLeafPage.GetNextPageId new = INVALID_PAGE_ID /\
    BPlusTreeInternalPage.GetSize root = 2 /\
    BPlusTreeInternalPage.ValueAt root 0 = root_page_id_ s /\
    BPlusTreeInternalPage.ValueAt root 1 = next_page_id_ s /\
    BPlusTreeInternalPage.KeyAt root 1 = BPlusTreeLeafPage.KeyAt new 0 /\
    forall key',
      BPlusTreeInternalPage.Lookup root key'
      = Some (if key' <? BPlusTreeLeafPage.KeyAt new 0
              then root_page_id_ s else next_page_id_ s).
Proof.
  intros Hrl Hk leaf1 Hfull.
  destruct Hrl as [Hroot Hleaf Hpid Hparent Hnext Hmax Hsize Hsorted].
  destruct (BPlusTreeLeafPage.Insert_absent leaf key value ltac:(lia) Hsorted Hk)
    as (Hrv & Hsz & _ & _ & _).
  destruct (BPlusTreeLeafPage.Insert_fields leaf key value) as (Hf1 & Hf2 & Hf3 & Hf4).
  fold leaf1 in Hsz, Hf1, Hf2, Hf3, Hf4.
  unfold Insert, IsEmpty.
  destruct (Z.eqb_spec (root_page_id_ s) INVALID_PAGE_ID) as [Heq|_].
  { unfold INVALID_PAGE_ID in Heq. lia. }
  simpl FindLeaf. pose proof Hleaf as Hleaf'. unfold fetch_leaf in Hleaf'.
  destruct (pages s !! root_page_id_ s) as [[p|p]|] eqn:Hpage; [|done..].
  injection Hleaf' as ->. simpl. rewrite Hleaf. simpl.
  destruct (BPlusTreeLeafPage.Insert leaf key value) as [rv leaf1'] eqn:HI.
  simpl in Hrv. subst leaf1. simpl in *.
  destruct (Z.eqb_spec rv (-1)) as [|_]; [lia|].
  destruct (Z.ltb_spec (BPlusTreeLeafPage.GetSize leaf1')
              (BPlusTreeLeafPage.GetMaxSize leaf1')) as [Hlt|_]; [lia|].
  set (new_pid := next_page_id_ s).
  set (new0 := BPlusTreeLeafPage.SetNextPageId
                 (BPlusTreeLeafPage.Init new_pid
                    (BPlusTreeLeafPage.GetParentPageId leaf1')
                    (BPlusTreeLeafPage.GetMaxSize leaf1'))
                 (BPlusTreeLeafPage.GetNextPageId leaf1')).
  change (BPlusTreeLeafPage.GetPageId new0) with new_pid.
  set (leaf2 := BPlusTreeLeafPage.SetNextPageId leaf1' new_pid).
  change (BPlusTreeLeafPage.GetSize leaf2) with (BPlusTreeLeafPage.GetSize leaf1').
  match goal with
  | |- context [split_leaf_loop _ ?x _ _] => set (s3 := x)
  end.
  assert (Hmin : BPlusTreeLeafPage.GetMinSize new0
                 = (BPlusTreeLeafPage.GetMaxSize leaf + 1) / 2).
  { unfold BPlusTreeLeafPage.GetMinSize, min_size_of. simpl. by rewrite Hf1. }
  assert (Hm : 1 <= BPlusTreeLeafPage.GetMinSize new0
               < BPlusTreeLeafPage.GetSize leaf1').
  { rewrite Hmin. Z.div_mod_to_equations. lia. }
  destruct (split_leaf_loop_spec (Z.to_nat (BPlusTreeLeafPage.GetSize leaf1')) s3
              (root_page_id_ s) new_pid leaf2 new0)
    as (s4 & old & new & Hloop & Hold & Hnew & Hframe & Hroot4 & Hnext4 & Himax4
        & Hfo & Hfn & Hent & Hsn & Hsum).
  { unfold new_pid. lia. }
  { apply fetch_leaf_put_eq. }
  { unfold s3. rewrite fetch_leaf_put_ne by (unfold new_pid; lia).
    apply fetch_leaf_put_eq. }
  { change (BPlusTreeLeafPage.GetSize new0) with 0. lia. }
  { change (BPlusTreeLeafPage.GetSize new0) with 0. lia. }
  { change (BPlusTreeLeafPage.GetSize new0) with 0.
    change (BPlusTreeLeafPage.GetSize leaf2) with (BPlusTreeLeafPage.GetSize leaf1').
    lia. }
  set (iip := InsertIntoParent (S fuel)).
  rewrite Hloop. simpl. rewrite Hold. simpl. rewrite Hnew. simpl.
  change (BPlusTreeLeafPage.GetSize new0) with 0 in Hsum.
  change (BPlusTreeLeafPage.GetSize leaf2) with (BPlusTreeLeafPage.GetSize leaf1') in Hsum.
  change (BPlusTreeLeafPage.entries new0) with (@nil (KeyType * ValueType)) in Hent.
  change (BPlusTreeLeafPage.entries leaf2) with (BPlusTreeLeafPage.entries leaf1') in Hent.
  rewrite app_nil_r in Hent.
  destruct Hfo as (Ho1 & Ho2 & Ho3 & Ho4). destruct Hfn as (Hn1 & Hn2 & Hn3 & Hn4).
  simpl in Ho1, Ho2, Ho3, Ho4, Hn1, Hn2, Hn3, Hn4.
  change (BPlusTreeLeafPage.GetParentPageId leaf2)
    with (BPlusTreeLeafPage.GetParentPageId leaf1') in Ho2.
  change (BPlusTreeLeafPage.GetPageId leaf2)
    with (BPlusTreeLeafPage.GetPageId leaf1') in Ho3.
  change (BPlusTreeLeafPage.GetPageId new0) with new_pid in Hn3.
  assert (Hrootp : BPlusTreeLeafPage.IsRootPage old = true).
  { unfold BPlusTreeLeafPage.IsRootPage in *.
    unfold BPlusTreeLeafPage.GetParentPageId in Ho2, Hf2. by rewrite Ho2, Hf2. }
  rewrite Hrootp. clear iip.
  destruct (new_root_leaves s4 (BPlusTreeLeafPage.KeyAt old 0) (root_page_id_ s)
              (BPlusTreeLeafPage.KeyAt new 0) new_pid old new)
    as (s5 & Hnr & Hroot5 & Hnext5 & Hpages5).
  { unfold new_pid. lia. }
  { rewrite Hnext4. simpl. unfold new_pid. lia. }
  { rewrite Hnext4. simpl. unfold new_pid. lia. }
  { by apply fetch_leaf_inv. }
  { by apply fetch_leaf_inv. }
  rewrite Hnr. simpl.
  rewrite Hnext4 in Hroot5, Hnext5, Hpages5. simpl in Hroot5, Hnext5, Hpages5.
  set (root := BPlusTreeInternalPage.BuildRoot _ _ _ _ _) in Hpages5.
  exists s5, (BPlusTreeLeafPage.SetParentPageId old (new_pid + 1)),
    (BPlusTreeLeafPage.SetParentPageId new (new_pid + 1)), root.
  split; [done|]. split; [done|].
  assert (Hne1 : root_page_id_ s <> new_pid) by (unfold new_pid; lia).
  assert (Hne2 : root_page_id_ s <> new_pid + 1) by (unfold new_pid; lia).
  assert (Hne3 : new_pid <> new_pid + 1) by lia.
  split.
  { apply fetch_internal_Some. rewrite Hroot5, Hpages5.
    rewrite lookup_insert_ne, lookup_insert_ne by done. apply lookup_insert_eq. }
  split.
  { apply fetch_leaf_Some. rewrite Hpages5.
    rewrite lookup_insert_ne by done. apply lookup_insert_eq. }
  split.
  { apply fetch_leaf_Some. rewrite Hpages5. apply lookup_insert_eq. }
  split; [exact Hent|].
  split; [change (1 <= BPlusTreeLeafPage.GetSize old); lia|].
  split; [change (1 <= BPlusTreeLeafPage.GetSize new); lia|].
  split; [change (BPlusTreeLeafPage.GetPageId old = root_page_id_ s); congruence|].
  split; [exact Ho4|].
  split; [exact Hn3|].
  split; [change (BPlusTreeLeafPage.GetNextPageId new = INVALID_PAGE_ID); congruence|].
  destruct (BPlusTreeInternalPage.BuildRoot_children
              (BPlusTreeInternalPage.Init (new_pid + 1) INVALID_PAGE_ID
                 (internal_max_size_ s4))
              (BPlusTreeLeafPage.KeyAt old 0) (BPlusTreeLeafPage.GetPageId old)
              (BPlusTreeLeafPage.KeyAt new 0) (BPlusTreeLeafPage.GetPageId new))
    as (Hv0 & Hk1 & Hv1 & _).
  fold root in Hv0, Hk1, Hv1.
  change (BPlusTreeLeafPage.KeyAt (BPlusTreeLeafPage.SetParentPageId new (new_pid + 1)) 0)
    with (BPlusTreeLeafPage.KeyAt new 0).
  split; [done|]. split; [congruence|]. split; [congruence|]. split; [done|].
  intros key'. unfold root. rewrite BPlusTreeInternalPage.BuildRoot_Lookup.
  replace (BPlusTreeLeafPage.GetPageId old) with (root_page_id_ s) by congruence.
  by rewrite Hn3.
Qed.

Lemma Insert_root_leaf_room (fuel : nat) (s : t) (leaf : BPlusTreeLeafPage.t)
    (key : KeyType) (value : ValueType) :
  root_leaf s leaf -> (key ∉ BPlusTreeLeafPage.keys leaf) ->
  let leaf1 := snd (BPlusTreeLeafPage.Insert leaf key value) in
  BPlusTreeLeafPage.GetSize leaf1 < BPlusTreeLeafPage.GetMaxSize leaf ->
  Insert (S fuel) s key value = Some (true, put s (root_page_id_ s) (LeafNode leaf1)).
Proof.
  intros Hrl Hk leaf1 Hroom.
  destruct Hrl as [Hroot Hleaf Hpid Hparent Hnext Hmax Hsize Hsorted].
  destruct (BPlusTreeLeafPage.Insert_absent leaf key value ltac:(lia) Hsorted Hk)
    as (Hrv & Hsz & _ & _ & _).
  destruct (BPlusTreeLeafPage.Insert_fields leaf key value) as (Hf1 & _).
  fold leaf1 in Hsz, Hf1.
  unfold Insert, IsEmpty.
  destruct (Z.eqb_spec (root_page_id_ s) INVALID_PAGE_ID) as [Heq|_].
  { unfold INVALID_PAGE_ID in Heq. lia. }
  simpl FindLeaf. pose proof Hleaf as Hleaf'. unfold fetch_leaf in Hleaf'.
  destruct (pages s !! root_page_id_ s) as [[p|p]|] eqn:Hpage; [|done..].
  injection Hleaf' as ->. simpl. rewrite Hleaf. simpl.
  destruct (BPlusTreeLeafPage.Insert leaf key value) as [rv leaf1'] eqn:HI.
  simpl in Hrv. subst leaf1. simpl in *.
  destruct (Z.eqb_spec rv (-1)) as [|_]; [lia|].
  by destruct (Z.ltb_spec (BPlusTreeLeafPage.GetSize leaf1')
                 (BPlusTreeLeafPage.GetMaxSize leaf1')) as [_|Hge]; [|lia].
Qed.

Lemma sorted_head_le (p : BPlusTreeLeafPage.t) (e : KeyType * ValueType) :
  BPlusTreeLeafPage.sorted p -> e ∈ BPlusTreeLeafPage.entries p ->
  BPlusTreeLeafPage.KeyAt p 0 <= fst e.
Proof.
  intros Hs (i & Hi & <-)%BPlusTreeLeafPage.elem_of_entries.
  rewrite BPlusTreeLeafPage.KeyAt_at by lia.
  apply BPlusTreeLeafPage.sorted_at_le; [done|lia..].
Qed.

(** X29: a tree that is one leaf, with at least one entry and a maximum
    size of at least 1, takes [Insert] of a new key, with or without a
    split of the leaf: the call returns true; afterwards [GetValue] finds
    the new value, and for every other key what it found before; the
    first children lead to the old root leaf, and the leaves chained from
    it are not empty and hold, read one after the other, the old entries
    and the new one in key order. *)
Theorem Insert_into_root_leaf (fuel : nat) (s : t) (leaf : BPlusTreeLeafPage.t)
    (key : KeyType) (value : ValueType) :
  root_leaf s leaf -> (key ∉ BPlusTreeLeafPage.keys leaf) ->
  exists s',
    Insert (S fuel) s key value = Some (true, s') /\
    IsEmpty s' = false /\
    (forall key',
       GetValue (S (S fuel)) s' key' =
       if decide (key' = key) then Some (true, [value])
       else GetValue (S (S fuel)) s key') /\
    exists leaves,
      leftmost_leaf (S (S fuel)) s' (root_page_id_ s') = Some (root_page_id_ s) /\
      leaf_chain s' (root_page_id_ s) leaves /\
      Forall (fun l => 0 < BPlusTreeLeafPage.GetSize l) leaves /\
      concat (map BPlusTreeLeafPage.entries leaves)
      = BPlusTreeLeafPage.entries (snd (BPlusTreeLeafPage.Insert leaf key value)) /\
      BPlusTreeLeafPage.sorted (snd (BPlusTreeLeafPage.Insert leaf key value)).
Proof.
  intros Hrl Hk. pose proof Hrl as [Hroot Hleaf Hpid Hparent Hnext Hmax Hsize Hsorted].
  assert (Hnoninv : root_page_id_ s <> INVALID_PAGE_ID)
    by (unfold INVALID_PAGE_ID; lia).
  destruct (BPlusTreeLeafPage.Insert_absent leaf key value ltac:(lia) Hsorted Hk)
    as (_ & Hsz & _ & _ & _).
  destruct (BPlusTreeLeafPage.Insert_fields leaf key value) as (Hf1 & Hf2 & Hf3 & Hf4).
  pose proof (BPlusTreeLeafPage.Insert_sorted leaf key value ltac:(lia) Hsorted) as Hs1.
  pose proof (fun key' =>
    BPlusTreeLeafPage.Lookup_Insert leaf key value key' ltac:(lia) Hsorted Hk) as Hlook.
  set (leaf1 := snd (BPlusTreeLeafPage.Insert leaf key value)) in *.
  assert (Hbefore : forall key',
            GetValue (S (S fuel)) s key' =
            Some (match BPlusTreeLeafPage.Lookup leaf key' with
                  | Some v => (true, [v])
                  | None => (false, [])
                  end)).
  { intros key'. by apply GetValue_root_leaf. }
  destruct (Z.lt_ge_cases (BPlusTreeLeafPage.GetSize leaf1)
              (BPlusTreeLeafPage.GetMaxSize leaf)) as [Hroom|Hfull].
  - (* the leaf has room *)
    exists (put s (root_page_id_ s) (LeafNode leaf1)).
    split; [by apply Insert_root_leaf_room|].
    split; [by apply Z.eqb_neq|]. split.
    + intros key'.
      rewrite (GetValue_root_leaf _ _ leaf1) by (done || apply fetch_leaf_put_eq).
      rewrite Hlook, Hbefore. by destruct (decide (key' = key)).
    + exists [leaf1]. split; [|split; [|split; [|split]]].
      * simpl. by rewrite lookup_insert_eq.
      * simpl. split; [done|]. split; [apply fetch_leaf_put_eq|].
        split; [congruence|congruence].
      * constructor; [lia|constructor].
      * simpl. apply app_nil_r.
      * done.
  - (* the leaf is split *)
    destruct (Insert_root_leaf_split fuel s leaf key value Hrl Hk ltac:(fold leaf1; lia))
      as (s' & old & new & root & HI & Hroot' & Hfroot & Hfold & Hfnew & Hent
          & Hso & Hsn & Hpo & Hno & Hpn & Hnn & Hrs & Hv0 & Hv1 & Hk1 & Hlk).
    fold leaf1 in Hent.
    assert (Hinc : BPlusTreeLeafPage.increasing
                     (map fst (BPlusTreeLeafPage.entries old)
                      ++ map fst (BPlusTreeLeafPage.entries new)) = true).
    { rewrite <- map_app, Hent. exact Hs1. }
    destruct (BPlusTreeLeafPage.increasing_app_inv _ _ Hinc) as [Hsold Hsnew].
    exists s'. split; [done|]. split.
    { unfold IsEmpty. rewrite Hroot'. apply Z.eqb_neq. unfold INVALID_PAGE_ID. lia. }
    split.
    + intros key'. rewrite Hbefore. unfold GetValue, IsEmpty.
      destruct (Z.eqb_spec (root_page_id_ s') INVALID_PAGE_ID) as [Heq|_].
      { unfold INVALID_PAGE_ID in Heq. lia. }
      simpl FindLeaf. rewrite (fetch_internal_inv _ _ _ Hfroot). rewrite Hlk. simpl.
      assert (Hnew0 : BPlusTreeLeafPage.KeyAt new 0 ∈ BPlusTreeLeafPage.keys new).
      { apply BPlusTreeLeafPage.elem_of_keys. exists 0. split; [lia|].
        by rewrite BPlusTreeLeafPage.KeyAt_at by lia. }
      destruct (Z.ltb_spec key' (BPlusTreeLeafPage.KeyAt new 0)) as [Hlt|Hge].
      * rewrite (fetch_leaf_inv _ _ _ Hfold). simpl. rewrite Hfold. simpl.
        destruct (BPlusTreeLeafPage.Lookup_part leaf1 old
                    (BPlusTreeLeafPage.entries old) (BPlusTreeLeafPage.entries new) key')
          as [_ ->]; [lia|done|lia|done| |].
        { left. split; [done|]. intros e He.
          eapply Z.lt_le_trans; [exact Hlt|]. by apply sorted_head_le. }
        rewrite Hlook. destruct (decide (key' = key)); [done|].
        by destruct (BPlusTreeLeafPage.Lookup leaf key').
      * rewrite (fetch_leaf_inv _ _ _ Hfnew). simpl. rewrite Hfnew. simpl.
        destruct (BPlusTreeLeafPage.Lookup_part leaf1 new
                    (BPlusTreeLeafPage.entries old) (BPlusTreeLeafPage.entries new) key')
          as [_ ->]; [lia|done|lia|done| |].
        { right. split; [done|]. intros e He.
          pose proof (BPlusTreeLeafPage.increasing_app_lt _ _ Hinc (fst e)
                        (BPlusTreeLeafPage.KeyAt new 0)) as Hord.
          eapply Z.lt_le_trans; [|exact Hge].
          apply Hord; [|done].
          apply list_elem_of_In, in_map, list_elem_of_In. done. }
        rewrite Hlook. destruct (decide (key' = key)); [done|].
        by destruct (BPlusTreeLeafPage.Lookup leaf key').
    + exists [old; new]. split; [|split; [|split; [|split]]].
      * simpl. rewrite (fetch_internal_inv _ _ _ Hfroot). rewrite Hv0.
        by rewrite (fetch_leaf_inv _ _ _ Hfold).
      * simpl. split; [done|]. split; [done|]. split; [done|]. rewrite Hno.
        split; [unfold INVALID_PAGE_ID; lia|]. by repeat split.
      * constructor; [lia|]. constructor; [lia|constructor].
      * simpl. by rewrite app_nil_r.
      * done.
Qed.

(** The tree with the keys 1 and 2 in one leaf of at most 3 entries. *)
Definition example_root_leaf : t :=
  default (BPlusTree 1 3 3) (insert_all 4 (BPlusTree 1 3 3) [1; 2]).

Lemma example_root_leaf_ok : root_leaf example_root_leaf (leaf_of example_root_leaf 1).
Proof.
  split.
  - vm_compute. split; [discriminate|reflexivity].
  - vm_compute. reflexivity.
  - reflexivity.
  - reflexivity.
  - reflexivity.
  - vm_compute. discriminate.
  - vm_compute. discriminate.
  - vm_compute. reflexivity.
Defined.

Lemma Insert_into_root_leaf_witness :
  exists s',
    Insert 1 example_root_leaf 3 {| rid_page_id := 3; rid_slot_num := 3 |}
    = Some (true, s') /\
    IsEmpty s' = false /\
    (forall key',
       GetValue 2 s' key' =
       if decide (key' = 3)
       then Some (true, [{| rid_page_id := 3; rid_slot_num := 3 |}])
       else GetValue 2 example_root_leaf key') /\
    exists leaves,
      leftmost_leaf 2 s' (root_page_id_ s') = Some (root_page_id_ example_root_leaf) /\
      leaf_chain s' (root_page_id_ example_root_leaf) leaves /\
      Forall (fun l => 0 < BPlusTreeLeafPage.GetSize l) leaves /\
      concat (map BPlusTreeLeafPage.entries leaves)
      = BPlusTreeLeafPage.entries
          (snd (BPlusTreeLeafPage.Insert (leaf_of example_root_leaf 1) 3
                  {| rid_page_id := 3; rid_slot_num := 3 |})) /\
      BPlusTreeLeafPage.sorted
        (snd (BPlusTreeLeafPage.Insert (leaf_of example_root_leaf 1) 3
                {| rid_page_id := 3; rid_slot_num := 3 |})).
Proof.
  apply (Insert_into_root_leaf 0 example_root_leaf (leaf_of example_root_leaf 1) 3
           {| rid_page_id := 3; rid_slot_num := 3 |} example_root_leaf_ok).
  vm_compute. intros Hin.
  repeat (apply elem_of_cons in Hin as [Hin|Hin]; [discriminate Hin|]).
  by apply elem_of_nil in Hin.
Defined.

(** X30: a tree that is one leaf, with at least one entry and a maximum
    size of at least 1, takes [Remove] of one of its keys: the call
    returns; afterwards [GetValue] no longer finds the key and finds for
    every other key what it found before, and the tree is empty exactly
    when the key was the only one. *)
Theorem Remove_from_root_leaf (fuel : nat) (s : t) (leaf : BPlusTreeLeafPage.t)
    (key : KeyType) :
  root_leaf s leaf -> key ∈ BPlusTreeLeafPage.keys leaf ->
  exists s',
    Remove (S fuel) s key = Some s' /\
    IsEmpty s' = (BPlusTreeLeafPage.GetSize leaf =? 1) /\
    forall key',
      GetValue (S fuel) s' key' =
      if decide (key' = key) then Some (false, [])
      else GetValue (S fuel) s key'.
Proof.
  intros [Hroot Hleaf Hpid Hparent Hnext Hmax Hsize Hsorted] Hk.
  assert (Hnoninv : root_page_id_ s <> INVALID_PAGE_ID)
    by (unfold INVALID_PAGE_ID; lia).
  destruct (BPlusTreeLeafPage.KeyIndex_present leaf key ltac:(lia) Hsorted Hk)
    as [Hlt Hat].
  destruct (BPlusTreeLeafPage.KeyIndex_spec leaf key ltac:(lia) Hsorted) as (Hidx & _ & _).
  set (idx := BPlusTreeLeafPage.KeyIndex leaf key) in *.
  assert (Hkey : BPlusTreeLeafPage.KeyAt leaf idx = key)
    by (rewrite BPlusTreeLeafPage.KeyAt_at by lia; done).
  destruct (BPlusTreeLeafPage.RemoveAt_entries leaf idx ltac:(lia)) as [Hsz _].
  destruct (BPlusTreeLeafPage.RemoveAt_Lookup leaf idx Hsorted ltac:(lia))
    as [Hs' Hlook].
  destruct (BPlusTreeLeafPage.RemoveAt_fields leaf idx) as (Hf1 & Hf2 & _ & _).
  rewrite Hkey in Hlook.
  set (leaf' := BPlusTreeLeafPage.RemoveAt leaf idx) in *.
  set (s1 := put s (root_page_id_ s) (LeafNode leaf')).
  assert (Hmin : 1 <= BPlusTreeLeafPage.GetMinSize leaf').
  { unfold BPlusTreeLeafPage.GetMinSize, min_size_of.
    unfold BPlusTreeLeafPage.GetMaxSize in Hf1, Hmax. rewrite Hf1.
    Z.div_mod_to_equations. lia. }
  assert (Hrootp : BPlusTreeLeafPage.IsRootPage leaf' = true).
  { unfold BPlusTreeLeafPage.IsRootPage in *.
    unfold BPlusTreeLeafPage.GetParentPageId in Hf2. by rewrite Hf2. }
  assert (Hbefore : forall key',
            GetValue (S fuel) s key' =
            Some (match BPlusTreeLeafPage.Lookup leaf key' with
                  | Some v => (true, [v])
                  | None => (false, [])
                  end)).
  { intros key'. by apply GetValue_root_leaf. }
  assert (Hafter : forall key',
            GetValue (S fuel) s1 key' =
            if decide (key' = key) then Some (false, [])
            else GetValue (S fuel) s key').
  { intros key'.
    rewrite (GetValue_root_leaf _ s1 leaf') by (done || apply fetch_leaf_put_eq).
    rewrite Hlook, Hbefore. by destruct (decide (key' = key)). }
  assert (HR : Remove (S fuel) s key =
               Some (if BPlusTreeLeafPage.GetSize leaf' =? 0
                     then set_root s1 INVALID_PAGE_ID else s1)).
  { clear Hafter. subst s1 leaf'. unfold Remove, IsEmpty.
    destruct (Z.eqb_spec (root_page_id_ s) INVALID_PAGE_ID); [done|].
    simpl FindLeaf. rewrite (fetch_leaf_inv _ _ _ Hleaf). simpl. rewrite Hleaf. simpl.
    fold idx. rewrite Hkey.
    destruct (Z.geb_spec idx (BPlusTreeLeafPage.GetSize leaf)); [lia|].
    rewrite (proj2 (BPlusTreeLeafPage.comparator_eq key key) eq_refl). simpl.
    rewrite fetch_leaf_put_eq. simpl.
    destruct (Z.ltb_spec
                (BPlusTreeLeafPage.GetSize (BPlusTreeLeafPage.RemoveAt leaf idx))
                (BPlusTreeLeafPage.GetMinSize (BPlusTreeLeafPage.RemoveAt leaf idx)))
      as [Hunder|Hok].
    - rewrite lookup_insert_eq. simpl. unfold node_IsRootPage. simpl.
      unfold BPlusTreeLeafPage.IsRootPage in Hrootp. rewrite Hrootp.
      unfold HandleRootAfterDelete. simpl. rewrite lookup_insert_eq. simpl.
      unfold node_IsRootPage. simpl. rewrite Hrootp. simpl.
      by destruct (BPlusTreeLeafPage.GetSize (BPlusTreeLeafPage.RemoveAt leaf idx) =? 0).
    - by destruct (Z.eqb_spec
                     (BPlusTreeLeafPage.GetSize (BPlusTreeLeafPage.RemoveAt leaf idx)) 0);
        [lia|]. }
  eexists. split; [exact HR|].
  destruct (Z.eqb_spec (BPlusTreeLeafPage.GetSize leaf') 0) as [Hz|Hnz].
  - split.
    + simpl. symmetry. apply Z.eqb_eq. lia.
    + intros key'. unfold GetValue at 1. simpl.
      destruct (decide (key' = key)) as [->|Hne]; [done|].
      rewrite Hbefore. specialize (Hlook key'). rewrite decide_False in Hlook by done.
      rewrite <- Hlook.
      assert (Hnone : BPlusTreeLeafPage.Lookup leaf' key' = None).
      { apply BPlusTreeLeafPage.Lookup_None; [lia|done|].
        unfold BPlusTreeLeafPage.keys, BPlusTreeLeafPage.entries.
        rewrite Hz. apply not_elem_of_nil. }
      by rewrite Hnone.
  - split.
    + unfold IsEmpty. simpl.
      destruct (Z.eqb_spec (root_page_id_ s) INVALID_PAGE_ID); [done|].
      symmetry. apply Z.eqb_neq. lia.
    + exact Hafter.
Qed.

Lemma Remove_from_root_leaf_witness :
  exists s',
    Remove 1 example_root_leaf 2 = Some s' /\
    IsEmpty s' = (BPlusTreeLeafPage.GetSize (leaf_of example_root_leaf 1) =? 1) /\
    forall key',
      GetValue 1 s' key' =
      if decide (key' = 2) then Some (false, [])
      else GetValue 1 example_root_leaf key'.
Proof.
  apply (Remove_from_root_leaf 0 example_root_leaf (leaf_of example_root_leaf 1) 2
           example_root_leaf_ok).
  vm_compute. apply elem_of_cons. right. apply elem_of_cons. by left.
Defined.

(** *** A key that the tree stores and does not find *)

(** [*it] after [n] times [++it] from [Begin()]. *)
Definition entry_from_Begin (fuel : nat) (s : t) (n : nat) : option dereferenced :=
  it ← Begin fuel s;
  it' ← advance n s it;
  operator_star s it'.

(** [KeyAt(index)] of the root, an internal page. *)
Definition root_KeyAt (s : t) (index : Z) : option KeyType :=
  root ← fetch_internal s (root_page_id_ s);
  Some (BPlusTreeInternalPage.KeyAt root index).

(** C3, at its failing input: [leaf_max_size = 3], [internal_max_size = 3],
    [Insert] of 7, 1, 2, 3, 4, 8, 5, [Remove] of 3, [Insert] of 6, 3, 9,
    then [Insert] of 3 again.  After the first ten calls [GetValue] finds
    key 3, and the root sends the keys from 3 on to its second child.
    [Insert(9)] splits that child, and [InsertIntoParent] writes the key
    in slot 0 of the child, which is 4, over the 3 in the root, while key
    3 is still in a leaf below the child: the iterator reaches it at its
    third entry.  [GetValue(3)] now looks in the first child and finds
    nothing, and [Insert(3)] returns true: the iterator then meets key 3
    twice, first with the new record id and then with the old one. *)
Example Insert_duplicates_a_stored_key :
  exists s1 s2 s3 s s',
    insert_all 4 (BPlusTree 1 3 3) [7; 1; 2; 3; 4; 8; 5] = Some s1 /\
    remove_all 4 s1 [3] = Some s2 /\
    insert_all 4 s2 [6; 3] = Some s3 /\
    GetValue 4 s3 3 = Some (true, [{| rid_page_id := 3; rid_slot_num := 3 |}]) /\
    root_KeyAt s3 1 = Some 3 /\
    insert_all 4 s3 [9] = Some s /\
    root_KeyAt s 1 = Some 4 /\
    entry_from_Begin 4 s 2
      = Some (Entry (3, {| rid_page_id := 3; rid_slot_num := 3 |})) /\
    GetValue 4 s 3 = Some (false, []) /\
    Insert 4 s 3 {| rid_page_id := 30; rid_slot_num := 0 |} = Some (true, s') /\
    entry_from_Begin 4 s' 2
      = Some (Entry (3, {| rid_page_id := 30; rid_slot_num := 0 |})) /\
    entry_from_Begin 4 s' 3
      = Some (Entry (3, {| rid_page_id := 3; rid_slot_num := 3 |})).
Proof.
  do 5 eexists.
  split; [vm_compute; reflexivity|]. split; [vm_compute; reflexivity|].
  split; [vm_compute; reflexivity|]. split; [vm_compute; reflexivity|].
  split; [vm_compute; reflexivity|]. split; [vm_compute; reflexivity|].
  split; [vm_compute; reflexivity|]. split; [vm_compute; reflexivity|].
  split; [vm_compute; reflexivity|]. split; [vm_compute; reflexivity|].
  split; vm_compute; reflexivity.
Qed.

(** The same with [leaf_max_size = 4] and [internal_max_size = 4], where
    the minimum size is 2 whichever way the half is rounded: [Insert] of
    1 to 7 and 10 to 13, [Remove] of 7, [Insert] of 8, 9, 7 and 14 to 17.
    [Insert(17)] writes 8 over the 7 in the root; key 7 is the seventh
    entry of the iterator, [GetValue(7)] finds nothing, and [Insert(7)]
    returns true and stores a second entry with key 7, next to the first. *)
Example Insert_duplicates_a_stored_key_of_size_4 :
  exists s1 s2 s3 s s',
    insert_all 4 (BPlusTree 1 4 4) [1; 2; 3; 4; 5; 6; 7; 10; 11; 12; 13] = Some s1 /\
    remove_all 4 s1 [7] = Some s2 /\
    insert_all 4 s2 [8; 9; 7; 14; 15; 16] = Some s3 /\
    GetValue 4 s3 7 = Some (true, [{| rid_page_id := 7; rid_slot_num := 7 |}]) /\
    root_KeyAt s3 1 = Some 7 /\
    insert_all 4 s3 [17] = Some s /\
    root_KeyAt s 1 = Some 8 /\
    entry_from_Begin 4 s 6
      = Some (Entry (7, {| rid_page_id := 7; rid_slot_num := 7 |})) /\
    GetValue 4 s 7 = Some (false, []) /\
    Insert 4 s 7 {| rid_page_id := 70; rid_slot_num := 0 |} = Some (true, s') /\
    entry_from_Begin 4 s' 6
      = Some (Entry (7, {| rid_page_id := 70; rid_slot_num := 0 |})) /\
    entry_from_Begin 4 s' 7
      = Some (Entry (7, {| rid_page_id := 7; rid_slot_num := 7 |})).
Proof.
  do 5 eexists.
  split; [vm_compute; reflexivity|]. split; [vm_compute; reflexivity|].
  split; [vm_compute; reflexivity|]. split; [vm_compute; reflexivity|].
  split; [vm_compute; reflexivity|]. split; [vm_compute; reflexivity|].
  split; [vm_compute; reflexivity|]. split; [vm_compute; reflexivity|].
  split; [vm_compute; reflexivity|]. split; [vm_compute; reflexivity|].
  split; vm_compute; reflexivity.
Qed.

End BPlusTree.
